(** * A heap-level model of [List<T>] (src/List.h)

    The doubly-linked list of the repository is embedded as it is written:
    nodes live in a heap addressed by pointers, the [List] object holds
    [headNode], [tailNode], [listSize] and [isSorted], and every member
    function is a program in a small state-and-error monad over the heap.
    Loops take a fuel argument; the theorems say how much fuel is enough. *)

From stdpp Require Import base option list gmap sorting.
From Stdlib Require Import ZArith Lia.

Set Default Proof Using "Type*".

(** ** The element type and its comparison operators

    [List<T>] uses [<], [<=], [>], [>=], [==] and [!=] of [T].  The "default
    ordering" of the specification is a total order for which the six
    operators agree; [==] is equality of values. *)

Class Ordered (T : Type) := {
  ltb : T → T → bool;   (* operator<  *)
  leb : T → T → bool;   (* operator<= *)
  gtb : T → T → bool;   (* operator>  *)
  geb : T → T → bool;   (* operator>= *)
  eqb : T → T → bool;   (* operator== *)
  neb : T → T → bool;   (* operator!= *)
  leb_total : ∀ a b, leb a b = true ∨ leb b a = true;
  leb_trans : ∀ a b c, leb a b = true → leb b c = true → leb a c = true;
  leb_antisym : ∀ a b, leb a b = true → leb b a = true → a = b;
  ltb_leb : ∀ a b, ltb a b = negb (leb b a);
  gtb_ltb : ∀ a b, gtb a b = ltb b a;
  geb_leb : ∀ a b, geb a b = leb b a;
  eqb_eq : ∀ a b, eqb a b = true ↔ a = b;
  neb_eqb : ∀ a b, neb a b = negb (eqb a b)
}.

(** [int] elements, as in the examples of the specification. *)
#[export] Program Instance Z_Ordered : Ordered Z := {|
  ltb := Z.ltb; leb := Z.leb; gtb := Z.gtb; geb := Z.geb;
  eqb := Z.eqb; neb := λ a b, negb (Z.eqb a b)
|}.
Next Obligation. intros a b. lia. Qed.
Next Obligation. intros a b c. lia. Qed.
Next Obligation. intros a b. lia. Qed.
Next Obligation. intros a b. simpl. lia. Qed.
Next Obligation. intros a b. simpl. lia. Qed.
Next Obligation. intros a b. simpl. lia. Qed.
Next Obligation. intros a b. simpl. lia. Qed.
Next Obligation. done. Qed.

(** ** Pointers, nodes and the heap *)

Definition loc := positive.
(** A [Node*]; [nullptr] is [None]. *)
Definition ptr := option loc.

Record Node (T : Type) := mkNode { data : T; next : ptr; prev : ptr }.
Arguments mkNode {T} _ _ _.
Arguments data {T} _.
Arguments next {T} _.
Arguments prev {T} _.

(** The exceptions thrown by the list. *)
Inductive exn := out_of_range | underflow_error | logic_error.

(** The outcome of running a member function: a value, a C++ exception,
    undefined behaviour (a null or dangling pointer was dereferenced), or a
    loop that did not finish within its fuel. *)
Inductive outcome (A : Type) :=
  | Ok (a : A)
  | Throw (e : exn)
  | Undefined
  | OutOfFuel.
Arguments Ok {A} _.
Arguments Throw {A} _.
Arguments Undefined {A}.
Arguments OutOfFuel {A}.

Section monad.
Context {T : Type}.

Definition M (A : Type) : Type := gmap loc (Node T) → outcome (A * gmap loc (Node T)).

Definition ret {A} (a : A) : M A := λ h, Ok (a, h).
Definition bind {A B} (k : A → M B) (m : M A) : M B := λ h,
  match m h with
  | Ok (a, h') => k a h'
  | Throw e => Throw e
  | Undefined => Undefined
  | OutOfFuel => OutOfFuel
  end.
Definition throw {A} (e : exn) : M A := λ _, Throw e.
Definition undefined {A} : M A := λ _, Undefined.
Definition out_of_fuel {A} : M A := λ _, OutOfFuel.

(** [*p]: the node a pointer points to. *)
Definition deref (p : ptr) : M (Node T) := λ h,
  match p with
  | None => Undefined
  | Some a => match h !! a with Some n => Ok (n, h) | None => Undefined end
  end.
(** [p->next = q], [p->prev = q], [p->data = v]. *)
Definition set_next (p q : ptr) : M unit := λ h,
  match p with
  | None => Undefined
  | Some a =>
      match h !! a with
      | Some n => Ok (tt, <[a := mkNode (data n) q (prev n)]> h)
      | None => Undefined
      end
  end.
Definition set_prev (p q : ptr) : M unit := λ h,
  match p with
  | None => Undefined
  | Some a =>
      match h !! a with
      | Some n => Ok (tt, <[a := mkNode (data n) (next n) q]> h)
      | None => Undefined
      end
  end.
Definition set_data (p : ptr) (v : T) : M unit := λ h,
  match p with
  | None => Undefined
  | Some a =>
      match h !! a with
      | Some n => Ok (tt, <[a := mkNode v (next n) (prev n)]> h)
      | None => Undefined
      end
  end.
(** [new Node(value)]: a fresh address, both links null. *)
Definition new_node (value : T) : M ptr := λ h,
  let a := fresh (dom h) in Ok (Some a, <[a := mkNode value None None]> h).
(** [delete p]. *)
Definition delete_node (p : ptr) : M unit := λ h,
  match p with
  | None => Ok (tt, h)
  | Some a => match h !! a with Some _ => Ok (tt, delete a h) | None => Undefined end
  end.
End monad.

Arguments M : clear implicits.

#[export] Instance M_ret {T} : MRet (M T) := @ret T.
#[export] Instance M_bind {T} : MBind (M T) := @bind T.

(** ** The list object *)

Record List := mkList {
  headNode : ptr;
  tailNode : ptr;
  listSize : nat;   (* size_t; the node count never reaches 2^64 *)
  isSorted : bool
}.

(** [List()], [size()], [empty()], [sorted()]. *)
Definition List_new : List := mkList None None 0 true.

Definition size (l : List) : nat := listSize l.
Definition empty (l : List) : bool := listSize l =? 0.
Definition sorted (l : List) : bool := isSorted l.

Section operations.
Context {T : Type} `{!Ordered T}.
#[local] Abbreviation M := (M T).

(** *** Insertion at the ends *)

(** [pushFront(const T&)], List.h 482-498. *)
Definition pushFront (value : T) (l : List) : M List :=
  newNode ← new_node value;
  if empty l then
    mret (mkList newNode newNode (S (listSize l)) (isSorted l))
  else
    set_next newNode (headNode l);;
    set_prev (headNode l) newNode;;
    s ← (if isSorted l && (0 <? listSize l) then
           nn ← deref newNode;
           nx ← deref (next nn);
           mret (negb (gtb value (data nx)))
         else mret (isSorted l));
    mret (mkList newNode (tailNode l) (S (listSize l)) s).

(** [pushBack(const T&)], List.h 521-537. *)
Definition pushBack (value : T) (l : List) : M List :=
  newNode ← new_node value;
  if empty l then
    mret (mkList newNode newNode (S (listSize l)) (isSorted l))
  else
    set_next (tailNode l) newNode;;
    set_prev newNode (tailNode l);;
    s ← (if isSorted l && (0 <? listSize l) then
           nn ← deref newNode;
           pv ← deref (prev nn);
           mret (negb (ltb value (data pv)))
         else mret (isSorted l));
    mret (mkList (headNode l) newNode (S (listSize l)) s).

(** *** Removal at the ends *)

(** [popFront()], List.h 797-813. *)
Definition popFront (l : List) : M List :=
  if empty l then throw underflow_error
  else
    let temp := headNode l in
    l' ← (if listSize l =? 1 then mret (mkList None None (listSize l) (isSorted l))
          else
            hd ← deref (headNode l);
            set_prev (next hd) None;;
            mret (mkList (next hd) (tailNode l) (listSize l) (isSorted l)));
    delete_node temp;;
    mret (mkList (headNode l') (tailNode l') (listSize l' - 1) (isSorted l')).

(** [popBack()], List.h 828-844. *)
Definition popBack (l : List) : M List :=
  if empty l then throw underflow_error
  else
    let temp := tailNode l in
    l' ← (if listSize l =? 1 then mret (mkList None None (listSize l) (isSorted l))
          else
            tl ← deref (tailNode l);
            set_next (prev tl) None;;
            mret (mkList (headNode l) (prev tl) (listSize l) (isSorted l)));
    delete_node temp;;
    mret (mkList (headNode l') (tailNode l') (listSize l' - 1) (isSorted l')).

(** *** clear *)

(** [clear()], List.h 1468-1473: the loop, then [isSorted = true]. *)
Fixpoint clear_loop (fuel : nat) (l : List) : M List :=
  if empty l then mret l
  else
    match fuel with
    | 0 => out_of_fuel
    | S fuel' => l' ← popFront l; clear_loop fuel' l'
    end.

Definition clear (fuel : nat) (l : List) : M List :=
  l' ← clear_loop fuel l;
  mret (mkList (headNode l') (tailNode l') (listSize l') true).

(** *** Traversals *)

(** [toVector()], List.h 1659-1668. *)
Fixpoint toVector_loop (fuel : nat) (current : ptr) (result : list T) : M (list T) :=
  match current with
  | None => mret result
  | Some _ =>
      match fuel with
      | 0 => out_of_fuel
      | S fuel' =>
          n ← deref current;
          toVector_loop fuel' (next n) (result ++ [data n])
      end
  end.

Definition toVector (fuel : nat) (l : List) : M (list T) :=
  toVector_loop fuel (headNode l) [].

(** *** checkIntegrity *)

(** The counting loops return [None] when the loop body returns [false]. *)
Fixpoint forward_loop (fuel : nat) (tail current : ptr) (forwardCount : nat)
    : M (option nat) :=
  match current with
  | None => mret (Some forwardCount)
  | Some _ =>
      match fuel with
      | 0 => out_of_fuel
      | S fuel' =>
          n ← deref current;
          if bool_decide (next n = None) && negb (bool_decide (current = tail))
          then mret None
          else forward_loop fuel' tail (next n) (S forwardCount)
      end
  end.

Fixpoint backward_loop (fuel : nat) (head current : ptr) (backwardCount : nat)
    : M (option nat) :=
  match current with
  | None => mret (Some backwardCount)
  | Some _ =>
      match fuel with
      | 0 => out_of_fuel
      | S fuel' =>
          n ← deref current;
          if bool_decide (prev n = None) && negb (bool_decide (current = head))
          then mret None
          else backward_loop fuel' head (prev n) (S backwardCount)
      end
  end.

Fixpoint links_loop (fuel : nat) (current : ptr) : M bool :=
  match current with
  | None => mret true
  | Some _ =>
      n ← deref current;
      match next n with
      | None => mret true
      | Some _ =>
          match fuel with
          | 0 => out_of_fuel
          | S fuel' =>
              nx ← deref (next n);
              if negb (bool_decide (prev nx = current)) then mret false
              else links_loop fuel' (next n)
          end
      end
  end.

(** [checkIntegrity()], List.h 1785-1835. *)
Definition checkIntegrity (fuel : nat) (l : List) : M bool :=
  if listSize l =? 0 then
    mret (bool_decide (headNode l = None) && bool_decide (tailNode l = None))
  else if listSize l =? 1 then
    if bool_decide (headNode l = tailNode l) && negb (bool_decide (headNode l = None))
    then
      hd ← deref (headNode l);
      mret (bool_decide (prev hd = None) && bool_decide (next hd = None))
    else mret false
  else
    fc ← forward_loop fuel (tailNode l) (headNode l) 0;
    match fc with
    | None => mret false
    | Some forwardCount =>
        if negb (forwardCount =? listSize l) then mret false
        else
          bc ← backward_loop fuel (headNode l) (tailNode l) 0;
          match bc with
          | None => mret false
          | Some backwardCount =>
              if negb (backwardCount =? listSize l) then mret false
              else links_loop fuel (headNode l)
          end
    end.

(** *** Construction and assignment *)

(** [List(std::initializer_list<T>)], List.h 403-408: [pushBack] of every
    item. *)
Fixpoint init_loop (init : list T) (l : List) : M List :=
  match init with
  | [] => mret l
  | item :: init' => l' ← pushBack item l; init_loop init' l'
  end.

Definition List_init (init : list T) : M List := init_loop init List_new.

(** The loop of the copy assignment: [pushBack(current->data)]. *)
Fixpoint copy_loop (fuel : nat) (current : ptr) (l : List) : M List :=
  match current with
  | None => mret l
  | Some _ =>
      match fuel with
      | 0 => out_of_fuel
      | S fuel' =>
          n ← deref current;
          l' ← pushBack (data n) l;
          n' ← deref current;
          copy_loop fuel' (next n') l'
      end
  end.

(** [operator=(const List&)] for [this != &other], List.h 427-438. *)
Definition copy_assign (fuel : nat) (this other : List) : M List :=
  l0 ← clear fuel this;
  l1 ← copy_loop fuel (headNode other) l0;
  mret (mkList (headNode l1) (tailNode l1) (listSize l1) (isSorted other)).

(** [List(const List&)], List.h 386-389. *)
Definition List_copy (fuel : nat) (other : List) : M List :=
  copy_assign fuel (mkList None None 0 (isSorted other)) other.

(** [operator=(List&&)] for [this != &other], List.h 442-455: the new [this]
    and the emptied [other]. *)
Definition move_assign (fuel : nat) (this other : List) : M (List * List) :=
  clear fuel this;;
  mret (mkList (headNode other) (tailNode other) (listSize other) (isSorted other),
        mkList None None 0 true).

(** *** Index resolution *)

Fixpoint walk_next (steps : nat) (current : ptr) : M ptr :=
  match steps with
  | 0 => mret current
  | S steps' => n ← deref current; walk_next steps' (next n)
  end.

Fixpoint walk_prev (steps : nat) (current : ptr) : M ptr :=
  match steps with
  | 0 => mret current
  | S steps' => n ← deref current; walk_prev steps' (prev n)
  end.

(** [getNodeAt(index)], List.h 459-478: the walk starts at the nearer end. *)
Definition getNodeAt (index : nat) (l : List) : M ptr :=
  if listSize l <=? index then throw out_of_range
  else if index <? listSize l / 2 then walk_next index (headNode l)
  else walk_prev (listSize l - 1 - index) (tailNode l).

(** [at(index)], List.h 1047-1049. *)
Definition at_ (index : nat) (l : List) : M T :=
  p ← getNodeAt index l;
  n ← deref p;
  mret (data n).

(** *** Binary search *)

(** The loop returns the index of a hit. *)
Fixpoint bsearch_loop (fuel : nat) (value : T) (l : List) (left right : nat)
    : M (option nat) :=
  if right <? left then mret None
  else
    match fuel with
    | 0 => out_of_fuel
    | S fuel' =>
        let mid := left + (right - left) / 2 in
        midValue ← at_ mid l;
        if eqb midValue value then mret (Some mid)
        else if ltb midValue value then bsearch_loop fuel' value l (mid + 1) right
        else if mid =? 0 then mret None
        else bsearch_loop fuel' value l left (mid - 1)
    end.

(** [binarySearch(value)], List.h 1189-1216. *)
Definition binarySearch (fuel : nat) (value : T) (l : List) : M bool :=
  if negb (isSorted l) then throw logic_error
  else if empty l then mret false
  else
    r ← bsearch_loop fuel value l 0 (listSize l - 1);
    mret (match r with Some _ => true | None => false end).

(** [static_cast<int>] of a [size_t]. *)
Definition to_int (n : nat) : Z :=
  ((Z.of_nat n + 2 ^ 31) mod 2 ^ 32 - 2 ^ 31)%Z.

(** [binarySearchIndex(value)], List.h 1219-1246. *)
Definition binarySearchIndex (fuel : nat) (value : T) (l : List) : M Z :=
  if negb (isSorted l) then throw logic_error
  else if empty l then mret (-1)%Z
  else
    r ← bsearch_loop fuel value l 0 (listSize l - 1);
    mret (match r with Some mid => to_int mid | None => (-1)%Z end).

(** *** Sorting *)

(** [merge(Node* left, Node* right)], List.h 1348-1363. *)
Fixpoint merge (fuel : nat) (left right : ptr) : M ptr :=
  match left with
  | None => mret right
  | Some _ =>
      match right with
      | None => mret left
      | Some _ =>
          match fuel with
          | 0 => out_of_fuel
          | S fuel' =>
              ln ← deref left;
              rn ← deref right;
              if leb (data ln) (data rn) then
                r ← merge fuel' (next ln) right;
                set_next left r;;
                mret left
              else
                r ← merge fuel' left (next rn);
                set_next right r;;
                mret right
          end
      end
  end.

(** The slow/fast walk of [mergeSort]: the final [slow] and [prev]. *)
Fixpoint split_loop (fuel : nat) (slow fast prv : ptr) : M (ptr * ptr) :=
  match fast with
  | None => mret (slow, prv)
  | Some _ =>
      fn ← deref fast;
      match next fn with
      | None => mret (slow, prv)
      | Some _ =>
          match fuel with
          | 0 => out_of_fuel
          | S fuel' =>
              sn ← deref slow;
              fnn ← deref (next fn);
              split_loop fuel' (next sn) (next fnn) slow
          end
      end
  end.

(** [mergeSort(Node* head)], List.h 1320-1345. *)
Fixpoint mergeSort (fuel : nat) (head : ptr) : M ptr :=
  match fuel with
  | 0 => out_of_fuel
  | S fuel' =>
      match head with
      | None => mret head
      | Some _ =>
          hn ← deref head;
          match next hn with
          | None => mret head
          | Some _ =>
              '(slow, prv) ← split_loop fuel head head None;
              set_next prv None;;
              left ← mergeSort fuel' head;
              right ← mergeSort fuel' slow;
              merge fuel left right
          end
      end
  end.

(** The pass of [sort] that rebuilds [prev] and finds the tail. *)
Fixpoint relink_loop (fuel : nat) (current tail : ptr) : M ptr :=
  n ← deref current;
  match next n with
  | None => mret tail
  | Some _ =>
      match fuel with
      | 0 => out_of_fuel
      | S fuel' =>
          set_prev (next n) current;;
          n' ← deref current;
          relink_loop fuel' (next n') (next n')
      end
  end.

(** [sort()], List.h 1268-1288. *)
Definition sort (fuel : nat) (l : List) : M List :=
  if listSize l <=? 1 then
    mret (mkList (headNode l) (tailNode l) (listSize l) true)
  else
    head ← mergeSort fuel (headNode l);
    set_prev head None;;
    tail ← relink_loop fuel head head;
    mret (mkList head tail (listSize l) true).

(** [isSortedCheck()], List.h 1367-1381. *)
Fixpoint isSortedCheck_loop (fuel : nat) (current : ptr) : M bool :=
  n ← deref current;
  match next n with
  | None => mret true
  | Some _ =>
      match fuel with
      | 0 => out_of_fuel
      | S fuel' =>
          nx ← deref (next n);
          if gtb (data n) (data nx) then mret false
          else isSortedCheck_loop fuel' (next n)
      end
  end.

Definition isSortedCheck (fuel : nat) (l : List) : M bool :=
  if listSize l <=? 1 then mret true
  else isSortedCheck_loop fuel (headNode l).

(** [sort(comparator)], List.h 1291-1316: the write-back loop; [std::sort]
    is the standard library's and is a parameter. *)
Fixpoint write_loop (temp : list T) (current : ptr) : M unit :=
  match temp with
  | [] => mret tt
  | item :: temp' =>
      set_data current item;;
      n ← deref current;
      write_loop temp' (next n)
  end.

Definition sort_with (std_sort : (T → T → bool) → list T → list T)
    (fuel : nat) (comparator : T → T → bool) (l : List) : M List :=
  if listSize l <=? 1 then
    mret (mkList (headNode l) (tailNode l) (listSize l) false)
  else
    temp ← toVector_loop fuel (headNode l) [];
    write_loop (std_sort comparator temp) (headNode l);;
    mret (mkList (headNode l) (tailNode l) (listSize l) false).

(** *** insertSorted *)



(** *** merge(List& other) *)



(** *** reverse *)

Fixpoint reverse_loop (fuel : nat) (current temp : ptr) : M ptr :=
  match current with
  | None => mret temp
  | Some _ =>
      match fuel with
      | 0 => out_of_fuel
      | S fuel' =>
          n ← deref current;
          let temp := prev n in
          set_prev current (next n);;
          set_next current temp;;
          n' ← deref current;
          reverse_loop fuel' (prev n') temp
      end
  end.

(** [reverse()], List.h 1477-1498. *)
Definition reverse (fuel : nat) (l : List) : M List :=
  if listSize l <=? 1 then mret l
  else
    temp ← reverse_loop fuel (headNode l) None;
    head ← match temp with
           | Some _ => tn ← deref temp; mret (prev tn)
           | None => mret (headNode l)
           end;
    (* std::swap(headNode, tailNode) *)
    mret (mkList (tailNode l) head (listSize l) false).

(** *** forEach with a mutating function: [func] gives the new value. *)

Fixpoint forEach_loop (fuel : nat) (func : T → T) (current : ptr) : M unit :=
  match current with
  | None => mret tt
  | Some _ =>
      match fuel with
      | 0 => out_of_fuel
      | S fuel' =>
          n ← deref current;
          set_data current (func (data n));;
          n' ← deref current;
          forEach_loop fuel' func (next n')
      end
  end.

(** [forEach(std::function<void(T&)>)], List.h 1574-1580. *)
Definition forEach (fuel : nat) (func : T → T) (l : List) : M List :=
  forEach_loop fuel func (headNode l);;
  mret l.

(** *** operator== *)

Fixpoint eq_loop (fuel : nat) (current1 current2 : ptr) : M bool :=
  match current1, current2 with
  | Some _, Some _ =>
      match fuel with
      | 0 => out_of_fuel
      | S fuel' =>
          n1 ← deref current1;
          n2 ← deref current2;
          if neb (data n1) (data n2) then mret false
          else eq_loop fuel' (next n1) (next n2)
      end
  | _, _ => mret (bool_decide (current1 = None) && bool_decide (current2 = None))
  end.

(** [operator==], List.h 1684-1701. *)
Definition operator_eq (fuel : nat) (this other : List) : M bool :=
  if negb (listSize this =? listSize other) then mret false
  else eq_loop fuel (headNode this) (headNode other).

End operations.

(** ** The rest of the interface

    The member functions of List.h that the sections above do not need:
    the remaining constructors, access, insertion and removal at a position,
    the linear searches, [unique], [resize], the functional methods and the
    ordering operators. *)

(** [--listSize] on a [size_t]: decrementing zero wraps around. *)
Definition size_dec (n : nat) : nat :=
  match n with
  | 0 => 2 ^ 64 - 1
  | S n' => n'
  end.

(** Conversion of an integer to [int]. *)
Definition wrap_int (z : Z) : Z := ((z + 2 ^ 31) mod 2 ^ 32 - 2 ^ 31)%Z.

(** A [const T&] argument as the reference it is: to an object that is not
    a node of the heap, or to the [data] of a node.  [removeAll] needs it:
    it is the one member that reads its argument again after it has
    deleted a node. *)
Inductive cref (T : Type) : Type :=
  | Outside (v : T)
  | Inside (a : loc).
Arguments Outside {T} v.
Arguments Inside {T} a.

Section more_operations.
Context {T : Type} `{!Ordered T}.
#[local] Abbreviation M := (M T).

(** *** Construction *)

(** [List(size_t count, const T& value)], List.h 412-417. *)
Fixpoint fill_loop (count : nat) (value : T) (l : List) : M List :=
  match count with
  | 0 => mret l
  | S count' => l' ← pushBack value l; fill_loop count' value l'
  end.

Definition List_fill (count : nat) (value : T) : M List :=
  fill_loop count value List_new.

(** *** Access *)

(** [operator[]], List.h 1052-1054: it is [at]. *)
Definition operator_index (index : nat) (l : List) : M T := at_ index l.

(** [front()], List.h 1062-1067. *)
Definition front (l : List) : M T :=
  if empty l then throw underflow_error
  else
    hd ← deref (headNode l);
    mret (data hd).

(** [back()], List.h 1078-1083. *)
Definition back (l : List) : M T :=
  if empty l then throw underflow_error
  else
    tl ← deref (tailNode l);
    mret (data tl).

(** [popFrontAndReturn()], List.h 816-824. *)
Definition popFrontAndReturn (l : List) : M (T * List) :=
  if empty l then throw underflow_error
  else
    hd ← deref (headNode l);
    l' ← popFront l;
    mret (data hd, l').

(** [popBackAndReturn()], List.h 847-855. *)
Definition popBackAndReturn (l : List) : M (T * List) :=
  if empty l then throw underflow_error
  else
    tl ← deref (tailNode l);
    l' ← popBack l;
    mret (data tl, l').

(** [toVectorReverse()], List.h 1671-1680. *)
Fixpoint toVectorReverse_loop (fuel : nat) (current : ptr) (result : list T)
    : M (list T) :=
  match current with
  | None => mret result
  | Some _ =>
      match fuel with
      | 0 => out_of_fuel
      | S fuel' =>
          n ← deref current;
          toVectorReverse_loop fuel' (prev n) (result ++ [data n])
      end
  end.

Definition toVectorReverse (fuel : nat) (l : List) : M (list T) :=
  toVectorReverse_loop fuel (tailNode l) [].

(** *** Insertion at a position *)

(** [insert(size_t index, const T& value)], List.h 560-581. *)
Definition List_insert (index : nat) (value : T) (l : List) : M List :=
  if listSize l <? index then throw out_of_range
  else if index =? 0 then pushFront value l
  else if index =? listSize l then pushBack value l
  else
    current ← getNodeAt index l;
    newNode ← new_node value;
    set_next newNode current;;
    cn ← deref current;
    set_prev newNode (prev cn);;
    cn' ← deref current;
    set_next (prev cn') newNode;;
    set_prev current newNode;;
    mret (mkList (headNode l) (tailNode l) (S (listSize l)) false).

(** [insert(Iterator pos, const T& value)], List.h 609-632: the iterator to
    the new node and the list. *)
Definition List_insert_before (pos : ptr) (value : T) (l : List) : M (ptr * List) :=
  match pos with
  | None => l' ← pushBack value l; mret (tailNode l', l')
  | Some _ =>
      if bool_decide (pos = headNode l) then
        l' ← pushFront value l; mret (headNode l', l')
      else
        newNode ← new_node value;
        let current := pos in
        set_next newNode current;;
        cn ← deref current;
        set_prev newNode (prev cn);;
        cn' ← deref current;
        set_next (prev cn') newNode;;
        set_prev current newNode;;
        mret (newNode, mkList (headNode l) (tailNode l) (S (listSize l)) false)
  end.

(** *** Removal at a position *)

(** The block that [erase] (List.h 898-912), [removeFirst] (931-944),
    [removeLast] (957-970), [removeAll] (986-999) and [removeIf] (1018-1031)
    share word for word: the node is taken out of the chain in one of four
    ways, deleted, and the size decremented. *)
Definition unlink_and_delete (current : ptr) (l : List) : M List :=
  l' ← (if bool_decide (current = headNode l) && bool_decide (current = tailNode l)
        then mret (mkList None None (listSize l) (isSorted l))
        else if bool_decide (current = headNode l) then
          hd ← deref (headNode l);
          set_prev (next hd) None;;
          mret (mkList (next hd) (tailNode l) (listSize l) (isSorted l))
        else if bool_decide (current = tailNode l) then
          tl ← deref (tailNode l);
          set_next (prev tl) None;;
          mret (mkList (headNode l) (prev tl) (listSize l) (isSorted l))
        else
          cn ← deref current;
          set_next (prev cn) (next cn);;
          cn' ← deref current;
          set_prev (next cn') (prev cn');;
          mret l);
  delete_node current;;
  mret (mkList (headNode l') (tailNode l') (size_dec (listSize l')) (isSorted l')).

(** [removeAt(index)], List.h 859-875. *)
Definition removeAt (index : nat) (l : List) : M List :=
  if listSize l <=? index then throw out_of_range
  else if index =? 0 then popFront l
  else if index =? listSize l - 1 then popBack l
  else
    nodeToRemove ← getNodeAt index l;
    n ← deref nodeToRemove;
    set_next (prev n) (next n);;
    n' ← deref nodeToRemove;
    set_prev (next n') (prev n');;
    delete_node nodeToRemove;;
    mret (mkList (headNode l) (tailNode l) (listSize l - 1) (isSorted l)).

(** [removeAtAndReturn(index)], List.h 878-886. *)
Definition removeAtAndReturn (index : nat) (l : List) : M (T * List) :=
  if listSize l <=? index then throw out_of_range
  else
    value ← at_ index l;
    l' ← removeAt index l;
    mret (value, l').

(** [erase(Iterator pos)], List.h 890-915: the iterator to the node after
    the erased one, and the list. *)
Definition erase (pos : ptr) (l : List) : M (ptr * List) :=
  match pos with
  | None => mret (None, l)
  | Some _ =>
      let nodeToRemove := pos in
      n ← deref nodeToRemove;
      let nextNode := next n in
      l' ← unlink_and_delete nodeToRemove l;
      mret (nextNode, l')
  end.

(** [erase(Iterator first, Iterator last)], List.h 918-923. *)
Fixpoint erase_range (fuel : nat) (first last : ptr) (l : List) : M (ptr * List) :=
  if bool_decide (first = last) then mret (last, l)
  else
    match fuel with
    | 0 => out_of_fuel
    | S fuel' =>
        '(first', l') ← erase first l;
        erase_range fuel' first' last l'
    end.

(** [removeFirst(value)], List.h 927-950. *)
Fixpoint removeFirst_loop (fuel : nat) (value : T) (current : ptr) (l : List)
    : M (bool * List) :=
  match current with
  | None => mret (false, l)
  | Some _ =>
      match fuel with
      | 0 => out_of_fuel
      | S fuel' =>
          n ← deref current;
          if eqb (data n) value then
            l' ← unlink_and_delete current l;
            mret (true, l')
          else removeFirst_loop fuel' value (next n) l
      end
  end.

Definition removeFirst (fuel : nat) (value : T) (l : List) : M (bool * List) :=
  removeFirst_loop fuel value (headNode l) l.

(** [removeLast(value)], List.h 953-976. *)
Fixpoint removeLast_loop (fuel : nat) (value : T) (current : ptr) (l : List)
    : M (bool * List) :=
  match current with
  | None => mret (false, l)
  | Some _ =>
      match fuel with
      | 0 => out_of_fuel
      | S fuel' =>
          n ← deref current;
          if eqb (data n) value then
            l' ← unlink_and_delete current l;
            mret (true, l')
          else removeLast_loop fuel' value (prev n) l
      end
  end.

Definition removeLast (fuel : nat) (value : T) (l : List) : M (bool * List) :=
  removeLast_loop fuel value (tailNode l) l.

(** The loop of [removeIf], List.h 1015-1035. *)
Fixpoint remove_loop (fuel : nat) (test : T → bool) (current : ptr) (l : List)
    (removed : nat) : M (nat * List) :=
  match current with
  | None => mret (removed, l)
  | Some _ =>
      match fuel with
      | 0 => out_of_fuel
      | S fuel' =>
          n ← deref current;
          let next_ := next n in
          if test (data n) then
            l' ← unlink_and_delete current l;
            remove_loop fuel' test next_ l' (S removed)
          else remove_loop fuel' test next_ l removed
      end
  end.

(** Reading through a reference; the [data] of a deleted node cannot be
    read. *)
Definition read_cref (value : cref T) : M T :=
  match value with
  | Outside v => mret v
  | Inside a => n ← deref (Some a); mret (data n)
  end.

(** The loop of [removeAll], List.h 983-1003: that of [removeIf] with the
    test [current->data == value], which reads [value] at every node. *)
Fixpoint removeAll_loop (fuel : nat) (value : cref T) (current : ptr) (l : List)
    (removed : nat) : M (nat * List) :=
  match current with
  | None => mret (removed, l)
  | Some _ =>
      match fuel with
      | 0 => out_of_fuel
      | S fuel' =>
          n ← deref current;
          let next_ := next n in
          v ← read_cref value;
          if eqb (data n) v then
            l' ← unlink_and_delete current l;
            removeAll_loop fuel' value next_ l' (S removed)
          else removeAll_loop fuel' value next_ l removed
      end
  end.

(** [removeAll(const T& value)], List.h 979-1006. *)
Definition removeAll (fuel : nat) (value : cref T) (l : List) : M (nat * List) :=
  removeAll_loop fuel value (headNode l) l 0.

(** [removeIf(pred)], List.h 1011-1038. *)
Definition removeIf (fuel : nat) (pred : T → bool) (l : List) : M (nat * List) :=
  remove_loop fuel pred (headNode l) l 0.

(** *** unique *)

(** The loop of [unique()] (List.h 1531-1545) and of [unique(comparator)]
    (1555-1569); [same] is [==] or the comparator. *)
Fixpoint unique_loop (fuel : nat) (same : T → T → bool) (current : ptr) (l : List)
    : M List :=
  match current with
  | None => mret l
  | Some _ =>
      n ← deref current;
      match next n with
      | None => mret l
      | Some _ =>
          match fuel with
          | 0 => out_of_fuel
          | S fuel' =>
              nx ← deref (next n);
              if same (data n) (data nx) then
                let duplicate := next n in
                dn ← deref duplicate;
                set_next current (next dn);;
                dn' ← deref duplicate;
                l' ← match next dn' with
                     | Some _ => set_prev (next dn') current;; mret l
                     | None =>
                         mret (mkList (headNode l) current (listSize l) (isSorted l))
                     end;
                delete_node duplicate;;
                unique_loop fuel' same current
                  (mkList (headNode l') (tailNode l') (size_dec (listSize l'))
                     (isSorted l'))
              else unique_loop fuel' same (next n) l
          end
      end
  end.

(** [unique()], List.h 1525-1546. *)
Definition unique (fuel : nat) (l : List) : M List :=
  if listSize l <=? 1 then mret l
  else unique_loop fuel eqb (headNode l) l.

(** [unique(comparator)], List.h 1549-1570. *)
Definition unique_with (fuel : nat) (comparator : T → T → bool) (l : List) : M List :=
  if listSize l <=? 1 then mret l
  else unique_loop fuel comparator (headNode l) l.

(** *** resize *)

Fixpoint shrink_loop (fuel : nat) (newSize : nat) (l : List) : M List :=
  if newSize <? listSize l then
    match fuel with
    | 0 => out_of_fuel
    | S fuel' => l' ← popBack l; shrink_loop fuel' newSize l'
    end
  else mret l.

Fixpoint grow_loop (fuel : nat) (newSize : nat) (value : T) (l : List) : M List :=
  if listSize l <? newSize then
    match fuel with
    | 0 => out_of_fuel
    | S fuel' => l' ← pushBack value l; grow_loop fuel' newSize value l'
    end
  else mret l.

(** [resize(newSize, value)], List.h 1511-1521. *)
Definition List_resize (fuel : nat) (newSize : nat) (value : T) (l : List) : M List :=
  if newSize <? listSize l then shrink_loop fuel newSize l
  else if listSize l <? newSize then grow_loop fuel newSize value l
  else mret l.

(** *** Linear search *)

(** [contains(value)], List.h 1111-1120. *)
Fixpoint contains_loop (fuel : nat) (value : T) (current : ptr) : M bool :=
  match current with
  | None => mret false
  | Some _ =>
      match fuel with
      | 0 => out_of_fuel
      | S fuel' =>
          n ← deref current;
          if eqb (data n) value then mret true
          else contains_loop fuel' value (next n)
      end
  end.

Definition contains (fuel : nat) (value : T) (l : List) : M bool :=
  contains_loop fuel value (headNode l).

(** [count(value)], List.h 1123-1133. *)
Fixpoint count_loop (fuel : nat) (value : T) (current : ptr) (counter : nat) : M nat :=
  match current with
  | None => mret counter
  | Some _ =>
      match fuel with
      | 0 => out_of_fuel
      | S fuel' =>
          n ← deref current;
          count_loop fuel' value (next n)
            (if eqb (data n) value then S counter else counter)
      end
  end.

Definition count (fuel : nat) (value : T) (l : List) : M nat :=
  count_loop fuel value (headNode l) 0.

(** [findFirst(value)], List.h 1136-1147.  The index is an [int]:
    incrementing [INT_MAX] is undefined. *)
Fixpoint findFirst_loop (fuel : nat) (value : T) (current : ptr) (index : Z) : M Z :=
  match current with
  | None => mret (-1)%Z
  | Some _ =>
      match fuel with
      | 0 => out_of_fuel
      | S fuel' =>
          n ← deref current;
          if eqb (data n) value then mret index
          else if (index =? 2 ^ 31 - 1)%Z then undefined
          else findFirst_loop fuel' value (next n) (index + 1)%Z
      end
  end.

Definition findFirst (fuel : nat) (value : T) (l : List) : M Z :=
  findFirst_loop fuel value (headNode l) 0%Z.

(** [findLast(value)], List.h 1150-1161.  [int index = listSize - 1]
    converts the [size_t]; decrementing [INT_MIN] is undefined. *)
Fixpoint findLast_loop (fuel : nat) (value : T) (current : ptr) (index : Z) : M Z :=
  match current with
  | None => mret (-1)%Z
  | Some _ =>
      match fuel with
      | 0 => out_of_fuel
      | S fuel' =>
          n ← deref current;
          if eqb (data n) value then mret index
          else if (index =? - 2 ^ 31)%Z then undefined
          else findLast_loop fuel' value (prev n) (index - 1)%Z
      end
  end.

Definition findLast (fuel : nat) (value : T) (l : List) : M Z :=
  findLast_loop fuel value (tailNode l) (wrap_int (Z.of_nat (listSize l) - 1)).

(** [find(value)], List.h 1164-1173: the iterator to the first node holding
    the value, or [end()]. *)
Fixpoint find_loop (fuel : nat) (value : T) (current : ptr) : M ptr :=
  match current with
  | None => mret None
  | Some _ =>
      match fuel with
      | 0 => out_of_fuel
      | S fuel' =>
          n ← deref current;
          if eqb (data n) value then mret current
          else find_loop fuel' value (next n)
      end
  end.

Definition List_find (fuel : nat) (value : T) (l : List) : M ptr :=
  find_loop fuel value (headNode l).

(** [binaryFind(value)], List.h 1249-1255.  [getNodeAt] takes a [size_t]:
    the [int] index is converted back. *)
Definition binaryFind (fuel : nat) (value : T) (l : List) : M ptr :=
  index ← binarySearchIndex fuel value l;
  if (index =? -1)%Z then mret None
  else getNodeAt (Z.to_nat (index mod 2 ^ 64)) l.

(** *** isSortedCheck(comparator) *)

Fixpoint isSortedCheck_with_loop (fuel : nat) (comparator : T → T → bool)
    (current : ptr) : M bool :=
  n ← deref current;
  match next n with
  | None => mret true
  | Some _ =>
      match fuel with
      | 0 => out_of_fuel
      | S fuel' =>
          nx ← deref (next n);
          if negb (comparator (data n) (data nx)) then mret false
          else isSortedCheck_with_loop fuel' comparator (next n)
      end
  end.

(** [isSortedCheck(comparator)], List.h 1384-1398. *)
Definition isSortedCheck_with (fuel : nat) (comparator : T → T → bool) (l : List)
    : M bool :=
  if listSize l <=? 1 then mret true
  else isSortedCheck_with_loop fuel comparator (headNode l).

(** *** merge(List& other, comparator) *)

Fixpoint merge_with_loop (fuel : nat) (comparator : T → T → bool)
    (current1 current2 : ptr) (result : List) : M (ptr * ptr * List) :=
  match current1, current2 with
  | Some _, Some _ =>
      match fuel with
      | 0 => out_of_fuel
      | S fuel' =>
          n1 ← deref current1;
          n2 ← deref current2;
          if comparator (data n1) (data n2) then
            result' ← pushBack (data n1) result;
            n1' ← deref current1;
            merge_with_loop fuel' comparator (next n1') current2 result'
          else
            result' ← pushBack (data n2) result;
            n2' ← deref current2;
            merge_with_loop fuel' comparator current1 (next n2') result'
      end
  | _, _ => mret (current1, current2, result)
  end.

(** [this->merge(other, comparator)], List.h 1436-1464, for two different
    list objects: the new [this] and the new [other]. *)
Definition List_merge_with (fuel : nat) (comparator : T → T → bool)
    (this other : List) : M (List * List) :=
  let result := List_new in
  '(current1, current2, result) ←
    merge_with_loop fuel comparator (headNode this) (headNode other) result;
  result ← copy_loop fuel current1 result;
  result ← copy_loop fuel current2 result;
  '(this2, result') ← move_assign fuel this result;
  other2 ← clear fuel other;
  clear fuel result';;
  mret (this2, other2).

(** *** Functional methods *)

(** [allOf(predicate)], List.h 1592-1601. *)
Fixpoint allOf_loop (fuel : nat) (predicate : T → bool) (current : ptr) : M bool :=
  match current with
  | None => mret true
  | Some _ =>
      match fuel with
      | 0 => out_of_fuel
      | S fuel' =>
          n ← deref current;
          if negb (predicate (data n)) then mret false
          else allOf_loop fuel' predicate (next n)
      end
  end.

Definition allOf (fuel : nat) (predicate : T → bool) (l : List) : M bool :=
  allOf_loop fuel predicate (headNode l).

(** [anyOf(predicate)], List.h 1604-1613. *)
Fixpoint anyOf_loop (fuel : nat) (predicate : T → bool) (current : ptr) : M bool :=
  match current with
  | None => mret false
  | Some _ =>
      match fuel with
      | 0 => out_of_fuel
      | S fuel' =>
          n ← deref current;
          if predicate (data n) then mret true
          else anyOf_loop fuel' predicate (next n)
      end
  end.

Definition anyOf (fuel : nat) (predicate : T → bool) (l : List) : M bool :=
  anyOf_loop fuel predicate (headNode l).

(** [noneOf(predicate)], List.h 1616-1618. *)
Definition noneOf (fuel : nat) (predicate : T → bool) (l : List) : M bool :=
  b ← anyOf fuel predicate l;
  mret (negb b).

(** [filter(predicate)], List.h 1633-1643. *)
Fixpoint filter_loop (fuel : nat) (predicate : T → bool) (current : ptr)
    (result : List) : M List :=
  match current with
  | None => mret result
  | Some _ =>
      match fuel with
      | 0 => out_of_fuel
      | S fuel' =>
          n ← deref current;
          result' ← (if predicate (data n) then pushBack (data n) result
                     else mret result);
          n' ← deref current;
          filter_loop fuel' predicate (next n') result'
      end
  end.

Definition List_filter (fuel : nat) (predicate : T → bool) (l : List) : M List :=
  filter_loop fuel predicate (headNode l) List_new.

(** [reduce(initial, reducer)], List.h 1647-1655. *)
Fixpoint reduce_loop {U : Type} (fuel : nat) (reducer : U → T → U) (current : ptr)
    (result : U) : M U :=
  match current with
  | None => mret result
  | Some _ =>
      match fuel with
      | 0 => out_of_fuel
      | S fuel' =>
          n ← deref current;
          reduce_loop fuel' reducer (next n) (reducer result (data n))
      end
  end.

Definition reduce {U : Type} (fuel : nat) (initial : U) (reducer : U → T → U)
    (l : List) : M U :=
  reduce_loop fuel reducer (headNode l) initial.

(** *** Comparison operators *)

(** [operator!=], List.h 1704-1706. *)
Definition operator_ne (fuel : nat) (this other : List) : M bool :=
  b ← operator_eq fuel this other;
  mret (negb b).

(** [operator<], List.h 1709-1724. *)
Fixpoint lt_loop (fuel : nat) (current1 current2 : ptr) : M bool :=
  match current1, current2 with
  | Some _, Some _ =>
      match fuel with
      | 0 => out_of_fuel
      | S fuel' =>
          n1 ← deref current1;
          n2 ← deref current2;
          if ltb (data n1) (data n2) then mret true
          else if gtb (data n1) (data n2) then mret false
          else lt_loop fuel' (next n1) (next n2)
      end
  | _, _ => mret (bool_decide (current1 = None) && negb (bool_decide (current2 = None)))
  end.

Definition operator_lt (fuel : nat) (this other : List) : M bool :=
  lt_loop fuel (headNode this) (headNode other).

(** [operator<=], List.h 1727-1729; [||] evaluates [==] only when [<] is
    false. *)
Definition operator_le (fuel : nat) (this other : List) : M bool :=
  b ← operator_lt fuel this other;
  if b : bool then mret true else operator_eq fuel this other.

(** [operator>], List.h 1732-1734. *)
Definition operator_gt (fuel : nat) (this other : List) : M bool :=
  b ← operator_le fuel this other;
  mret (negb b).

(** [operator>=], List.h 1737-1739. *)
Definition operator_ge (fuel : nat) (this other : List) : M bool :=
  b ← operator_lt fuel this other;
  mret (negb b).

End more_operations.

(** [map(mapper)], List.h 1622-1630.  The result is a [List<U>], whose nodes
    live in a heap of their own; the list of [T] is only read. *)
Fixpoint map_loop {T U : Type} `{!Ordered U} (fuel : nat) (mapper : T → U)
    (hT : gmap loc (Node T)) (current : ptr) (result : List) : M U List :=
  match current with
  | None => mret result
  | Some a =>
      match fuel with
      | 0 => out_of_fuel
      | S fuel' =>
          match hT !! a with
          | None => undefined
          | Some n =>
              result' ← pushBack (mapper (data n)) result;
              map_loop fuel' mapper hT (next n) result'
          end
      end
  end.

Definition List_map {T U : Type} `{!Ordered U} (fuel : nat) (mapper : T → U)
    (l : List) (hT : gmap loc (Node T)) : M U List :=
  map_loop fuel mapper hT (headNode l) List_new.

(** ** The data-structure invariant

    [seg f h p ps q]: starting at pointer [p] and following the link [f]
    ([next] or [prev]) one visits exactly the addresses [ps] and arrives at
    [q].  A list object represents the sequence [ns] of (address, value)
    pairs when the forward chain from [headNode] and the backward chain from
    [tailNode] visit the same nodes in opposite orders, [listSize] is their
    number, and each node holds its value. *)

Section representation.
Context {T : Type}.
Implicit Types (h : gmap loc (Node T)) (ns : list (loc * T)) (ps : list loc).

Fixpoint seg (f : Node T → ptr) h (p : ptr) ps (q : ptr) : Prop :=
  match ps with
  | [] => p = q
  | a :: ps' => p = Some a ∧ ∃ n, h !! a = Some n ∧ seg f h (f n) ps' q
  end.

(** The backward chain read in forward order: every node's [prev] is its
    predecessor. *)
Fixpoint prevs h (pv : ptr) ps : Prop :=
  match ps with
  | [] => True
  | a :: ps' => ∃ n, h !! a = Some n ∧ prev n = pv ∧ prevs h (Some a) ps'
  end.

Definition cells h ns : Prop :=
  Forall (λ av, data <$> h !! av.1 = Some av.2) ns.

Record repr h (l : List) ns : Prop := mk_repr {
  repr_fwd : seg next h (headNode l) ns.*1 None;
  repr_bwd : seg prev h (tailNode l) (rev ns.*1) None;
  repr_nodup : NoDup ns.*1;
  repr_size : listSize l = length ns;
  repr_cells : cells h ns
}.

(** Nodes that are not among [own] are the same in [h'] as in [h]. *)
Definition preserved h h' (own : list loc) : Prop :=
  ∀ a n, a ∉ own → h !! a = Some n → h' !! a = Some n.
End representation.

(** The default ordering as a relation, and the sequences it sorts. *)
Definition le {T} `{!Ordered T} (a b : T) : Prop := leb a b = true.
Definition nondecreasing {T} `{!Ordered T} (vs : list T) : Prop := Sorted le vs.

(** The sortedness flag is sound when it is only set on sorted sequences. *)
Definition flag_sound {T} `{!Ordered T} (l : List) (vs : list T) : Prop :=
  isSorted l = true → nondecreasing vs.

(** The new flag after [pushBack]/[pushFront] in terms of the old boundary
    element. *)
Definition flag_after_back {T} `{!Ordered T} (s : bool) (vs : list T) (v : T) : bool :=
  match last vs with
  | Some t => if s then negb (ltb v t) else false
  | None => s
  end.
Definition flag_after_front {T} `{!Ordered T} (s : bool) (vs : list T) (v : T) : bool :=
  match head vs with
  | Some t => if s then negb (gtb v t) else false
  | None => s
  end.

(** Sequences of end operations, for the integrity property. *)
Inductive op (T : Type) :=
  | PushFront (v : T)
  | PushBack (v : T)
  | PopFront
  | PopBack.
Arguments PushFront {T} _.
Arguments PushBack {T} _.
Arguments PopFront {T}.
Arguments PopBack {T}.

Definition run_op {T} `{!Ordered T} (o : op T) (l : List) : M T List :=
  match o with
  | PushFront v => pushFront v l
  | PushBack v => pushBack v l
  | PopFront => popFront l
  | PopBack => popBack l
  end.

Fixpoint run_ops {T} `{!Ordered T} (os : list (op T)) (l : List) : M T List :=
  match os with
  | [] => mret l
  | o :: os' => l' ← run_op o l; run_ops os' l'
  end.

(** [pops_guarded n os]: started on a list of [n] elements, no pop of [os]
    is applied to an empty list. *)
Fixpoint pops_guarded {T} (n : nat) (os : list (op T)) : bool :=
  match os with
  | [] => true
  | PushFront _ :: os' | PushBack _ :: os' => pops_guarded (S n) os'
  | PopFront :: os' | PopBack :: os' => (0 <? n) && pops_guarded (n - 1) os'
  end.

(** What the loop of [reverse] does to the heap: the two links of every
    node of the list are exchanged. *)
Definition swap_links {T} (n : Node T) : Node T := mkNode (data n) (prev n) (next n).
Definition swap_all {T} (h : gmap loc (Node T)) (ps : list loc) : gmap loc (Node T) :=
  foldl (λ h a, alter swap_links a h) h ps.

(** The merge sort of [sort()] on the sequence of nodes: [merge_nodes] takes
    the left node when [left->data <= right->data], [msort_nodes] splits
    where the slow/fast walk of [mergeSort] does, after [length / 2] nodes. *)
Section merge_sort_on_sequences.
Context {T : Type} `{!Ordered T}.

Fixpoint merge_nodes (xs : list (loc * T)) : list (loc * T) → list (loc * T) :=
  fix go ys :=
    match xs, ys with
    | [], _ => ys
    | _, [] => xs
    | x :: xs', y :: ys' =>
        if leb x.2 y.2 then x :: merge_nodes xs' ys else y :: go ys'
    end.

Fixpoint msort_nodes (fuel : nat) (xs : list (loc * T)) : list (loc * T) :=
  match fuel with
  | 0 => xs
  | S fuel' =>
      match xs with
      | [] | [_] => xs
      | _ =>
          let k := length xs / 2 in
          merge_nodes (msort_nodes fuel' (take k xs)) (msort_nodes fuel' (drop k xs))
      end
  end.

(** The default ordering on the values that two nodes hold. *)
Definition le_node (x y : loc * T) : Prop := le x.2 y.2.

(** The nodes holding the value [v], in list order. *)
Definition holding (v : T) (xs : list (loc * T)) : list (loc * T) :=
  filter (λ x, eqb x.2 v = true) xs.
End merge_sort_on_sequences.

(** The pointer to the first node of a sequence. *)
Definition hd_ptr {T} (xs : list (loc * T)) : ptr := head xs.*1.

(** [h'] differs from [h] at most in the nodes [own], and there neither in
    the value nor in the link [g]. *)
Definition keeps {T} (g : Node T → ptr) (h h' : gmap loc (Node T))
    (own : list loc) : Prop :=
  ∀ a, data <$> h' !! a = data <$> h !! a ∧
       g <$> h' !! a = g <$> h !! a ∧
       (a ∉ own → h' !! a = h !! a).
(** Only [next] links, respectively only [prev] links, were written. *)
Definition next_only {T} := keeps (T:=T) prev.
Definition prev_only {T} := keeps (T:=T) next.

(** The boolean that [isSortedCheck] computes on a sequence of values. *)
Fixpoint is_nondecreasing {T} `{!Ordered T} (vs : list T) : bool :=
  match vs with
  | a :: (b :: _) as vs' => negb (gtb a b) && is_nondecreasing vs'
  | _ => true
  end.

(** ** Concrete lists of [int]

    [{3, 1, 2}] as [pushBack] builds it in an empty heap (the flag is false
    after the second element), and the sorted [{1, 3, 3, 5, 9}]. *)
Definition heap_312 : gmap loc (Node Z) :=
  list_to_map [(1%positive, mkNode 3%Z (Some 2%positive) None);
               (2%positive, mkNode 1%Z (Some 3%positive) (Some 1%positive));
               (3%positive, mkNode 2%Z None (Some 2%positive))].
Definition list_312 : List := mkList (Some 1%positive) (Some 3%positive) 3 false.
Definition nodes_312 : list (loc * Z) :=
  [(1%positive, 3%Z); (2%positive, 1%Z); (3%positive, 2%Z)].

(** Two lists holding [{1, 2}] in one heap: nodes 1, 2 and nodes 3, 4. *)
Definition heap_12_12 : gmap loc (Node Z) :=
  list_to_map [(1%positive, mkNode 1%Z (Some 2%positive) None);
               (2%positive, mkNode 2%Z None (Some 1%positive));
               (3%positive, mkNode 1%Z (Some 4%positive) None);
               (4%positive, mkNode 2%Z None (Some 3%positive))].
Definition list_12 : List := mkList (Some 1%positive) (Some 2%positive) 2 true.
Definition nodes_12 : list (loc * Z) := [(1%positive, 1%Z); (2%positive, 2%Z)].
Definition list_12' : List := mkList (Some 3%positive) (Some 4%positive) 2 true.
Definition nodes_12' : list (loc * Z) := [(3%positive, 1%Z); (4%positive, 2%Z)].

(** [h'] differs from [h] at most in the values held by the nodes [own]. *)
Definition data_only {T} (h h' : gmap loc (Node T)) (own : list loc) : Prop :=
  ∀ a, next <$> h' !! a = next <$> h !! a ∧
       prev <$> h' !! a = prev <$> h !! a ∧
       (a ∉ own → h' !! a = h !! a).

(** The node sequence after [forEach(func)]. *)
Definition apply_func {T} (func : T → T) (ns : list (loc * T)) : list (loc * T) :=
  (λ x, (x.1, func x.2)) <$> ns.

(** The sorted list [{1, 3, 3, 5, 9}]. *)
Definition heap_13359 : gmap loc (Node Z) :=
  list_to_map [(1%positive, mkNode 1%Z (Some 2%positive) None);
               (2%positive, mkNode 3%Z (Some 3%positive) (Some 1%positive));
               (3%positive, mkNode 3%Z (Some 4%positive) (Some 2%positive));
               (4%positive, mkNode 5%Z (Some 5%positive) (Some 3%positive));
               (5%positive, mkNode 9%Z None (Some 4%positive))].
Definition list_13359 : List := mkList (Some 1%positive) (Some 5%positive) 5 true.
Definition nodes_13359 : list (loc * Z) :=
  [(1%positive, 1%Z); (2%positive, 3%Z); (3%positive, 3%Z); (4%positive, 5%Z);
   (5%positive, 9%Z)].

(** ** The contract of [std::sort]

    [sort(comparator)] hands the copied values to the standard library.  The
    C++ standard requires the comparator to be a strict weak ordering, and
    then promises a rearrangement of the same values in which no element
    compares less than an element before it. *)
Record strict_weak_order {T} (comparator : T → T → bool) : Prop := {
  swo_irrefl : ∀ a, comparator a a = false;
  swo_trans : ∀ a b c,
    comparator a b = true → comparator b c = true → comparator a c = true;
  swo_incomparable : ∀ a b c,
    comparator a b = false → comparator b a = false →
    comparator b c = false → comparator c b = false →
    comparator a c = false ∧ comparator c a = false
}.

(** [b] may follow [a] in an order consistent with the comparator. *)
Definition not_after {T} (comparator : T → T → bool) (a b : T) : Prop :=
  comparator b a = false.

Definition std_sort_contract {T}
    (std_sort : (T → T → bool) → list T → list T) : Prop :=
  (∀ comparator xs, length (std_sort comparator xs) = length xs) ∧
  (∀ comparator xs, strict_weak_order comparator →
     std_sort comparator xs ≡ₚ xs ∧
     Sorted (not_after comparator) (std_sort comparator xs)).

#[export] Instance not_after_dec {T} (comparator : T → T → bool) :
  RelDecision (not_after comparator).
Proof. intros a b. unfold not_after. apply _. Defined.

(** A sorting function that meets the contract. *)
Definition a_std_sort {T} (comparator : T → T → bool) (xs : list T) : list T :=
  merge_sort (not_after comparator) xs.

(** The nodes of a list with new values written into them in order. *)
Definition with_values {T} (ns : list (loc * T)) (vs : list T) : list (loc * T) :=
  zip ns.*1 vs.


(** The nodes [F] are the same in [h'] as in [h]. *)
Definition framed {T} (F : list loc) (h h' : gmap loc (Node T)) : Prop :=
  ∀ a, a ∈ F → h' !! a = h !! a.

(** ** Sequences for the rest of the interface *)

(** The heap after the node [a] has been taken out of its chain and
    deleted: the [next] of its predecessor and the [prev] of its successor
    skip it. *)
Definition unlinked {T} (h : gmap loc (Node T)) (a : loc) : gmap loc (Node T) :=
  match h !! a with
  | None => h
  | Some na =>
      let h1 := match prev na with
                | Some p => alter (λ n, mkNode (data n) (next na) (prev n)) p h
                | None => h
                end in
      let h2 := match next na with
                | Some c => alter (λ n, mkNode (data n) (next n) (prev na)) c h1
                | None => h1
                end in
      delete a h2
  end.

(** The list object of a sequence of nodes. *)
Definition list_of {T} (ns : list (loc * T)) (s : bool) : List :=
  mkList (head ns.*1) (last ns.*1) (length ns) s.

(** What [unique] leaves of a sequence that starts with [x]: an element is
    dropped when it is [same] as the last element kept. *)
Fixpoint uniq_from {A} (same : A → A → bool) (x : A) (r : list A) : list A :=
  match r with
  | [] => [x]
  | y :: r' => if same x y then uniq_from same x r' else x :: uniq_from same y r'
  end.

Definition uniq {A} (same : A → A → bool) (xs : list A) : list A :=
  match xs with
  | [] => []
  | x :: r => uniq_from same x r
  end.

(** The lexicographic comparison that [operator<] computes. *)
Fixpoint lex_ltb {T} `{!Ordered T} (xs ys : list T) : bool :=
  match xs, ys with
  | x :: xs', y :: ys' =>
      if ltb x y then true else if gtb x y then false else lex_ltb xs' ys'
  | [], _ :: _ => true
  | _, _ => false
  end.

(** The boolean that [isSortedCheck(comparator)] computes. *)
Fixpoint all_adjacent {A} (comparator : A → A → bool) (vs : list A) : bool :=
  match vs with
  | a :: (b :: _) as vs' => comparator a b && all_adjacent comparator vs'
  | _ => true
  end.

(** The two-pointer merge of [merge(List&, comparator)] on the values. *)
Fixpoint merge_by {A} (comparator : A → A → bool) (xs : list A) : list A → list A :=
  fix go ys :=
    match xs, ys with
    | [], _ => ys
    | _, [] => xs
    | x :: xs', y :: ys' =>
        if comparator x y then x :: merge_by comparator xs' ys else y :: go ys'
    end.

(** The index of the first and of the last occurrence of a value. *)
Fixpoint first_index {T} `{!Ordered T} (value : T) (vs : list T) : option nat :=
  match vs with
  | [] => None
  | v :: vs' => if eqb v value then Some 0 else S <$> first_index value vs'
  end.

Definition last_index {T} `{!Ordered T} (value : T) (vs : list T) : option nat :=
  (λ i, length vs - 1 - i) <$> first_index value (rev vs).

(** An index as the [int] that [findFirst] and [findLast] return. *)
Definition index_result (r : option nat) : Z :=
  match r with
  | Some i => Z.of_nat i
  | None => (-1)%Z
  end.

(** [uniq_from] on nodes: the comparison looks at the values only. *)
Definition same_node {T} (same : T → T → bool) (x y : loc * T) : bool := same x.2 y.2.

(** ** Tactics *)

(** Unfolding the monad, for straight-line code. *)
Ltac unfold_monad :=
  unfold mbind, M_bind, bind, mret, M_ret, ret, throw, deref, set_next,
    set_prev, set_data, new_node, delete_node.

(** Well-formedness of a concrete list in a concrete heap. *)
Ltac solve_seg :=
  simpl; repeat (split; [reflexivity|]; eexists; split; [reflexivity|]; simpl);
  reflexivity.

Ltac solve_repr :=
  split;
  [ solve_seg
  | solve_seg
  | refine (bool_decide_unpack _ _); vm_compute; exact I
  | reflexivity
  | repeat (apply Forall_cons; split; [reflexivity|]); apply Forall_nil_2 ].

(** * Proofs *)

#[export] Instance le_transitive {T} `{!Ordered T} : Transitive (le (T:=T)).
Proof. intros x y z. unfold le. apply leb_trans. Qed.

Section monad_lemmas.
Context {T : Type}.
Implicit Types (h : gmap loc (Node T)).

Lemma bind_Ok {A B} (m : M T A) (k : A → M T B) h a h' :
  m h = Ok (a, h') → (m ≫= k) h = k a h'.
Proof. unfold mbind, M_bind, bind. by intros ->. Qed.

Lemma deref_Ok h a n : h !! a = Some n → deref (Some a) h = Ok (n, h).
Proof. unfold deref. by intros ->. Qed.

Lemma set_next_Ok h a n q :
  h !! a = Some n →
  set_next (Some a) q h = Ok (tt, <[a := mkNode (data n) q (prev n)]> h).
Proof. unfold set_next. by intros ->. Qed.

Lemma set_prev_Ok h a n q :
  h !! a = Some n →
  set_prev (Some a) q h = Ok (tt, <[a := mkNode (data n) (next n) q]> h).
Proof. unfold set_prev. by intros ->. Qed.

Lemma set_data_Ok h a n v :
  h !! a = Some n →
  set_data (Some a) v h = Ok (tt, <[a := mkNode v (next n) (prev n)]> h).
Proof. unfold set_data. by intros ->. Qed.

Lemma delete_node_Ok h a n :
  h !! a = Some n → delete_node (Some a) h = Ok (tt, delete a h).
Proof. unfold delete_node. by intros ->. Qed.

Lemma fresh_not_in h : h !! fresh (dom h) = None.
Proof. apply not_elem_of_dom, is_fresh. Qed.
End monad_lemmas.

Section seg_lemmas.
Context {T : Type}.
Implicit Types (h : gmap loc (Node T)) (ns : list (loc * T)) (ps : list loc).
Implicit Types (f : Node T → ptr).

Lemma elem_of_rev {A} (x : A) (xs : list A) : x ∈ rev xs ↔ x ∈ xs.
Proof. rewrite !list_elem_of_In. symmetry. apply in_rev. Qed.

Lemma NoDup_rev_2 {A} (xs : list A) : NoDup xs → NoDup (rev xs).
Proof. intros Hnd. by rewrite <- Permutation_rev. Qed.

Lemma seg_app f h p ps1 ps2 q :
  seg f h p (ps1 ++ ps2) q ↔ ∃ m, seg f h p ps1 m ∧ seg f h m ps2 q.
Proof.
  revert p. induction ps1 as [|a ps1 IH]; intros p; simpl.
  - split; [eauto | by intros (m & -> & ?)].
  - split.
    + intros (-> & n & Hn & Hs). apply IH in Hs as (m & ? & ?). eauto 10.
    + intros (m & (-> & n & Hn & Hs) & ?). split; [done|].
      exists n. split; [done|]. apply IH. eauto.
Qed.

Lemma seg_snoc f h p ps a q :
  seg f h p (ps ++ [a]) q ↔
  seg f h p ps (Some a) ∧ ∃ n, h !! a = Some n ∧ f n = q.
Proof.
  rewrite seg_app. simpl. split.
  - intros (m & ? & -> & n & ? & ?). eauto.
  - intros (? & n & ? & ?). eauto 10.
Qed.

Lemma seg_ext f h h' p ps q :
  (∀ a, a ∈ ps → f <$> h' !! a = f <$> h !! a) →
  seg f h p ps q → seg f h' p ps q.
Proof.
  revert p. induction ps as [|a ps IH]; intros p Hf; simpl; [done|].
  intros (-> & n & Hn & Hs). split; [done|].
  pose proof (Hf a (list_elem_of_here _ _)) as Ha. rewrite Hn in Ha.
  destruct (h' !! a) as [n'|]; [|done]. simpl in Ha. injection Ha as Ha.
  exists n'. split; [done|]. rewrite Ha. apply IH; [|done].
  intros b Hb. apply Hf. by right.
Qed.

Lemma seg_insert_ne f h p ps q a n :
  a ∉ ps → seg f h p ps q → seg f (<[a := n]> h) p ps q.
Proof.
  intros Ha. apply seg_ext. intros b Hb.
  rewrite lookup_insert_ne; [done|]. by intros ->.
Qed.

Lemma seg_delete_ne f h p ps q a :
  a ∉ ps → seg f h p ps q → seg f (delete a h) p ps q.
Proof.
  intros Ha. apply seg_ext. intros b Hb.
  rewrite lookup_delete_ne; [done|]. by intros ->.
Qed.

(** Overwriting a node without changing its [f] link keeps every chain. *)
Lemma seg_insert_same f h p ps q a n n' :
  h !! a = Some n → f n' = f n →
  seg f h p ps q → seg f (<[a := n']> h) p ps q.
Proof.
  intros Hn Hf. apply seg_ext. intros b Hb.
  destruct (decide (a = b)) as [<-|].
  - rewrite lookup_insert_eq, Hn. simpl. by rewrite Hf.
  - by rewrite lookup_insert_ne.
Qed.

Lemma seg_preserved f h h' own p ps q :
  preserved h h' own → (∀ a, a ∈ ps → a ∉ own) →
  seg f h p ps q → seg f h' p ps q.
Proof.
  intros Hp Hd. revert p. induction ps as [|a ps IH]; intros p; simpl; [done|].
  intros (-> & n & Hn & Hs). split; [done|]. exists n. split.
  - apply Hp; [|done]. apply Hd. left.
  - apply IH; [|done]. intros b Hb. apply Hd. by right.
Qed.

Lemma seg_lookup f h p ps q a :
  seg f h p ps q → a ∈ ps → is_Some (h !! a).
Proof.
  revert p. induction ps as [|b ps IH]; intros p; simpl.
  - intros _ Ha. by apply elem_of_nil in Ha.
  - intros (-> & n & Hn & Hs) [->|Ha]%elem_of_cons; eauto.
Qed.

Lemma seg_nil_inv f h ps q : seg f h None ps q → ps = [] ∧ q = None.
Proof. destruct ps; simpl; [done|]. by intros [? _]. Qed.

Lemma seg_head f h p ps q : seg f h p ps q → ps ≠ [] → p = head ps.
Proof. destruct ps; simpl; [done|]. by intros [-> _]. Qed.

(** [cells] *)
Lemma cells_app h ns1 ns2 : cells h (ns1 ++ ns2) ↔ cells h ns1 ∧ cells h ns2.
Proof. apply Forall_app. Qed.

Lemma cells_cons h a v ns :
  cells h ((a, v) :: ns) ↔ (∃ n, h !! a = Some n ∧ data n = v) ∧ cells h ns.
Proof.
  unfold cells. rewrite Forall_cons. simpl. split.
  - intros [Ha ?]. split; [|done]. destruct (h !! a) as [n|]; [|done].
    exists n. split; [done|]. by injection Ha.
  - intros [(n & -> & <-) ?]. done.
Qed.

Lemma cells_singleton h a v :
  cells h [(a, v)] ↔ ∃ n, h !! a = Some n ∧ data n = v.
Proof. rewrite cells_cons. unfold cells. rewrite Forall_nil. tauto. Qed.

Lemma cells_ext h h' ns :
  (∀ a, a ∈ ns.*1 → data <$> h' !! a = data <$> h !! a) →
  cells h ns → cells h' ns.
Proof.
  intros Hd Hc. unfold cells in *. rewrite Forall_forall in *.
  intros [a v] Hav. simpl. rewrite Hd; [by apply (Hc (a, v))|].
  apply list_elem_of_fmap. by exists (a, v).
Qed.

Lemma cells_insert_ne h ns a n :
  a ∉ ns.*1 → cells h ns → cells (<[a := n]> h) ns.
Proof.
  intros Ha. apply cells_ext. intros b Hb.
  rewrite lookup_insert_ne; [done|]. by intros ->.
Qed.

Lemma cells_delete_ne h ns a :
  a ∉ ns.*1 → cells h ns → cells (delete a h) ns.
Proof.
  intros Ha. apply cells_ext. intros b Hb.
  rewrite lookup_delete_ne; [done|]. by intros ->.
Qed.

Lemma cells_insert_same h ns a n n' :
  h !! a = Some n → data n' = data n →
  cells h ns → cells (<[a := n']> h) ns.
Proof.
  intros Hn Hf. apply cells_ext. intros b Hb.
  destruct (decide (a = b)) as [<-|].
  - rewrite lookup_insert_eq, Hn. simpl. by rewrite Hf.
  - by rewrite lookup_insert_ne.
Qed.

Lemma cells_preserved h h' own ns :
  preserved h h' own → (∀ a, a ∈ ns.*1 → a ∉ own) →
  cells h ns → cells h' ns.
Proof.
  intros Hp Hd Hc. unfold cells in *. rewrite Forall_forall in *.
  intros [a v] Hav. specialize (Hc _ Hav). simpl in *.
  destruct (h !! a) as [n|] eqn:Hn; [|done].
  erewrite Hp; [done| |done]. apply Hd, list_elem_of_fmap. by exists (a, v).
Qed.

Lemma cells_lookup h ns a v :
  cells h ns → (a, v) ∈ ns → ∃ n, h !! a = Some n ∧ data n = v.
Proof.
  unfold cells. rewrite Forall_forall. intros Hc Hav.
  specialize (Hc _ Hav). simpl in Hc.
  destruct (h !! a) as [n|]; [|done]. exists n. split; [done|].
  by injection Hc.
Qed.

Lemma preserved_refl h own : preserved h h own.
Proof. by intros a n _. Qed.

Lemma preserved_trans h1 h2 h3 own1 own2 own :
  preserved h1 h2 own1 → preserved h2 h3 own2 →
  (∀ a, a ∈ own1 → a ∈ own) → (∀ a, a ∈ own2 → a ∈ own) →
  preserved h1 h3 own.
Proof.
  intros H12 H23 H1 H2 a n Ha Hn. apply H23; [naive_solver|].
  apply H12; [naive_solver|done].
Qed.

Lemma repr_preserved h h' own l ns :
  preserved h h' own → (∀ a, a ∈ ns.*1 → a ∉ own) →
  repr h l ns → repr h' l ns.
Proof.
  intros Hp Hd [Hf Hb Hnd Hsz Hc]. split; [| |done|done|].
  - by eapply seg_preserved.
  - eapply seg_preserved; [done| |done]. intros a Ha. apply Hd.
    by apply elem_of_rev.
  - by eapply cells_preserved.
Qed.
End seg_lemmas.

(** ** The end operations keep the invariant *)

Section end_operations.
Context {T : Type} `{!Ordered T}.
Implicit Types (h : gmap loc (Node T)) (ns : list (loc * T)) (l : List).

Lemma repr_nil_inv h l ns :
  repr h l ns → listSize l = 0 → ns = [] ∧ headNode l = None ∧ tailNode l = None.
Proof.
  intros [Hf Hb _ Hsz _] H0. rewrite H0 in Hsz.
  destruct ns; [|done]. simpl in *. done.
Qed.

Lemma repr_lookup h l ns a :
  repr h l ns → a ∈ ns.*1 → is_Some (h !! a).
Proof. intros [Hf _ _ _ _]. by eapply seg_lookup. Qed.

Lemma repr_fresh h l ns : repr h l ns → fresh (dom h) ∉ ns.*1.
Proof.
  intros Hr Hin. eapply repr_lookup in Hin as [n Hn]; [|done].
  by rewrite fresh_not_in in Hn.
Qed.

Lemma pushBack_spec h l ns v :
  repr h l ns →
  ∃ l' h', pushBack v l h = Ok (l', h') ∧
    repr h' l' (ns ++ [(fresh (dom h), v)]) ∧
    preserved h h' ns.*1 ∧
    isSorted l' = flag_after_back (isSorted l) ns.*2 v.
Proof.
  intros Hr. pose proof (repr_fresh _ _ _ Hr) as Hfr.
  pose proof (fresh_not_in h) as Hfn.
  set (a := fresh (dom h)) in *.
  destruct Hr as [Hf Hb Hnd Hsz Hc].
  destruct ns as [|[t tv] ns0 _] using rev_ind.
  - (* empty list *)
    simpl in *. unfold pushBack, empty. rewrite Hsz. simpl.
    unfold_monad. simpl. fold a. eexists _, _. split; [done|].
    split; [|split; [|done]].
    + split; simpl; try done.
      * split; [done|]. eexists. by rewrite lookup_insert_eq.
      * split; [done|]. eexists. by rewrite lookup_insert_eq.
      * apply NoDup_singleton.
      * apply cells_singleton. eexists. by rewrite lookup_insert_eq.
    + intros b n _ Hn. rewrite lookup_insert_ne; [done|]. intros <-. congruence.
  - (* the old tail is [t] *)
    rewrite !fmap_app in *. simpl in *.
    rewrite rev_unit in Hb. simpl in Hb. destruct Hb as (Ht & nt & Hnt & Hb).
    apply seg_snoc in Hf as (Hf & nt' & Hnt' & Hnx).
    rewrite Hnt in Hnt'. injection Hnt' as <-.
    apply NoDup_app in Hnd as (Hnd0 & Hnin & _).
    assert (t ∉ ns0.*1) as Htn by (intros ?; eapply Hnin; [done|left]).
    assert (a ≠ t) as Hat by (intros <-; apply Hfr, elem_of_app; right; left).
    assert (a ∉ ns0.*1) as Han by (intros ?; apply Hfr, elem_of_app; by left).
    apply cells_app in Hc as [Hc0 Hct].
    apply cells_singleton in Hct as (nt' & Hnt' & Hdt).
    rewrite Hnt in Hnt'. injection Hnt' as <-.
    rewrite length_app in Hsz. simpl in Hsz.
    unfold pushBack, empty. destruct (listSize l =? 0) eqn:E0; [apply Nat.eqb_eq in E0; lia|].
    unfold_monad. simpl. fold a. rewrite Ht.
    rewrite lookup_insert_ne by done. rewrite Hnt.
    rewrite lookup_insert_ne by done. rewrite lookup_insert_eq. simpl.
    assert ((0 <? listSize l) = true) as -> by (apply Nat.ltb_lt; lia).
    rewrite andb_true_r.
    set (h' := <[a := _]> (<[t := _]> _)).
    assert (h' !! a = Some (mkNode v None (Some t))) as Ha'
      by (unfold h'; by rewrite lookup_insert_eq).
    assert (h' !! t = Some (mkNode (data nt) (Some a) (prev nt))) as Ht'.
    { unfold h'. rewrite lookup_insert_ne by done. by rewrite lookup_insert_eq. }
    assert (preserved h h' ((ns0.*1) ++ [t])) as Hpres.
    { intros b n Hb' Hn. unfold h'. rewrite !lookup_insert_ne; [done| | |].
      - intros <-. congruence.
      - intros <-. apply Hb', elem_of_app. right. left.
      - intros <-. congruence. }
    assert (repr h' (mkList (headNode l) (Some a) (S (listSize l))
              (flag_after_back (isSorted l) (ns0.*2 ++ [tv]) v))
              ((ns0 ++ [(t, tv)]) ++ [(a, v)])) as Hr'.
    { split; simpl.
      - rewrite !fmap_app. simpl. apply seg_snoc. split; [|eauto].
        apply seg_snoc. split; [|eauto].
        unfold h'. by do 3 (apply seg_insert_ne; [done|]).
      - rewrite !fmap_app. simpl. rewrite !rev_unit. simpl.
        split; [done|]. eexists. split; [exact Ha'|]. simpl.
        split; [done|]. eexists. split; [exact Ht'|]. simpl.
        unfold h'. do 3 (apply seg_insert_ne; [by rewrite elem_of_rev|]). done.
      - rewrite !fmap_app. simpl. apply NoDup_app. split; [|split].
        + apply NoDup_app. split; [done|]. split; [done|apply NoDup_singleton].
        + intros b Hb' ->%list_elem_of_singleton. done.
        + apply NoDup_singleton.
      - rewrite !length_app. simpl. lia.
      - apply cells_app. split; [apply cells_app; split|].
        + unfold h'. by do 3 (apply cells_insert_ne; [done|]).
        + apply cells_singleton. eauto.
        + apply cells_singleton. eauto. }
    assert (flag_after_back (isSorted l) (ns0.*2 ++ [tv]) v
            = if isSorted l then negb (ltb v tv) else false) as Hflag.
    { unfold flag_after_back. by rewrite last_snoc. }
    destruct (isSorted l) eqn:Es; simpl.
    + rewrite Ha'. simpl. rewrite Ht'. simpl. rewrite Hdt.
      eexists _, _. split; [reflexivity|]. rewrite Hflag in *. done.
    + eexists _, _. split; [reflexivity|]. rewrite Hflag in *. done.
Qed.

Lemma pushFront_spec h l ns v :
  repr h l ns →
  ∃ l' h', pushFront v l h = Ok (l', h') ∧
    repr h' l' ((fresh (dom h), v) :: ns) ∧
    preserved h h' ns.*1 ∧
    isSorted l' = flag_after_front (isSorted l) ns.*2 v.
Proof.
  intros Hr. pose proof (repr_fresh _ _ _ Hr) as Hfr.
  pose proof (fresh_not_in h) as Hfn.
  set (a := fresh (dom h)) in *.
  destruct Hr as [Hf Hb Hnd Hsz Hc].
  destruct ns as [|[t tv] ns0].
  - (* empty list *)
    simpl in *. unfold pushFront, empty. rewrite Hsz. simpl.
    unfold_monad. simpl. fold a. eexists _, _. split; [done|].
    split; [|split; [|done]].
    + split; simpl; try done.
      * split; [done|]. eexists. by rewrite lookup_insert_eq.
      * split; [done|]. eexists. by rewrite lookup_insert_eq.
      * apply NoDup_singleton.
      * apply cells_singleton. eexists. by rewrite lookup_insert_eq.
    + intros b n _ Hn. rewrite lookup_insert_ne; [done|]. intros <-. congruence.
  - (* the old head is [t] *)
    simpl in *. destruct Hf as (Ht & nt & Hnt & Hf).
    apply seg_snoc in Hb as (Hb & nt' & Hnt' & Hpv).
    rewrite Hnt in Hnt'. injection Hnt' as <-.
    apply NoDup_cons in Hnd as [Htn Hnd0].
    assert (a ≠ t) as Hat by (intros <-; apply Hfr; left).
    assert (a ∉ ns0.*1) as Han by (intros ?; apply Hfr; by right).
    apply cells_cons in Hc as [(nt' & Hnt' & Hdt) Hc0].
    rewrite Hnt in Hnt'. injection Hnt' as <-.
    unfold pushFront, empty.
    destruct (listSize l =? 0) eqn:E0; [apply Nat.eqb_eq in E0; lia|].
    unfold_monad. simpl. fold a. rewrite Ht.
    rewrite lookup_insert_eq. simpl.
    rewrite lookup_insert_ne by done. rewrite lookup_insert_ne by done.
    rewrite Hnt.
    assert ((0 <? listSize l) = true) as -> by (apply Nat.ltb_lt; lia).
    rewrite andb_true_r.
    set (h' := <[t := _]> (<[a := _]> _)).
    assert (h' !! a = Some (mkNode v (Some t) None)) as Ha'.
    { unfold h'. rewrite lookup_insert_ne by done. by rewrite lookup_insert_eq. }
    assert (h' !! t = Some (mkNode (data nt) (next nt) (Some a))) as Ht'
      by (unfold h'; by rewrite lookup_insert_eq).
    assert (preserved h h' (t :: ns0.*1)) as Hpres.
    { intros b n Hb' Hn. unfold h'. rewrite !lookup_insert_ne; [done| | |].
      - intros <-. congruence.
      - intros <-. congruence.
      - intros <-. apply Hb'. left. }
    assert (repr h' (mkList (Some a) (tailNode l) (S (listSize l))
              (flag_after_front (isSorted l) (tv :: ns0.*2) v))
              ((a, v) :: (t, tv) :: ns0)) as Hr'.
    { split; simpl.
      - split; [done|]. eexists. split; [exact Ha'|]. simpl.
        split; [done|]. eexists. split; [exact Ht'|]. simpl.
        unfold h'. by do 3 (apply seg_insert_ne; [done|]).
      - apply seg_snoc. split; [|eauto].
        apply seg_snoc. split; [|eauto].
        unfold h'. do 3 (apply seg_insert_ne; [by rewrite elem_of_rev|]). done.
      - apply NoDup_cons. split; [|by apply NoDup_cons].
        intros [->|?]%elem_of_cons; done.
      - lia.
      - apply cells_cons. split; [eauto|]. apply cells_cons. split; [eauto|].
        unfold h'. by do 3 (apply cells_insert_ne; [done|]). }
    unfold flag_after_front in *. simpl in *.
    destruct (isSorted l) eqn:Es; simpl.
    + rewrite Ha'. simpl. rewrite Ht'. simpl. rewrite Hdt.
      eexists _, _. split; [reflexivity|]. done.
    + eexists _, _. split; [reflexivity|]. done.
Qed.

Lemma popFront_spec h l a v ns :
  repr h l ((a, v) :: ns) →
  ∃ l' h', popFront l h = Ok (l', h') ∧
    repr h' l' ns ∧ preserved h h' (a :: ns.*1) ∧ h' !! a = None ∧
    dom h' ⊆ dom h ∧ isSorted l' = isSorted l.
Proof.
  intros [Hf Hb Hnd Hsz Hc]. simpl in *.
  destruct Hf as (Hhd & na & Hna & Hf).
  apply NoDup_cons in Hnd as [Han Hnd].
  apply cells_cons in Hc as [_ Hc].
  unfold popFront, empty. rewrite Hsz. simpl.
  destruct ns as [|[b bv] ns].
  - (* the only node *)
    simpl in *. unfold_monad. simpl. rewrite Hhd, Hna.
    eexists _, _. split; [reflexivity|]. split; [|split; [|split; [|split]]].
    + split; simpl; try done. apply Forall_nil_2.
    + intros c n Hc' Hn. rewrite lookup_delete_ne; [done|].
      intros <-. apply Hc'. left.
    + by rewrite lookup_delete_eq.
    + rewrite dom_delete. apply subseteq_difference_l. done.
    + done.
  - (* the new head is [b] *)
    simpl in *. destruct Hf as (Hnx & nb & Hnb & Hf).
    apply seg_snoc in Hb as (Hb & na' & Hna' & Hpa).
    rewrite Hna in Hna'. injection Hna' as <-.
    apply seg_snoc in Hb as (Hb & nb' & Hnb' & Hpb).
    rewrite Hnb in Hnb'. injection Hnb' as <-.
    apply NoDup_cons in Hnd as [Hbn Hnd].
    assert (a ≠ b) as Hab by (intros <-; apply Han; left).
    assert (a ∉ ns.*1) as Han' by (intros ?; apply Han; by right).
    apply cells_cons in Hc as [(nb' & Hnb' & Hdb) Hc].
    rewrite Hnb in Hnb'. injection Hnb' as <-.
    unfold_monad. simpl. rewrite Hhd, Hna. simpl. rewrite Hnx, Hnb. simpl.
    rewrite lookup_insert_ne by done. rewrite Hna.
    eexists _, _. split; [reflexivity|]. split; [|split; [|split; [|split]]].
    + split; simpl.
      * split; [done|]. eexists. split.
        { rewrite lookup_delete_ne by done. by rewrite lookup_insert_eq. }
        simpl. by apply seg_delete_ne, seg_insert_ne.
      * apply seg_snoc. split.
        { apply seg_delete_ne; [by rewrite elem_of_rev|].
          apply seg_insert_ne; [by rewrite elem_of_rev|]. done. }
        eexists. split.
        { rewrite lookup_delete_ne by done. by rewrite lookup_insert_eq. }
        done.
      * by apply NoDup_cons.
      * lia.
      * apply cells_cons. split.
        { eexists. split.
          - rewrite lookup_delete_ne by done. by rewrite lookup_insert_eq.
          - done. }
        by apply cells_delete_ne, cells_insert_ne.
    + intros c n Hc' Hn. rewrite lookup_delete_ne, lookup_insert_ne; [done| |].
      * intros <-. apply Hc'. right. left.
      * intros <-. apply Hc'. left.
    + by rewrite lookup_delete_eq.
    + rewrite dom_delete, dom_insert.
      apply subseteq_difference_l. intros x [->%elem_of_singleton|Hx]%elem_of_union;
        [apply elem_of_dom; eauto|done].
    + done.
Qed.

Lemma popBack_spec h l a v ns :
  repr h l (ns ++ [(a, v)]) →
  ∃ l' h', popBack l h = Ok (l', h') ∧
    repr h' l' ns ∧ preserved h h' (ns.*1 ++ [a]) ∧ h' !! a = None ∧
    dom h' ⊆ dom h ∧ isSorted l' = isSorted l.
Proof.
  intros [Hf Hb Hnd Hsz Hc]. rewrite !fmap_app in *. simpl in *.
  rewrite rev_unit in Hb. simpl in Hb.
  destruct Hb as (Htl & na & Hna & Hb).
  apply NoDup_app in Hnd as (Hnd & Han & _).
  assert (a ∉ ns.*1) as Han' by (intros ?; eapply Han; [done|left]).
  apply cells_app in Hc as [Hc _].
  rewrite length_app in Hsz. simpl in Hsz.
  unfold popBack, empty. rewrite Hsz.
  replace (length ns + 1 =? 0) with false by (symmetry; apply Nat.eqb_neq; lia).
  destruct ns as [|[b bv] ns0 _] using rev_ind.
  - (* the only node *)
    simpl in *. unfold_monad. simpl. rewrite Htl, Hna.
    eexists _, _. split; [reflexivity|]. split; [|split; [|split; [|split]]].
    + split; simpl; try done. apply Forall_nil_2.
    + intros c n Hc' Hn. rewrite lookup_delete_ne; [done|].
      intros <-. apply Hc'. left.
    + by rewrite lookup_delete_eq.
    + rewrite dom_delete. apply subseteq_difference_l. done.
    + done.
  - (* the new tail is [b] *)
    rewrite !fmap_app in *. simpl in *. rewrite rev_unit in Hb. simpl in Hb.
    destruct Hb as (Hpv & nb & Hnb & Hb).
    apply seg_snoc in Hf as (Hf & na' & Hna' & Hxa).
    rewrite Hna in Hna'. injection Hna' as <-.
    apply seg_snoc in Hf as (Hf & nb' & Hnb' & Hxb).
    rewrite Hnb in Hnb'. injection Hnb' as <-.
    apply NoDup_app in Hnd as (Hnd & Hbn & _).
    assert (b ∉ ns0.*1) as Hbn' by (intros ?; eapply Hbn; [done|left]).
    assert (a ≠ b) as Hab by (intros <-; apply Han', elem_of_app; right; left).
    assert (a ∉ ns0.*1) as Han0 by (intros ?; apply Han', elem_of_app; by left).
    apply cells_app in Hc as [Hc (nb' & Hnb' & Hdb)%cells_singleton].
    rewrite Hnb in Hnb'. injection Hnb' as <-.
    rewrite length_app. simpl.
    replace (length ns0 + 1 + 1 =? 1) with false
      by (symmetry; apply Nat.eqb_neq; lia).
    unfold_monad. simpl. rewrite Htl, Hna. simpl. rewrite Hpv, Hnb. simpl.
    rewrite lookup_insert_ne by done. rewrite Hna.
    eexists _, _. split; [reflexivity|]. split; [|split; [|split; [|split]]].
    + split; simpl.
      * rewrite fmap_app. simpl. apply seg_snoc. split.
        { by apply seg_delete_ne, seg_insert_ne. }
        eexists. split.
        { rewrite lookup_delete_ne by done. by rewrite lookup_insert_eq. }
        done.
      * rewrite fmap_app. simpl. rewrite rev_unit. simpl.
        split; [done|]. eexists. split.
        { rewrite lookup_delete_ne by done. by rewrite lookup_insert_eq. }
        simpl. apply seg_delete_ne; [by rewrite elem_of_rev|].
        apply seg_insert_ne; [by rewrite elem_of_rev|]. done.
      * rewrite fmap_app. simpl. apply NoDup_app. split; [done|].
        split; [|apply NoDup_singleton].
        intros c Hc' ->%list_elem_of_singleton. done.
      * rewrite length_app. simpl. lia.
      * apply cells_app. split.
        { by apply cells_delete_ne, cells_insert_ne. }
        apply cells_singleton. eexists. split.
        { rewrite lookup_delete_ne by done. by rewrite lookup_insert_eq. }
        done.
    + intros c n Hc' Hn. rewrite lookup_delete_ne, lookup_insert_ne; [done| |].
      * intros <-. apply Hc'. rewrite !elem_of_app.
        left. right. left.
      * intros <-. apply Hc'. rewrite !elem_of_app. right. left.
    + by rewrite lookup_delete_eq.
    + rewrite dom_delete, dom_insert.
      apply subseteq_difference_l. intros x [->%elem_of_singleton|Hx]%elem_of_union;
        [apply elem_of_dom; eauto|done].
    + done.
Qed.
End end_operations.

(** ** Traversals of a well-formed list *)

Section traversals.
Context {T : Type} `{!Ordered T}.
Implicit Types (h : gmap loc (Node T)) (ns : list (loc * T)) (l : List).
Implicit Types (ps : list loc).

Lemma seg_prev_prevs h q ps pv : seg prev h q (rev ps) pv → prevs h pv ps.
Proof.
  revert pv. induction ps as [|a ps IH]; intros pv; simpl; [done|].
  intros (Hs & n & Hn & Hp)%seg_snoc. eauto.
Qed.

Lemma toVector_loop_spec h ns cur acc fuel :
  seg next h cur ns.*1 None → cells h ns → length ns ≤ fuel →
  toVector_loop fuel cur acc h = Ok (acc ++ ns.*2, h).
Proof.
  revert cur acc fuel. induction ns as [|[a v] ns IH]; intros cur acc fuel; simpl.
  - intros -> _ _. destruct fuel; simpl; by rewrite app_nil_r.
  - intros (-> & n & Hn & Hs) (( n' & Hn' & Hd) & Hc)%cells_cons Hfuel.
    rewrite Hn in Hn'. injection Hn' as <-.
    destruct fuel as [|fuel]; [lia|]. simpl.
    erewrite bind_Ok by by apply deref_Ok.
    rewrite IH; [|done|done|lia]. by rewrite <- app_assoc, Hd.
Qed.

Lemma toVector_spec h l ns fuel :
  repr h l ns → length ns ≤ fuel → toVector fuel l h = Ok (ns.*2, h).
Proof.
  intros [Hf _ _ _ Hc] Hfuel. unfold toVector.
  by rewrite (toVector_loop_spec h ns).
Qed.

Lemma forward_loop_spec h ps tail cur c fuel :
  seg next h cur ps None → (∀ t, last ps = Some t → tail = Some t) →
  length ps ≤ fuel →
  forward_loop fuel tail cur c h = Ok (Some (c + length ps), h).
Proof.
  revert cur c fuel. induction ps as [|a ps IH]; intros cur c fuel; simpl.
  - intros -> _ _. destruct fuel; simpl; unfold_monad; by rewrite Nat.add_0_r.
  - intros (-> & n & Hn & Hs) Hlast Hfuel.
    destruct fuel as [|fuel]; [lia|]. simpl.
    erewrite bind_Ok by by apply deref_Ok.
    destruct ps as [|b ps].
    + simpl in *. rewrite Hs, (Hlast a eq_refl).
      rewrite !bool_decide_eq_true_2 by done. simpl.
      destruct fuel; simpl; unfold_monad; do 3 f_equal; lia.
    + assert (next n = Some b) as Hnx by (by destruct Hs).
      rewrite (bool_decide_eq_false_2 (next n = None)) by congruence. simpl.
      rewrite IH; [f_equal; f_equal; f_equal; simpl; lia|done|done|simpl in *; lia].
Qed.

Lemma backward_loop_spec h ps head cur c fuel :
  seg prev h cur ps None → (∀ t, last ps = Some t → head = Some t) →
  length ps ≤ fuel →
  backward_loop fuel head cur c h = Ok (Some (c + length ps), h).
Proof.
  revert cur c fuel. induction ps as [|a ps IH]; intros cur c fuel; simpl.
  - intros -> _ _. destruct fuel; simpl; unfold_monad; by rewrite Nat.add_0_r.
  - intros (-> & n & Hn & Hs) Hlast Hfuel.
    destruct fuel as [|fuel]; [lia|]. simpl.
    erewrite bind_Ok by by apply deref_Ok.
    destruct ps as [|b ps].
    + simpl in *. rewrite Hs, (Hlast a eq_refl).
      rewrite !bool_decide_eq_true_2 by done. simpl.
      destruct fuel; simpl; unfold_monad; do 3 f_equal; lia.
    + assert (prev n = Some b) as Hnx by (by destruct Hs).
      rewrite (bool_decide_eq_false_2 (prev n = None)) by congruence. simpl.
      rewrite IH; [f_equal; f_equal; f_equal; simpl; lia|done|done|simpl in *; lia].
Qed.

Lemma links_loop_spec h ps pv cur fuel :
  seg next h cur ps None → prevs h pv ps → length ps ≤ fuel →
  links_loop fuel cur h = Ok (true, h).
Proof.
  revert cur pv fuel. induction ps as [|a ps IH]; intros cur pv fuel; simpl.
  - intros -> _ _. by destruct fuel.
  - intros (-> & n & Hn & Hs) (n' & Hn' & Hpv & Hps) Hfuel.
    rewrite Hn in Hn'. injection Hn' as <-.
    destruct ps as [|b ps].
    + simpl in Hs. destruct fuel; simpl; unfold_monad; by rewrite Hn, Hs.
    + pose proof Hs as (Hnx & nb & Hnb & _).
      pose proof Hps as (nb' & Hnb' & Hpb & _).
      rewrite Hnb in Hnb'. injection Hnb' as <-.
      destruct fuel as [|fuel]; [simpl in *; lia|].
      simpl. erewrite bind_Ok by by apply deref_Ok.
      rewrite Hnx. erewrite bind_Ok by by apply deref_Ok.
      rewrite Hpb. rewrite bool_decide_eq_true_2 by done. simpl.
      rewrite <- Hnx. eapply IH; [done|done|simpl in *; lia].
Qed.

Lemma last_rev_head {A} (xs : list A) : last (rev xs) = head xs.
Proof. destruct xs as [|x xs]; [done|]. simpl. by rewrite last_snoc. Qed.

Lemma head_rev_last {A} (xs : list A) : head (rev xs) = last xs.
Proof. rewrite <- (rev_involutive xs) at 2. by rewrite last_rev_head. Qed.

Lemma repr_head h l ns : repr h l ns → headNode l = head ns.*1.
Proof.
  intros [Hf _ _ _ _]. destruct (ns.*1); simpl in *; [done|]. by destruct Hf.
Qed.

Lemma repr_tail h l ns : repr h l ns → tailNode l = last ns.*1.
Proof.
  intros [_ Hb _ _ _]. rewrite <- head_rev_last.
  destruct (rev ns.*1); simpl in *; [done|]. by destruct Hb.
Qed.

Lemma checkIntegrity_spec h l ns fuel :
  repr h l ns → length ns ≤ fuel → checkIntegrity fuel l h = Ok (true, h).
Proof.
  intros Hr Hfuel. pose proof (repr_head _ _ _ Hr) as Hhd.
  pose proof (repr_tail _ _ _ Hr) as Htl.
  destruct Hr as [Hf Hb Hnd Hsz Hc]. unfold checkIntegrity. rewrite Hsz.
  destruct ns as [|[a v] [|[b w] ns]].
  - simpl in *. by rewrite Hhd, Htl.
  - simpl in *. rewrite Hhd, Htl. simpl.
    rewrite bool_decide_eq_true_2 by done. simpl.
    destruct Hf as (_ & n & Hn & Hnx). destruct Hb as (_ & n' & Hn' & Hpv).
    rewrite Hn in Hn'. injection Hn' as <-.
    erewrite bind_Ok by by apply deref_Ok.
    by rewrite Hnx, Hpv.
  - replace (length ((a, v) :: (b, w) :: ns) =? 0) with false by done.
    replace (length ((a, v) :: (b, w) :: ns) =? 1) with false by done.
    erewrite bind_Ok.
    2:{ eapply forward_loop_spec; [done| |by rewrite length_fmap].
        intros t Ht. rewrite Htl. done. }
    simpl. rewrite length_fmap, Nat.eqb_refl. simpl.
    erewrite bind_Ok.
    2:{ eapply backward_loop_spec; [done| |].
        - intros t Ht. rewrite last_rev_head in Ht. by rewrite Hhd.
        - rewrite length_rev. simpl. rewrite length_fmap. simpl in Hfuel. lia. }
    simpl. rewrite length_app, length_app, length_rev, length_fmap. simpl.
    replace (length ns + 1 + 1 =? S (S (length ns))) with true
      by (symmetry; apply Nat.eqb_eq; lia).
    simpl. eapply links_loop_spec; [done| |by rewrite length_fmap].
    by eapply seg_prev_prevs.
Qed.
End traversals.

(** ** Sequences of end operations, and [clear] *)

Section push_pop.
Context {T : Type} `{!Ordered T}.
Implicit Types (h : gmap loc (Node T)) (ns : list (loc * T)) (l : List).

Lemma repr_new h : repr (T:=T) h List_new [].
Proof. split; simpl; try done. apply NoDup_nil_2. apply Forall_nil_2. Qed.

Lemma run_ops_repr os : ∀ h l ns,
  repr h l ns → pops_guarded (length ns) os = true →
  ∃ l' h' ns', run_ops os l h = Ok (l', h') ∧ repr h' l' ns'.
Proof.
  induction os as [|o os IH]; intros h l ns Hr Hg; simpl in *.
  - by exists l, h, ns.
  - destruct o as [v|v| |].
    + destruct (pushFront_spec h l ns v Hr) as (l' & h' & Hrun & Hr' & _).
      erewrite bind_Ok by exact Hrun. eapply IH; [exact Hr'|done].
    + destruct (pushBack_spec h l ns v Hr) as (l' & h' & Hrun & Hr' & _).
      erewrite bind_Ok by exact Hrun. eapply IH; [exact Hr'|].
      rewrite length_app. simpl. by rewrite Nat.add_1_r.
    + apply andb_prop in Hg as [Hpos Hg]. apply Nat.ltb_lt in Hpos.
      destruct ns as [|[a v] ns]; [simpl in Hpos; lia|].
      destruct (popFront_spec h l a v ns Hr) as (l' & h' & Hrun & Hr' & _).
      erewrite bind_Ok by exact Hrun. eapply IH; [exact Hr'|].
      simpl in Hg. by rewrite Nat.sub_0_r in Hg.
    + apply andb_prop in Hg as [Hpos Hg]. apply Nat.ltb_lt in Hpos.
      destruct ns as [|[a v] ns _] using rev_ind; [simpl in Hpos; lia|].
      destruct (popBack_spec h l a v ns Hr) as (l' & h' & Hrun & Hr' & _).
      erewrite bind_Ok by exact Hrun. eapply IH; [exact Hr'|].
      rewrite length_app in Hg. simpl in Hg.
      by replace (length ns + 1 - 1) with (length ns) in Hg by lia.
Qed.

(** C2: after any sequence of pushFront, pushBack, popFront and popBack
    applied to the empty list, with pops only on non-empty lists, the
    operations succeed, [checkIntegrity()] returns true, and [listSize] is
    the number of nodes a forward traversal from [headNode] visits. *)
Theorem push_pop_integrity (h0 : gmap loc (Node T)) (os : list (op T)) :
  pops_guarded 0 os = true →
  ∃ l h, run_ops os List_new h0 = Ok (l, h) ∧
    ∀ fuel, listSize l ≤ fuel →
      checkIntegrity fuel l h = Ok (true, h) ∧
      ∃ vs, toVector fuel l h = Ok (vs, h) ∧ length vs = listSize l.
Proof.
  intros Hg.
  destruct (run_ops_repr os h0 List_new [] (repr_new h0) Hg)
    as (l & h & ns & Hrun & Hr).
  exists l, h. split; [done|]. intros fuel Hfuel.
  pose proof (repr_size _ _ _ Hr) as Hsz. rewrite Hsz in Hfuel.
  split; [by eapply checkIntegrity_spec|].
  exists ns.*2. split; [by apply toVector_spec|].
  by rewrite length_fmap.
Qed.

Lemma clear_loop_spec fuel : ∀ h l ns,
  repr h l ns → length ns ≤ fuel →
  ∃ l' h', clear_loop fuel l h = Ok (l', h') ∧ repr h' l' [] ∧
    isSorted l' = isSorted l ∧ preserved h h' ns.*1 ∧
    (∀ a, a ∈ ns.*1 → h' !! a = None) ∧ dom h' ⊆ dom h.
Proof.
  induction fuel as [|fuel IH]; intros h l ns Hr Hfuel.
  - destruct ns; [|simpl in Hfuel; lia].
    simpl. unfold empty. rewrite (repr_size _ _ _ Hr). simpl.
    exists l, h. split; [done|]. split; [done|]. split; [done|].
    split; [apply preserved_refl|]. split; [|done].
    intros a Ha. by apply elem_of_nil in Ha.
  - cbn [clear_loop]. unfold empty. rewrite (repr_size _ _ _ Hr).
    destruct ns as [|[a v] ns].
    + simpl. exists l, h. split; [done|]. split; [done|]. split; [done|].
      split; [apply preserved_refl|]. split; [|done].
      intros a Ha. by apply elem_of_nil in Ha.
    + cbn [length Nat.eqb].
      destruct (popFront_spec h l a v ns Hr)
        as (l1 & h1 & Hrun & Hr1 & Hp1 & Ha1 & Hd1 & Hs1).
      erewrite bind_Ok by exact Hrun.
      destruct (IH h1 l1 ns Hr1) as (l2 & h2 & Hrun2 & Hr2 & Hs2 & Hp2 & Hn2 & Hd2);
        [simpl in Hfuel; lia|].
      exists l2, h2. split; [done|]. split; [done|]. split; [congruence|].
      split; [|split].
      * eapply preserved_trans; [exact Hp1|exact Hp2|done|]. intros b Hb.
        simpl. by right.
      * intros b [->|Hb]%elem_of_cons; [|by apply Hn2].
        apply not_elem_of_dom. intros Hin. apply Hd2 in Hin.
        by apply not_elem_of_dom in Ha1.
      * by etrans.
Qed.

Lemma clear_spec h l ns fuel :
  repr h l ns → length ns ≤ fuel →
  ∃ h', clear fuel l h = Ok (List_new, h') ∧ repr h' List_new [] ∧
    preserved h h' ns.*1 ∧ (∀ a, a ∈ ns.*1 → h' !! a = None) ∧ dom h' ⊆ dom h.
Proof.
  intros Hr Hfuel.
  destruct (clear_loop_spec fuel h l ns Hr Hfuel)
    as (l' & h' & Hrun & Hr' & _ & Hp & Hn & Hd).
  exists h'. unfold clear. erewrite bind_Ok by exact Hrun.
  destruct (repr_nil_inv _ _ _ Hr') as (_ & Hhd & Htl).
  { by rewrite (repr_size _ _ _ Hr'). }
  pose proof (repr_size _ _ _ Hr') as Hsz. simpl in Hsz.
  unfold_monad. rewrite Hhd, Htl, Hsz. split; [done|].
  split; [apply repr_new|done].
Qed.

(** C10: after [clear()] the list is empty, [headNode] and [tailNode] are
    null, and the sortedness flag is true whatever it was before. *)
Theorem clear_resets (h : gmap loc (Node T)) (l : List) (ns : list (loc * T))
    (fuel : nat) :
  repr h l ns → listSize l ≤ fuel →
  ∃ l' h', clear fuel l h = Ok (l', h') ∧
    size l' = 0 ∧ empty l' = true ∧ headNode l' = None ∧ tailNode l' = None ∧
    sorted l' = true.
Proof.
  intros Hr Hfuel. rewrite (repr_size _ _ _ Hr) in Hfuel.
  destruct (clear_spec h l ns fuel Hr Hfuel) as (h' & Hrun & _).
  by exists List_new, h'.
Qed.
End push_pop.

(** ** reverse *)

Section reverse_proofs.
Context {T : Type} `{!Ordered T}.
Implicit Types (h : gmap loc (Node T)) (ns : list (loc * T)) (l : List).
Implicit Types (ps : list loc).

Lemma swap_all_notin h ps a : a ∉ ps → swap_all h ps !! a = h !! a.
Proof.
  revert h. induction ps as [|b ps IH]; intros h Ha; simpl; [done|].
  apply not_elem_of_cons in Ha as [Hab Ha].
  rewrite IH by done. by rewrite lookup_alter_ne.
Qed.

Lemma swap_all_in h ps a :
  NoDup ps → a ∈ ps → swap_all h ps !! a = swap_links <$> h !! a.
Proof.
  revert h. induction ps as [|b ps IH]; intros h Hnd Ha; simpl.
  - by apply elem_of_nil in Ha.
  - apply NoDup_cons in Hnd as [Hb Hnd].
    apply elem_of_cons in Ha as [->|Ha].
    + rewrite swap_all_notin by done. by rewrite lookup_alter_eq.
    + rewrite IH by done. rewrite lookup_alter_ne; [done|]. by intros ->.
Qed.

Lemma swap_all_involutive h ps :
  NoDup ps → swap_all (swap_all h ps) (rev ps) = h.
Proof.
  intros Hnd. apply map_eq. intros a.
  destruct (decide (a ∈ ps)) as [Ha|Ha].
  - rewrite swap_all_in; [|by apply NoDup_rev_2|by apply elem_of_rev].
    rewrite swap_all_in by done.
    destruct (h !! a) as [[]|]; done.
  - rewrite !swap_all_notin; [done|done|by rewrite elem_of_rev].
Qed.

(** Exchanging the links turns a [next] chain into a [prev] chain and
    back. *)
Lemma seg_swap_next h h' p ps q :
  (∀ a, a ∈ ps → h' !! a = swap_links <$> h !! a) →
  seg next h p ps q → seg prev h' p ps q.
Proof.
  revert p. induction ps as [|a ps IH]; intros p Hsw; simpl; [done|].
  intros (-> & n & Hn & Hs). split; [done|]. exists (swap_links n). split.
  - rewrite Hsw by left. by rewrite Hn.
  - simpl. apply IH; [|done]. intros b Hb. apply Hsw. by right.
Qed.

Lemma seg_swap_prev h h' p ps q :
  (∀ a, a ∈ ps → h' !! a = swap_links <$> h !! a) →
  seg prev h p ps q → seg next h' p ps q.
Proof.
  revert p. induction ps as [|a ps IH]; intros p Hsw; simpl; [done|].
  intros (-> & n & Hn & Hs). split; [done|]. exists (swap_links n). split.
  - rewrite Hsw by left. by rewrite Hn.
  - simpl. apply IH; [|done]. intros b Hb. apply Hsw. by right.
Qed.

Lemma reverse_loop_spec ps : ∀ h cur temp fuel,
  seg next h cur ps None → NoDup ps → length ps ≤ fuel →
  ∃ temp', reverse_loop fuel cur temp h = Ok (temp', swap_all h ps) ∧
    (ps = [] → temp' = temp) ∧
    (∀ a n, last ps = Some a → h !! a = Some n → temp' = prev n).
Proof.
  induction ps as [|a ps IH]; intros h cur temp fuel; simpl.
  - intros -> _ _. exists temp. destruct fuel; simpl; done.
  - intros (-> & n & Hn & Hs) [Ha Hnd]%NoDup_cons Hfuel.
    destruct fuel as [|fuel]; [lia|]. cbn [reverse_loop].
    erewrite bind_Ok by by apply deref_Ok.
    erewrite bind_Ok by by apply set_prev_Ok.
    erewrite bind_Ok by (apply set_next_Ok; by rewrite lookup_insert_eq).
    erewrite bind_Ok by (apply deref_Ok; by rewrite lookup_insert_eq).
    cbn [data next prev]. rewrite insert_insert_eq.
    assert (<[a:=mkNode (data n) (prev n) (next n)]> h = alter swap_links a h) as Heq.
    { apply map_eq. intros b. destruct (decide (a = b)) as [<-|].
      - by rewrite lookup_insert_eq, lookup_alter_eq, Hn.
      - by rewrite lookup_insert_ne, lookup_alter_ne. }
    rewrite Heq.
    destruct (IH (alter swap_links a h) (next n) (prev n) fuel)
      as (temp' & Hrun & Hnil & Hlast); [|done|lia|].
    { rewrite <- Heq. by apply seg_insert_ne. }
    exists temp'. split; [done|]. split; [done|].
    intros b nb Hb Hnb. destruct ps as [|c ps].
    + simpl in Hb. injection Hb as <-. rewrite Hn in Hnb. injection Hnb as <-.
      by apply Hnil.
    + apply (Hlast b nb); [done|]. rewrite lookup_alter_ne; [done|].
      intros <-. apply Ha. apply last_Some in Hb as [ps' Heq'].
      destruct ps' as [|? ps']; simplify_eq/=.
      match goal with H : _ :: _ = _ ++ _ |- _ => rewrite H end.
      apply elem_of_app. right. left.
Qed.

Lemma list_back2 {A} (xs : list A) :
  2 ≤ length xs → ∃ xs0 y z, xs = xs0 ++ [y; z].
Proof.
  destruct xs as [|z xs _] using rev_ind; [simpl; lia|].
  destruct xs as [|y xs _] using rev_ind; [simpl; lia|].
  intros _. exists xs, y, z. by rewrite <- app_assoc.
Qed.

Lemma repr_front2 h l p0 v0 p1 v1 ns :
  repr h l ((p0, v0) :: (p1, v1) :: ns) →
  headNode l = Some p0 ∧
  ∃ n0 n1, h !! p0 = Some n0 ∧ next n0 = Some p1 ∧
           h !! p1 = Some n1 ∧ prev n1 = Some p0.
Proof.
  intros [Hf Hb _ _ _]. apply seg_prev_prevs in Hb. simpl in *.
  destruct Hf as (Hhd & n0 & Hn0 & Hnx & n1 & Hn1 & _).
  destruct Hb as (n0' & _ & _ & n1' & Hn1' & Hpv & _).
  rewrite Hn1 in Hn1'. injection Hn1' as <-. eauto 10.
Qed.

Lemma repr_back2 h l ns b bv a av :
  repr h l (ns ++ [(b, bv); (a, av)]) →
  tailNode l = Some a ∧
  ∃ na nb, h !! a = Some na ∧ prev na = Some b ∧ next na = None ∧
           h !! b = Some nb ∧ next nb = Some a.
Proof.
  intros [Hf Hb _ _ _]. rewrite fmap_app in *. simpl in *.
  rewrite rev_app_distr in Hb. simpl in Hb.
  destruct Hb as (Htl & na & Hna & Hpv & nb & Hnb & _).
  apply seg_app in Hf as (m & _ & Hf). simpl in Hf.
  destruct Hf as (-> & nb' & Hnb' & Hnx & na' & Hna' & Hnn).
  rewrite Hnb in Hnb'. injection Hnb' as <-.
  rewrite Hna in Hna'. injection Hna' as <-. eauto 10.
Qed.

(** On a list of at least two nodes [reverse] exchanges the links of every
    node, but leaves [tailNode] equal to the new [headNode]. *)
Lemma reverse_spec h l ns fuel :
  repr h l ns → 2 ≤ length ns → length ns ≤ fuel →
  reverse fuel l h
  = Ok (mkList (tailNode l) (tailNode l) (listSize l) false, swap_all h ns.*1).
Proof.
  intros Hr H2 Hfuel. pose proof Hr as [Hf Hb Hnd Hsz Hc].
  unfold reverse. rewrite Hsz.
  replace (length ns <=? 1) with false by (symmetry; apply Nat.leb_gt; lia).
  destruct (reverse_loop_spec ns.*1 h (headNode l) None fuel)
    as (temp & Hrun & _ & Hlast); [done|done|by rewrite length_fmap|].
  erewrite bind_Ok by exact Hrun.
  destruct (list_back2 ns H2) as (ns0 & [b bv] & [a av] & ->).
  destruct (repr_back2 _ _ _ _ _ _ _ Hr) as (Htl & na & nb & Hna & Hpa & _ & Hnb & Hxb).
  rewrite (Hlast a na); [| |done].
  2:{ rewrite fmap_app. simpl. change [b; a] with ([b] ++ [a]).
      rewrite app_assoc. apply last_snoc. }
  rewrite Hpa.
  assert (swap_all h (ns0 ++ [(b, bv); (a, av)]).*1 !! b = Some (swap_links nb)) as Hb'.
  { rewrite swap_all_in, Hnb; [done|done|].
    rewrite fmap_app, elem_of_app. right. left. }
  unfold_monad. rewrite Hb'. simpl. by rewrite Hxb, Htl.
Qed.

(** A second call of [reverse] restores every link, and leaves [headNode]
    and [tailNode] exchanged. *)
Lemma reverse_again h l ns fuel :
  repr h l ns → 2 ≤ length ns → length ns ≤ fuel →
  reverse fuel (mkList (tailNode l) (tailNode l) (listSize l) false)
    (swap_all h ns.*1)
  = Ok (mkList (tailNode l) (headNode l) (listSize l) false, h).
Proof.
  intros Hr H2 Hfuel. pose proof Hr as [Hf Hb Hnd Hsz Hc].
  unfold reverse. cbn [listSize headNode tailNode]. rewrite Hsz.
  replace (length ns <=? 1) with false by (symmetry; apply Nat.leb_gt; lia).
  set (h1 := swap_all h ns.*1).
  assert (∀ a, a ∈ rev ns.*1 → h1 !! a = swap_links <$> h !! a) as Hsw.
  { intros a Ha. apply swap_all_in; [done|by apply elem_of_rev]. }
  destruct (reverse_loop_spec (rev ns.*1) h1 (tailNode l) None fuel)
    as (temp & Hrun & _ & Hlast).
  { by eapply seg_swap_prev. }
  { by apply NoDup_rev_2. }
  { by rewrite length_rev, length_fmap. }
  erewrite bind_Ok by exact Hrun.
  unfold h1. rewrite swap_all_involutive by done.
  destruct ns as [|[p0 v0] [|[p1 v1] ns]]; [simpl in H2; lia..|].
  destruct (repr_front2 _ _ _ _ _ _ _ Hr) as (Hhd & n0 & n1 & Hn0 & Hx0 & Hn1 & Hp1).
  rewrite (Hlast p0 (swap_links n0)).
  - simpl. rewrite Hx0. unfold_monad. rewrite Hn1. simpl.
    by rewrite Hp1, Hhd.
  - by rewrite last_rev_head.
  - rewrite Hsw, Hn0; [done|]. apply elem_of_rev. left.
Qed.

(** C9 (as amended): [reverse()] clears the sorted flag when the list has
    more than one element; on a list of zero or one element it returns at
    once and the flag keeps its value. *)
Theorem reverse_sorted_flag (h : gmap loc (Node T)) (l : List)
    (ns : list (loc * T)) (fuel : nat) :
  repr h l ns → listSize l ≤ fuel →
  ∃ l' h', reverse fuel l h = Ok (l', h') ∧
    sorted l' = (if listSize l <=? 1 then sorted l else false).
Proof.
  intros Hr Hfuel. rewrite (repr_size _ _ _ Hr) in Hfuel.
  destruct (decide (2 ≤ length ns)) as [H2|H2].
  - eexists _, _. split; [by eapply reverse_spec|].
    rewrite (repr_size _ _ _ Hr).
    by replace (length ns <=? 1) with false by (symmetry; apply Nat.leb_gt; lia).
  - exists l, h. unfold reverse. rewrite (repr_size _ _ _ Hr).
    by replace (length ns <=? 1) with true by (symmetry; apply Nat.leb_le; lia).
Qed.

(** C3 (the defect): on a list of at least two elements the second
    [reverse()] leaves [headNode] at the original last node, whose [next] is
    null again; the forward traversal then yields that one element, and
    [operator==] against a list holding the original sequence is false. *)
Theorem reverse_twice_not_equal (h : gmap loc (Node T)) (l o : List)
    (ns ms : list (loc * T)) (fuel : nat) :
  repr h l ns → repr h o ms → ms.*2 = ns.*2 →
  2 ≤ listSize l → listSize l ≤ fuel →
  ∃ l1 h1 l2 v,
    reverse fuel l h = Ok (l1, h1) ∧ reverse fuel l1 h1 = Ok (l2, h) ∧
    last ns.*2 = Some v ∧ toVector fuel l2 h = Ok ([v], h) ∧
    operator_eq fuel l2 o h = Ok (false, h).
Proof.
  intros Hr Ho Hvals H2 Hfuel. pose proof (repr_size _ _ _ Hr) as Hsz.
  rewrite Hsz in H2, Hfuel.
  destruct (list_back2 ns H2) as (ns0 & [b bv] & [a av] & Hns).
  pose proof Hr as Hr'. rewrite Hns in Hr'.
  destruct (repr_back2 _ _ _ _ _ _ _ Hr')
    as (Htl & na & nb & Hna & Hpa & Hxa & Hnb & Hxb).
  assert (data na = av) as Hda.
  { destruct Hr' as [_ _ _ _ Hc]. apply cells_app in Hc as [_ Hc].
    apply cells_cons in Hc as [_ Hc].
    apply cells_singleton in Hc as (na' & Hna' & Hd). congruence. }
  eexists _, _, _, av. split; [exact (reverse_spec h l ns fuel Hr H2 Hfuel)|].
  split; [exact (reverse_again h l ns fuel Hr H2 Hfuel)|]. split.
  { rewrite Hns, fmap_app. simpl. change [bv; av] with ([bv] ++ [av]).
    rewrite app_assoc. apply last_snoc. }
  destruct fuel as [|fuel]; [lia|]. split.
  - unfold toVector. cbn [headNode toVector_loop]. rewrite Htl.
    erewrite bind_Ok by by apply deref_Ok. rewrite Hxa, Hda.
    by destruct fuel.
  - unfold operator_eq. cbn [listSize headNode].
    rewrite Hsz, (repr_size _ _ _ Ho).
    assert (length ms = length ns) as Hlen
      by (rewrite <- (length_fmap snd ms), Hvals; apply length_fmap).
    rewrite Hlen, Nat.eqb_refl. cbn [negb].
    destruct ms as [|[q0 w0] [|[q1 w1] ms]]; [simpl in Hlen; lia..|].
    destruct (repr_front2 _ _ _ _ _ _ _ Ho) as (Hhd & m0 & m1 & Hm0 & Hy0 & _).
    rewrite Htl, Hhd. cbn [eq_loop].
    erewrite bind_Ok by by apply deref_Ok.
    erewrite bind_Ok by by apply deref_Ok.
    rewrite Hxa, Hy0. destruct (neb (data na) (data m0)); [done|].
    by destruct fuel.
Qed.
End reverse_proofs.

(** ** The merge sort on sequences *)

Section merge_sort_pure.
Context {T : Type} `{!Ordered T}.
Implicit Types (xs ys : list (loc * T)).

#[local] Instance le_node_trans : Transitive le_node.
Proof. intros x y z. unfold le_node, le. apply leb_trans. Qed.

Lemma leb_false_le (a b : T) : leb a b = false → le b a.
Proof. intros Hab. destruct (leb_total a b); [congruence|done]. Qed.

Lemma merge_nodes_nil_l ys : merge_nodes [] ys = ys.
Proof. by destruct ys. Qed.

Lemma merge_nodes_nil_r xs : merge_nodes xs [] = xs.
Proof. by destruct xs. Qed.

Lemma merge_nodes_cons x xs y ys :
  merge_nodes (x :: xs) (y :: ys)
  = if leb x.2 y.2 then x :: merge_nodes xs (y :: ys)
    else y :: merge_nodes (x :: xs) ys.
Proof. done. Qed.

Lemma merge_nodes_perm xs ys : merge_nodes xs ys ≡ₚ xs ++ ys.
Proof.
  revert ys. induction xs as [|x xs IHx]; intros ys;
    [by rewrite merge_nodes_nil_l|].
  induction ys as [|y ys IHy]; [by rewrite merge_nodes_nil_r, app_nil_r|].
  rewrite merge_nodes_cons. destruct (leb x.2 y.2).
  - simpl. by rewrite IHx.
  - rewrite IHy. change (y :: (x :: xs) ++ ys ≡ₚ (x :: xs) ++ y :: ys).
    apply Permutation_middle.
Qed.

Lemma merge_nodes_sorted xs ys :
  StronglySorted le_node xs → StronglySorted le_node ys →
  StronglySorted le_node (merge_nodes xs ys).
Proof.
  revert ys. induction xs as [|x xs IHx]; intros ys Hx Hy;
    [by rewrite merge_nodes_nil_l|].
  induction ys as [|y ys IHy]; [by rewrite merge_nodes_nil_r|].
  apply StronglySorted_inv in Hx as [Hx Hxall].
  apply StronglySorted_inv in Hy as Hy'. destruct Hy' as [Hy' Hyall].
  rewrite merge_nodes_cons. destruct (leb x.2 y.2) eqn:Hxy.
  - constructor; [by apply IHx|]. rewrite merge_nodes_perm.
    apply Forall_app. split; [done|]. constructor; [done|].
    eapply Forall_impl; [exact Hyall|]. intros z Hz. by etrans.
  - apply leb_false_le in Hxy.
    constructor; [by apply IHy|].
    rewrite merge_nodes_perm. apply Forall_app. split; [|done].
    constructor; [done|].
    eapply Forall_impl; [exact Hxall|]. intros z Hz. by etrans.
Qed.

Lemma holding_cons v x xs :
  holding v (x :: xs) = if eqb x.2 v then x :: holding v xs else holding v xs.
Proof.
  unfold holding. rewrite filter_cons. by destruct (eqb x.2 v); case_decide.
Qed.

Lemma holding_app v xs ys : holding v (xs ++ ys) = holding v xs ++ holding v ys.
Proof. apply filter_app. Qed.

Lemma holding_none v xs :
  Forall (λ x, x.2 ≠ v) xs → holding v xs = [].
Proof.
  induction 1 as [|x xs Hx _ IH]; [done|]. rewrite holding_cons.
  destruct (eqb x.2 v) eqn:E; [|done]. by apply eqb_eq in E.
Qed.

(** Nodes with equal values keep their order, the left ones first. *)
Lemma merge_nodes_stable v xs ys :
  StronglySorted le_node xs →
  holding v (merge_nodes xs ys) = holding v xs ++ holding v ys.
Proof.
  revert ys. induction xs as [|x xs IHx]; intros ys Hx;
    [by rewrite merge_nodes_nil_l|].
  induction ys as [|y ys IHy]; [by rewrite merge_nodes_nil_r, app_nil_r|].
  pose proof Hx as [Hx' Hxall]%StronglySorted_inv.
  rewrite merge_nodes_cons. destruct (leb x.2 y.2) eqn:Hxy.
  - rewrite !(holding_cons v x). rewrite IHx by done.
    by destruct (eqb x.2 v).
  - rewrite (holding_cons v y), IHy, (holding_cons v y).
    destruct (eqb y.2 v) eqn:E; [|done]. apply eqb_eq in E.
    rewrite (holding_none v (x :: xs)); [done|].
    assert (∀ z, le_node x z → z.2 ≠ v) as Hne.
    { intros z Hz Hzv. unfold le_node, le in Hz. congruence. }
    constructor.
    + apply Hne. unfold le_node, le. destruct (leb_total x.2 x.2); done.
    + eapply Forall_impl; [exact Hxall|]. intros z Hz. by apply Hne.
Qed.

Lemma msort_nodes_perm fuel : ∀ xs, msort_nodes fuel xs ≡ₚ xs.
Proof.
  induction fuel as [|fuel IH]; intros xs; [done|].
  destruct xs as [|x [|y xs]]; [done..|].
  cbn [msort_nodes]. rewrite merge_nodes_perm, !IH. by rewrite take_drop.
Qed.

Lemma half_bounds n : 2 ≤ n → 1 ≤ n / 2 ∧ n / 2 < n.
Proof.
  intros Hn. split.
  - apply Nat.div_le_lower_bound; lia.
  - apply Nat.div_lt; lia.
Qed.

Lemma msort_nodes_sorted fuel : ∀ xs,
  length xs ≤ fuel → StronglySorted le_node (msort_nodes fuel xs).
Proof.
  induction fuel as [|fuel IH]; intros xs Hlen.
  - destruct xs; [constructor|simpl in Hlen; lia].
  - destruct xs as [|x [|y xs]]; [constructor|repeat constructor|].
    cbn [msort_nodes]. set (zs := x :: y :: xs) in *.
    destruct (half_bounds (length zs)) as [H1 H2]; [simpl; lia|].
    apply merge_nodes_sorted; apply IH.
    + rewrite length_take. lia.
    + rewrite length_drop. lia.
Qed.

Lemma msort_nodes_stable v fuel : ∀ xs,
  length xs ≤ fuel → holding v (msort_nodes fuel xs) = holding v xs.
Proof.
  induction fuel as [|fuel IH]; intros xs Hlen; [done|].
  destruct xs as [|x [|y xs]]; [done..|].
  cbn [msort_nodes]. set (zs := x :: y :: xs) in *.
  destruct (half_bounds (length zs)) as [H1 H2]; [simpl; lia|].
  rewrite merge_nodes_stable.
  - rewrite !IH; [|rewrite length_drop; lia|rewrite length_take; lia].
    by rewrite <- holding_app, take_drop.
  - apply msort_nodes_sorted. rewrite length_take. lia.
Qed.

Lemma msort_nodes_length fuel xs : length (msort_nodes fuel xs) = length xs.
Proof. by rewrite msort_nodes_perm. Qed.
End merge_sort_pure.

(** ** sort() on the heap *)

Section sort_proofs.
Context {T : Type} `{!Ordered T}.
Implicit Types (h : gmap loc (Node T)) (ns xs ys : list (loc * T)) (l : List).
Implicit Types (ps : list loc).

Lemma keeps_refl g h own : keeps g h h own.
Proof. by intros a. Qed.

Lemma keeps_mono g h h' own own' :
  keeps g h h' own → (∀ a, a ∈ own → a ∈ own') → keeps g h h' own'.
Proof.
  intros Hno Hsub a. destruct (Hno a) as (? & ? & Hn).
  split; [done|]. split; [done|]. intros Ha. apply Hn. naive_solver.
Qed.

Lemma keeps_trans g h1 h2 h3 own :
  keeps g h1 h2 own → keeps g h2 h3 own → keeps g h1 h3 own.
Proof.
  intros H12 H23 a.
  destruct (H12 a) as (Hd1 & Hp1 & Hn1). destruct (H23 a) as (Hd2 & Hp2 & Hn2).
  split; [congruence|]. split; [congruence|].
  intros Ha. by rewrite Hn2, Hn1.
Qed.

Lemma keeps_lookup g h h' own a n :
  keeps g h h' own → h !! a = Some n →
  ∃ n', h' !! a = Some n' ∧ data n' = data n ∧ g n' = g n.
Proof.
  intros Hno Hn. destruct (Hno a) as (Hd & Hp & _). rewrite Hn in Hd, Hp.
  destruct (h' !! a) as [n'|]; [|done]. simpl in *.
  exists n'. split; [done|]. split; congruence.
Qed.

Lemma keeps_seg g h h' own p ps q :
  keeps g h h' own → seg g h p ps q → seg g h' p ps q.
Proof. intros Hno. apply seg_ext. intros a _. by destruct (Hno a) as (_ & ? & _). Qed.

Lemma keeps_seg_ne f g h h' own p ps q :
  keeps g h h' own → (∀ a, a ∈ ps → a ∉ own) →
  seg f h p ps q → seg f h' p ps q.
Proof.
  intros Hno Hd. apply seg_ext. intros a Ha.
  destruct (Hno a) as (_ & _ & Heq). by rewrite Heq by by apply Hd.
Qed.

Lemma keeps_cells g h h' own ns : keeps g h h' own → cells h ns → cells h' ns.
Proof. intros Hno. apply cells_ext. intros a _. by destruct (Hno a) as (? & _). Qed.

Lemma keeps_preserved g h h' own : keeps g h h' own → preserved h h' own.
Proof. intros Hk a n Ha Hn. destruct (Hk a) as (_ & _ & ->); done. Qed.

Lemma next_only_set_next h a n q own :
  h !! a = Some n → a ∈ own →
  next_only h (<[a := mkNode (data n) q (prev n)]> h) own.
Proof.
  intros Hn Ha b. destruct (decide (a = b)) as [<-|Hab].
  - rewrite lookup_insert_eq, Hn. done.
  - by rewrite lookup_insert_ne.
Qed.

Lemma prev_only_set_prev h a n q own :
  h !! a = Some n → a ∈ own →
  prev_only h (<[a := mkNode (data n) (next n) q]> h) own.
Proof.
  intros Hn Ha b. destruct (decide (a = b)) as [<-|Hab].
  - rewrite lookup_insert_eq, Hn. done.
  - by rewrite lookup_insert_ne.
Qed.

Lemma seg_None_head f h p ps : seg f h p ps None → p = head ps.
Proof. destruct ps; simpl; [done|]. by intros [-> _]. Qed.

Lemma merge_spec fuel : ∀ xs ys h left right,
  seg next h left xs.*1 None → seg next h right ys.*1 None →
  cells h xs → cells h ys → NoDup (xs.*1 ++ ys.*1) →
  length xs + length ys ≤ fuel →
  ∃ h', merge fuel left right h = Ok (hd_ptr (merge_nodes xs ys), h') ∧
    seg next h' (hd_ptr (merge_nodes xs ys)) (merge_nodes xs ys).*1 None ∧
    next_only h h' (xs.*1 ++ ys.*1).
Proof.
  unfold hd_ptr.
  induction fuel as [|fuel IH]; intros xs ys h left right Hl Hr Hcx Hcy Hnd Hfuel.
  - destruct xs, ys; simpl in Hfuel; try lia. simpl in *. subst.
    exists h. split; [done|]. split; [done|]. apply keeps_refl.
  - destruct xs as [|[a av] xs].
    { simpl in Hl. subst left. rewrite merge_nodes_nil_l.
      exists h. split; [|split; [|apply keeps_refl]].
      - simpl. by rewrite (seg_None_head _ _ _ _ Hr).
      - by rewrite <- (seg_None_head _ _ _ _ Hr). }
    destruct ys as [|[b bv] ys].
    { simpl in Hr. subst right. rewrite merge_nodes_nil_r.
      pose proof (seg_None_head _ _ _ _ Hl) as ->.
      exists h. split; [done|]. split; [done|apply keeps_refl]. }
    pose proof Hl as (-> & na & Hna & Hl').
    pose proof Hr as (-> & nb & Hnb & Hr').
    pose proof Hcx as [(na' & Hna' & Hda) Hcx']%cells_cons.
    pose proof Hcy as [(nb' & Hnb' & Hdb) Hcy']%cells_cons.
    cbn [fst snd] in *.
    rewrite Hna in Hna'. injection Hna' as <-.
    rewrite Hnb in Hnb'. injection Hnb' as <-.
    cbn [merge]. erewrite bind_Ok by by apply deref_Ok.
    erewrite bind_Ok by by apply deref_Ok.
    rewrite merge_nodes_cons. cbn [snd]. rewrite Hda, Hdb.
    simpl in Hnd. apply NoDup_cons in Hnd as [Ha Hnd].
    destruct (leb av bv) eqn:Hab.
    + destruct (IH xs ((b, bv) :: ys) h (next na) (Some b))
        as (h1 & Hrun & Hseg & Hno); [done|done|done|done|done|simpl in *; lia|].
      erewrite bind_Ok by exact Hrun.
      destruct (keeps_lookup _ _ _ _ _ _ Hno Hna) as (na1 & Hna1 & Hd1 & Hp1).
      erewrite bind_Ok by by apply set_next_Ok.
      eexists. split; [reflexivity|]. split.
      * rewrite fmap_cons. cbn [head fst seg]. split; [done|].
        eexists. split; [by rewrite lookup_insert_eq|].
        cbn [next]. apply seg_insert_ne; [|done].
        rewrite merge_nodes_perm, fmap_app. done.
      * eapply keeps_trans; [eapply keeps_mono; [exact Hno|by right]|].
        apply next_only_set_next; [done|]. left.
    + destruct (IH ((a, av) :: xs) ys h (Some a) (next nb))
        as (h1 & Hrun & Hseg & Hno); [done|done|done|done| |simpl in *; lia|].
      { simpl. apply (NoDup_cons_2 a).
        - intros Hin. apply Ha. apply elem_of_app in Hin as [?|?];
            apply elem_of_app; [by left|right; by right].
        - rewrite <- Permutation_middle in Hnd. by apply NoDup_cons in Hnd as [_ ?]. }
      erewrite bind_Ok by exact Hrun.
      destruct (keeps_lookup _ _ _ _ _ _ Hno Hnb) as (nb1 & Hnb1 & Hd1 & Hp1).
      erewrite bind_Ok by by apply set_next_Ok.
      eexists. split; [reflexivity|]. split.
      * rewrite fmap_cons. cbn [head fst seg]. split; [done|].
        eexists. split; [by rewrite lookup_insert_eq|].
        cbn [next]. apply seg_insert_ne; [|done].
        rewrite merge_nodes_perm, fmap_app. simpl.
        rewrite <- Permutation_middle in Hnd.
        apply NoDup_cons in Hnd as [Hb _].
        intros [->|Hin]%elem_of_cons; [|by apply Hb].
        apply Ha, elem_of_app. right. left.
      * eapply keeps_trans; [eapply keeps_mono; [exact Hno|]|].
        { intros c Hc. simpl in Hc. simpl.
          apply elem_of_cons in Hc as [->|Hc]; [left|right].
          apply elem_of_app in Hc as [?|?]; apply elem_of_app;
            [by left|right; by right]. }
        apply next_only_set_next; [done|].
        apply elem_of_app. right. left.
Qed.

Lemma div2_SS n : S (S n) / 2 = S (n / 2).
Proof.
  replace (S (S n)) with (n + 1 * 2) by lia. rewrite Nat.div_add by done. lia.
Qed.

Lemma split_loop_spec h fuel : ∀ ss fs slow fast prv,
  seg next h slow ss None → seg next h fast fs None →
  length fs ≤ length ss → length fs / 2 ≤ fuel →
  split_loop fuel slow fast prv h
  = Ok ((head (drop (length fs / 2) ss),
         from_option Some prv (last (take (length fs / 2) ss))), h).
Proof.
  induction fuel as [|fuel IH]; intros ss fs slow fast prv Hs Hf Hlen Hfuel.
  - destruct fs as [|a [|b fs]].
    + simpl in *. subst fast. simpl. try rewrite drop_0.
      by rewrite (seg_None_head _ _ _ _ Hs).
    + simpl in Hf. destruct Hf as (-> & na & Hna & Hnx).
      cbn [split_loop]. erewrite bind_Ok by by apply deref_Ok.
      rewrite Hnx. simpl. try rewrite drop_0.
      by rewrite (seg_None_head _ _ _ _ Hs).
    + cbn [length] in Hfuel. rewrite div2_SS in Hfuel. lia.
  - destruct fs as [|a [|b fs]].
    + simpl in *. subst fast. simpl. try rewrite drop_0.
      by rewrite (seg_None_head _ _ _ _ Hs).
    + simpl in Hf. destruct Hf as (-> & na & Hna & Hnx).
      cbn [split_loop]. erewrite bind_Ok by by apply deref_Ok.
      rewrite Hnx. simpl. try rewrite drop_0.
      by rewrite (seg_None_head _ _ _ _ Hs).
    + destruct Hf as (-> & na & Hna & Hnx & nb & Hnb & Hf).
      destruct ss as [|s ss]; [simpl in Hlen; lia|].
      destruct Hs as (-> & ns & Hns & Hs).
      cbn [split_loop]. erewrite bind_Ok by by apply deref_Ok.
      rewrite Hnx. erewrite bind_Ok by by apply deref_Ok.
      erewrite bind_Ok by by apply deref_Ok.
      cbn [length] in *. rewrite div2_SS in *.
      rewrite (IH ss fs); [|done|done|lia|lia].
      cbn [drop take]. do 3 f_equal.
      destruct (take (length fs / 2) ss) as [|t ts] using rev_ind; [done|].
      by rewrite app_comm_cons, !last_snoc.
Qed.

Lemma cells_perm h ns ns' : ns ≡ₚ ns' → cells h ns → cells h ns'.
Proof. intros Hp. unfold cells. by rewrite Hp. Qed.

Lemma mergeSort_spec fuel : ∀ xs h head,
  seg next h head xs.*1 None → cells h xs → NoDup xs.*1 →
  xs ≠ [] → length xs ≤ fuel →
  ∃ h', mergeSort fuel head h = Ok (hd_ptr (msort_nodes fuel xs), h') ∧
    seg next h' (hd_ptr (msort_nodes fuel xs)) (msort_nodes fuel xs).*1 None ∧
    next_only h h' xs.*1.
Proof.
  induction fuel as [|fuel IH]; intros xs h hd Hseg Hc Hnd Hne Hfuel.
  { destruct xs; [done|simpl in Hfuel; lia]. }
  destruct xs as [|[a av] [|[b bv] xs]]; [done| |].
  { (* one node *)
    destruct Hseg as (-> & na & Hna & Hnx). simpl in Hnx.
    cbn [mergeSort]. erewrite bind_Ok by by apply deref_Ok. rewrite Hnx.
    exists h. split; [done|]. split; [|apply keeps_refl].
    simpl. eauto. }
  set (zs := (a, av) :: (b, bv) :: xs) in *.
  assert (2 ≤ length zs) as H2 by (simpl; lia).
  destruct (half_bounds (length zs) H2) as [Hk1 Hk2].
  pose proof Hseg as (-> & na & Hna & Hnx & _).
  cbn [mergeSort]. erewrite bind_Ok by by apply deref_Ok. rewrite Hnx.
  (* the slow/fast walk *)
  erewrite bind_Ok.
  2:{ apply (split_loop_spec h (S fuel) zs.*1 zs.*1); [done|done|done|].
      rewrite length_fmap. lia. }
  rewrite length_fmap. set (k := length zs / 2) in *.
  rewrite <- fmap_take, <- fmap_drop.
  assert (∃ L0 p pv, take k zs = L0 ++ [(p, pv)]) as (L0 & p & pv & HL).
  { assert (length (take k zs) = k) as HlenL by (rewrite length_take; lia).
    destruct (take k zs) as [|[p pv] L0 _] using rev_ind;
      [simpl in HlenL; lia|eauto]. }
  remember (drop k zs) as R eqn:HR.
  assert (zs = (L0 ++ [(p, pv)]) ++ R) as HLR
    by (rewrite <- HL, HR; by rewrite take_drop).
  assert (length (L0 ++ [(p, pv)]) = k) as HlenL
    by (rewrite <- HL, length_take; lia).
  assert (length R = length zs - k) as HlenR by (rewrite HR; by rewrite length_drop).
  rewrite HL, fmap_app. cbn [fmap list_fmap fst]. rewrite last_snoc.
  cbn [from_option].
  rewrite HLR in Hseg, Hc, Hnd. rewrite !fmap_app in Hseg, Hnd.
  apply seg_app in Hseg as (m & HsL & HsR).
  pose proof (seg_None_head _ _ _ _ HsR) as ->.
  apply seg_snoc in HsL as (HsL0 & np & Hnp & Hnxp).
  apply cells_app in Hc as [HcL HcR].
  pose proof Hnd as (HndL & Hdisj & HndR)%NoDup_app.
  rewrite <- fmap_app in Hdisj.
  assert (p ∉ R.*1) as HpR.
  { intros Hin. eapply Hdisj; [|exact Hin]. rewrite fmap_app.
    apply elem_of_app. right. left. }
  assert (p ∉ L0.*1) as HpL0.
  { cbn [fmap list_fmap fst] in HndL. apply NoDup_app in HndL as (_ & HL0 & _).
    intros Hin. eapply HL0; [exact Hin|left]. }
  (* prev->next = nullptr *)
  erewrite bind_Ok by by apply set_next_Ok.
  set (h1 := <[p := _]> h).
  assert (next_only h h1 (zs.*1)) as Hno1.
  { apply next_only_set_next; [done|]. rewrite HLR, !fmap_app.
    apply elem_of_app. left. apply elem_of_app. right. left. }
  assert (seg next h1 (Some a) (L0 ++ [(p, pv)]).*1 None) as HsL1.
  { rewrite fmap_app. apply seg_snoc. split.
    - by apply seg_insert_ne.
    - eexists. split; [by apply lookup_insert_eq|done]. }
  assert (seg next h1 (head R.*1) R.*1 None) as HsR1 by by apply seg_insert_ne.
  (* the two recursive calls *)
  destruct (IH (L0 ++ [(p, pv)]) h1 (Some a)) as (h2 & Hrun2 & Hs2 & Hno2);
    [done|by eapply keeps_cells|by rewrite fmap_app|by destruct L0|lia|].
  erewrite bind_Ok by exact Hrun2.
  assert (R ≠ []) as HRne.
  { intros ->. change (length (@nil (loc * T))) with 0 in HlenR. lia. }
  destruct (IH R h2 (head R.*1)) as (h3 & Hrun3 & Hs3 & Hno3); [| |done|done|lia|].
  { eapply keeps_seg_ne; [exact Hno2| |done].
    intros c Hc1 Hc2. by eapply Hdisj. }
  { eapply keeps_cells; [exact Hno2|]. by eapply keeps_cells. }
  erewrite bind_Ok by exact Hrun3.
  (* merge *)
  set (Ls := msort_nodes fuel (L0 ++ [(p, pv)])) in *.
  set (Rs := msort_nodes fuel R) in *.
  assert (Ls.*1 ≡ₚ (L0 ++ [(p, pv)]).*1) as HpL
    by (unfold Ls; by rewrite msort_nodes_perm).
  assert (Rs.*1 ≡ₚ R.*1) as HpR' by (unfold Rs; by rewrite msort_nodes_perm).
  destruct (merge_spec (S fuel) Ls Rs h3 (hd_ptr Ls) (hd_ptr Rs))
    as (h4 & Hrun4 & Hs4 & Hno4).
  { eapply keeps_seg_ne; [exact Hno3| |done].
    intros c Hc1 Hc2. rewrite HpL in Hc1. by eapply Hdisj. }
  { done. }
  { eapply cells_perm; [symmetry; apply msort_nodes_perm|].
    do 3 (eapply keeps_cells; [eassumption|]). done. }
  { eapply cells_perm; [symmetry; apply msort_nodes_perm|].
    do 3 (eapply keeps_cells; [eassumption|]). done. }
  { rewrite HpL, HpR'. by rewrite fmap_app. }
  { unfold Ls, Rs. rewrite !msort_nodes_length. rewrite HlenL, HlenR. lia. }
  exists h4. unfold zs at 1 2. cbn [msort_nodes]. fold zs. fold k.
  rewrite HL, <- HR. fold Ls Rs. split; [exact Hrun4|]. split; [exact Hs4|].
  assert (∀ c, c ∈ (L0 ++ [(p, pv)]).*1 → c ∈ zs.*1) as HinL.
  { intros c Hc'. rewrite HLR, fmap_app. apply elem_of_app. by left. }
  assert (∀ c, c ∈ R.*1 → c ∈ zs.*1) as HinR.
  { intros c Hc'. rewrite HLR, fmap_app. apply elem_of_app. by right. }
  apply (keeps_mono _ _ _ _ zs.*1) in Hno2; [|done].
  apply (keeps_mono _ _ _ _ zs.*1) in Hno3; [|done].
  apply (keeps_mono _ _ _ _ zs.*1) in Hno4.
  2:{ intros c Hc'. rewrite HpL, HpR' in Hc'.
      apply elem_of_app in Hc' as [?|?]; [by apply HinL|by apply HinR]. }
  apply (keeps_trans _ h h3 h4 zs.*1); [|done].
  apply (keeps_trans _ h h2 h3 zs.*1); [|done].
  by apply (keeps_trans _ h h1 h2 zs.*1).
Qed.

Lemma from_option_last_cons (a : loc) ps (d : ptr) :
  from_option Some d (last (a :: ps)) = from_option Some (Some a) (last ps).
Proof.
  destruct ps as [|b ps _] using rev_ind; [done|].
  by rewrite app_comm_cons, !last_snoc.
Qed.

Lemma prevs_seg_prev h ps : ∀ pv,
  prevs h pv ps → seg prev h (from_option Some pv (last ps)) (rev ps) pv.
Proof.
  induction ps as [|a ps IH]; intros pv; simpl; [done|].
  intros (n & Hn & Hpv & Hps). apply seg_snoc. split; [|eauto].
  rewrite (from_option_last_cons a ps pv). by apply IH.
Qed.

Lemma prevs_ext h h' pv ps :
  (∀ a, a ∈ ps → prev <$> h' !! a = prev <$> h !! a) →
  prevs h pv ps → prevs h' pv ps.
Proof.
  revert pv. induction ps as [|a ps IH]; intros pv Hext; simpl; [done|].
  intros (n & Hn & Hpv & Hps).
  pose proof (Hext a (list_elem_of_here _ _)) as Ha. rewrite Hn in Ha.
  destruct (h' !! a) as [n'|]; [|done]. simpl in Ha. injection Ha as Ha.
  exists n'. split; [done|]. split; [congruence|].
  apply IH; [|done]. intros b Hb. apply Hext. by right.
Qed.

Lemma relink_loop_spec fuel : ∀ ps a h tail pv,
  seg next h (Some a) (a :: ps) None → NoDup (a :: ps) →
  (∃ n, h !! a = Some n ∧ prev n = pv) → length ps ≤ fuel →
  ∃ h', relink_loop fuel (Some a) tail h
        = Ok (from_option Some tail (last ps), h') ∧
    prevs h' pv (a :: ps) ∧ prev_only h h' ps.
Proof.
  induction fuel as [|fuel IH]; intros ps a h tail pv Hseg Hnd Hpv Hfuel.
  - destruct ps; [|simpl in Hfuel; lia].
    destruct Hseg as (_ & n & Hn & Hnx). simpl in Hnx.
    cbn [relink_loop]. erewrite bind_Ok by by apply deref_Ok. rewrite Hnx.
    exists h. split; [done|]. split; [|apply keeps_refl].
    destruct Hpv as (n' & Hn' & Hpv). simpl. eauto.
  - destruct Hseg as (_ & n & Hn & Hseg). destruct Hpv as (n' & Hn' & Hpv).
    rewrite Hn in Hn'. injection Hn' as <-.
    cbn [relink_loop]. erewrite bind_Ok by by apply deref_Ok.
    destruct ps as [|b ps].
    { simpl in Hseg. rewrite Hseg. exists h. split; [done|].
      split; [|apply keeps_refl]. simpl. eauto. }
    pose proof Hseg as (Hnx & nb & Hnb & Hseg'). rewrite Hnx.
    apply NoDup_cons in Hnd as [Ha Hnd].
    assert (a ≠ b) as Hab by (intros ->; apply Ha; left).
    erewrite bind_Ok by by apply set_prev_Ok.
    erewrite bind_Ok by (apply deref_Ok; by rewrite lookup_insert_ne).
    rewrite Hnx. set (h1 := <[b := _]> h).
    destruct (IH ps b h1 (Some b) (Some a)) as (h' & Hrun & Hps & Hpo).
    { split; [done|]. eexists. split; [by apply lookup_insert_eq|].
      simpl. apply NoDup_cons in Hnd as [Hb _]. by apply seg_insert_ne. }
    { done. }
    { eexists. split; [by apply lookup_insert_eq|done]. }
    { simpl in Hfuel. lia. }
    exists h'. split; [|split].
    + rewrite Hrun. by rewrite from_option_last_cons.
    + simpl. exists n. split; [|split; [done|exact Hps]].
      destruct (Hpo a) as (_ & _ & Heq).
      rewrite Heq; [unfold h1; by rewrite lookup_insert_ne|].
      intros Hin. apply Ha. by right.
    + eapply keeps_trans; [|eapply keeps_mono; [exact Hpo|by right]].
      apply prev_only_set_prev; [done|left].
Qed.

Lemma msort_nodes_small fuel xs : length xs ≤ 1 → msort_nodes fuel xs = xs.
Proof. destruct fuel, xs as [|? [|? ?]]; simpl; done || lia. Qed.

Lemma msort_nodes_fuel f1 : ∀ f2 xs,
  length xs ≤ f1 → length xs ≤ f2 → msort_nodes f1 xs = msort_nodes f2 xs.
Proof.
  induction f1 as [|f1 IH]; intros f2 xs H1 H2.
  - destruct xs; [|simpl in H1; lia]. by destruct f2.
  - destruct xs as [|x [|y xs]]; [by destruct f2..|].
    destruct f2 as [|f2]; [simpl in H2; lia|].
    cbn [msort_nodes]. set (zs := x :: y :: xs) in *.
    destruct (half_bounds (length zs)) as [Hk1 Hk2]; [simpl; lia|].
    f_equal; apply IH; rewrite ?length_take, ?length_drop; lia.
Qed.

Lemma sort_spec h l ns fuel :
  repr h l ns → length ns ≤ fuel →
  ∃ l' h', sort fuel l h = Ok (l', h') ∧
    repr h' l' (msort_nodes (length ns) ns) ∧ isSorted l' = true ∧
    preserved h h' ns.*1.
Proof.
  intros Hr Hfuel. pose proof Hr as [Hf Hb Hnd Hsz Hc].
  unfold sort. rewrite Hsz. destruct (decide (length ns ≤ 1)) as [H1|H1].
  { replace (length ns <=? 1) with true by (symmetry; apply Nat.leb_le; lia).
    eexists _, _. split; [done|]. rewrite msort_nodes_small by done.
    split; [split; simpl; done|]. split; [done|apply preserved_refl]. }
  replace (length ns <=? 1) with false by (symmetry; apply Nat.leb_gt; lia).
  rewrite <- (msort_nodes_fuel fuel) by done.
  destruct (mergeSort_spec fuel ns h (headNode l)) as (h1 & Hrun1 & Hs1 & Hno1);
    [done|done|done|intros ->; simpl in H1; lia|done|].
  erewrite bind_Ok by exact Hrun1.
  pose proof (msort_nodes_perm fuel ns) as Hperm.
  set (sorted_ns := msort_nodes fuel ns) in *.
  assert (sorted_ns.*1 ≡ₚ ns.*1) as Hperm1 by by rewrite Hperm.
  destruct sorted_ns as [|[a av] rest] eqn:Hsorted.
  { apply Permutation_nil_l in Hperm. subst ns. simpl in H1. lia. }
  unfold hd_ptr in *. cbn [fmap list_fmap fst head] in *.
  pose proof Hs1 as (_ & na & Hna & Hs1').
  erewrite bind_Ok by by apply set_prev_Ok.
  set (h2 := <[a := _]> h1).
  assert (NoDup (a :: rest.*1)) as Hnd1 by by rewrite Hperm1.
  assert (prev_only h1 h2 (a :: rest.*1)) as Hpo2
    by (apply prev_only_set_prev; [done|left]).
  destruct (relink_loop_spec fuel rest.*1 a h2 (Some a) None)
    as (h3 & Hrun3 & Hps & Hpo3).
  { eapply keeps_seg; [exact Hpo2|done]. }
  { done. }
  { eexists. split; [by apply lookup_insert_eq|done]. }
  { rewrite length_fmap. apply Permutation_length in Hperm. simpl in Hperm. lia. }
  erewrite bind_Ok by exact Hrun3.
  eexists _, _. split; [reflexivity|]. split; [|split; [done|]].
  - split; cbn [headNode tailNode listSize fmap list_fmap fst].
    + eapply keeps_seg; [exact Hpo3|]. eapply keeps_seg; [exact Hpo2|done].
    + apply prevs_seg_prev in Hps.
      by rewrite from_option_last_cons in Hps.
    + done.
    + apply Permutation_length in Hperm. by rewrite Hperm.
    + eapply keeps_cells; [exact Hpo3|]. eapply keeps_cells; [exact Hpo2|].
      eapply keeps_cells; [exact Hno1|]. eapply cells_perm; [|exact Hc].
      by symmetry.
  - apply (keeps_mono _ _ _ _ ns.*1) in Hpo2; [|by intros c; rewrite Hperm1].
    apply (keeps_mono _ _ _ _ ns.*1) in Hpo3.
    2:{ intros c Hc'. rewrite <- Hperm1. by right. }
    apply keeps_preserved in Hno1, Hpo2, Hpo3.
    eapply preserved_trans; [|exact Hpo3|done|done].
    eapply preserved_trans; [exact Hno1|exact Hpo2|done|done].
Qed.

Lemma is_nondecreasing_spec (vs : list T) :
  is_nondecreasing vs = true ↔ nondecreasing vs.
Proof.
  unfold nondecreasing. induction vs as [|a [|b vs] IH].
  - split; [constructor|done].
  - split; [repeat constructor|done].
  - cbn [is_nondecreasing]. rewrite andb_true_iff, IH.
    rewrite negb_true_iff, gtb_ltb, ltb_leb, negb_false_iff.
    split.
    + intros [Hab Hs]. constructor; [done|]. by constructor.
    + intros Hs. inversion Hs as [|? ? Hs' Hhd]; subst.
      inversion Hhd; subst. done.
Qed.

Lemma isSortedCheck_loop_spec h fuel : ∀ ns a v,
  seg next h (Some a) ((a, v) :: ns).*1 None → cells h ((a, v) :: ns) →
  length ns ≤ fuel →
  isSortedCheck_loop fuel (Some a) h = Ok (is_nondecreasing (v :: ns.*2), h).
Proof.
  induction fuel as [|fuel IH]; intros ns a v Hseg Hc Hfuel.
  - destruct ns; [|simpl in Hfuel; lia].
    destruct Hseg as (_ & n & Hn & Hnx). simpl in Hnx.
    cbn [isSortedCheck_loop]. erewrite bind_Ok by by apply deref_Ok.
    by rewrite Hnx.
  - destruct Hseg as (_ & n & Hn & Hseg).
    apply cells_cons in Hc as [(n' & Hn' & Hd) Hc].
    cbn [fst] in *. rewrite Hn in Hn'. injection Hn' as <-.
    cbn [isSortedCheck_loop]. erewrite bind_Ok by by apply deref_Ok.
    destruct ns as [|[b w] ns].
    { simpl in Hseg. by rewrite Hseg. }
    pose proof Hseg as (Hnx & nb & Hnb & _).
    pose proof Hc as [(nb' & Hnb' & Hdb) _]%cells_cons.
    cbn [fst] in *. rewrite Hnb in Hnb'. injection Hnb' as <-.
    rewrite Hnx. erewrite bind_Ok by by apply deref_Ok.
    rewrite Hd, Hdb. cbn [fmap list_fmap snd is_nondecreasing].
    destruct (gtb v w); [done|]. cbn [negb andb].
    rewrite (IH ns b w); [done| |done|simpl in Hfuel; lia].
    by rewrite <- Hnx.
Qed.

Lemma isSortedCheck_spec h l ns fuel :
  repr h l ns → length ns ≤ fuel →
  isSortedCheck fuel l h = Ok (is_nondecreasing ns.*2, h).
Proof.
  intros Hr Hfuel. pose proof (repr_head _ _ _ Hr) as Hhd.
  destruct Hr as [Hf _ _ Hsz Hc]. unfold isSortedCheck. rewrite Hsz.
  destruct ns as [|[a v] [|[b w] ns]]; [done..|].
  replace (length ((a, v) :: (b, w) :: ns) <=? 1) with false by done.
  rewrite Hhd in *. cbn [fmap list_fmap fst head] in *.
  rewrite (isSortedCheck_loop_spec h fuel ((b, w) :: ns) a v); [done..|].
  simpl in *. lia.
Qed.
End sort_proofs.

(** ** Concrete lists are well formed *)

Lemma repr_312 : repr heap_312 list_312 nodes_312.
Proof. solve_repr. Qed.

Section sort_theorem.
Context {T : Type} `{!Ordered T}.

(** C1: [sort()] leaves a permutation of the original sequence that is
    non-decreasing ([isSortedCheck()] returns true), with the sorted flag
    set.  The nodes are rearranged as by a merge sort that takes the left
    node on ties, so nodes holding equal values keep their order. *)
Theorem sort_sorts (h : gmap loc (Node T)) (l : List) (ns : list (loc * T))
    (fuel : nat) :
  repr h l ns → listSize l ≤ fuel →
  ∃ l' h' ns',
    sort fuel l h = Ok (l', h') ∧ repr h' l' ns' ∧
    toVector fuel l' h' = Ok (ns'.*2, h') ∧
    ns'.*2 ≡ₚ ns.*2 ∧
    nondecreasing ns'.*2 ∧ isSortedCheck fuel l' h' = Ok (true, h') ∧
    sorted l' = true ∧
    ns' = msort_nodes (length ns) ns ∧
    (∀ v, holding v ns' = holding v ns) ∧
    (∀ x xs y ys, leb x.2 y.2 = true →
       merge_nodes (x :: xs) (y :: ys) = x :: merge_nodes xs (y :: ys)).
Proof.
  intros Hr Hfuel. rewrite (repr_size _ _ _ Hr) in Hfuel.
  destruct (sort_spec h l ns fuel Hr Hfuel) as (l' & h' & Hrun & Hr' & Hflag & _).
  set (ns' := msort_nodes (length ns) ns) in *.
  assert (length ns' ≤ fuel) as Hfuel'
    by (unfold ns'; by rewrite msort_nodes_length).
  assert (nondecreasing ns'.*2) as Hnd.
  { apply StronglySorted_Sorted.
    apply (StronglySorted_fmap _ le_node); [done|].
    by apply msort_nodes_sorted. }
  exists l', h', ns'. split; [done|]. split; [done|].
  split; [by apply toVector_spec|].
  split; [unfold ns'; by rewrite msort_nodes_perm|].
  split; [done|]. split.
  { rewrite (isSortedCheck_spec h' l' ns') by done.
    by apply is_nondecreasing_spec in Hnd as ->. }
  split; [done|]. split; [done|]. split.
  - intros v. by apply msort_nodes_stable.
  - intros x xs y ys Hxy. by rewrite merge_nodes_cons, Hxy.
Qed.
End sort_theorem.

Lemma sort_sorts_witness :
  ∃ l' h' ns',
    sort 3 list_312 heap_312 = Ok (l', h') ∧ repr h' l' ns' ∧
    toVector 3 l' h' = Ok (ns'.*2, h') ∧
    ns'.*2 ≡ₚ nodes_312.*2 ∧
    nondecreasing ns'.*2 ∧ isSortedCheck 3 l' h' = Ok (true, h') ∧
    sorted l' = true ∧
    ns' = msort_nodes (length nodes_312) nodes_312 ∧
    (∀ v, holding v ns' = holding v nodes_312) ∧
    (∀ x xs y ys, leb x.2 y.2 = true →
       merge_nodes (x :: xs) (y :: ys) = x :: merge_nodes xs (y :: ys)).
Proof.
  apply (sort_sorts heap_312 list_312 nodes_312 3); [exact repr_312|simpl; lia].
Defined.

Lemma push_pop_integrity_witness :
  let os := [PushBack 1%Z; PushFront 2%Z; PopBack; PushBack 3%Z; PopFront] in
  pops_guarded 0 os = true ∧
  ∃ l h, run_ops os List_new ∅ = Ok (l, h) ∧
    ∀ fuel, listSize l ≤ fuel →
      checkIntegrity fuel l h = Ok (true, h) ∧
      ∃ vs, toVector fuel l h = Ok (vs, h) ∧ length vs = listSize l.
Proof.
  split; [reflexivity|].
  apply (push_pop_integrity (T:=Z) ∅
           [PushBack 1%Z; PushFront 2%Z; PopBack; PushBack 3%Z; PopFront]).
  reflexivity.
Defined.

Lemma clear_resets_witness :
  ∃ l' h', clear 3 list_312 heap_312 = Ok (l', h') ∧
    size l' = 0 ∧ empty l' = true ∧ headNode l' = None ∧ tailNode l' = None ∧
    sorted l' = true.
Proof.
  apply (clear_resets heap_312 list_312 nodes_312 3); [exact repr_312|simpl; lia].
Defined.


Lemma repr_12 : repr heap_12_12 list_12 nodes_12.
Proof. solve_repr. Qed.

Lemma repr_12' : repr heap_12_12 list_12' nodes_12'.
Proof. solve_repr. Qed.

Lemma reverse_twice_not_equal_witness :
  ∃ l1 h1 l2 v,
    reverse 2 list_12 heap_12_12 = Ok (l1, h1) ∧
    reverse 2 l1 h1 = Ok (l2, heap_12_12) ∧
    last nodes_12.*2 = Some v ∧ toVector 2 l2 heap_12_12 = Ok ([v], heap_12_12) ∧
    operator_eq 2 l2 list_12' heap_12_12 = Ok (false, heap_12_12).
Proof.
  apply (reverse_twice_not_equal heap_12_12 list_12 list_12' nodes_12 nodes_12' 2);
    [exact repr_12|exact repr_12'|reflexivity|simpl; lia|simpl; lia].
Defined.

Lemma reverse_sorted_flag_witness :
  ∃ l' h', reverse 3 list_312 heap_312 = Ok (l', h') ∧
    sorted l' = (if listSize list_312 <=? 1 then sorted list_312 else false).
Proof.
  apply (reverse_sorted_flag heap_312 list_312 nodes_312 3);
    [exact repr_312|simpl; lia].
Defined.

(** C9 as stated fails: [reverse()] on the empty list and on a one-element
    list leaves the sorted flag true. *)
Lemma reverse_keeps_flag_of_short_lists :
  (∃ l', reverse (T:=Z) 1 List_new ∅ = Ok (l', ∅) ∧ sorted l' = true) ∧
  (∃ l0 h0 l', List_init [7%Z] ∅ = Ok (l0, h0) ∧ size l0 = 1 ∧
     reverse 1 l0 h0 = Ok (l', h0) ∧ sorted l' = true).
Proof.
  split.
  - by exists List_new.
  - eexists _, _, _. split; [reflexivity|]. split; [reflexivity|].
    split; reflexivity.
Qed.


(** ** forEach with a mutating function *)

Section forEach_proofs.
Context {T : Type} `{!Ordered T}.
Implicit Types (h : gmap loc (Node T)) (ns : list (loc * T)) (l : List).

Lemma data_only_refl h own : data_only h h own.
Proof. by intros a. Qed.

Lemma data_only_trans h1 h2 h3 own :
  data_only h1 h2 own → data_only h2 h3 own → data_only h1 h3 own.
Proof.
  intros H12 H23 a.
  destruct (H12 a) as (Hd1 & Hp1 & Hn1). destruct (H23 a) as (Hd2 & Hp2 & Hn2).
  split; [congruence|]. split; [congruence|].
  intros Ha. by rewrite Hn2, Hn1.
Qed.

Lemma apply_func_fst func ns : (apply_func func ns).*1 = ns.*1.
Proof. unfold apply_func. rewrite <- list_fmap_compose. by apply list_fmap_ext. Qed.

Lemma apply_func_snd func ns : (apply_func func ns).*2 = func <$> ns.*2.
Proof. unfold apply_func. rewrite <- !list_fmap_compose. by apply list_fmap_ext. Qed.

Lemma forEach_loop_spec func fuel : ∀ ns h cur,
  seg next h cur ns.*1 None → cells h ns → NoDup ns.*1 → length ns ≤ fuel →
  ∃ h', forEach_loop fuel func cur h = Ok (tt, h') ∧
    cells h' (apply_func func ns) ∧ data_only h h' ns.*1.
Proof.
  induction fuel as [|fuel IH]; intros ns h cur Hseg Hc Hnd Hfuel.
  - destruct ns; [|simpl in Hfuel; lia]. simpl in Hseg. subst cur.
    exists h. split; [done|]. split; [apply Forall_nil_2|apply data_only_refl].
  - destruct ns as [|[a v] ns].
    { simpl in Hseg. subst cur.
      exists h. split; [done|]. split; [apply Forall_nil_2|apply data_only_refl]. }
    destruct Hseg as (-> & n & Hn & Hseg).
    apply cells_cons in Hc as [(n' & Hn' & Hd) Hc].
    cbn [fst] in *. rewrite Hn in Hn'. injection Hn' as <-.
    apply NoDup_cons in Hnd as [Ha Hnd].
    cbn [forEach_loop]. erewrite bind_Ok by by apply deref_Ok.
    erewrite bind_Ok by by apply set_data_Ok.
    erewrite bind_Ok by (apply deref_Ok; by apply lookup_insert_eq).
    cbn [next]. set (h1 := <[a := _]> h).
    destruct (IH ns h1 (next n)) as (h' & Hrun & Hc' & Hdo);
      [by apply seg_insert_ne|by apply cells_insert_ne|done|simpl in Hfuel; lia|].
    exists h'. split; [done|]. split.
    + change (apply_func func ((a, v) :: ns))
        with ((a, func v) :: apply_func func ns).
      apply cells_cons. split; [|done].
      destruct (Hdo a) as (_ & _ & Heq). rewrite Heq by done.
      unfold h1. rewrite lookup_insert_eq. eexists. split; [done|].
      simpl. by rewrite Hd.
    + intros b. destruct (Hdo b) as (Hx & Hp & Heq).
      destruct (decide (a = b)) as [<-|Hab].
      * rewrite Hx, Hp. unfold h1. rewrite lookup_insert_eq, Hn. simpl.
        split; [done|]. split; [done|]. intros Hb. exfalso. apply Hb. left.
      * rewrite Hx, Hp. unfold h1. rewrite lookup_insert_ne by done.
        split; [done|]. split; [done|]. intros Hb. rewrite Heq.
        -- by apply lookup_insert_ne.
        -- intros Hin. apply Hb. by right.
Qed.

(** [forEach] replaces every value and never touches the sorted flag. *)
Lemma forEach_spec h l ns func fuel :
  repr h l ns → length ns ≤ fuel →
  ∃ h', forEach fuel func l h = Ok (l, h') ∧ repr h' l (apply_func func ns).
Proof.
  intros [Hf Hb Hnd Hsz Hc] Hfuel.
  destruct (forEach_loop_spec func fuel ns h (headNode l))
    as (h' & Hrun & Hc' & Hdo); [done..|].
  exists h'. unfold forEach. erewrite bind_Ok by exact Hrun. split; [done|].
  split; rewrite ?apply_func_fst.
  - eapply seg_ext; [|exact Hf]. intros a _. by destruct (Hdo a) as (? & _).
  - eapply seg_ext; [|exact Hb]. intros a _. by destruct (Hdo a) as (_ & ? & _).
  - done.
  - unfold apply_func. by rewrite length_fmap.
  - done.
Qed.
End forEach_proofs.


(** ** Index resolution and binary search *)

Section search_proofs.
Context {T : Type} `{!Ordered T}.
Implicit Types (h : gmap loc (Node T)) (ns : list (loc * T)) (l : List).
Implicit Types (ps : list loc).

Lemma lookup_rev {A} (xs : list A) i :
  i < length xs → rev xs !! i = xs !! (length xs - S i).
Proof. intros Hi. rewrite rev_alt. by apply reverse_lookup. Qed.

Lemma walk_next_spec h k : ∀ ps p,
  seg next h p ps None → k ≤ length ps → walk_next k p h = Ok (ps !! k, h).
Proof.
  induction k as [|k IH]; intros ps p Hseg Hk.
  - simpl. rewrite (seg_None_head _ _ _ _ Hseg). by destruct ps.
  - destruct ps as [|a ps]; [simpl in Hk; lia|].
    destruct Hseg as (-> & n & Hn & Hseg). cbn [walk_next].
    erewrite bind_Ok by by apply deref_Ok.
    rewrite (IH ps); [done|done|simpl in Hk; lia].
Qed.

Lemma walk_prev_spec h k : ∀ ps p,
  seg prev h p ps None → k ≤ length ps → walk_prev k p h = Ok (ps !! k, h).
Proof.
  induction k as [|k IH]; intros ps p Hseg Hk.
  - simpl. rewrite (seg_None_head _ _ _ _ Hseg). by destruct ps.
  - destruct ps as [|a ps]; [simpl in Hk; lia|].
    destruct Hseg as (-> & n & Hn & Hseg). cbn [walk_prev].
    erewrite bind_Ok by by apply deref_Ok.
    rewrite (IH ps); [done|done|simpl in Hk; lia].
Qed.

Lemma getNodeAt_spec h l ns i :
  repr h l ns → i < length ns → getNodeAt i l h = Ok (ns.*1 !! i, h).
Proof.
  intros [Hf Hb _ Hsz _] Hi. unfold getNodeAt. rewrite Hsz.
  replace (length ns <=? i) with false by (symmetry; apply Nat.leb_gt; lia).
  destruct (i <? length ns / 2).
  - apply walk_next_spec; [done|]. rewrite length_fmap. lia.
  - rewrite (walk_prev_spec h _ (rev ns.*1)); [|done|].
    + rewrite lookup_rev by (rewrite length_fmap; lia).
      rewrite length_fmap. do 3 f_equal. lia.
    + rewrite length_rev, length_fmap. lia.
Qed.

Lemma getNodeAt_out_of_range h l i :
  listSize l ≤ i → getNodeAt i l h = Throw out_of_range.
Proof.
  intros Hi. unfold getNodeAt.
  by replace (listSize l <=? i) with true by (symmetry; apply Nat.leb_le; lia).
Qed.

Lemma at_spec h l ns i v :
  repr h l ns → ns.*2 !! i = Some v → at_ i l h = Ok (v, h).
Proof.
  intros Hr Hv. pose proof (lookup_lt_Some _ _ _ Hv) as Hi.
  rewrite length_fmap in Hi. unfold at_.
  erewrite bind_Ok by by apply getNodeAt_spec.
  rewrite list_lookup_fmap in Hv.
  destruct (ns !! i) as [[a w]|] eqn:Hns; [|done]. simpl in Hv. injection Hv as ->.
  rewrite list_lookup_fmap, Hns. simpl.
  destruct (cells_lookup h ns a v) as (n & Hn & Hd);
    [by destruct Hr|by eapply list_elem_of_lookup_2|].
  erewrite bind_Ok by by apply deref_Ok. by rewrite Hd.
Qed.

Lemma le_refl (a : T) : le a a.
Proof. unfold le. by destruct (leb_total a a). Qed.

Lemma sorted_lookup_le (vs : list T) i j x y :
  StronglySorted le vs → i ≤ j → vs !! i = Some x → vs !! j = Some y → le x y.
Proof.
  intros Hs. revert i j. induction Hs as [|a vs Hs IH Hall]; intros i j Hij Hi Hj.
  - done.
  - destruct i as [|i], j as [|j]; simpl in *; try lia.
    + injection Hi as ->. injection Hj as ->. apply le_refl.
    + injection Hi as ->. rewrite Forall_forall in Hall.
      apply Hall. by eapply list_elem_of_lookup_2.
    + apply (IH i j); [lia|done|done].
Qed.

Lemma half_le n : n / 2 ≤ n.
Proof. apply Nat.Div0.div_le_upper_bound. lia. Qed.

(** The search loop: it never raises, a hit is a position of [value], and on
    a non-decreasing sequence a miss means that [value] does not occur. *)
Lemma bsearch_loop_spec h l ns value fuel : ∀ left right,
  repr h l ns → right < length ns → right + 1 - left ≤ fuel →
  ∃ r, bsearch_loop fuel value l left right h = Ok (r, h) ∧
    (∀ i, r = Some i → ns.*2 !! i = Some value ∧ left ≤ i ≤ right) ∧
    (StronglySorted le ns.*2 →
     (∀ i, ns.*2 !! i = Some value → left ≤ i ∧ i ≤ right) →
     r = None → ∀ i, ns.*2 !! i ≠ Some value).
Proof.
  intros left right Hr. revert left right.
  induction fuel as [|fuel IH]; intros left right Hright Hfuel.
  - assert (right < left) as Hlt by lia.
    exists None. simpl. apply Nat.ltb_lt in Hlt as Hlt'. rewrite Hlt'.
    split; [done|]. split; [done|].
    intros _ Hinv _ i Hi. apply Hinv in Hi. lia.
  - cbn [bsearch_loop]. destruct (right <? left) eqn:Hlt.
    { apply Nat.ltb_lt in Hlt. exists None. split; [done|]. split; [done|].
      intros _ Hinv _ i Hi. apply Hinv in Hi. lia. }
    apply Nat.ltb_ge in Hlt.
    pose proof (half_le (right - left)) as Hhalf.
    set (mid := left + (right - left) / 2) in *.
    assert (left ≤ mid ∧ mid ≤ right) as [Hm1 Hm2] by (unfold mid; lia).
    destruct (lookup_lt_is_Some_2 ns.*2 mid) as [m Hm];
      [rewrite length_fmap; lia|].
    erewrite bind_Ok by by eapply at_spec.
    cbv beta zeta. fold mid.
    destruct (eqb m value) eqn:Heq.
    { apply eqb_eq in Heq as ->. exists (Some mid). split; [done|].
      split; [|done]. intros i [= <-]. done. }
    assert (m ≠ value) as Hne by (intros Hmv; apply eqb_eq in Hmv; congruence).
    destruct (ltb m value) eqn:Hltb.
    { destruct (IH (mid + 1) right) as (r & Hrun & Hhit & Hmiss); [done|lia|].
      exists r. split; [done|]. split.
      - intros i Hi. apply Hhit in Hi. split; [tauto|lia].
      - intros Hs Hinv. apply Hmiss; [done|]. intros i Hi.
        destruct (Hinv i Hi) as [Hi1 Hi2]. split; [|done].
        destruct (decide (i ≤ mid)) as [Hle|]; [|lia]. exfalso.
        pose proof (sorted_lookup_le _ _ _ _ _ Hs Hle Hi Hm) as Hvm.
        unfold le in Hvm. rewrite ltb_leb, Hvm in Hltb. done. }
    assert (le value m) as Hvm.
    { rewrite ltb_leb in Hltb. apply negb_false_iff in Hltb. done. }
    assert (∀ i, StronglySorted le ns.*2 → ns.*2 !! i = Some value → i < mid)
      as Hbelow.
    { intros i Hs Hi. destruct (decide (mid ≤ i)) as [Hle|]; [|lia]. exfalso.
      pose proof (sorted_lookup_le _ _ _ _ _ Hs Hle Hm Hi) as Hmv.
      apply Hne. by apply leb_antisym. }
    destruct (mid =? 0) eqn:Hmid0.
    { apply Nat.eqb_eq in Hmid0. exists None. split; [done|]. split; [done|].
      intros Hs _ _ i Hi. apply (Hbelow i Hs) in Hi. lia. }
    apply Nat.eqb_neq in Hmid0.
    destruct (IH left (mid - 1)) as (r & Hrun & Hhit & Hmiss); [lia|lia|].
    exists r. split; [done|]. split.
    + intros i Hi. apply Hhit in Hi. split; [tauto|lia].
    + intros Hs Hinv. apply Hmiss; [done|]. intros i Hi.
      destruct (Hinv i Hi) as [Hi1 Hi2]. apply (Hbelow i Hs) in Hi. lia.
Qed.
End search_proofs.


Section search_theorem.
Context {T : Type} `{!Ordered T}.

(** C5: [binarySearch] and [binarySearchIndex] raise [logic_error] exactly
    when the sorted flag is false; with the flag set they return without
    raising, a hit is an occurrence of the value, and on a non-decreasing
    sequence [binarySearch] returns true iff the value occurs.  On
    [{1, 3, 3, 5, 9}] the value 3 is found at index 2, and on [{5, 1, 3}]
    both raise. *)
Theorem binarySearch_contract (h : gmap loc (Node T)) (l : List)
    (ns : list (loc * T)) (value : T) (fuel : nat) :
  repr h l ns → listSize l ≤ fuel →
  (sorted l = false →
     binarySearch fuel value l h = Throw logic_error ∧
     binarySearchIndex fuel value l h = Throw logic_error) ∧
  (sorted l = true →
     ∃ b z, binarySearch fuel value l h = Ok (b, h) ∧
       binarySearchIndex fuel value l h = Ok (z, h) ∧
       (b = true → ∃ i, z = to_int i ∧ ns.*2 !! i = Some value) ∧
       (b = false → z = (-1)%Z) ∧
       (nondecreasing ns.*2 → (b = true ↔ value ∈ ns.*2))) ∧
  (∃ l5 h5, List_init [1; 3; 3; 5; 9]%Z ∅ = Ok (l5, h5) ∧
     binarySearch 5 3%Z l5 h5 = Ok (true, h5) ∧
     binarySearchIndex 5 3%Z l5 h5 = Ok (2%Z, h5)) ∧
  (∃ l3 h3, List_init [5; 1; 3]%Z ∅ = Ok (l3, h3) ∧
     binarySearch 3 3%Z l3 h3 = Throw logic_error ∧
     binarySearchIndex 3 3%Z l3 h3 = Throw logic_error).
Proof.
  intros Hr Hfuel. pose proof (repr_size _ _ _ Hr) as Hsz. rewrite Hsz in Hfuel.
  unfold sorted, binarySearch, binarySearchIndex.
  split; [by intros ->|]. split.
  2:{ split; eexists _, _; (split; [reflexivity|]); split; reflexivity. }
  intros ->. cbn [negb]. unfold empty. rewrite Hsz.
  destruct (decide (length ns = 0)) as [H0|H0].
  { destruct ns; [|done].
    exists false, (-1)%Z. simpl. split; [done|]. split; [done|].
    split; [done|]. split; [done|]. intros _. split; [done|].
    intros Hin. by apply elem_of_nil in Hin. }
  replace (length ns =? 0) with false by (symmetry; by apply Nat.eqb_neq).
  destruct (bsearch_loop_spec h l ns value fuel 0 (length ns - 1))
    as (r & Hrun & Hhit & Hmiss); [done|lia|lia|].
  erewrite !bind_Ok by exact Hrun.
  destruct r as [i|].
  - destruct (Hhit i eq_refl) as [Hi _].
    exists true, (to_int i). split; [done|]. split; [done|].
    split; [eauto|]. split; [done|]. intros _. split; [|done].
    intros _. by eapply list_elem_of_lookup_2.
  - exists false, (-1)%Z. split; [done|]. split; [done|].
    split; [done|]. split; [done|]. intros Hs. split; [done|].
    intros [i Hi]%list_elem_of_lookup. exfalso.
    apply (Hmiss (Sorted_StronglySorted _ _ Hs)) with i; [|done|done].
    intros j Hj. apply lookup_lt_Some in Hj. rewrite length_fmap in Hj. lia.
Qed.
End search_theorem.

Lemma repr_13359 : repr heap_13359 list_13359 nodes_13359.
Proof. solve_repr. Qed.

Lemma binarySearch_contract_witness :
  ∃ b z, binarySearch 5 3%Z list_13359 heap_13359 = Ok (b, heap_13359) ∧
    binarySearchIndex 5 3%Z list_13359 heap_13359 = Ok (z, heap_13359) ∧
    (b = true → ∃ i, z = to_int i ∧ nodes_13359.*2 !! i = Some 3%Z) ∧
    (b = false → z = (-1)%Z) ∧
    (nondecreasing nodes_13359.*2 → (b = true ↔ 3%Z ∈ nodes_13359.*2)).
Proof.
  apply (binarySearch_contract heap_13359 list_13359 nodes_13359 3%Z 5);
    [exact repr_13359|simpl; lia|reflexivity].
Defined.


(** ** sort(comparator) *)

Section sort_with_proofs.
Context {T : Type} `{!Ordered T}.
Implicit Types (h : gmap loc (Node T)) (ns : list (loc * T)) (l : List).

Lemma with_values_fst ns (vs : list T) :
  length vs = length ns → (with_values ns vs).*1 = ns.*1.
Proof.
  intros Hlen. unfold with_values. apply fst_zip. rewrite length_fmap. lia.
Qed.

Lemma with_values_snd ns (vs : list T) :
  length vs = length ns → (with_values ns vs).*2 = vs.
Proof.
  intros Hlen. unfold with_values. apply snd_zip. rewrite length_fmap. lia.
Qed.

Lemma write_loop_spec : ∀ (vs : list T) ns h cur,
  seg next h cur ns.*1 None → NoDup ns.*1 → length vs = length ns →
  ∃ h', write_loop vs cur h = Ok (tt, h') ∧
    cells h' (with_values ns vs) ∧ data_only h h' ns.*1.
Proof.
  induction vs as [|v vs IH]; intros ns h cur Hseg Hnd Hlen.
  - destruct ns; [|done]. exists h. split; [done|].
    split; [apply Forall_nil_2|apply data_only_refl].
  - destruct ns as [|[a w] ns]; [done|].
    destruct Hseg as (-> & n & Hn & Hseg). cbn [fst] in *.
    apply NoDup_cons in Hnd as [Ha Hnd].
    cbn [write_loop]. erewrite bind_Ok by by apply set_data_Ok.
    erewrite bind_Ok by (apply deref_Ok; by apply lookup_insert_eq).
    cbn [next]. set (h1 := <[a := _]> h).
    destruct (IH ns h1 (next n)) as (h' & Hrun & Hc' & Hdo);
      [by apply seg_insert_ne|done|simpl in Hlen; lia|].
    exists h'. split; [done|]. split.
    + change (with_values ((a, w) :: ns) (v :: vs))
        with ((a, v) :: with_values ns vs).
      apply cells_cons. split; [|done].
      destruct (Hdo a) as (_ & _ & Heq). rewrite Heq by done.
      unfold h1. rewrite lookup_insert_eq. eauto.
    + intros b. destruct (Hdo b) as (Hx & Hp & Heq).
      destruct (decide (a = b)) as [<-|Hab].
      * rewrite Hx, Hp. unfold h1. rewrite lookup_insert_eq, Hn. simpl.
        split; [done|]. split; [done|]. intros Hb. exfalso. apply Hb. left.
      * rewrite Hx, Hp. unfold h1. rewrite lookup_insert_ne by done.
        split; [done|]. split; [done|]. intros Hb. rewrite Heq.
        -- by apply lookup_insert_ne.
        -- intros Hin. apply Hb. by right.
Qed.

Lemma with_values_id ns : with_values ns ns.*2 = ns.
Proof. unfold with_values. apply zip_fst_snd. Qed.

(** C8: [sort(comparator)] always leaves the sorted flag false, also on
    lists of size 0 or 1; for a larger list the values are replaced, node by
    node, by what [std::sort] makes of them, which for a strict weak
    ordering is a rearrangement in an order consistent with the
    comparator. *)
Theorem sort_with_comparator (std_sort : (T → T → bool) → list T → list T)
    (h : gmap loc (Node T)) (l : List) (ns : list (loc * T))
    (comparator : T → T → bool) (fuel : nat) :
  std_sort_contract std_sort →
  repr h l ns → listSize l ≤ fuel →
  ∃ l' h' vs,
    sort_with std_sort fuel comparator l h = Ok (l', h') ∧
    sorted l' = false ∧
    repr h' l' (with_values ns vs) ∧ length vs = length ns ∧
    toVector fuel l' h' = Ok (vs, h') ∧
    vs = (if listSize l <=? 1 then ns.*2 else std_sort comparator ns.*2) ∧
    (strict_weak_order comparator →
       vs ≡ₚ ns.*2 ∧ Sorted (not_after comparator) vs).
Proof.
  intros [Hlen Hsort] Hr Hfuel. pose proof Hr as [Hf Hb Hnd Hsz Hc].
  rewrite Hsz in Hfuel. unfold sort_with. rewrite Hsz.
  destruct (length ns <=? 1) eqn:H1.
  - apply Nat.leb_le in H1. exists (mkList (headNode l) (tailNode l) (length ns) false), h, ns.*2.
    split; [done|]. split; [done|]. rewrite with_values_id.
    split; [by split|]. split; [by rewrite length_fmap|].
    split; [apply toVector_spec; [by split|done]|]. split; [done|].
    intros _. split; [done|].
    destruct ns as [|[a v] [|? ?]]; simpl in *; [repeat constructor..|lia].
  - erewrite bind_Ok by by apply toVector_loop_spec.
    rewrite app_nil_l. set (vs := std_sort comparator ns.*2).
    assert (length vs = length ns) as Hlen'
      by (unfold vs; by rewrite Hlen, length_fmap).
    destruct (write_loop_spec vs ns h (headNode l)) as (h' & Hrun & Hc' & Hdo);
      [done..|].
    erewrite bind_Ok by exact Hrun.
    assert (repr h' (mkList (headNode l) (tailNode l) (length ns) false)
              (with_values ns vs)) as Hr'.
    { split; rewrite ?with_values_fst by done; simpl.
      - eapply seg_ext; [|exact Hf]. intros a _. by destruct (Hdo a) as (? & _).
      - eapply seg_ext; [|exact Hb]. intros a _. by destruct (Hdo a) as (_ & ? & _).
      - done.
      - unfold with_values. rewrite length_zip, length_fmap. lia.
      - done. }
    eexists _, h', vs. split; [reflexivity|]. split; [done|].
    split; [done|]. split; [done|]. split.
    { rewrite (toVector_spec h' _ (with_values ns vs)); [|done|].
      - by rewrite with_values_snd.
      - unfold with_values. rewrite length_zip, length_fmap. lia. }
    split; [done|]. intros Hswo. by apply Hsort.
Qed.
End sort_with_proofs.

Lemma Z_ltb_strict_weak_order : strict_weak_order Z.ltb.
Proof. split; intros; lia. Qed.

Lemma a_std_sort_contract {T} : std_sort_contract (T:=T) a_std_sort.
Proof.
  split.
  - intros comparator xs. unfold a_std_sort. by rewrite merge_sort_Permutation.
  - intros comparator xs Hswo. unfold a_std_sort.
    split; [apply merge_sort_Permutation|].
    apply Sorted_merge_sort. intros a b. unfold not_after.
    destruct (comparator b a) eqn:Hba; [|by left]. right.
    destruct (comparator a b) eqn:Hab; [|done].
    rewrite <- (swo_irrefl _ Hswo a). symmetry. by eapply swo_trans.
Qed.

Lemma sort_with_comparator_witness :
  ∃ l' h' vs,
    sort_with a_std_sort 3 Z.ltb list_312 heap_312 = Ok (l', h') ∧
    sorted l' = false ∧
    repr h' l' (with_values nodes_312 vs) ∧ length vs = length nodes_312 ∧
    toVector 3 l' h' = Ok (vs, h') ∧
    vs = (if listSize list_312 <=? 1 then nodes_312.*2
          else a_std_sort Z.ltb nodes_312.*2) ∧
    (strict_weak_order Z.ltb →
       vs ≡ₚ nodes_312.*2 ∧ Sorted (not_after Z.ltb) vs).
Proof.
  apply (sort_with_comparator a_std_sort heap_312 list_312 nodes_312 Z.ltb 3);
    [exact a_std_sort_contract|exact repr_312|simpl; lia].
Defined.

(** ** insertSorted *)

Section insertSorted_proofs.
Context {T : Type} `{!Ordered T}.
Implicit Types (h : gmap loc (Node T)) (ns : list (loc * T)) (l : List).


Lemma rev_middle {A} (xs ys : list A) (zs : list A) :
  rev (xs ++ zs ++ ys) = rev ys ++ rev zs ++ rev xs.
Proof. by rewrite !rev_app_distr, app_assoc. Qed.

(** Linking a fresh node [a] between the adjacent nodes [p] and [c]. *)
Lemma repr_splice h l ns1 p pv c cv ns2 a value np nc :
  repr h l (ns1 ++ [(p, pv); (c, cv)] ++ ns2) →
  h !! a = None → h !! p = Some np → h !! c = Some nc →
  repr (<[c := mkNode (data nc) (next nc) (Some a)]>
          (<[p := mkNode (data np) (Some a) (prev np)]>
             (<[a := mkNode value (Some c) (Some p)]> h)))
       (mkList (headNode l) (tailNode l) (S (listSize l)) (isSorted l))
       (ns1 ++ [(p, pv); (a, value); (c, cv)] ++ ns2).
Proof.
  intros [Hf Hb Hnd Hsz Hc] Ha Hp Hcn.
  rewrite !fmap_app in Hf, Hb, Hnd. cbn [fmap list_fmap fst] in Hf, Hb, Hnd.
  rewrite rev_middle in Hb. cbn [rev app] in Hb.
  apply seg_app in Hf as (m & Hf1 & Hf2).
  destruct Hf2 as (-> & np' & Hp' & Hxp & nc' & Hc' & Hf2).
  rewrite Hp in Hp'. injection Hp' as <-. rewrite Hcn in Hc'. injection Hc' as <-.
  apply seg_app in Hb as (m & Hb2 & Hb1).
  destruct Hb1 as (-> & nc' & Hc' & Hpc & np' & Hp' & Hb1).
  rewrite Hp in Hp'. injection Hp' as <-. rewrite Hcn in Hc'. injection Hc' as <-.
  apply NoDup_app in Hnd as (Hnd1 & Hd1 & Hnd2). cbn [app] in Hd1, Hnd2.
  apply NoDup_cons in Hnd2 as [Hp2 Hnd2]. apply NoDup_cons in Hnd2 as [Hc2 Hnd2].
  assert (p ≠ c) as Hpc' by (intros ->; apply Hp2; left).
  assert (a ≠ p) as Hap by (intros ->; congruence).
  assert (a ≠ c) as Hac by (intros ->; congruence).
  assert (p ∉ ns1.*1) as Hp1 by (intros Hin; eapply Hd1; [exact Hin|left]).
  assert (c ∉ ns1.*1) as Hc1 by (intros Hin; eapply Hd1; [exact Hin|right; left]).
  assert (p ∉ ns2.*1) as Hp2' by (intros Hin; apply Hp2; by right).
  cbn [app] in Hf2.
  assert (∀ ps : list loc, (∀ b, b ∈ ps → is_Some (h !! b)) → a ∉ ps) as Hfresh.
  { intros ps Hps Hin. destruct (Hps a Hin) as [? ?]. congruence. }
  assert (a ∉ ns1.*1) as Ha1
    by (apply Hfresh; intros b Hin; exact (seg_lookup _ _ _ _ _ _ Hf1 Hin)).
  assert (a ∉ ns2.*1) as Ha2
    by (apply Hfresh; intros b Hin; exact (seg_lookup _ _ _ _ _ _ Hf2 Hin)).
  apply cells_app in Hc as [Hcs1 Hcs]. apply cells_cons in Hcs as [(? & Hp' & Hdp) Hcs].
  apply cells_cons in Hcs as [(? & Hc' & Hdc) Hcs2].
  rewrite Hp in Hp'. injection Hp' as <-. rewrite Hcn in Hc'. injection Hc' as <-.
  set (h' := <[c := _]> (<[p := _]> (<[a := _]> h))).
  assert (h' !! c = Some (mkNode (data nc) (next nc) (Some a))) as Hc'
    by (unfold h'; by rewrite lookup_insert_eq).
  assert (h' !! p = Some (mkNode (data np) (Some a) (prev np))) as Hp'.
  { unfold h'. rewrite lookup_insert_ne by done. by rewrite lookup_insert_eq. }
  assert (h' !! a = Some (mkNode value (Some c) (Some p))) as Ha'.
  { unfold h'. rewrite !lookup_insert_ne by done. by rewrite lookup_insert_eq. }
  assert (∀ f q (ps : list loc) r, a ∉ ps → p ∉ ps → c ∉ ps →
            seg f h q ps r → seg f h' q ps r) as Hkeep.
  { intros f q ps r ? ? ? Hs. unfold h'. by do 3 (apply seg_insert_ne; [done|]). }
  split; cbn [headNode tailNode listSize].
  - rewrite !fmap_app. cbn [fmap list_fmap fst app].
    apply seg_app. exists (Some p). split; [by apply Hkeep|].
    split; [done|]. eexists. split; [exact Hp'|]. cbn [next].
    split; [done|]. eexists. split; [exact Ha'|]. cbn [next].
    split; [done|]. eexists. split; [exact Hc'|]. cbn [next].
    by apply Hkeep.
  - rewrite !fmap_app. cbn [fmap list_fmap fst]. rewrite rev_middle. cbn [rev app].
    apply seg_app. exists (Some c). split.
    { apply Hkeep; rewrite ?elem_of_rev; done. }
    split; [done|]. eexists. split; [exact Hc'|]. cbn [prev].
    split; [done|]. eexists. split; [exact Ha'|]. cbn [prev].
    split; [done|]. eexists. split; [exact Hp'|]. cbn [prev].
    apply Hkeep; rewrite ?elem_of_rev; done.
  - rewrite !fmap_app. cbn [fmap list_fmap fst app].
    assert (ns1.*1 ++ p :: a :: c :: ns2.*1 ≡ₚ a :: (ns1.*1 ++ p :: c :: ns2.*1))
      as -> by (rewrite (Permutation_middle _ (p :: c :: _) a);
                by rewrite (Permutation_swap a p)).
    apply NoDup_cons. split.
    + rewrite elem_of_app, !elem_of_cons. intros [?|[?|[?|?]]]; done.
    + apply NoDup_app. split; [done|]. split; [done|].
      apply NoDup_cons. split; [done|]. by apply NoDup_cons.
  - rewrite Hsz, !length_app. simpl. lia.
  - apply cells_app. split.
    { unfold h'. by do 3 (apply cells_insert_ne; [done|]). }
    apply cells_cons. split; [eauto|].
    apply cells_cons. split; [eauto|].
    apply cells_cons. split; [eauto|].
    unfold h'. by do 3 (apply cells_insert_ne; [done|]).
Qed.




End insertSorted_proofs.

Section insertSorted_theorem.
Context {T : Type} `{!Ordered T}.

End insertSorted_theorem.




(** ** merge(List& other) *)

Section merge_proofs.
Context {T : Type} `{!Ordered T}.
Implicit Types (h : gmap loc (Node T)) (ns : list (loc * T)) (l : List).
Implicit Types (F : list loc).








Lemma is_nondecreasing_snoc (vs : list T) v :
  is_nondecreasing (vs ++ [v]) = flag_after_back (is_nondecreasing vs) vs v.
Proof.
  unfold flag_after_back. induction vs as [|a [|b vs] IH]; [done| |].
  - simpl. by rewrite andb_true_r, gtb_ltb.
  - change (is_nondecreasing ((a :: b :: vs) ++ [v]))
      with (negb (gtb a b) && is_nondecreasing ((b :: vs) ++ [v])).
    rewrite IH. change (is_nondecreasing (a :: b :: vs))
      with (negb (gtb a b) && is_nondecreasing (b :: vs)).
    change (last (a :: b :: vs)) with (last (b :: vs)).
    destruct (last (b :: vs)); [|done].
    by destruct (negb (gtb a b)), (is_nondecreasing (b :: vs)).
Qed.

Lemma seg_framed f h h' p (ps : list loc) q F :
  framed F h h' → (∀ a, a ∈ ps → a ∈ F) → seg f h p ps q → seg f h' p ps q.
Proof.
  intros Hfr Hsub. apply seg_ext. intros a Ha. by rewrite Hfr by by apply Hsub.
Qed.

Lemma cells_framed h h' ns F :
  framed F h h' → (∀ a, a ∈ ns.*1 → a ∈ F) → cells h ns → cells h' ns.
Proof.
  intros Hfr Hsub. apply cells_ext. intros a Ha. by rewrite Hfr by by apply Hsub.
Qed.

Lemma repr_framed h h' l ns F :
  framed F h h' → (∀ a, a ∈ ns.*1 → a ∈ F) → repr h l ns → repr h' l ns.
Proof.
  intros Hfr Hsub [Hf Hb Hnd Hsz Hc]. split; [| |done|done|].
  - by eapply seg_framed.
  - eapply seg_framed; [done| |done]. intros a Ha. by apply Hsub, elem_of_rev.
  - by eapply cells_framed.
Qed.

Lemma framed_trans F h1 h2 h3 : framed F h1 h2 → framed F h2 h3 → framed F h1 h3.
Proof. intros H12 H23 a Ha. by rewrite H23, H12. Qed.

(** [pushBack] on a list that shares the heap with the nodes [F]. *)
Lemma pushBack_framed h l ns v F :
  repr h l ns → isSorted l = is_nondecreasing ns.*2 →
  (∀ a, a ∈ F → is_Some (h !! a) ∧ a ∉ ns.*1) →
  ∃ l' h' ns', pushBack v l h = Ok (l', h') ∧ repr h' l' ns' ∧
    ns'.*2 = ns.*2 ++ [v] ∧ isSorted l' = is_nondecreasing ns'.*2 ∧
    framed F h h' ∧ (∀ a, a ∈ F → is_Some (h' !! a) ∧ a ∉ ns'.*1).
Proof.
  intros Hr Hflag HF.
  destruct (pushBack_spec h l ns v Hr) as (l' & h' & Hrun & Hr' & Hp & Hfl).
  exists l', h', (ns ++ [(fresh (dom h), v)]). split; [done|]. split; [done|].
  split; [by rewrite fmap_app|]. split.
  { rewrite fmap_app. cbn [fmap list_fmap snd].
    by rewrite is_nondecreasing_snoc, Hfl, Hflag. }
  assert (framed F h h') as Hfr.
  { intros a Ha. destruct (HF a Ha) as [[n Hn] Hnot].
    rewrite Hn. by apply Hp. }
  split; [done|]. intros a Ha. destruct (HF a Ha) as [[n Hn] Hnot].
  split; [rewrite Hfr by done; eauto|].
  rewrite fmap_app, elem_of_app. intros [?|Hin]; [done|].
  apply list_elem_of_singleton in Hin. simpl in Hin. subst a.
  by rewrite fresh_not_in in Hn.
Qed.

Lemma copy_loop_spec fuel : ∀ (A : list (loc * T)) ns h l c F,
  seg next h c A.*1 None → cells h A → (∀ a, a ∈ A.*1 → a ∈ F) →
  repr h l ns → isSorted l = is_nondecreasing ns.*2 →
  (∀ a, a ∈ F → is_Some (h !! a) ∧ a ∉ ns.*1) →
  length A ≤ fuel →
  ∃ l' h' ns', copy_loop fuel c l h = Ok (l', h') ∧ repr h' l' ns' ∧
    ns'.*2 = ns.*2 ++ A.*2 ∧ isSorted l' = is_nondecreasing ns'.*2 ∧
    framed F h h' ∧ (∀ a, a ∈ F → is_Some (h' !! a) ∧ a ∉ ns'.*1).
Proof.
  induction fuel as [|fuel IH]; intros A ns h l c F Hseg Hc HA Hr Hflag HF Hfuel.
  - destruct A; [|simpl in Hfuel; lia]. simpl in Hseg. subst c.
    exists l, h, ns. split; [done|]. split; [done|].
    split; [by rewrite app_nil_r|]. split; [done|]. split; [by intros a|done].
  - destruct A as [|[a v] A].
    { simpl in Hseg. subst c.
      exists l, h, ns. split; [done|]. split; [done|].
      split; [by rewrite app_nil_r|]. split; [done|]. split; [by intros ?|done]. }
    destruct Hseg as (-> & n & Hn & Hseg).
    apply cells_cons in Hc as [(n' & Hn' & Hd) Hc].
    cbn [fst] in *. rewrite Hn in Hn'. injection Hn' as <-.
    cbn [copy_loop]. erewrite bind_Ok by by apply deref_Ok. rewrite Hd.
    destruct (pushBack_framed h l ns v F Hr Hflag HF)
      as (l1 & h1 & ns1 & Hrun1 & Hr1 & Hv1 & Hfl1 & Hfr1 & HF1).
    erewrite bind_Ok by exact Hrun1.
    assert (a ∈ F) as HaF by (apply HA; left).
    erewrite bind_Ok by (apply deref_Ok; rewrite Hfr1 by done; exact Hn).
    assert (∀ b, b ∈ A.*1 → b ∈ F) as HA' by (intros b Hb; apply HA; by right).
    destruct (IH A ns1 h1 l1 (next n) F) as (l' & h' & ns' & Hrun & Hr' & Hv' & Hfl' & Hfr' & HF');
      [by eapply seg_framed|by eapply cells_framed|done|done|done|done|
       simpl in Hfuel; lia|].
    exists l', h', ns'. split; [done|]. split; [done|].
    split; [rewrite Hv', Hv1; by rewrite <- app_assoc|].
    split; [done|]. split; [by eapply framed_trans|done].
Qed.



Lemma clear_new h fuel : clear (T:=T) fuel List_new h = Ok (List_new, h).
Proof. by destruct fuel. Qed.

Lemma repr_eta h l ns :
  repr h l ns →
  repr h (mkList (headNode l) (tailNode l) (listSize l) (isSorted l)) ns.
Proof. by intros []. Qed.
End merge_proofs.

Section merge_theorem.
Context {T : Type} `{!Ordered T}.

End merge_theorem.



(** ** The sortedness flag under the end operations

    The end operations keep the flag sound: [pushFront] and [pushBack] clear
    it when the new element is out of order at its end, the pops leave a
    sorted sequence sorted. *)

Section flag_proofs.
Context {T : Type} `{!Ordered T}.
Implicit Types (h : gmap loc (Node T)) (ns : list (loc * T)) (l : List).

Lemma flag_after_front_sound (s : bool) (vs : list T) v :
  (s = true → nondecreasing vs) →
  flag_after_front s vs v = true → nondecreasing (v :: vs).
Proof.
  unfold flag_after_front, nondecreasing. intros Hs Hflag.
  destruct vs as [|t vs]; [repeat constructor|]. simpl in Hflag.
  destruct s; [|done]. constructor; [by apply Hs|]. constructor.
  apply negb_true_iff in Hflag. rewrite gtb_ltb, ltb_leb in Hflag.
  by apply negb_false_iff in Hflag.
Qed.

Lemma flag_after_back_sound (s : bool) (vs : list T) v :
  (s = true → nondecreasing vs) →
  flag_after_back s vs v = true → nondecreasing (vs ++ [v]).
Proof.
  intros Hs Hflag. apply is_nondecreasing_spec. rewrite is_nondecreasing_snoc.
  unfold flag_after_back in *. destruct (last vs) as [t|] eqn:Hlast.
  - destruct s; [|done]. by rewrite (proj2 (is_nondecreasing_spec vs) (Hs eq_refl)).
  - apply last_None in Hlast. by subst vs.
Qed.

Lemma nondecreasing_tail (v : T) vs : nondecreasing (v :: vs) → nondecreasing vs.
Proof. unfold nondecreasing. by intros [? _]%Sorted_inv. Qed.

Lemma nondecreasing_init (vs : list T) v :
  nondecreasing (vs ++ [v]) → nondecreasing vs.
Proof.
  unfold nondecreasing. intros Hs%Sorted_StronglySorted; [|apply _].
  apply StronglySorted_app in Hs as (_ & Hs & _). by apply StronglySorted_Sorted.
Qed.

Lemma run_op_flag_sound o h l ns :
  repr h l ns → flag_sound l ns.*2 → pops_guarded (length ns) [o] = true →
  ∃ l' h' ns', run_op o l h = Ok (l', h') ∧ repr h' l' ns' ∧
    flag_sound l' ns'.*2.
Proof.
  intros Hr Hsound Hg. destruct o as [v|v| |]; simpl in *.
  - destruct (pushFront_spec h l ns v Hr) as (l' & h' & Hrun & Hr' & _ & Hfl).
    exists l', h', ((fresh (dom h), v) :: ns). split; [done|]. split; [done|].
    intros Hflag. rewrite Hfl in Hflag. by eapply flag_after_front_sound.
  - destruct (pushBack_spec h l ns v Hr) as (l' & h' & Hrun & Hr' & _ & Hfl).
    exists l', h', (ns ++ [(fresh (dom h), v)]). split; [done|]. split; [done|].
    intros Hflag. rewrite Hfl in Hflag. rewrite fmap_app.
    by eapply flag_after_back_sound.
  - apply andb_prop in Hg as [Hpos _]. apply Nat.ltb_lt in Hpos.
    destruct ns as [|[a v] ns]; [simpl in Hpos; lia|].
    destruct (popFront_spec h l a v ns Hr) as (l' & h' & Hrun & Hr' & _ & _ & _ & Hfl).
    exists l', h', ns. split; [done|]. split; [done|].
    intros Hflag. rewrite Hfl in Hflag. by eapply nondecreasing_tail, Hsound.
  - apply andb_prop in Hg as [Hpos _]. apply Nat.ltb_lt in Hpos.
    destruct ns as [|[a v] ns _] using rev_ind; [simpl in Hpos; lia|].
    destruct (popBack_spec h l a v ns Hr) as (l' & h' & Hrun & Hr' & _ & _ & _ & Hfl).
    exists l', h', ns. split; [done|]. split; [done|].
    intros Hflag. rewrite Hfl in Hflag. apply (nondecreasing_init _ v).
    rewrite fmap_app in Hsound. by apply Hsound.
Qed.
End flag_proofs.

(** C4 (the defect): [forEach] with a function that negates every element,
    applied to [{1, 2, 3}], leaves [sorted()] true on the sequence
    [-1, -2, -3], for which [isSortedCheck()] returns false. *)
Theorem forEach_breaks_sorted_flag :
  ∃ l h l' h',
    List_init [1; 2; 3]%Z ∅ = Ok (l, h) ∧ sorted l = true ∧
    forEach 3 Z.opp l h = Ok (l', h') ∧
    sorted l' = true ∧
    toVector 3 l' h' = Ok ([-1; -2; -3]%Z, h') ∧
    isSortedCheck 3 l' h' = Ok (false, h').
Proof.
  eexists _, _, _, _. split; [reflexivity|]. split; [reflexivity|].
  split; [reflexivity|]. split; [reflexivity|]. split; reflexivity.
Qed.

(** * The rest of the interface *)

(** ** Taking a node out of the chain *)

Section unlink_proofs.
Context {T : Type} `{!Ordered T}.
Implicit Types (h : gmap loc (Node T)) (ns : list (loc * T)) (l : List).
Implicit Types (ps : list loc).

Lemma repr_flag h l ns s :
  repr h l ns → repr h (mkList (headNode l) (tailNode l) (listSize l) s) ns.
Proof. by intros [? ? ? ? ?]. Qed.

Lemma repr_list_of h l ns : repr h l ns → l = list_of ns (isSorted l).
Proof.
  intros Hr. unfold list_of.
  rewrite <- (repr_head _ _ _ Hr), <- (repr_tail _ _ _ Hr), <- (repr_size _ _ _ Hr).
  by destruct l.
Qed.

(** The node at a position of a well-formed list, and its two links. *)
Lemma repr_at h l ns1 a v ns2 :
  repr h l (ns1 ++ (a, v) :: ns2) →
  ∃ na, h !! a = Some na ∧ data na = v ∧
    next na = head ns2.*1 ∧ prev na = last ns1.*1.
Proof.
  intros [Hf Hb _ _ Hc].
  rewrite fmap_app in Hf, Hb. cbn [fmap list_fmap fst] in Hf, Hb.
  apply seg_app in Hf as (m & _ & Hf). destruct Hf as (-> & na & Ha & Hf).
  rewrite rev_app_distr in Hb. cbn [rev] in Hb. rewrite <- app_assoc in Hb.
  apply seg_app in Hb as (m & _ & Hb). cbn [app] in Hb.
  destruct Hb as (-> & na' & Ha' & Hb). rewrite Ha in Ha'. injection Ha' as <-.
  apply cells_app in Hc as [_ Hc]. apply cells_cons in Hc as [(na' & Ha' & Hd) _].
  rewrite Ha in Ha'. injection Ha' as <-.
  exists na. split; [done|]. split; [done|]. split.
  - by apply seg_None_head in Hf.
  - apply seg_None_head in Hb. by rewrite head_rev_last in Hb.
Qed.

Lemma repr_distinct h l ns1 a v ns2 :
  repr h l (ns1 ++ (a, v) :: ns2) →
  (a ∉ ns1.*1) ∧ (a ∉ ns2.*1) ∧ NoDup (ns1 ++ ns2).*1 ∧
  (∀ b, b ∈ ns1.*1 → b ∉ ns2.*1).
Proof.
  intros [_ _ Hnd _ _]. rewrite fmap_app in Hnd. cbn [fmap list_fmap fst] in Hnd.
  apply NoDup_app in Hnd as (Hnd1 & Hd & Hnd2).
  apply NoDup_cons in Hnd2 as [Ha2 Hnd2].
  split; [intros Hin; apply (Hd a Hin); left|]. split; [done|]. split.
  - rewrite fmap_app. apply NoDup_app. split; [done|]. split; [|done].
    intros b Hb1 Hb2. apply (Hd b Hb1). by right.
  - intros b Hb1 Hb2. apply (Hd b Hb1). by right.
Qed.

Lemma alter_Some h (f : Node T → Node T) p np :
  h !! p = Some np → alter f p h = <[p := f np]> h.
Proof.
  intros Hp. apply map_eq. intros b. destruct (decide (b = p)) as [->|Hne].
  - by rewrite lookup_alter_eq, lookup_insert_eq, Hp.
  - by rewrite lookup_alter_ne, lookup_insert_ne.
Qed.

Lemma unlinked_lookup h a na b :
  h !! a = Some na →
  unlinked h a !! b =
    if decide (b = a) then None
    else (λ n, mkNode (data n)
                 (if decide (Some b = prev na) then next na else next n)
                 (if decide (Some b = next na) then prev na else prev n))
         <$> h !! b.
Proof.
  intros Ha. unfold unlinked. rewrite Ha. cbv zeta.
  destruct (decide (b = a)) as [->|Hne]; [by rewrite lookup_delete_eq|].
  rewrite lookup_delete_ne by done.
  destruct (prev na) as [p|], (next na) as [c|];
    repeat match goal with
           | |- context [decide (Some b = Some ?x)] =>
               destruct (decide (Some b = Some x)) as [[= <-]|?]
           | |- context [decide (Some b = None)] =>
               destruct (decide (Some b = None)) as [?|_]; [done|]
           end;
    rewrite ?lookup_alter_eq, ?lookup_alter_ne by congruence;
    rewrite ?lookup_alter_eq, ?lookup_alter_ne by congruence;
    destruct (h !! b) as [[? ? ?]|]; done.
Qed.

Lemma unlinked_gone h a : unlinked h a !! a = None.
Proof.
  destruct (h !! a) as [na|] eqn:Ha.
  - rewrite (unlinked_lookup h a na a Ha). by rewrite decide_True.
  - unfold unlinked. by rewrite Ha.
Qed.

Lemma unlinked_data h a b :
  b ≠ a → data <$> unlinked h a !! b = data <$> h !! b.
Proof.
  intros Hne. destruct (h !! a) as [na|] eqn:Ha.
  - rewrite (unlinked_lookup h a na b Ha), decide_False by done.
    by destruct (h !! b).
  - unfold unlinked. by rewrite Ha.
Qed.

Lemma unlinked_next h a na b :
  h !! a = Some na → b ≠ a → Some b ≠ prev na →
  next <$> unlinked h a !! b = next <$> h !! b.
Proof.
  intros Ha Hne Hp. rewrite (unlinked_lookup h a na b Ha), decide_False by done.
  destruct (h !! b) as [nb|]; [|done]. cbn [fmap option_fmap option_map next].
  by rewrite decide_False.
Qed.

Lemma unlinked_prev h a na b :
  h !! a = Some na → b ≠ a → Some b ≠ next na →
  prev <$> unlinked h a !! b = prev <$> h !! b.
Proof.
  intros Ha Hne Hp. rewrite (unlinked_lookup h a na b Ha), decide_False by done.
  destruct (h !! b) as [nb|]; [|done]. cbn [fmap option_fmap option_map prev].
  by rewrite decide_False.
Qed.

Lemma unlinked_pred h a na p np :
  h !! a = Some na → prev na = Some p → p ≠ a → h !! p = Some np →
  ∃ n', unlinked h a !! p = Some n' ∧ next n' = next na.
Proof.
  intros Ha Hp Hne Hnp. rewrite (unlinked_lookup h a na p Ha), decide_False by done.
  rewrite Hnp. cbn [fmap option_fmap option_map]. eexists. split; [done|].
  cbn [next]. by rewrite decide_True.
Qed.

Lemma unlinked_succ h a na c nc :
  h !! a = Some na → next na = Some c → c ≠ a → h !! c = Some nc →
  ∃ n', unlinked h a !! c = Some n' ∧ prev n' = prev na.
Proof.
  intros Ha Hc Hne Hnc. rewrite (unlinked_lookup h a na c Ha), decide_False by done.
  rewrite Hnc. cbn [fmap option_fmap option_map]. eexists. split; [done|].
  cbn [prev]. by rewrite decide_True.
Qed.

Lemma unlinked_other h a na b :
  h !! a = Some na → b ≠ a → Some b ≠ prev na → Some b ≠ next na →
  unlinked h a !! b = h !! b.
Proof.
  intros Ha Hne Hp Hn. rewrite (unlinked_lookup h a na b Ha).
  rewrite decide_False by done. destruct (h !! b) as [[d nx pv]|]; [|done].
  cbn [fmap option_fmap option_map data next prev].
  by rewrite !decide_False.
Qed.

Lemma unlinked_dom h a : dom (unlinked h a) ⊆ dom h.
Proof.
  intros b. rewrite !elem_of_dom. destruct (h !! a) as [na|] eqn:Ha.
  - rewrite (unlinked_lookup h a na b Ha). destruct (decide (b = a)).
    + by intros [? ?].
    + destruct (h !! b); [eauto|by intros [? ?]].
  - unfold unlinked. by rewrite Ha.
Qed.

(** A chain whose last node is redirected. *)
Lemma seg_redirect (f : Node T → ptr) h h' q ps p x y :
  seg f h q (ps ++ [p]) y →
  (∀ b, b ∈ ps → f <$> h' !! b = f <$> h !! b) →
  (∃ n', h' !! p = Some n' ∧ f n' = x) →
  seg f h' q (ps ++ [p]) x.
Proof.
  intros Hs Hsame Hp. apply seg_snoc in Hs as [Hs _]. apply seg_snoc.
  split; [|done]. by apply (seg_ext f h).
Qed.

(** The chain through the nodes before and after [a] in the heap where [a]
    is unlinked. *)
Lemma seg_unlinked (f g : Node T → ptr) h h' a na ps1 ps2 q :
  seg f h q (ps1 ++ a :: ps2) None → h !! a = Some na →
  g na = last ps1 →
  a ∉ ps1 → a ∉ ps2 → NoDup (ps1 ++ ps2) →
  (∀ b, b ≠ a → Some b ≠ g na → f <$> h' !! b = f <$> h !! b) →
  (∀ p np, g na = Some p → p ≠ a → h !! p = Some np →
     ∃ n', h' !! p = Some n' ∧ f n' = f na) →
  seg f h' (head (ps1 ++ ps2)) (ps1 ++ ps2) None.
Proof.
  intros Hs Ha Hg Ha1 Ha2 Hnd Hsame Hred.
  apply NoDup_app in Hnd as (Hnd1 & Hd & Hnd2).
  apply seg_app in Hs as (m & Hs1 & Hs2). destruct Hs2 as (-> & na' & Ha' & Hs2).
  rewrite Ha in Ha'. injection Ha' as <-.
  assert (seg f h' (f na) ps2 None) as Hs2'.
  { apply (seg_ext f h); [|done]. intros b Hb. apply Hsame.
    - by intros ->.
    - rewrite Hg. intros Heq. symmetry in Heq.
      apply last_Some_elem_of in Heq. by apply (Hd b). }
  assert (∃ X, seg f h' X (ps1 ++ ps2) None) as [X HX].
  { destruct ps1 as [|p ps1 _] using rev_ind; [by exists (f na)|].
    rewrite last_snoc in Hg. exists q. apply seg_app. exists (f na).
    split; [|done]. apply NoDup_app in Hnd1 as (_ & Hd1 & _).
    destruct (seg_lookup f h q (ps1 ++ [p]) (Some a) p Hs1) as [np Hnp].
    { apply elem_of_app. right. left. }
    eapply seg_redirect; [exact Hs1| |].
    - intros b Hb. apply Hsame.
      + intros ->. apply Ha1. apply elem_of_app. by left.
      + rewrite Hg. intros [= ->]. apply (Hd1 p Hb). left.
    - apply (Hred p np); [done| |done].
      intros ->. apply Ha1. apply elem_of_app. right. left. }
  by rewrite <- (seg_None_head _ _ _ _ HX).
Qed.

(** The list without the node [a], in the heap where [a] is unlinked. *)
Lemma repr_unlinked h l ns1 a v ns2 s :
  repr h l (ns1 ++ (a, v) :: ns2) →
  repr (unlinked h a) (list_of (ns1 ++ ns2) s) (ns1 ++ ns2).
Proof.
  intros Hr. destruct (repr_at _ _ _ _ _ _ Hr) as (na & Ha & Hd & Hnx & Hpv).
  destruct (repr_distinct _ _ _ _ _ _ Hr) as (Ha1 & Ha2 & Hnd & Hdisj).
  pose proof Hr as [Hf Hb _ Hsz Hc].
  rewrite fmap_app in Hf, Hb. cbn [fmap list_fmap fst] in Hf, Hb.
  rewrite rev_app_distr in Hb. cbn [rev] in Hb. rewrite <- app_assoc in Hb.
  cbn [app] in Hb. rewrite fmap_app in Hnd.
  unfold list_of. split; cbn [headNode tailNode listSize].
  - rewrite fmap_app.
    apply (seg_unlinked next prev h _ a na _ _ (headNode l)); try done.
    + intros b Hne Hp. by apply (unlinked_next h a na).
    + intros p np Hp Hne Hnp. by apply (unlinked_pred h a na p np).
  - rewrite <- head_rev_last, fmap_app, rev_app_distr.
    apply (seg_unlinked prev next h _ a na _ _ (tailNode l)); try done.
    + by rewrite last_rev_head.
    + by rewrite elem_of_rev.
    + by rewrite elem_of_rev.
    + rewrite <- rev_app_distr. by apply NoDup_rev_2.
    + intros b Hne Hp. by apply (unlinked_prev h a na).
    + intros c nc Hc' Hne Hnc. by apply (unlinked_succ h a na c nc).
  - by rewrite fmap_app.
  - done.
  - apply cells_app in Hc as [Hc1 Hc2]. apply cells_cons in Hc2 as [_ Hc2].
    apply cells_app. split.
    + apply (cells_ext h); [|done]. intros b Hin. apply unlinked_data.
      by intros ->.
    + apply (cells_ext h); [|done]. intros b Hin. apply unlinked_data.
      by intros ->.
Qed.

Lemma unlinked_preserved h l ns1 a v ns2 :
  repr h l (ns1 ++ (a, v) :: ns2) →
  preserved h (unlinked h a) (ns1 ++ (a, v) :: ns2).*1.
Proof.
  intros Hr b n Hb Hn.
  destruct (repr_at _ _ _ _ _ _ Hr) as (na & Ha & Hd & Hnx & Hpv).
  rewrite fmap_app in Hb. cbn [fmap list_fmap fst] in Hb.
  rewrite (unlinked_other h a na b Ha); [done|..].
  - intros ->. apply Hb. apply elem_of_app. right. left.
  - rewrite Hpv. intros Heq. symmetry in Heq. apply last_Some_elem_of in Heq.
    apply Hb. apply elem_of_app. by left.
  - rewrite Hnx. intros Heq. symmetry in Heq. apply head_Some_elem_of in Heq.
    apply Hb. apply elem_of_app. right. by right.
Qed.

End unlink_proofs.

Section unlink_code.
Context {T : Type} `{!Ordered T}.
Implicit Types (h : gmap loc (Node T)) (ns : list (loc * T)) (l : List).
Implicit Types (ps : list loc).

Lemma head_app_nonnil {A} (xs ys : list A) : xs ≠ [] → head (xs ++ ys) = head xs.
Proof. by destruct xs. Qed.

Lemma last_app_nonnil {A} (xs ys : list A) : ys ≠ [] → last (xs ++ ys) = last ys.
Proof.
  intros Hys. destruct ys as [|y ys _] using rev_ind; [done|].
  by rewrite app_assoc, !last_snoc.
Qed.

Lemma list_of_eq ns s hd tl n :
  hd = head ns.*1 → tl = last ns.*1 → n = length ns →
  mkList hd tl n s = list_of ns s.
Proof. by intros -> -> ->. Qed.

Lemma size_dec_S n : size_dec (S n) = n.
Proof. done. Qed.

Lemma unlink_and_delete_spec h l ns1 a v ns2 :
  repr h l (ns1 ++ (a, v) :: ns2) →
  unlink_and_delete (Some a) l h
  = Ok (list_of (ns1 ++ ns2) (isSorted l), unlinked h a).
Proof.
  intros Hr. destruct (repr_at _ _ _ _ _ _ Hr) as (na & Ha & Hd & Hnx & Hpv).
  destruct (repr_distinct _ _ _ _ _ _ Hr) as (Ha1 & Ha2 & Hnd & Hdisj).
  pose proof (repr_head _ _ _ Hr) as Hhd. pose proof (repr_tail _ _ _ Hr) as Htl.
  pose proof (repr_size _ _ _ Hr) as Hsz.
  rewrite fmap_app in Hhd, Htl. cbn [fmap list_fmap fst] in Hhd, Htl.
  rewrite length_app in Hsz. cbn [length] in Hsz.
  rewrite Nat.add_succ_r, <- length_app in Hsz.
  rewrite (last_app_nonnil _ (a :: _)) in Htl by done.
  assert (ns1 ≠ [] → Some a ≠ headNode l) as Hne1.
  { intros Hns1. rewrite Hhd, head_app_nonnil by (by destruct ns1).
    intros Heq. symmetry in Heq. by apply head_Some_elem_of in Heq. }
  assert (ns2 ≠ [] → Some a ≠ tailNode l) as Hne2.
  { intros Hns2. rewrite Htl. destruct ns2 as [|x ns2]; [done|].
    cbn [fmap list_fmap]. rewrite last_cons_cons.
    intros Heq. symmetry in Heq. by apply last_Some_elem_of in Heq. }
  assert (∀ hd tl,
    hd = (if ns1 is [] then next na else headNode l) →
    tl = (if ns2 is [] then prev na else tailNode l) →
    mkList hd tl (size_dec (listSize l)) (isSorted l)
    = list_of (ns1 ++ ns2) (isSorted l)) as Hlist.
  { intros hd tl -> ->. rewrite Hsz, size_dec_S. apply list_of_eq; [| |done].
    - rewrite fmap_app. destruct ns1 as [|x ns1]; [done|].
      by rewrite Hhd, !head_app_nonnil.
    - rewrite fmap_app. destruct ns2 as [|x ns2].
      + by rewrite app_nil_r.
      + rewrite Htl, last_app_nonnil by done. cbn [fmap list_fmap].
        by rewrite last_cons_cons. }
  unfold unlink_and_delete, unlinked. rewrite Ha. cbv zeta.
  destruct ns1 as [|[p pv] ns1 _] using rev_ind.
  - cbn [app fmap list_fmap head last] in Hhd, Hpv. rewrite Hpv.
    rewrite (bool_decide_eq_true_2 (Some a = headNode l)) by done. cbn [andb].
    destruct ns2 as [|[c cv] ns2].
    + cbn [last fmap list_fmap head] in Htl, Hnx. rewrite Hnx.
      rewrite (bool_decide_eq_true_2 (Some a = tailNode l)) by done.
      erewrite bind_Ok by reflexivity.
      erewrite bind_Ok by (by eapply delete_node_Ok).
      cbn [headNode tailNode listSize isSorted].
      rewrite <- (Hlist None None) by (by rewrite ?Hnx, ?Hpv). done.
    + cbn [fmap list_fmap fst head] in Hnx. rewrite Hnx.
      rewrite (bool_decide_eq_false_2 (Some a = tailNode l)) by (by apply Hne2).
      destruct (repr_lookup h l _ c Hr) as [nc Hnc]; [right; left|].
      assert (c ≠ a) as Hca by (intros ->; apply Ha2; left).
      erewrite bind_Ok.
      2:{ rewrite Hhd. erewrite bind_Ok by (by apply deref_Ok). rewrite Hnx.
          erewrite bind_Ok by (by apply set_prev_Ok). reflexivity. }
      erewrite bind_Ok.
      2:{ eapply delete_node_Ok. rewrite lookup_insert_ne by done. exact Ha. }
      cbn [headNode tailNode listSize isSorted].
      rewrite <- (Hlist (Some c) (tailNode l)) by (by rewrite ?Hnx, ?Hpv).
      by rewrite (alter_Some h _ c nc).
  - rewrite fmap_app in Hpv. cbn [fmap list_fmap fst] in Hpv.
    rewrite last_snoc in Hpv. rewrite Hpv.
    rewrite (bool_decide_eq_false_2 (Some a = headNode l))
      by (apply Hne1; by destruct ns1).
    cbn [andb].
    destruct (repr_lookup h l _ p Hr) as [np Hnp].
    { rewrite !fmap_app. cbn [fmap list_fmap fst].
      apply elem_of_app. left. apply elem_of_app. right. left. }
    assert (p ∈ (ns1 ++ [(p, pv)]).*1) as Hpin.
    { rewrite fmap_app. apply elem_of_app. right. left. }
    assert (p ≠ a) as Hpa by (by intros ->).
    destruct ns2 as [|[c cv] ns2].
    + cbn [fmap list_fmap head last] in Hnx, Htl. rewrite Hnx.
      rewrite (bool_decide_eq_true_2 (Some a = tailNode l)) by done.
      erewrite bind_Ok.
      2:{ rewrite Htl. erewrite bind_Ok by (by apply deref_Ok). rewrite Hpv.
          erewrite bind_Ok by (by apply set_next_Ok). reflexivity. }
      erewrite bind_Ok.
      2:{ eapply delete_node_Ok. rewrite lookup_insert_ne by done. exact Ha. }
      cbn [headNode tailNode listSize isSorted].
      rewrite <- (Hlist (headNode l) (Some p)).
      * by rewrite (alter_Some h _ p np).
      * by destruct ns1.
      * by rewrite Hpv.
    + cbn [fmap list_fmap fst head] in Hnx. rewrite Hnx.
      rewrite (bool_decide_eq_false_2 (Some a = tailNode l)) by (by apply Hne2).
      destruct (repr_lookup h l _ c Hr) as [nc Hnc].
      { rewrite !fmap_app. cbn [fmap list_fmap fst].
        apply elem_of_app. right. right. left. }
      assert (c ≠ a) as Hca by (intros ->; apply Ha2; left).
      assert (c ≠ p) as Hcp.
      { intros ->. apply (Hdisj p); [done|left]. }
      erewrite bind_Ok.
      2:{ erewrite bind_Ok by (by apply deref_Ok). rewrite Hpv, Hnx.
          erewrite bind_Ok by (by apply set_next_Ok).
          erewrite bind_Ok
            by (apply deref_Ok; rewrite lookup_insert_ne by done; exact Ha).
          rewrite Hpv, Hnx.
          erewrite bind_Ok
            by (apply set_prev_Ok; rewrite lookup_insert_ne by done; exact Hnc).
          reflexivity. }
      erewrite bind_Ok.
      2:{ eapply delete_node_Ok. rewrite !lookup_insert_ne by done. exact Ha. }
      rewrite <- (Hlist (headNode l) (tailNode l)).
      * rewrite (alter_Some h _ p np) by done.
        by rewrite (alter_Some _ _ c nc) by (by rewrite lookup_insert_ne).
      * by destruct ns1.
      * done.
Qed.

End unlink_code.

(** ** Removal *)

Section removal_proofs.
Context {T : Type} `{!Ordered T}.
Implicit Types (h : gmap loc (Node T)) (ns : list (loc * T)) (l : List).
Implicit Types (ps : list loc).

Lemma filter_snd (P : T → Prop) `{!∀ x, Decision (P x)}
    `{!∀ x : loc * T, Decision (P x.2)} ns :
  (filter (λ x, P x.2) ns).*2 = filter P ns.*2.
Proof.
  induction ns as [|[a v] ns IH]; [done|].
  cbn [fmap list_fmap snd]. rewrite !filter_cons. cbn [snd].
  destruct (decide (P v)), (decide (P v)); try done;
    cbn [fmap list_fmap snd]; by rewrite IH.
Qed.

Lemma filter_fst_subseteq (P : loc * T → Prop) `{!∀ x, Decision (P x)} ns a :
  a ∈ (filter P ns).*1 → a ∈ ns.*1.
Proof.
  intros ([b v] & -> & Hin)%list_elem_of_fmap.
  apply list_elem_of_filter in Hin as [_ Hin].
  apply list_elem_of_fmap. by exists (b, v).
Qed.

Lemma erase_spec h l ns1 a v ns2 :
  repr h l (ns1 ++ (a, v) :: ns2) →
  erase (Some a) l h
  = Ok ((head ns2.*1, list_of (ns1 ++ ns2) (isSorted l)), unlinked h a).
Proof.
  intros Hr. destruct (repr_at _ _ _ _ _ _ Hr) as (na & Ha & Hd & Hnx & Hpv).
  unfold erase. erewrite bind_Ok by (by apply deref_Ok).
  erewrite bind_Ok by (by eapply unlink_and_delete_spec). by rewrite Hnx.
Qed.

Lemma erase_range_spec fuel : ∀ mid ns1 ns2 h l,
  repr h l (ns1 ++ mid ++ ns2) → length mid ≤ fuel →
  ∃ h', erase_range fuel (head (mid ++ ns2).*1) (head ns2.*1) l h
        = Ok ((head ns2.*1, list_of (ns1 ++ ns2) (isSorted l)), h') ∧
    repr h' (list_of (ns1 ++ ns2) (isSorted l)) (ns1 ++ ns2) ∧
    preserved h h' (ns1 ++ mid ++ ns2).*1 ∧
    (∀ a, a ∈ mid.*1 → h' !! a = None) ∧ dom h' ⊆ dom h.
Proof.
  induction fuel as [|fuel IH]; intros mid ns1 ns2 h l Hr Hfuel.
  - destruct mid; [|simpl in Hfuel; lia]. cbn [app] in *.
    exists h. cbn [erase_range]. rewrite bool_decide_eq_true_2 by done.
    rewrite <- (repr_list_of _ _ _ Hr). split; [done|]. split; [done|].
    split; [apply preserved_refl|]. split; [|done]. by intros a Hin%elem_of_nil.
  - destruct mid as [|[a v] mid].
    { cbn [app] in *. exists h. cbn [erase_range].
      rewrite bool_decide_eq_true_2 by done.
      rewrite <- (repr_list_of _ _ _ Hr). split; [done|]. split; [done|].
      split; [apply preserved_refl|]. split; [|done].
      by intros a Hin%elem_of_nil. }
    cbn [app fmap list_fmap fst head] in *.
    destruct (repr_distinct _ _ _ _ _ _ Hr) as (Ha1 & Ha2 & Hnd & Hdisj).
    cbn [erase_range]. rewrite bool_decide_eq_false_2.
    2:{ intros Heq. symmetry in Heq. apply head_Some_elem_of in Heq.
        apply Ha2. rewrite fmap_app. apply elem_of_app. by right. }
    erewrite bind_Ok by (by eapply erase_spec).
    pose proof (repr_unlinked _ _ _ _ _ _ (isSorted l) Hr) as Hr1.
    destruct (IH mid ns1 ns2 (unlinked h a) _ Hr1) as (h' & Hrun & Hr' & Hp & Hgone & Hdom);
      [simpl in Hfuel; lia|].
    cbn [isSorted list_of] in Hrun, Hr'. exists h'. split; [exact Hrun|].
    split; [exact Hr'|]. split; [|split].
    + eapply preserved_trans; [by eapply unlinked_preserved|exact Hp|..].
      * done.
      * intros b. rewrite !fmap_app. cbn [fmap list_fmap fst].
        rewrite !elem_of_app, elem_of_cons, fmap_app, elem_of_app. tauto.
    + intros b [->|Hb]%elem_of_cons; [|by apply Hgone].
      destruct (h' !! a) as [n|] eqn:Hn; [|done]. exfalso.
      assert (a ∈ dom (unlinked h a)) as Hin
        by (apply Hdom; apply elem_of_dom; eauto).
      apply elem_of_dom in Hin as [? Hin]. by rewrite unlinked_gone in Hin.
    + etrans; [exact Hdom|]. apply unlinked_dom.
Qed.

(** When [last] is not a node from [first] on, the loop of
    [erase(first, last)] deletes every node from [first] on and then keeps
    calling [erase(end())]. *)
Lemma erase_range_diverges b fuel : ∀ ns1 ns2 h l,
  repr h l (ns1 ++ ns2) → b ∉ ns2.*1 →
  erase_range fuel (head ns2.*1) (Some b) l h = OutOfFuel.
Proof.
  induction fuel as [|fuel IH]; intros ns1 ns2 h l Hr Hb.
  - cbn [erase_range]. rewrite bool_decide_eq_false_2; [done|].
    intros Heq. by apply head_Some_elem_of in Heq.
  - cbn [erase_range]. rewrite bool_decide_eq_false_2.
    2:{ intros Heq. by apply head_Some_elem_of in Heq. }
    destruct ns2 as [|[a v] ns2].
    + cbn [fmap list_fmap head erase]. erewrite bind_Ok by reflexivity.
      by apply (IH ns1 []).
    + cbn [fmap list_fmap fst head]. erewrite bind_Ok by (by eapply erase_spec).
      apply (IH ns1 ns2).
      * by eapply repr_unlinked.
      * intros Hin. apply Hb. by right.
Qed.

Lemma removeFirst_loop_absent value h fuel : ∀ ns cur l,
  seg next h cur ns.*1 None → cells h ns → value ∉ ns.*2 → length ns ≤ fuel →
  removeFirst_loop fuel value cur l h = Ok ((false, l), h).
Proof.
  induction fuel as [|fuel IH]; intros ns cur l Hs Hc Hv Hfuel.
  - destruct ns; [|simpl in Hfuel; lia]. simpl in Hs. by subst cur.
  - destruct ns as [|[a v] ns]; [simpl in Hs; by subst cur|].
    cbn [fmap list_fmap fst] in Hs.
    destruct Hs as (-> & n & Ha & Hs). apply cells_cons in Hc as [(n' & Ha' & Hd) Hc].
    rewrite Ha in Ha'. injection Ha' as <-.
    cbn [removeFirst_loop]. erewrite bind_Ok by (by apply deref_Ok).
    rewrite Hd. destruct (eqb v value) eqn:Heq.
    { apply eqb_eq in Heq as ->. exfalso. apply Hv. left. }
    apply (IH ns); [done|done| |simpl in Hfuel; lia].
    intros Hin. apply Hv. by right.
Qed.

Lemma removeFirst_loop_spec value fuel : ∀ r1 done a r2 h l,
  repr h l (done ++ r1 ++ (a, value) :: r2) → value ∉ r1.*2 →
  S (length r1) ≤ fuel →
  removeFirst_loop fuel value (head (r1 ++ [(a, value)]).*1) l h
  = Ok ((true, list_of (done ++ r1 ++ r2) (isSorted l)), unlinked h a).
Proof.
  induction fuel as [|fuel IH]; intros r1 done a r2 h l Hr Hv Hfuel; [lia|].
  destruct r1 as [|[b w] r1].
  - cbn [app fmap list_fmap fst head] in *.
    destruct (repr_at _ _ _ _ _ _ Hr) as (na & Ha & Hd & _).
    cbn [removeFirst_loop]. erewrite bind_Ok by (by apply deref_Ok).
    rewrite Hd. replace (eqb value value) with true by (symmetry; by apply eqb_eq).
    by erewrite bind_Ok by (by eapply unlink_and_delete_spec).
  - cbn [app fmap list_fmap fst head] in *.
    destruct (repr_at _ _ _ _ _ _ Hr) as (nb & Hb & Hd & Hnx & _).
    cbn [removeFirst_loop]. erewrite bind_Ok by (by apply deref_Ok).
    rewrite Hd. destruct (eqb w value) eqn:Heq.
    { apply eqb_eq in Heq as ->. exfalso. apply Hv. left. }
    rewrite Hnx.
    specialize (IH r1 (done ++ [(b, w)]) a r2 h l).
    rewrite <- !app_assoc in IH. cbn [app] in IH.
    replace (head (r1 ++ (a, value) :: r2).*1) with (head (r1 ++ [(a, value)]).*1)
      by (by destruct r1).
    apply IH; [done| |simpl in Hfuel; lia].
    intros Hin. apply Hv. by right.
Qed.

Lemma removeLast_loop_absent value h fuel : ∀ ns cur l,
  seg prev h cur (rev ns.*1) None → cells h ns → value ∉ ns.*2 →
  length ns ≤ fuel →
  removeLast_loop fuel value cur l h = Ok ((false, l), h).
Proof.
  induction fuel as [|fuel IH]; intros ns cur l Hs Hc Hv Hfuel.
  - destruct ns; [|simpl in Hfuel; lia]. simpl in Hs. by subst cur.
  - destruct ns as [|[a v] ns _] using rev_ind; [simpl in Hs; by subst cur|].
    rewrite fmap_app, rev_app_distr in Hs. cbn [fmap list_fmap fst rev app] in Hs.
    destruct Hs as (-> & n & Ha & Hs).
    apply cells_app in Hc as [Hc Hc1].
    apply cells_singleton in Hc1 as (n' & Ha' & Hd).
    rewrite Ha in Ha'. injection Ha' as <-.
    rewrite fmap_app in Hv. cbn [fmap list_fmap snd] in Hv.
    cbn [removeLast_loop]. erewrite bind_Ok by (by apply deref_Ok).
    rewrite Hd. destruct (eqb v value) eqn:Heq.
    { apply eqb_eq in Heq as ->. exfalso. apply Hv. apply elem_of_app. right. left. }
    apply (IH ns); [done|done| |rewrite length_app in Hfuel; simpl in Hfuel; lia].
    intros Hin. apply Hv. apply elem_of_app. by left.
Qed.

Lemma removeLast_loop_spec value fuel : ∀ r2 done a r1 h l,
  repr h l (r1 ++ (a, value) :: r2 ++ done) → value ∉ r2.*2 →
  S (length r2) ≤ fuel →
  removeLast_loop fuel value (last ((a, value) :: r2).*1) l h
  = Ok ((true, list_of (r1 ++ r2 ++ done) (isSorted l)), unlinked h a).
Proof.
  induction fuel as [|fuel IH]; intros r2 done a r1 h l Hr Hv Hfuel; [lia|].
  destruct r2 as [|[b w] r2 _] using rev_ind.
  - cbn [app fmap list_fmap fst last] in *.
    destruct (repr_at _ _ _ _ _ _ Hr) as (na & Ha & Hd & _).
    cbn [removeLast_loop]. erewrite bind_Ok by (by apply deref_Ok).
    rewrite Hd. replace (eqb value value) with true by (symmetry; by apply eqb_eq).
    by erewrite bind_Ok by (by eapply unlink_and_delete_spec).
  - rewrite fmap_app in Hv. cbn [fmap list_fmap snd] in Hv.
    assert (repr h l ((r1 ++ (a, value) :: r2) ++ (b, w) :: done)) as Hr'.
    { by rewrite <- !app_assoc in *. }
    destruct (repr_at _ _ _ _ _ _ Hr') as (nb & Hb & Hd & _ & Hpv).
    replace (last ((a, value) :: r2 ++ [(b, w)]).*1) with (Some b).
    2:{ rewrite (fmap_app _ ((a, value) :: r2) [(b, w)]).
        cbn [fmap list_fmap fst]. by rewrite last_snoc. }
    cbn [removeLast_loop]. erewrite bind_Ok by (by apply deref_Ok).
    rewrite Hd. destruct (eqb w value) eqn:Heq.
    { apply eqb_eq in Heq as ->. exfalso. apply Hv. apply elem_of_app. right. left. }
    rewrite Hpv.
    specialize (IH r2 ((b, w) :: done) a r1 h l).
    replace (last (r1 ++ (a, value) :: r2).*1) with (last ((a, value) :: r2).*1)
      by (by rewrite fmap_app, last_app_nonnil).
    rewrite <- !app_assoc. cbn [app]. apply IH.
    + by rewrite <- !app_assoc in Hr.
    + intros Hin. apply Hv. apply elem_of_app. by left.
    + rewrite length_app in Hfuel. simpl in Hfuel. lia.
Qed.

(** The loop of [removeAll] and [removeIf]. *)
Lemma remove_loop_spec (test : T → bool) fuel : ∀ rest done h l removed,
  repr h l (done ++ rest) → length rest ≤ fuel →
  ∃ h', remove_loop fuel test (head rest.*1) l removed h
        = Ok ((removed + length (filter (λ x, test x.2 = true) rest),
               list_of (done ++ filter (λ x, test x.2 = false) rest) (isSorted l)),
              h') ∧
    repr h' (list_of (done ++ filter (λ x, test x.2 = false) rest) (isSorted l))
      (done ++ filter (λ x, test x.2 = false) rest) ∧
    preserved h h' (done ++ rest).*1 ∧ dom h' ⊆ dom h.
Proof.
  induction fuel as [|fuel IH]; intros rest done h l removed Hr Hfuel.
  - destruct rest; [|simpl in Hfuel; lia]. exists h.
    cbn [fmap list_fmap head remove_loop filter list_filter length].
    rewrite Nat.add_0_r, <- (repr_list_of _ _ _ Hr).
    split; [done|]. split; [done|]. split; [apply preserved_refl|done].
  - destruct rest as [|[a v] rest].
    { exists h. cbn [fmap list_fmap head remove_loop filter list_filter length].
      rewrite Nat.add_0_r, <- (repr_list_of _ _ _ Hr).
      split; [done|]. split; [done|]. split; [apply preserved_refl|done]. }
    cbn [fmap list_fmap fst head].
    destruct (repr_at _ _ _ _ _ _ Hr) as (na & Ha & Hd & Hnx & _).
    cbn [remove_loop]. erewrite bind_Ok by (by apply deref_Ok).
    rewrite Hd, Hnx. rewrite !filter_cons. cbn [snd].
    destruct (test v) eqn:Htest.
    + erewrite bind_Ok by (by eapply unlink_and_delete_spec).
      pose proof (repr_unlinked _ _ _ _ _ _ (isSorted l) Hr) as Hr1.
      destruct (IH rest done (unlinked h a) _ (S removed) Hr1)
        as (h' & Hrun & Hr' & Hp & Hdom); [simpl in Hfuel; lia|].
      cbn [isSorted list_of] in Hrun, Hr'. exists h'.
      rewrite decide_True by done. rewrite decide_False by done.
      cbn [length]. rewrite Nat.add_succ_r. split; [exact Hrun|].
      split; [exact Hr'|]. split.
      * eapply preserved_trans; [by eapply unlinked_preserved|exact Hp|..].
        -- done.
        -- intros b. rewrite !fmap_app. cbn [fmap list_fmap fst].
           rewrite !elem_of_app, elem_of_cons. tauto.
      * etrans; [exact Hdom|]. apply unlinked_dom.
    + assert (repr h l ((done ++ [(a, v)]) ++ rest)) as Hr1
        by (by rewrite <- app_assoc).
      destruct (IH rest (done ++ [(a, v)]) h l removed Hr1)
        as (h' & Hrun & Hr' & Hp & Hdom); [simpl in Hfuel; lia|].
      rewrite <- !app_assoc in Hrun, Hr', Hp. cbn [app] in Hrun, Hr', Hp.
      exists h'. rewrite decide_False by done. rewrite decide_True by done.
      done.
Qed.

End removal_proofs.

Section position_proofs.
Context {T : Type} `{!Ordered T}.
Implicit Types (h : gmap loc (Node T)) (ns : list (loc * T)) (l : List).
Implicit Types (ps : list loc).

(** The four assignments that take a node with two neighbours out of the
    chain, and its deletion. *)
Lemma unlink_middle_run {B} h l ns1 a v ns2 (k : M T B) :
  repr h l (ns1 ++ (a, v) :: ns2) → ns1 ≠ [] → ns2 ≠ [] →
  (cn ← deref (Some a);
   set_next (prev cn) (next cn);;
   cn' ← deref (Some a);
   set_prev (next cn') (prev cn');;
   delete_node (Some a);;
   k) h = k (unlinked h a).
Proof.
  intros Hr Hns1 Hns2.
  destruct (repr_at _ _ _ _ _ _ Hr) as (na & Ha & Hd & Hnx & Hpv).
  destruct (repr_distinct _ _ _ _ _ _ Hr) as (Ha1 & Ha2 & Hnd & Hdisj).
  destruct ns1 as [|[p pv] ns1 _] using rev_ind; [done|].
  destruct ns2 as [|[c cv] ns2]; [done|].
  rewrite fmap_app in Hpv. cbn [fmap list_fmap fst head] in Hpv, Hnx.
  rewrite last_snoc in Hpv.
  assert (p ∈ (ns1 ++ [(p, pv)]).*1) as Hpin.
  { rewrite fmap_app. apply elem_of_app. right. left. }
  destruct (repr_lookup h l _ p Hr) as [np Hnp].
  { rewrite fmap_app. apply elem_of_app. by left. }
  destruct (repr_lookup h l _ c Hr) as [nc Hnc].
  { rewrite !fmap_app. cbn [fmap list_fmap fst].
    apply elem_of_app. right. right. left. }
  assert (p ≠ a) as Hpa by (by intros ->).
  assert (c ≠ a) as Hca by (intros ->; apply Ha2; left).
  assert (c ≠ p) as Hcp by (intros ->; apply (Hdisj p); [done|left]).
  erewrite bind_Ok by (by apply deref_Ok). rewrite Hpv, Hnx.
  erewrite bind_Ok by (by apply set_next_Ok).
  erewrite bind_Ok by (apply deref_Ok; rewrite lookup_insert_ne by done; exact Ha).
  rewrite Hpv, Hnx.
  erewrite bind_Ok
    by (apply set_prev_Ok; rewrite lookup_insert_ne by done; exact Hnc).
  erewrite bind_Ok.
  2:{ eapply delete_node_Ok. rewrite !lookup_insert_ne by done. exact Ha. }
  unfold unlinked. rewrite Ha, Hpv, Hnx. cbv zeta.
  rewrite (alter_Some h _ p np) by done.
  by rewrite (alter_Some _ _ c nc) by (by rewrite lookup_insert_ne).
Qed.

Lemma repr_head_middle h l ns1 x ns2 :
  repr h l (ns1 ++ x :: ns2) → ns1 ≠ [] → headNode l = head (ns1 ++ ns2).*1.
Proof.
  intros Hr Hne. rewrite (repr_head _ _ _ Hr), !fmap_app. by destruct ns1.
Qed.

Lemma repr_tail_middle h l ns1 x ns2 :
  repr h l (ns1 ++ x :: ns2) → ns2 ≠ [] → tailNode l = last (ns1 ++ ns2).*1.
Proof.
  intros Hr Hne. rewrite (repr_tail _ _ _ Hr), !fmap_app.
  cbn [fmap list_fmap]. rewrite last_app_cons. destruct ns2 as [|y ns2]; [done|].
  cbn [fmap list_fmap]. by rewrite last_cons_cons, (last_app_nonnil _ (_ :: _)).
Qed.

Lemma removeAt_spec h l ns i :
  repr h l ns → i < length ns →
  ∃ l' h', removeAt i l h = Ok (l', h') ∧
    repr h' l' (take i ns ++ drop (S i) ns) ∧
    isSorted l' = isSorted l ∧ preserved h h' ns.*1 ∧ dom h' ⊆ dom h ∧
    (∀ a v, ns !! i = Some (a, v) → h' !! a = None).
Proof.
  intros Hr Hi. unfold removeAt. pose proof (repr_size _ _ _ Hr) as Hsz.
  rewrite Hsz. replace (length ns <=? i) with false by (symmetry; apply Nat.leb_gt; lia).
  destruct (Nat.eqb_spec i 0) as [->|Hi0].
  { destruct ns as [|[a v] ns]; [simpl in Hi; lia|].
    destruct (popFront_spec h l a v ns Hr) as (l' & h' & Hrun & Hr' & Hp & Hg & Hdom & Hfl).
    exists l', h'. cbn [take drop app]. rewrite drop_0.
    repeat (split; [done|]). by intros ? ? [= <- <-]. }
  destruct (Nat.eqb_spec i (length ns - 1)) as [->|Hil].
  { destruct ns as [|[a v] ns _] using rev_ind; [simpl in Hi; lia|].
    destruct (popBack_spec h l a v ns Hr) as (l' & h' & Hrun & Hr' & Hp & Hg & Hdom & Hfl).
    exists l', h'. rewrite length_app. cbn [length].
    replace (length ns + 1 - 1) with (length ns) by lia.
    rewrite take_app_length. rewrite drop_ge by (rewrite length_app; simpl; lia).
    rewrite app_nil_r, fmap_app. repeat (split; [done|]).
    intros a' v'. rewrite lookup_app_r, Nat.sub_diag by done. by intros [= <- <-]. }
  destruct (lookup_lt_is_Some_2 ns i Hi) as [[a v] Hlook].
  pose proof (take_drop_middle ns i (a, v) Hlook) as Hmid.
  pose proof Hr as Hr2. rewrite <- Hmid in Hr2.
  erewrite bind_Ok.
  2:{ rewrite (getNodeAt_spec h l ns i Hr Hi), list_lookup_fmap, Hlook. reflexivity. }
  cbn [fmap option_fmap option_map fst].
  rewrite (unlink_middle_run h l (take i ns) a v (drop (S i) ns)); [|done|..].
  - eexists _, _. split; [reflexivity|]. split.
    + pose proof (repr_unlinked h l _ a v _ (isSorted l) Hr2) as Hr'.
      rewrite <- (list_of_eq _ _ (headNode l) (tailNode l) (length ns - 1)) in Hr';
        [done|..].
      * apply (repr_head_middle h l _ (a, v)); [done|].
        intros Heq. apply (f_equal length) in Heq. rewrite length_take in Heq.
        simpl in Heq. lia.
      * apply (repr_tail_middle h l _ (a, v)); [done|].
        intros Heq. apply (f_equal length) in Heq. rewrite length_drop in Heq.
        simpl in Heq. lia.
      * rewrite length_app, length_take, length_drop. lia.
    + split; [done|]. split; [|split; [apply unlinked_dom|]].
      * pose proof (unlinked_preserved h l _ a v _ Hr2) as Hp. by rewrite Hmid in Hp.
      * intros a' v'. rewrite Hlook. intros [= <- <-]. apply unlinked_gone.
  - intros Heq. apply (f_equal length) in Heq. rewrite length_take in Heq.
    simpl in Heq. lia.
  - intros Heq. apply (f_equal length) in Heq. rewrite length_drop in Heq.
    simpl in Heq. lia.
Qed.

Lemma uniq_from_snd same (x : loc * T) r :
  (uniq_from (same_node same) x r).*2 = uniq_from same x.2 r.*2.
Proof.
  revert x. induction r as [|y r IH]; intros x; [done|].
  cbn [uniq_from fmap list_fmap]. unfold same_node at 1.
  destruct (same x.2 y.2); [apply IH|].
  cbn [fmap list_fmap]. by rewrite IH.
Qed.

Lemma uniq_from_fst_subseteq same (x : loc * T) r b :
  b ∈ (uniq_from (same_node same) x r).*1 → b ∈ (x :: r).*1.
Proof.
  revert x. induction r as [|y r IH]; intros x; [done|].
  cbn [uniq_from]. destruct (same_node same x y).
  - intros Hin%IH. cbn [fmap list_fmap] in *.
    apply elem_of_cons in Hin as [->|Hin]; [left|right; by right].
  - cbn [fmap list_fmap]. intros [->|Hin%IH]%elem_of_cons; [left|by right].
Qed.

Lemma unique_loop_spec same fuel : ∀ rest done a v h l,
  repr h l (done ++ (a, v) :: rest) → length rest ≤ fuel →
  ∃ h', unique_loop fuel same (Some a) l h
        = Ok (list_of (done ++ uniq_from (same_node same) (a, v) rest) (isSorted l),
              h') ∧
    repr h' (list_of (done ++ uniq_from (same_node same) (a, v) rest) (isSorted l))
      (done ++ uniq_from (same_node same) (a, v) rest) ∧
    preserved h h' (done ++ (a, v) :: rest).*1 ∧ dom h' ⊆ dom h.
Proof.
  induction fuel as [|fuel IH]; intros rest done a v h l Hr Hfuel.
  - destruct rest; [|simpl in Hfuel; lia].
    destruct (repr_at _ _ _ _ _ _ Hr) as (na & Ha & Hd & Hnx & _).
    exists h. cbn [unique_loop uniq_from].
    erewrite bind_Ok by (by apply deref_Ok). rewrite Hnx. cbn [fmap list_fmap head].
    rewrite <- (repr_list_of _ _ _ Hr).
    split; [done|]. split; [done|]. split; [apply preserved_refl|done].
  - destruct (repr_at _ _ _ _ _ _ Hr) as (na & Ha & Hd & Hnx & _).
    destruct rest as [|[b w] rest].
    { exists h. cbn [unique_loop uniq_from].
      erewrite bind_Ok by (by apply deref_Ok). rewrite Hnx. cbn [fmap list_fmap head].
      rewrite <- (repr_list_of _ _ _ Hr).
      split; [done|]. split; [done|]. split; [apply preserved_refl|done]. }
    cbn [fmap list_fmap fst head] in Hnx.
    assert (repr h l ((done ++ [(a, v)]) ++ (b, w) :: rest)) as Hr2
      by (by rewrite <- app_assoc).
    destruct (repr_at _ _ _ _ _ _ Hr2) as (nb & Hb & Hdb & Hnxb & Hpvb).
    rewrite fmap_app in Hpvb. cbn [fmap list_fmap fst] in Hpvb.
    rewrite last_snoc in Hpvb.
    destruct (repr_distinct _ _ _ _ _ _ Hr2) as (Hb1 & Hb2 & Hnd & Hdisj).
    assert (a ≠ b) as Hab.
    { intros ->. apply Hb1. rewrite fmap_app. apply elem_of_app. right. left. }
    cbn [unique_loop]. erewrite bind_Ok by (by apply deref_Ok). rewrite Hnx.
    erewrite bind_Ok by (by apply deref_Ok). rewrite Hd, Hdb.
    cbn [uniq_from].
    replace (same_node same (a, v) (b, w)) with (same v w) by done.
    destruct (same v w) eqn:Hsame.
    + erewrite bind_Ok by (by apply deref_Ok).
      erewrite bind_Ok by (by apply set_next_Ok).
      erewrite bind_Ok
        by (apply deref_Ok; rewrite lookup_insert_ne by done; exact Hb).
      pose proof (repr_unlinked _ _ _ _ _ _ (isSorted l) Hr2) as Hr1.
      rewrite <- app_assoc in Hr1. cbn [app] in Hr1.
      assert (∃ l1,
        (l' ← match next nb with
              | Some _ => set_prev (next nb) (Some a);; mret l
              | None => mret (mkList (headNode l) (Some a) (listSize l) (isSorted l))
              end;
         delete_node (Some b);;
         unique_loop fuel same (Some a)
           (mkList (headNode l') (tailNode l') (size_dec (listSize l')) (isSorted l')))
          (<[a := mkNode (data na) (next nb) (prev na)]> h)
        = unique_loop fuel same (Some a) l1 (unlinked h b) ∧
        l1 = list_of (done ++ (a, v) :: rest) (isSorted l)) as (l1 & -> & ->).
      { exists (mkList (headNode l)
                  (match next nb with Some _ => tailNode l | None => Some a end)
                  (size_dec (listSize l)) (isSorted l)).
        split.
        - unfold unlinked. rewrite Hb, Hpvb. cbv zeta.
          rewrite (alter_Some h _ a na) by done.
          destruct rest as [|[c cv] rest].
          + cbn [fmap list_fmap head] in Hnxb. rewrite Hnxb.
            erewrite bind_Ok by reflexivity.
            erewrite bind_Ok.
            2:{ eapply delete_node_Ok. rewrite lookup_insert_ne by done. exact Hb. }
            reflexivity.
          + cbn [fmap list_fmap fst head] in Hnxb. rewrite Hnxb.
            destruct (repr_lookup h l _ c Hr2) as [nc Hnc].
            { rewrite !fmap_app. cbn [fmap list_fmap fst].
              apply elem_of_app. right. right. left. }
            assert (c ≠ b) as Hcb by (intros ->; apply Hb2; left).
            assert (c ≠ a) as Hca.
            { intros ->. apply (Hdisj a); [|left].
              rewrite fmap_app. apply elem_of_app. right. left. }
            erewrite bind_Ok.
            2:{ erewrite bind_Ok
                  by (apply set_prev_Ok; rewrite lookup_insert_ne by done; exact Hnc).
                reflexivity. }
            erewrite bind_Ok.
            2:{ eapply delete_node_Ok. rewrite !lookup_insert_ne by done. exact Hb. }
            rewrite (alter_Some _ _ c nc) by (by rewrite lookup_insert_ne).
            reflexivity.
        - pose proof (repr_size _ _ _ Hr) as Hsz.
          rewrite length_app in Hsz. cbn [length] in Hsz.
          pose proof (repr_head _ _ _ Hr) as Hhd.
          pose proof (repr_tail _ _ _ Hr) as Htl.
          destruct rest as [|[c cv] rest].
          + cbn [fmap list_fmap head] in Hnxb. rewrite Hnxb.
            cbn [headNode tailNode listSize isSorted].
            rewrite Hsz, Nat.add_succ_r, size_dec_S. apply list_of_eq.
            * rewrite Hhd, !fmap_app. by destruct done.
            * rewrite fmap_app. cbn [fmap list_fmap fst]. by rewrite last_snoc.
            * rewrite length_app. simpl. lia.
          + cbn [fmap list_fmap fst head] in Hnxb. rewrite Hnxb.
            cbn [headNode tailNode listSize isSorted].
            rewrite Hsz, Nat.add_succ_r, size_dec_S. apply list_of_eq.
            * rewrite Hhd, !fmap_app. by destruct done.
            * rewrite Htl, !fmap_app. cbn [fmap list_fmap fst].
              by rewrite !last_app_cons, !last_cons_cons.
            * rewrite !length_app. simpl. lia. }
      destruct (IH rest done a v (unlinked h b) _ Hr1)
        as (h' & Hrun & Hr' & Hp & Hdom); [simpl in Hfuel; lia|].
      cbn [isSorted list_of] in Hrun, Hr'. exists h'. split; [exact Hrun|].
      split; [exact Hr'|]. split.
      * eapply preserved_trans; [by eapply unlinked_preserved|exact Hp|..].
        -- intros c. by rewrite <- app_assoc.
        -- intros c. rewrite !fmap_app. cbn [fmap list_fmap fst].
           rewrite !elem_of_app, !elem_of_cons. tauto.
      * etrans; [exact Hdom|]. apply unlinked_dom.
    + destruct (IH rest (done ++ [(a, v)]) b w h l Hr2)
        as (h' & Hrun & Hr' & Hp & Hdom); [simpl in Hfuel; lia|].
      rewrite <- !app_assoc in Hrun, Hr', Hp. cbn [app] in Hrun, Hr', Hp.
      by exists h'.
Qed.

End position_proofs.

(** ** Insertion at a position *)

Section insertion_proofs.
Context {T : Type} `{!Ordered T}.
Implicit Types (h : gmap loc (Node T)) (ns : list (loc * T)) (l : List).
Implicit Types (ps : list loc).

(** The assignments that link a new node before a node with a predecessor. *)
Lemma splice_run {B} h l ns1 p pv c cv ns2 value s (k : ptr → M T B) :
  repr h l (ns1 ++ [(p, pv); (c, cv)] ++ ns2) →
  ∃ h',
    (newNode ← new_node value;
     set_next newNode (Some c);;
     cn ← deref (Some c);
     set_prev newNode (prev cn);;
     cn' ← deref (Some c);
     set_next (prev cn') newNode;;
     set_prev (Some c) newNode;;
     k newNode) h = k (Some (fresh (dom h))) h' ∧
    repr h' (mkList (headNode l) (tailNode l) (S (listSize l)) s)
      (ns1 ++ [(p, pv); (fresh (dom h), value); (c, cv)] ++ ns2) ∧
    preserved h h' (ns1 ++ [(p, pv); (c, cv)] ++ ns2).*1.
Proof.
  intros Hr. pose proof (fresh_not_in h) as Hfn. set (a := fresh (dom h)) in *.
  assert (repr h l ((ns1 ++ [(p, pv)]) ++ (c, cv) :: ns2)) as Hr2
    by (by rewrite <- app_assoc).
  destruct (repr_at _ _ _ _ _ _ Hr2) as (nc & Hnc & _ & _ & Hpc).
  rewrite fmap_app in Hpc. cbn [fmap list_fmap fst] in Hpc. rewrite last_snoc in Hpc.
  destruct (repr_lookup h l _ p Hr) as [np Hnp].
  { rewrite !fmap_app. apply elem_of_app. right. left. }
  destruct (repr_distinct _ _ _ _ _ _ Hr2) as (Hc1 & _ & _ & _).
  assert (a ≠ p) as Hap by (intros Heq; rewrite Heq in Hfn; congruence).
  assert (a ≠ c) as Hac by (intros Heq; rewrite Heq in Hfn; congruence).
  assert (p ≠ c) as Hpc'.
  { intros ->. apply Hc1. rewrite fmap_app. apply elem_of_app. right. left. }
  eexists. split; [|split].
  - erewrite bind_Ok by reflexivity. fold a.
    erewrite bind_Ok by (apply set_next_Ok; apply lookup_insert_eq).
    cbn [data prev next]. rewrite insert_insert_eq.
    erewrite bind_Ok by (apply deref_Ok; rewrite lookup_insert_ne by done; exact Hnc).
    erewrite bind_Ok by (apply set_prev_Ok; apply lookup_insert_eq).
    cbn [data prev next]. rewrite insert_insert_eq.
    erewrite bind_Ok by (apply deref_Ok; rewrite lookup_insert_ne by done; exact Hnc).
    rewrite Hpc.
    erewrite bind_Ok
      by (apply set_next_Ok; rewrite lookup_insert_ne by done; exact Hnp).
    erewrite bind_Ok
      by (apply set_prev_Ok; rewrite !lookup_insert_ne by done; exact Hnc).
    reflexivity.
  - apply (repr_flag _ _ _ s) in Hr.
    by apply (repr_splice h _ ns1 p pv c cv ns2 a value np nc Hr Hfn Hnp Hnc).
  - intros b n Hb Hn. rewrite !lookup_insert_ne; [done|..].
    + intros <-. congruence.
    + intros <-. apply Hb. rewrite !fmap_app. apply elem_of_app. right. left.
    + intros <-. apply Hb. rewrite !fmap_app. apply elem_of_app. right. right. left.
Qed.

Lemma split_at_middle {A} (xs : list A) i :
  0 < i → i < length xs →
  ∃ xs1 x y xs2, xs = xs1 ++ [x; y] ++ xs2 ∧
    take i xs = xs1 ++ [x] ∧ drop i xs = y :: xs2.
Proof.
  intros Hi0 Hi.
  destruct (lookup_lt_is_Some_2 xs (i - 1)) as [x Hx]; [lia|].
  destruct (lookup_lt_is_Some_2 xs i) as [y Hy]; [lia|].
  exists (take (i - 1) xs), x, y, (drop (S i) xs).
  assert (drop i xs = y :: drop (S i) xs) as Hd by (by apply drop_S).
  assert (take i xs = take (i - 1) xs ++ [x]) as Ht.
  { replace i with (S (i - 1)) at 1 by lia. by apply take_S_r. }
  split; [|done]. rewrite <- (take_drop i xs) at 1. rewrite Ht, Hd.
  by rewrite <- app_assoc.
Qed.

Lemma List_insert_spec h l ns i value :
  repr h l ns → i ≤ length ns →
  ∃ l' h', List_insert i value l h = Ok (l', h') ∧
    repr h' l' (take i ns ++ (fresh (dom h), value) :: drop i ns) ∧
    preserved h h' ns.*1 ∧
    isSorted l' = (if i =? 0 then flag_after_front (isSorted l) ns.*2 value
                   else if i =? length ns
                        then flag_after_back (isSorted l) ns.*2 value
                        else false).
Proof.
  intros Hr Hi. unfold List_insert. pose proof (repr_size _ _ _ Hr) as Hsz.
  rewrite Hsz. replace (length ns <? i) with false by (symmetry; apply Nat.ltb_ge; lia).
  destruct (Nat.eqb_spec i 0) as [->|Hi0].
  { destruct (pushFront_spec h l ns value Hr) as (l' & h' & Hrun & Hr' & Hp & Hfl).
    exists l', h'. cbn [take app]. by rewrite drop_0. }
  destruct (Nat.eqb_spec i (length ns)) as [->|Hil].
  { destruct (pushBack_spec h l ns value Hr) as (l' & h' & Hrun & Hr' & Hp & Hfl).
    exists l', h'. by rewrite firstn_all, drop_all. }
  destruct (split_at_middle ns i) as (ns1 & [p pv] & [c cv] & ns2 & Hns & Ht & Hd);
    [lia|lia|].
  erewrite bind_Ok.
  2:{ rewrite (getNodeAt_spec h l ns i Hr) by lia.
      rewrite list_lookup_fmap, <- (take_drop i ns), lookup_app_r
        by (rewrite length_take; lia).
      rewrite length_take, Hd. replace (i - i `min` length ns) with 0 by lia.
      reflexivity. }
  pose proof Hr as Hr2. rewrite Hns in Hr2.
  destruct (splice_run h l ns1 p pv c cv ns2 value false
              (λ _, mret (mkList (headNode l) (tailNode l) (S (listSize l)) false))
              Hr2) as (h' & Hrun & Hr' & Hp).
  rewrite Hsz in Hrun, Hr'. cbv beta.
  change (fst <$> ((c, cv) :: ns2) !! 0) with (Some c). rewrite Hrun.
  eexists _, h'. split; [reflexivity|]. split; [|split; [|done]].
  - rewrite Ht, Hd. by rewrite <- app_assoc.
  - by rewrite Hns.
Qed.

Lemma List_insert_before_spec h l ns1 ns2 value :
  repr h l (ns1 ++ ns2) →
  ∃ l' h', List_insert_before (head ns2.*1) value l h
           = Ok ((Some (fresh (dom h)), l'), h') ∧
    repr h' l' (ns1 ++ (fresh (dom h), value) :: ns2) ∧
    preserved h h' (ns1 ++ ns2).*1 ∧
    isSorted l' = (if ns2 is [] then flag_after_back (isSorted l) ns1.*2 value
                   else if ns1 is []
                        then flag_after_front (isSorted l) ns2.*2 value
                        else false).
Proof.
  intros Hr. unfold List_insert_before.
  destruct ns2 as [|[c cv] ns2].
  { rewrite app_nil_r in *. cbn [fmap list_fmap head].
    destruct (pushBack_spec h l ns1 value Hr) as (l' & h' & Hrun & Hr' & Hp & Hfl).
    erewrite bind_Ok by exact Hrun. exists l', h'.
    rewrite (repr_tail _ _ _ Hr'), fmap_app. cbn [fmap list_fmap fst].
    by rewrite last_snoc. }
  cbn [fmap list_fmap fst head].
  destruct ns1 as [|[p pv] ns1 _] using rev_ind.
  { cbn [app] in *. rewrite (repr_head _ _ _ Hr). cbn [fmap list_fmap fst head].
    rewrite bool_decide_eq_true_2 by done.
    destruct (pushFront_spec h l _ value Hr) as (l' & h' & Hrun & Hr' & Hp & Hfl).
    erewrite bind_Ok by exact Hrun. exists l', h'.
    by rewrite (repr_head _ _ _ Hr'). }
  destruct (repr_distinct _ _ _ _ _ _ Hr) as (Hc1 & _ & _ & _).
  rewrite bool_decide_eq_false_2.
  2:{ rewrite (repr_head _ _ _ Hr), fmap_app, head_app_nonnil.
      - intros Heq. symmetry in Heq. by apply head_Some_elem_of in Heq.
      - rewrite fmap_app. by destruct (ns1.*1). }
  assert (repr h l (ns1 ++ [(p, pv); (c, cv)] ++ ns2)) as Hr2
    by (by rewrite <- app_assoc in Hr).
  destruct (splice_run h l ns1 p pv c cv ns2 value false
              (λ newNode, mret (newNode,
                 mkList (headNode l) (tailNode l) (S (listSize l)) false))
              Hr2) as (h' & Hrun & Hr' & Hp).
  cbv zeta. rewrite Hrun.
  eexists _, h'. split; [reflexivity|]. split; [|split].
  - by rewrite <- app_assoc.
  - by rewrite <- app_assoc.
  - cbn [isSorted]. by destruct ns1.
Qed.

End insertion_proofs.

(** ** Traversals that only read *)

Section reading_proofs.
Context {T : Type} `{!Ordered T}.
Implicit Types (h : gmap loc (Node T)) (ns : list (loc * T)) (l : List).
Implicit Types (ps : list loc).

(** The first node of a chain of nodes that hold their values. *)
Lemma chain_cons (f : Node T → ptr) h cur a v ns :
  seg f h cur ((a, v) :: ns).*1 None → cells h ((a, v) :: ns) →
  cur = Some a ∧ ∃ n, h !! a = Some n ∧ data n = v ∧
    seg f h (f n) ns.*1 None ∧ cells h ns.
Proof.
  cbn [fmap list_fmap fst]. intros (-> & n & Hn & Hs) [(n' & Hn' & Hd) Hc]%cells_cons.
  rewrite Hn in Hn'. injection Hn' as <-. eauto 10.
Qed.

Lemma fmap_rev {A B} (f : A → B) (xs : list A) : f <$> rev xs = rev (f <$> xs).
Proof.
  induction xs as [|x xs IH]; [done|]. cbn [rev fmap list_fmap].
  by rewrite fmap_app, IH.
Qed.

(** The backward chain of a well-formed list. *)
Lemma repr_backward h l ns :
  repr h l ns → seg prev h (tailNode l) (rev ns).*1 None ∧ cells h (rev ns).
Proof.
  intros [_ Hb _ _ Hc]. rewrite fmap_rev. split; [done|].
  eapply cells_perm; [|exact Hc]. apply Permutation_rev.
Qed.

Lemma eqb_refl (v : T) : eqb v v = true.
Proof. by apply eqb_eq. Qed.

Lemma eqb_false (v w : T) : eqb v w = false ↔ v ≠ w.
Proof.
  split.
  - intros Hf ->. by rewrite eqb_refl in Hf.
  - intros Hne. destruct (eqb v w) eqn:Heq; [|done]. by apply eqb_eq in Heq.
Qed.

Lemma contains_loop_spec value h : ∀ ns cur fuel,
  seg next h cur ns.*1 None → cells h ns → length ns ≤ fuel →
  ∃ b, contains_loop fuel value cur h = Ok (b, h) ∧ (b = true ↔ value ∈ ns.*2).
Proof.
  induction ns as [|[a v] ns IH]; intros cur fuel Hs Hc Hfuel.
  - simpl in Hs. subst cur. exists false. split; [by destruct fuel|].
    split; [done|]. by intros ?%elem_of_nil.
  - destruct (chain_cons _ _ _ _ _ _ Hs Hc) as (-> & n & Hn & Hd & Hs' & Hc').
    destruct fuel as [|fuel]; [simpl in Hfuel; lia|].
    cbn [contains_loop]. erewrite bind_Ok by (by apply deref_Ok). rewrite Hd.
    destruct (eqb v value) eqn:Heq.
    + apply eqb_eq in Heq as ->. exists true. split; [done|]. split; [|done].
      intros _. left.
    + destruct (IH (next n) fuel Hs' Hc') as (b & Hrun & Hb); [simpl in Hfuel; lia|].
      exists b. split; [done|]. rewrite Hb. cbn [fmap list_fmap snd].
      rewrite elem_of_cons. apply eqb_false in Heq.
      split; [by right|]. by intros [?|?].
Qed.

Lemma count_loop_spec value h : ∀ ns cur fuel counter,
  seg next h cur ns.*1 None → cells h ns → length ns ≤ fuel →
  count_loop fuel value cur counter h
  = Ok (counter + length (filter (λ x, eqb x value = true) ns.*2), h).
Proof.
  induction ns as [|[a v] ns IH]; intros cur fuel counter Hs Hc Hfuel.
  - simpl in Hs. subst cur. destruct fuel; cbn; by rewrite Nat.add_0_r.
  - destruct (chain_cons _ _ _ _ _ _ Hs Hc) as (-> & n & Hn & Hd & Hs' & Hc').
    destruct fuel as [|fuel]; [simpl in Hfuel; lia|].
    cbn [count_loop]. erewrite bind_Ok by (by apply deref_Ok). rewrite Hd.
    rewrite IH by (try done; simpl in Hfuel; lia).
    cbn [fmap list_fmap snd]. rewrite filter_cons.
    destruct (eqb v value) eqn:Heq.
    + rewrite decide_True by done. cbn [length]. do 2 f_equal. lia.
    + by rewrite decide_False by done.
Qed.

Lemma find_loop_spec value h : ∀ ns cur fuel,
  seg next h cur ns.*1 None → cells h ns → length ns ≤ fuel →
  find_loop fuel value cur h = Ok (head (holding value ns).*1, h).
Proof.
  induction ns as [|[a v] ns IH]; intros cur fuel Hs Hc Hfuel.
  - simpl in Hs. subst cur. by destruct fuel.
  - destruct (chain_cons _ _ _ _ _ _ Hs Hc) as (-> & n & Hn & Hd & Hs' & Hc').
    destruct fuel as [|fuel]; [simpl in Hfuel; lia|].
    cbn [find_loop]. erewrite bind_Ok by (by apply deref_Ok). rewrite Hd.
    rewrite holding_cons. cbn [snd]. destruct (eqb v value) eqn:Heq; [done|].
    apply IH; [done|done|simpl in Hfuel; lia].
Qed.

Lemma first_index_Some value (vs : list T) i :
  first_index value vs = Some i →
  vs !! i = Some value ∧ ∀ j, j < i → vs !! j ≠ Some value.
Proof.
  revert i. induction vs as [|v vs IH]; intros i; [done|].
  cbn [first_index]. destruct (eqb v value) eqn:Heq.
  - intros [= <-]. apply eqb_eq in Heq as ->. split; [done|]. intros j Hj. lia.
  - destruct (first_index value vs) as [k|]; [|done]. intros [= <-].
    destruct (IH k eq_refl) as [Hk Hmin]. split; [done|].
    intros [|j] Hj; cbn.
    + apply eqb_false in Heq. congruence.
    + apply Hmin. lia.
Qed.

Lemma first_index_None value (vs : list T) :
  first_index value vs = None ↔ value ∉ vs.
Proof.
  induction vs as [|v vs IH]; cbn [first_index].
  - split; [by intros _ ?%elem_of_nil|done].
  - rewrite not_elem_of_cons. destruct (eqb v value) eqn:Heq.
    + apply eqb_eq in Heq as ->. split; [done|]. by intros [? _].
    + apply eqb_false in Heq. rewrite fmap_None, IH. split; [|tauto].
      intros Hv. split; [congruence|done].
Qed.

Lemma first_index_lt value (vs : list T) i :
  first_index value vs = Some i → i < length vs.
Proof.
  intros [Hi _]%first_index_Some. by apply lookup_lt_Some in Hi.
Qed.

Lemma findFirst_loop_spec value h : ∀ ns cur fuel (index : Z),
  seg next h cur ns.*1 None → cells h ns → length ns ≤ fuel →
  (0 ≤ index)%Z → (index + Z.of_nat (length ns) < 2 ^ 31)%Z →
  findFirst_loop fuel value cur index h
  = Ok (match first_index value ns.*2 with
        | Some i => (index + Z.of_nat i)%Z
        | None => (-1)%Z
        end, h).
Proof.
  induction ns as [|[a v] ns IH]; intros cur fuel index Hs Hc Hfuel Hi0 Hi.
  - simpl in Hs. subst cur. by destruct fuel.
  - destruct (chain_cons _ _ _ _ _ _ Hs Hc) as (-> & n & Hn & Hd & Hs' & Hc').
    destruct fuel as [|fuel]; [simpl in Hfuel; lia|].
    cbn [findFirst_loop]. erewrite bind_Ok by (by apply deref_Ok). rewrite Hd.
    cbn [fmap list_fmap snd first_index]. cbn [length] in Hi, Hfuel.
    destruct (eqb v value) eqn:Heq; [by rewrite Z.add_0_r|].
    replace (index =? 2 ^ 31 - 1)%Z with false by (symmetry; apply Z.eqb_neq; lia).
    rewrite IH by (try done; lia).
    destruct (first_index value ns.*2); cbn; [|done]. do 2 f_equal. lia.
Qed.

Lemma findLast_loop_spec value h : ∀ rs cur fuel,
  seg prev h cur rs.*1 None → cells h rs → length rs ≤ fuel →
  findLast_loop fuel value cur (Z.of_nat (length rs) - 1) h
  = Ok (match first_index value rs.*2 with
        | Some k => Z.of_nat (length rs - 1 - k)
        | None => (-1)%Z
        end, h).
Proof.
  induction rs as [|[a v] rs IH]; intros cur fuel Hs Hc Hfuel.
  - simpl in Hs. subst cur. by destruct fuel.
  - destruct (chain_cons _ _ _ _ _ _ Hs Hc) as (-> & n & Hn & Hd & Hs' & Hc').
    destruct fuel as [|fuel]; [simpl in Hfuel; lia|].
    cbn [findLast_loop]. erewrite bind_Ok by (by apply deref_Ok). rewrite Hd.
    cbn [fmap list_fmap snd first_index].
    destruct (eqb v value) eqn:Heq.
    { unfold mret, M_ret, ret. do 2 f_equal. cbn [length]. lia. }
    replace (Z.of_nat (length ((a, v) :: rs)) - 1 =? - 2 ^ 31)%Z with false
      by (symmetry; apply Z.eqb_neq; cbn [length]; lia).
    replace (Z.of_nat (length ((a, v) :: rs)) - 1 - 1)%Z
      with (Z.of_nat (length rs) - 1)%Z by (cbn [length]; lia).
    rewrite IH by (try done; simpl in Hfuel; lia).
    pose proof (first_index_lt value rs.*2) as Hlt.
    destruct (first_index value rs.*2) as [k|]; cbn; [|done].
    specialize (Hlt k eq_refl). rewrite length_fmap in Hlt.
    do 2 f_equal. lia.
Qed.

Lemma allOf_loop_spec predicate h : ∀ ns cur fuel,
  seg next h cur ns.*1 None → cells h ns → length ns ≤ fuel →
  allOf_loop fuel predicate cur h = Ok (forallb predicate ns.*2, h).
Proof.
  induction ns as [|[a v] ns IH]; intros cur fuel Hs Hc Hfuel.
  - simpl in Hs. subst cur. by destruct fuel.
  - destruct (chain_cons _ _ _ _ _ _ Hs Hc) as (-> & n & Hn & Hd & Hs' & Hc').
    destruct fuel as [|fuel]; [simpl in Hfuel; lia|].
    cbn [allOf_loop]. erewrite bind_Ok by (by apply deref_Ok). rewrite Hd.
    cbn [fmap list_fmap snd forallb]. destruct (predicate v); [|done].
    apply IH; [done|done|simpl in Hfuel; lia].
Qed.

Lemma anyOf_loop_spec predicate h : ∀ ns cur fuel,
  seg next h cur ns.*1 None → cells h ns → length ns ≤ fuel →
  anyOf_loop fuel predicate cur h = Ok (existsb predicate ns.*2, h).
Proof.
  induction ns as [|[a v] ns IH]; intros cur fuel Hs Hc Hfuel.
  - simpl in Hs. subst cur. by destruct fuel.
  - destruct (chain_cons _ _ _ _ _ _ Hs Hc) as (-> & n & Hn & Hd & Hs' & Hc').
    destruct fuel as [|fuel]; [simpl in Hfuel; lia|].
    cbn [anyOf_loop]. erewrite bind_Ok by (by apply deref_Ok). rewrite Hd.
    cbn [fmap list_fmap snd existsb]. destruct (predicate v); [done|].
    apply IH; [done|done|simpl in Hfuel; lia].
Qed.

Lemma reduce_loop_spec {U} (reducer : U → T → U) h : ∀ ns cur fuel result,
  seg next h cur ns.*1 None → cells h ns → length ns ≤ fuel →
  reduce_loop fuel reducer cur result h = Ok (foldl reducer result ns.*2, h).
Proof.
  induction ns as [|[a v] ns IH]; intros cur fuel result Hs Hc Hfuel.
  - simpl in Hs. subst cur. by destruct fuel.
  - destruct (chain_cons _ _ _ _ _ _ Hs Hc) as (-> & n & Hn & Hd & Hs' & Hc').
    destruct fuel as [|fuel]; [simpl in Hfuel; lia|].
    cbn [reduce_loop]. erewrite bind_Ok by (by apply deref_Ok). rewrite Hd.
    apply IH; [done|done|simpl in Hfuel; lia].
Qed.

Lemma toVectorReverse_loop_spec h : ∀ rs cur fuel acc,
  seg prev h cur rs.*1 None → cells h rs → length rs ≤ fuel →
  toVectorReverse_loop fuel cur acc h = Ok (acc ++ rs.*2, h).
Proof.
  induction rs as [|[a v] rs IH]; intros cur fuel acc Hs Hc Hfuel.
  - simpl in Hs. subst cur. destruct fuel; cbn; by rewrite app_nil_r.
  - destruct (chain_cons _ _ _ _ _ _ Hs Hc) as (-> & n & Hn & Hd & Hs' & Hc').
    destruct fuel as [|fuel]; [simpl in Hfuel; lia|].
    cbn [toVectorReverse_loop]. erewrite bind_Ok by (by apply deref_Ok). rewrite Hd.
    rewrite IH by (try done; simpl in Hfuel; lia).
    by rewrite <- app_assoc.
Qed.

Lemma eq_loop_spec h : ∀ A B c1 c2 fuel,
  seg next h c1 A.*1 None → cells h A →
  seg next h c2 B.*1 None → cells h B → length A ≤ fuel →
  ∃ b, eq_loop fuel c1 c2 h = Ok (b, h) ∧ (b = true ↔ A.*2 = B.*2).
Proof.
  induction A as [|[a v] A IH]; intros B c1 c2 fuel Hs1 Hc1 Hs2 Hc2 Hfuel.
  - simpl in Hs1. subst c1. destruct B as [|[b w] B].
    + simpl in Hs2. subst c2. exists true. by destruct fuel.
    + destruct (chain_cons _ _ _ _ _ _ Hs2 Hc2) as (-> & _).
      exists false. by destruct fuel.
  - destruct (chain_cons _ _ _ _ _ _ Hs1 Hc1) as (-> & n1 & Hn1 & Hd1 & Hs1' & Hc1').
    destruct B as [|[b w] B].
    { simpl in Hs2. subst c2. exists false. by destruct fuel. }
    destruct (chain_cons _ _ _ _ _ _ Hs2 Hc2) as (-> & n2 & Hn2 & Hd2 & Hs2' & Hc2').
    destruct fuel as [|fuel]; [simpl in Hfuel; lia|].
    cbn [eq_loop]. erewrite bind_Ok by (by apply deref_Ok).
    erewrite bind_Ok by (by apply deref_Ok). rewrite Hd1, Hd2, neb_eqb.
    cbn [fmap list_fmap snd]. destruct (eqb v w) eqn:Heq; cbn [negb].
    + apply eqb_eq in Heq as ->.
      destruct (IH B (next n1) (next n2) fuel) as (b' & Hrun & Hb);
        [done..|simpl in Hfuel; lia|].
      exists b'. split; [done|]. rewrite Hb. split; [by intros ->|by intros [=]].
    + apply eqb_false in Heq. exists false. split; [done|].
      split; [done|]. by intros [=].
Qed.

Lemma lt_loop_spec h : ∀ A B c1 c2 fuel,
  seg next h c1 A.*1 None → cells h A →
  seg next h c2 B.*1 None → cells h B → length A ≤ fuel →
  lt_loop fuel c1 c2 h = Ok (lex_ltb A.*2 B.*2, h).
Proof.
  induction A as [|[a v] A IH]; intros B c1 c2 fuel Hs1 Hc1 Hs2 Hc2 Hfuel.
  - simpl in Hs1. subst c1. destruct B as [|[b w] B].
    + simpl in Hs2. subst c2. by destruct fuel.
    + destruct (chain_cons _ _ _ _ _ _ Hs2 Hc2) as (-> & _). by destruct fuel.
  - destruct (chain_cons _ _ _ _ _ _ Hs1 Hc1) as (-> & n1 & Hn1 & Hd1 & Hs1' & Hc1').
    destruct B as [|[b w] B].
    { simpl in Hs2. subst c2. by destruct fuel. }
    destruct (chain_cons _ _ _ _ _ _ Hs2 Hc2) as (-> & n2 & Hn2 & Hd2 & Hs2' & Hc2').
    destruct fuel as [|fuel]; [simpl in Hfuel; lia|].
    cbn [lt_loop]. erewrite bind_Ok by (by apply deref_Ok).
    erewrite bind_Ok by (by apply deref_Ok). rewrite Hd1, Hd2.
    cbn [fmap list_fmap snd lex_ltb].
    destruct (ltb v w); [done|]. destruct (gtb v w); [done|].
    apply IH; [done..|simpl in Hfuel; lia].
Qed.

Lemma isSortedCheck_with_loop_spec comparator h fuel : ∀ ns a v,
  seg next h (Some a) ((a, v) :: ns).*1 None → cells h ((a, v) :: ns) →
  length ns ≤ fuel →
  isSortedCheck_with_loop fuel comparator (Some a) h
  = Ok (all_adjacent comparator (v :: ns.*2), h).
Proof.
  induction fuel as [|fuel IH]; intros ns a v Hs Hc Hfuel.
  - destruct ns; [|simpl in Hfuel; lia].
    destruct (chain_cons _ _ _ _ _ _ Hs Hc) as (_ & n & Hn & Hd & Hs' & Hc').
    simpl in Hs'. cbn [isSortedCheck_with_loop].
    erewrite bind_Ok by (by apply deref_Ok). by rewrite Hs'.
  - destruct (chain_cons _ _ _ _ _ _ Hs Hc) as (_ & n & Hn & Hd & Hs' & Hc').
    cbn [isSortedCheck_with_loop]. erewrite bind_Ok by (by apply deref_Ok).
    destruct ns as [|[b w] ns].
    { simpl in Hs'. by rewrite Hs'. }
    destruct (chain_cons _ _ _ _ _ _ Hs' Hc') as (Hnx & nb & Hnb & Hdb & _).
    rewrite Hnx. erewrite bind_Ok by (by apply deref_Ok).
    rewrite Hd, Hdb. cbn [fmap list_fmap snd all_adjacent].
    destruct (comparator v w); [|done]. cbn [negb andb].
    rewrite (IH ns b w); [done| |done|simpl in Hfuel; lia].
    by rewrite <- Hnx.
Qed.

End reading_proofs.

(** ** Lists built with [pushBack] *)

Section building_proofs.
Context {T : Type} `{!Ordered T}.
Implicit Types (h : gmap loc (Node T)) (ns : list (loc * T)) (l : List).
Implicit Types (F : list loc).

Lemma init_loop_spec : ∀ (vs : list T) ns h l F,
  repr h l ns → isSorted l = is_nondecreasing ns.*2 →
  (∀ a, a ∈ F → is_Some (h !! a) ∧ a ∉ ns.*1) →
  ∃ l' h' ns', init_loop vs l h = Ok (l', h') ∧ repr h' l' ns' ∧
    ns'.*2 = ns.*2 ++ vs ∧ isSorted l' = is_nondecreasing ns'.*2 ∧
    framed F h h' ∧ (∀ a, a ∈ F → is_Some (h' !! a) ∧ a ∉ ns'.*1).
Proof.
  induction vs as [|v vs IH]; intros ns h l F Hr Hflag HF.
  - exists l, h, ns. split; [done|]. split; [done|].
    split; [by rewrite app_nil_r|]. split; [done|]. split; [by intros ?|done].
  - destruct (pushBack_framed h l ns v F Hr Hflag HF)
      as (l1 & h1 & ns1 & Hrun1 & Hr1 & Hv1 & Hfl1 & Hfr1 & HF1).
    destruct (IH ns1 h1 l1 F Hr1 Hfl1 HF1)
      as (l' & h' & ns' & Hrun & Hr' & Hv' & Hfl' & Hfr' & HF').
    exists l', h', ns'. split.
    { cbn [init_loop]. by erewrite bind_Ok by exact Hrun1. }
    split; [done|]. split; [rewrite Hv', Hv1; by rewrite <- app_assoc|].
    split; [done|]. split; [by eapply framed_trans|done].
Qed.

Lemma fill_loop_spec value : ∀ n ns h l F,
  repr h l ns → isSorted l = is_nondecreasing ns.*2 →
  (∀ a, a ∈ F → is_Some (h !! a) ∧ a ∉ ns.*1) →
  ∃ l' h' ns', fill_loop n value l h = Ok (l', h') ∧ repr h' l' ns' ∧
    ns'.*2 = ns.*2 ++ replicate n value ∧
    isSorted l' = is_nondecreasing ns'.*2 ∧
    framed F h h' ∧ (∀ a, a ∈ F → is_Some (h' !! a) ∧ a ∉ ns'.*1).
Proof.
  induction n as [|n IH]; intros ns h l F Hr Hflag HF.
  - exists l, h, ns. split; [done|]. split; [done|].
    split; [by rewrite app_nil_r|]. split; [done|]. split; [by intros ?|done].
  - destruct (pushBack_framed h l ns value F Hr Hflag HF)
      as (l1 & h1 & ns1 & Hrun1 & Hr1 & Hv1 & Hfl1 & Hfr1 & HF1).
    destruct (IH ns1 h1 l1 F Hr1 Hfl1 HF1)
      as (l' & h' & ns' & Hrun & Hr' & Hv' & Hfl' & Hfr' & HF').
    exists l', h', ns'. split.
    { cbn [fill_loop]. by erewrite bind_Ok by exact Hrun1. }
    split; [done|]. split; [rewrite Hv', Hv1; by rewrite <- app_assoc|].
    split; [done|]. split; [by eapply framed_trans|done].
Qed.

Lemma is_nondecreasing_replicate n (v : T) : is_nondecreasing (replicate n v) = true.
Proof.
  destruct n as [|n]; [done|]. induction n as [|n IH]; [done|].
  change (is_nondecreasing (replicate (S (S n)) v))
    with (negb (gtb v v) && is_nondecreasing (replicate (S n) v)).
  rewrite IH, gtb_ltb, ltb_leb. by destruct (leb_total v v) as [-> | ->].
Qed.

Lemma filter_loop_spec predicate fuel : ∀ (A : list (loc * T)) ns h l c F,
  seg next h c A.*1 None → cells h A → (∀ a, a ∈ A.*1 → a ∈ F) →
  repr h l ns → isSorted l = is_nondecreasing ns.*2 →
  (∀ a, a ∈ F → is_Some (h !! a) ∧ a ∉ ns.*1) →
  length A ≤ fuel →
  ∃ l' h' ns', filter_loop fuel predicate c l h = Ok (l', h') ∧ repr h' l' ns' ∧
    ns'.*2 = ns.*2 ++ filter (λ x, predicate x = true) A.*2 ∧
    isSorted l' = is_nondecreasing ns'.*2 ∧
    framed F h h' ∧ (∀ a, a ∈ F → is_Some (h' !! a) ∧ a ∉ ns'.*1).
Proof.
  induction fuel as [|fuel IH]; intros A ns h l c F Hseg Hc HA Hr Hflag HF Hfuel.
  - destruct A; [|simpl in Hfuel; lia]. simpl in Hseg. subst c.
    exists l, h, ns. split; [done|]. split; [done|].
    split; [by rewrite app_nil_r|]. split; [done|]. split; [by intros a|done].
  - destruct A as [|[a v] A].
    { simpl in Hseg. subst c.
      exists l, h, ns. split; [done|]. split; [done|].
      split; [by rewrite app_nil_r|]. split; [done|]. split; [by intros ?|done]. }
    destruct (chain_cons _ _ _ _ _ _ Hseg Hc) as (-> & n & Hn & Hd & Hs' & Hc').
    assert (a ∈ F) as HaF by (apply HA; left).
    assert (∀ b, b ∈ A.*1 → b ∈ F) as HA' by (intros b Hb; apply HA; by right).
    cbn [filter_loop]. erewrite bind_Ok by (by apply deref_Ok). rewrite Hd.
    cbn [fmap list_fmap snd]. rewrite filter_cons.
    destruct (predicate v) eqn:Hpred.
    + rewrite decide_True by done.
      destruct (pushBack_framed h l ns v F Hr Hflag HF)
        as (l1 & h1 & ns1 & Hrun1 & Hr1 & Hv1 & Hfl1 & Hfr1 & HF1).
      erewrite bind_Ok by exact Hrun1.
      erewrite bind_Ok by (apply deref_Ok; rewrite Hfr1 by done; exact Hn).
      destruct (IH A ns1 h1 l1 (next n) F)
        as (l' & h' & ns' & Hrun & Hr' & Hv' & Hfl' & Hfr' & HF');
        [by eapply seg_framed|by eapply cells_framed|done|done|done|done|
         simpl in Hfuel; lia|].
      exists l', h', ns'. split; [done|]. split; [done|].
      split; [rewrite Hv', Hv1; by rewrite <- app_assoc|].
      split; [done|]. split; [by eapply framed_trans|done].
    + rewrite decide_False by done.
      erewrite bind_Ok by reflexivity.
      erewrite bind_Ok by (by apply deref_Ok).
      apply (IH A ns h l (next n) F); try done. simpl in Hfuel. lia.
Qed.

Lemma merge_by_nil_l {A} (c : A → A → bool) ys : merge_by c [] ys = ys.
Proof. by destruct ys. Qed.

Lemma merge_by_nil_r {A} (c : A → A → bool) xs : merge_by c xs [] = xs.
Proof. by destruct xs. Qed.

Lemma merge_by_cons {A} (c : A → A → bool) x xs y ys :
  merge_by c (x :: xs) (y :: ys)
  = if c x y then x :: merge_by c xs (y :: ys) else y :: merge_by c (x :: xs) ys.
Proof. done. Qed.

Lemma merge_by_perm {A} (c : A → A → bool) xs ys : merge_by c xs ys ≡ₚ xs ++ ys.
Proof.
  revert ys. induction xs as [|x xs IHx]; intros ys.
  { by rewrite merge_by_nil_l. }
  induction ys as [|y ys IHy].
  { by rewrite merge_by_nil_r, app_nil_r. }
  rewrite merge_by_cons. destruct (c x y).
  - cbn [app]. by rewrite IHx.
  - rewrite IHy. by rewrite <- Permutation_middle.
Qed.

Lemma merge_with_loop_spec comparator fuel : ∀ (A B : list (loc * T)) ns h l c1 c2 F,
  seg next h c1 A.*1 None → cells h A → (∀ a, a ∈ A.*1 → a ∈ F) →
  seg next h c2 B.*1 None → cells h B → (∀ a, a ∈ B.*1 → a ∈ F) →
  repr h l ns → isSorted l = is_nondecreasing ns.*2 →
  (∀ a, a ∈ F → is_Some (h !! a) ∧ a ∉ ns.*1) →
  length A + length B ≤ fuel →
  ∃ l' h' ns' A' B',
    merge_with_loop fuel comparator c1 c2 l h = Ok ((hd_ptr A', hd_ptr B', l'), h') ∧
    (A' = [] ∨ B' = []) ∧
    seg next h' (hd_ptr A') A'.*1 None ∧ cells h' A' ∧
    (∀ a, a ∈ A'.*1 → a ∈ F) ∧ length A' ≤ length A ∧
    seg next h' (hd_ptr B') B'.*1 None ∧ cells h' B' ∧
    (∀ a, a ∈ B'.*1 → a ∈ F) ∧ length B' ≤ length B ∧
    repr h' l' ns' ∧
    ns'.*2 ++ merge_by comparator A'.*2 B'.*2
    = ns.*2 ++ merge_by comparator A.*2 B.*2 ∧
    isSorted l' = is_nondecreasing ns'.*2 ∧
    framed F h h' ∧ (∀ a, a ∈ F → is_Some (h' !! a) ∧ a ∉ ns'.*1).
Proof.
  induction fuel as [|fuel IH];
    intros A B ns h l c1 c2 F Hs1 Hc1 HA Hs2 Hc2 HB Hr Hflag HF Hfuel.
  - destruct A, B; simpl in Hfuel; try lia. simpl in Hs1, Hs2. subst c1 c2.
    exists l, h, ns, [], []. split; [done|]. split; [by left|].
    repeat (split; [done|]). done.
  - destruct A as [|[a av] A].
    { simpl in Hs1. subst c1. exists l, h, ns, [], B.
      split. { unfold hd_ptr. rewrite <- (seg_None_head _ _ _ _ Hs2). by destruct c2. }
      split; [by left|]. repeat (split; [done|]).
      split. { unfold hd_ptr. by rewrite <- (seg_None_head _ _ _ _ Hs2). }
      repeat (split; [done|]). done. }
    destruct B as [|[b bv] B].
    { simpl in Hs2. subst c2. exists l, h, ns, ((a, av) :: A), [].
      pose proof (seg_None_head _ _ _ _ Hs1) as ->.
      split; [done|]. split; [by right|].
      repeat (split; [done|]). done. }
    destruct (chain_cons _ _ _ _ _ _ Hs1 Hc1) as (-> & n1 & Hn1 & Hd1 & Hs1' & Hc1').
    destruct (chain_cons _ _ _ _ _ _ Hs2 Hc2) as (-> & n2 & Hn2 & Hd2 & Hs2' & Hc2').
    assert (a ∈ F) as HaF by (apply HA; left).
    assert (b ∈ F) as HbF by (apply HB; left).
    cbn [merge_with_loop]. erewrite bind_Ok by (by apply deref_Ok).
    erewrite bind_Ok by (by apply deref_Ok).
    rewrite Hd1, Hd2. cbn [fmap list_fmap snd]. rewrite merge_by_cons.
    destruct (comparator av bv) eqn:Hab.
    + destruct (pushBack_framed h l ns av F Hr Hflag HF)
        as (l1 & h1 & ns1 & Hrun1 & Hr1 & Hv1 & Hfl1 & Hfr1 & HF1).
      erewrite bind_Ok by exact Hrun1.
      erewrite bind_Ok by (apply deref_Ok; rewrite Hfr1 by done; exact Hn1).
      destruct (IH A ((b, bv) :: B) ns1 h1 l1 (next n1) (Some b) F)
        as (l' & h' & ns' & A' & B' & Hrun & Hor & HsA & HcA & HAF & HlA &
            HsB & HcB & HBF & HlB & Hr' & Hv' & Hfl' & Hfr' & HF').
      { eapply seg_framed; [done| |done]. intros c Hc. apply HA. by right. }
      { eapply cells_framed; [done| |done]. intros c Hc. apply HA. by right. }
      { intros c Hc. apply HA. by right. }
      { by eapply seg_framed. }
      { by eapply cells_framed. }
      { done. }
      { done. }
      { done. }
      { done. }
      { simpl in *. lia. }
      exists l', h', ns', A', B'. split; [done|]. split; [done|].
      split; [done|]. split; [done|]. split; [done|].
      split; [simpl; lia|]. split; [done|]. split; [done|]. split; [done|].
      split; [done|]. split; [done|]. split.
      { rewrite Hv', Hv1. by rewrite <- app_assoc. }
      split; [done|]. split; [by eapply framed_trans|done].
    + destruct (pushBack_framed h l ns bv F Hr Hflag HF)
        as (l1 & h1 & ns1 & Hrun1 & Hr1 & Hv1 & Hfl1 & Hfr1 & HF1).
      erewrite bind_Ok by exact Hrun1.
      erewrite bind_Ok by (apply deref_Ok; rewrite Hfr1 by done; exact Hn2).
      destruct (IH ((a, av) :: A) B ns1 h1 l1 (Some a) (next n2) F)
        as (l' & h' & ns' & A' & B' & Hrun & Hor & HsA & HcA & HAF & HlA &
            HsB & HcB & HBF & HlB & Hr' & Hv' & Hfl' & Hfr' & HF').
      { by eapply seg_framed. }
      { by eapply cells_framed. }
      { done. }
      { eapply seg_framed; [done| |done]. intros c Hc. apply HB. by right. }
      { eapply cells_framed; [done| |done]. intros c Hc. apply HB. by right. }
      { intros c Hc. apply HB. by right. }
      { done. }
      { done. }
      { done. }
      { simpl in *. lia. }
      exists l', h', ns', A', B'. split; [done|]. split; [done|].
      split; [done|]. split; [done|]. split; [done|].
      split; [done|]. split; [done|]. split; [done|]. split; [done|].
      split; [simpl; lia|]. split; [done|]. split.
      { rewrite Hv', Hv1. by rewrite <- app_assoc. }
      split; [done|]. split; [by eapply framed_trans|done].
Qed.

(** [pushBack] and [popBack] on a list whose flag is sound. *)
Lemma pushBack_sound h l ns v :
  repr h l ns → flag_sound l ns.*2 →
  ∃ l' h', pushBack v l h = Ok (l', h') ∧
    repr h' l' (ns ++ [(fresh (dom h), v)]) ∧
    flag_sound l' (ns.*2 ++ [v]) ∧ preserved h h' ns.*1.
Proof.
  intros Hr Hsound.
  destruct (pushBack_spec h l ns v Hr) as (l' & h' & Hrun & Hr' & Hp & Hfl).
  exists l', h'. split; [done|]. split; [done|]. split; [|done].
  intros Hflag. rewrite Hfl in Hflag. by eapply flag_after_back_sound.
Qed.

Lemma grow_loop_spec value : ∀ k fuel ns h l,
  repr h l ns → flag_sound l ns.*2 → k ≤ fuel →
  ∃ l' h' ns', grow_loop fuel (length ns + k) value l h = Ok (l', h') ∧
    repr h' l' ns' ∧ ns'.*2 = ns.*2 ++ replicate k value ∧
    flag_sound l' ns'.*2 ∧ preserved h h' ns.*1.
Proof.
  induction k as [|k IH]; intros fuel ns h l Hr Hsound Hfuel.
  - exists l, h, ns. rewrite Nat.add_0_r.
    split.
    { destruct fuel; cbn [grow_loop]; rewrite (repr_size _ _ _ Hr);
        by rewrite Nat.ltb_irrefl. }
    split; [done|]. split; [by rewrite app_nil_r|].
    split; [done|apply preserved_refl].
  - destruct fuel as [|fuel]; [lia|].
    destruct (pushBack_sound h l ns value Hr Hsound) as (l1 & h1 & Hrun1 & Hr1 & Hs1 & Hp1).
    destruct (IH fuel _ h1 l1 Hr1) as (l' & h' & ns' & Hrun & Hr' & Hv' & Hs' & Hp');
      [by rewrite fmap_app|lia|].
    exists l', h', ns'. split.
    { cbn [grow_loop]. rewrite (repr_size _ _ _ Hr).
      replace (length ns <? length ns + S k) with true
        by (symmetry; apply Nat.ltb_lt; lia).
      erewrite bind_Ok by exact Hrun1.
      rewrite length_app in Hrun. cbn [length] in Hrun.
      by replace (length ns + S k) with (length ns + 1 + k) by lia. }
    split; [done|]. split.
    { rewrite Hv', fmap_app. cbn [fmap list_fmap snd replicate].
      by rewrite <- app_assoc. }
    split; [done|]. intros a n Ha Hn. apply Hp'; [|by apply Hp1].
    rewrite fmap_app, elem_of_app. cbn [fmap list_fmap fst].
    intros [?|Hin]; [done|]. apply list_elem_of_singleton in Hin. subst a.
    by rewrite fresh_not_in in Hn.
Qed.

Lemma shrink_loop_spec : ∀ ns2 fuel ns1 h l,
  repr h l (ns1 ++ ns2) → length ns2 ≤ fuel →
  ∃ l' h', shrink_loop fuel (length ns1) l h = Ok (l', h') ∧
    repr h' l' ns1 ∧ isSorted l' = isSorted l ∧
    preserved h h' (ns1 ++ ns2).*1 ∧ dom h' ⊆ dom h.
Proof.
  induction ns2 as [|[a v] ns2 IH] using rev_ind; intros fuel ns1 h l Hr Hfuel.
  - rewrite app_nil_r in *. exists l, h. split.
    { destruct fuel; cbn [shrink_loop]; rewrite (repr_size _ _ _ Hr);
        by rewrite Nat.ltb_irrefl. }
    split; [done|]. split; [done|]. split; [apply preserved_refl|done].
  - rewrite length_app in Hfuel. cbn [length] in Hfuel.
    destruct fuel as [|fuel]; [lia|].
    rewrite app_assoc in Hr.
    destruct (popBack_spec h l a v _ Hr) as (l1 & h1 & Hrun1 & Hr1 & Hp1 & _ & Hd1 & Hfl1).
    destruct (IH fuel ns1 h1 l1 Hr1) as (l' & h' & Hrun & Hr' & Hfl' & Hp' & Hd'); [lia|].
    exists l', h'. split.
    { cbn [shrink_loop]. rewrite (repr_size _ _ _ Hr), !length_app. cbn [length].
      replace (length ns1 <? length ns1 + length ns2 + 1) with true
        by (symmetry; apply Nat.ltb_lt; lia).
      by erewrite bind_Ok by exact Hrun1. }
    split; [done|]. split; [congruence|]. split; [|by etrans].
    rewrite app_assoc, fmap_app. cbn [fmap list_fmap fst].
    eapply preserved_trans; [exact Hp1|exact Hp'|done|].
    intros b Hb. apply elem_of_app. by left.
Qed.

End building_proofs.

(** ** map *)

Lemma map_loop_spec {T U : Type} `{!Ordered U} (mapper : T → U)
    (hT : gmap loc (Node T)) :
  ∀ (A : list (loc * T)) cur fuel (ns : list (loc * U)) (h : gmap loc (Node U)) l,
  seg next hT cur A.*1 None → cells hT A →
  repr h l ns → isSorted l = is_nondecreasing ns.*2 → length A ≤ fuel →
  ∃ l' h' ns', map_loop fuel mapper hT cur l h = Ok (l', h') ∧ repr h' l' ns' ∧
    ns'.*2 = ns.*2 ++ (mapper <$> A.*2) ∧
    isSorted l' = is_nondecreasing ns'.*2.
Proof.
  induction A as [|[a v] A IH]; intros cur fuel ns h l Hs Hc Hr Hflag Hfuel.
  - simpl in Hs. subst cur. exists l, h, ns. split; [by destruct fuel|].
    split; [done|]. split; [by rewrite app_nil_r|done].
  - cbn [fmap list_fmap fst] in Hs. destruct Hs as (-> & n & Hn & Hs).
    apply cells_cons in Hc as [(n' & Hn' & Hd) Hc].
    rewrite Hn in Hn'. injection Hn' as <-.
    destruct fuel as [|fuel]; [simpl in Hfuel; lia|].
    cbn [map_loop]. rewrite Hn, Hd.
    destruct (pushBack_framed h l ns (mapper v) [] Hr Hflag)
      as (l1 & h1 & ns1 & Hrun1 & Hr1 & Hv1 & Hfl1 & _ & _).
    { by intros ? ?%elem_of_nil. }
    erewrite bind_Ok by exact Hrun1.
    destruct (IH (next n) fuel ns1 h1 l1) as (l' & h' & ns' & Hrun & Hr' & Hv' & Hfl');
      [done..|simpl in Hfuel; lia|].
    exists l', h', ns'. split; [done|]. split; [done|]. split; [|done].
    rewrite Hv', Hv1. cbn [fmap list_fmap snd]. by rewrite <- app_assoc.
Qed.

(** ** The ordering of lists *)

Section order_proofs.
Context {T : Type} `{!Ordered T}.
Implicit Types (xs ys zs : list T).

Lemma ltb_irrefl (a : T) : ltb a a = false.
Proof. rewrite ltb_leb. by destruct (leb_total a a) as [-> | ->]. Qed.

Lemma ltb_gtb_false (a b : T) : ltb a b = false → gtb a b = false → a = b.
Proof.
  rewrite gtb_ltb, !ltb_leb, !negb_false_iff. intros Hba Hab.
  by apply leb_antisym.
Qed.

Lemma ltb_asym (a b : T) : ltb a b = true → ltb b a = false.
Proof.
  rewrite !ltb_leb, negb_true_iff, negb_false_iff. intros Hba.
  by destruct (leb_total a b) as [? | ?]; [|congruence].
Qed.

Lemma lex_ltb_irrefl xs : lex_ltb xs xs = false.
Proof.
  induction xs as [|x xs IH]; [done|]. cbn [lex_ltb].
  by rewrite gtb_ltb, ltb_irrefl.
Qed.

Lemma lex_ltb_asym xs ys : lex_ltb xs ys = true → lex_ltb ys xs = false.
Proof.
  revert ys. induction xs as [|x xs IH]; intros [|y ys]; try done.
  cbn [lex_ltb]. rewrite !gtb_ltb. destruct (ltb x y) eqn:Hxy.
  - intros _. by rewrite (ltb_asym _ _ Hxy).
  - destruct (ltb y x) eqn:Hyx; [done|]. apply IH.
Qed.

Lemma lex_ltb_total xs ys :
  lex_ltb xs ys = false → lex_ltb ys xs = false → xs = ys.
Proof.
  revert ys. induction xs as [|x xs IH]; intros [|y ys]; try done.
  cbn [lex_ltb]. rewrite !gtb_ltb. destruct (ltb x y) eqn:Hxy; [done|].
  destruct (ltb y x) eqn:Hyx; [done|]. intros H1 H2.
  f_equal; [|by apply IH]. apply ltb_gtb_false; [done|by rewrite gtb_ltb].
Qed.

(** [unique] on values. *)
Lemma uniq_from_sublist {A} (same : A → A → bool) x r :
  uniq_from same x r `sublist_of` x :: r.
Proof.
  revert x. induction r as [|y r IH]; intros x; [done|].
  cbn [uniq_from]. destruct (same x y).
  - etrans; [apply IH|]. apply sublist_skip. by apply sublist_cons.
  - apply sublist_skip, IH.
Qed.

Lemma uniq_from_head {A} (same : A → A → bool) x r :
  head (uniq_from same x r) = Some x.
Proof.
  revert x. induction r as [|y r IH]; intros x; [done|].
  cbn [uniq_from]. destruct (same x y); [apply IH|done].
Qed.

Lemma uniq_from_adjacent {A} (same : A → A → bool) x r :
  all_adjacent (λ a b, negb (same a b)) (uniq_from same x r) = true.
Proof.
  revert x. induction r as [|y r IH]; intros x; [done|].
  cbn [uniq_from]. destruct (same x y) eqn:Hsame; [apply IH|].
  pose proof (uniq_from_head same y r) as Hhd. specialize (IH y).
  destruct (uniq_from same y r) as [|z u]; [done|].
  injection Hhd as ->.
  change (negb (same x y) && all_adjacent (λ a b, negb (same a b)) (y :: u) = true).
  by rewrite Hsame, IH.
Qed.

Lemma sublist_Forall {A} (P : A → Prop) (xs ys : list A) :
  xs `sublist_of` ys → Forall P ys → Forall P xs.
Proof.
  intros Hsub. rewrite !Forall_forall. intros Hall x Hin.
  by apply Hall, (sublist_subseteq _ _ Hsub).
Qed.

Lemma sublist_sorted (R : relation T) `{!Transitive R} xs ys :
  xs `sublist_of` ys → StronglySorted R ys → StronglySorted R xs.
Proof.
  induction 1 as [|x xs ys Hsub IH|x xs ys Hsub IH]; intros Hs; [done|..].
  - apply StronglySorted_inv in Hs as [Hs Hall]. constructor; [by apply IH|].
    by eapply sublist_Forall.
  - apply StronglySorted_inv in Hs as [Hs _]. by apply IH.
Qed.

(** On a non-decreasing sequence [unique()] leaves no value twice. *)
Lemma uniq_from_NoDup x (r : list T) :
  StronglySorted le (x :: r) → NoDup (uniq_from eqb x r).
Proof.
  revert x. induction r as [|y r IH]; intros x Hs.
  { apply NoDup_singleton. }
  cbn [uniq_from]. apply StronglySorted_inv in Hs as [Hs Hall].
  destruct (eqb x y) eqn:Heq.
  - apply eqb_eq in Heq as ->. by apply IH.
  - apply eqb_false in Heq. apply NoDup_cons. split; [|by apply IH].
    intros Hin. apply (sublist_subseteq _ _ (uniq_from_sublist eqb y r)) in Hin.
    apply Forall_inv in Hall as Hxy.
    apply StronglySorted_inv in Hs as [_ Hally].
    apply Heq. apply leb_antisym; [exact Hxy|].
    apply elem_of_cons in Hin as [->|Hin]; [done|].
    rewrite Forall_forall in Hally. by apply Hally.
Qed.

End order_proofs.

(** ** [isSortedCheck(comparator)] after [sort(comparator)] *)

Section comparator_proofs.
Context {T : Type} `{!Ordered T}.

Lemma all_adjacent_spec (comparator : T → T → bool) (vs : list T) :
  all_adjacent comparator vs = true ↔
  ∀ i a b, vs !! i = Some a → vs !! S i = Some b → comparator a b = true.
Proof.
  induction vs as [|a [|b vs] IH].
  - split; [by intros _ ? ? ? ?|done].
  - split; [by intros _ [|?] ? ? ? ?|done].
  - cbn [all_adjacent]. rewrite andb_true_iff, IH. split.
    + intros [Hab Hrest] [|i] x y Hx Hy.
      * cbn in Hx, Hy. congruence.
      * by apply (Hrest i).
    + intros Hall. split; [by apply (Hall 0)|].
      intros i x y Hx Hy. by apply (Hall (S i)).
Qed.

Lemma not_after_trans (comparator : T → T → bool) :
  strict_weak_order comparator → Transitive (not_after comparator).
Proof.
  intros [Hirr Htr Hinc] a b c Hab Hbc. unfold not_after in *.
  destruct (comparator c a) eqn:Hca; [|done]. exfalso.
  destruct (comparator a b) eqn:Hab'.
  { rewrite (Htr c a b) in Hbc; done. }
  destruct (comparator b c) eqn:Hbc'.
  { rewrite (Htr b c a) in Hab; done. }
  destruct (Hinc a b c) as [_ Hca']; congruence.
Qed.

(** In a sequence sorted with a strict ordering two adjacent elements do
    not compare less as soon as a value occurs twice. *)
Lemma sorted_duplicate_not_adjacent (comparator : T → T → bool) (vs : list T) :
  strict_weak_order comparator →
  StronglySorted (not_after comparator) vs → ¬ NoDup vs →
  all_adjacent comparator vs = false.
Proof.
  intros Hswo Hs Hdup. induction vs as [|a vs IH]; [by destruct Hdup; constructor|].
  apply StronglySorted_inv in Hs as [Hs Hall].
  destruct vs as [|b vs]; [destruct Hdup; apply NoDup_singleton|].
  cbn [all_adjacent].
  destruct (comparator a b) eqn:Hab; [|done]. cbn [andb]. apply IH; [done|].
  intros Hnd. apply Hdup. apply NoDup_cons. split; [|done].
  intros [->|Hin]%elem_of_cons.
  - by rewrite (swo_irrefl _ Hswo) in Hab.
  - apply StronglySorted_inv in Hs as [_ Hallb].
    rewrite Forall_forall in Hallb. specialize (Hallb a Hin).
    unfold not_after in Hallb. congruence.
Qed.

End comparator_proofs.

(** ** [checkIntegrity] on a chain that does not end at the tail *)

Section broken_proofs.
Context {T : Type} `{!Ordered T}.
Implicit Types (h : gmap loc (Node T)) (ps : list loc).

Lemma forward_loop_fails h : ∀ ps cur tail c fuel t,
  seg next h cur ps None → last ps = Some t → tail ≠ Some t →
  length ps ≤ fuel →
  forward_loop fuel tail cur c h = Ok (None, h).
Proof.
  induction ps as [|a ps IH]; intros cur tail c fuel t Hs Hlast Hne Hfuel; [done|].
  destruct Hs as (-> & n & Hn & Hs).
  destruct fuel as [|fuel]; [simpl in Hfuel; lia|].
  cbn [forward_loop]. erewrite bind_Ok by (by apply deref_Ok).
  destruct ps as [|b ps].
  - simpl in Hs. cbn in Hlast. injection Hlast as <-.
    rewrite Hs, bool_decide_eq_true_2 by done.
    by rewrite bool_decide_eq_false_2 by congruence.
  - assert (next n = Some b) as Hnx by (by destruct Hs).
    rewrite (bool_decide_eq_false_2 (next n = None)) by congruence. cbn [andb].
    apply (IH _ _ _ _ t); [done|by rewrite last_cons_cons in Hlast|done|].
    simpl in *. lia.
Qed.

End broken_proofs.

(** ** Construction, copies and comparison *)

Section construction_theorems.
Context {T : Type} `{!Ordered T}.
Implicit Types (h : gmap loc (Node T)) (ns : list (loc * T)) (l : List).

(** Every allocated node, as a frame for a list under construction. *)
Lemma frame_all h :
  ∀ a, a ∈ (map_to_list h).*1 → is_Some (h !! a) ∧ a ∉ (@nil (loc * T)).*1.
Proof.
  intros a ([b n] & -> & Hin)%list_elem_of_fmap.
  apply elem_of_map_to_list in Hin. split; [eauto|apply not_elem_of_nil].
Qed.

Lemma framed_all h h' :
  framed (map_to_list h).*1 h h' → ∀ a n, h !! a = Some n → h' !! a = Some n.
Proof.
  intros Hfr a n Hn. rewrite Hfr; [done|].
  apply list_elem_of_fmap. exists (a, n). split; [done|].
  by apply elem_of_map_to_list.
Qed.

(** X1: the list built from an initializer list holds exactly the given
    sequence, is well formed, and its sorted flag is set if and only if
    the sequence is non-decreasing; [List(count, value)] holds [count]
    copies of the value, with the sorted flag set.  Both leave the nodes
    that were in the heap before untouched. *)
Theorem constructors_build_the_sequence (h : gmap loc (Node T))
    (init : list T) (n : nat) (value : T) :
  (∃ l h' ns,
     List_init init h = Ok (l, h') ∧ repr h' l ns ∧ ns.*2 = init ∧
     size l = length init ∧
     (sorted l = true ↔ nondecreasing init) ∧
     (∀ a d, h !! a = Some d → h' !! a = Some d) ∧
     (∀ fuel, length init ≤ fuel →
        toVector fuel l h' = Ok (init, h') ∧
        checkIntegrity fuel l h' = Ok (true, h'))) ∧
  (∃ l h' ns,
     List_fill n value h = Ok (l, h') ∧ repr h' l ns ∧
     ns.*2 = replicate n value ∧ size l = n ∧ sorted l = true ∧
     (∀ a d, h !! a = Some d → h' !! a = Some d)).
Proof.
  split.
  - destruct (init_loop_spec init [] h List_new (map_to_list h).*1)
      as (l & h' & ns & Hrun & Hr & Hv & Hfl & Hfr & _);
      [apply repr_new|done|apply frame_all|].
    cbn [fmap list_fmap app] in Hv.
    assert (length ns = length init) as Hlen by (by rewrite <- Hv, length_fmap).
    exists l, h', ns. split; [done|]. split; [done|]. split; [done|].
    split; [unfold size; by rewrite (repr_size _ _ _ Hr)|].
    split; [unfold sorted; by rewrite Hfl, Hv, is_nondecreasing_spec|].
    split; [by apply framed_all|].
    intros fuel Hfuel. rewrite <- Hv. split.
    + apply toVector_spec; [done|lia].
    + apply (checkIntegrity_spec h' l ns); [done|lia].
  - destruct (fill_loop_spec value n [] h List_new (map_to_list h).*1)
      as (l & h' & ns & Hrun & Hr & Hv & Hfl & Hfr & _);
      [apply repr_new|done|apply frame_all|].
    cbn [fmap list_fmap app] in Hv.
    exists l, h', ns. split; [done|]. split; [done|]. split; [done|].
    split.
    { unfold size. rewrite (repr_size _ _ _ Hr), <- (length_fmap snd), Hv.
      apply length_replicate. }
    split; [|by apply framed_all].
    unfold sorted. by rewrite Hfl, Hv, is_nondecreasing_replicate.
Qed.

Lemma operator_eq_spec h this other (A B : list (loc * T)) fuel :
  repr h this A → repr h other B → length A ≤ fuel →
  ∃ b, operator_eq fuel this other h = Ok (b, h) ∧ (b = true ↔ A.*2 = B.*2).
Proof.
  intros HrA HrB Hfuel. unfold operator_eq.
  rewrite (repr_size _ _ _ HrA), (repr_size _ _ _ HrB).
  destruct (Nat.eqb_spec (length A) (length B)) as [Hlen|Hlen]; cbn [negb].
  - destruct HrA as [HfA _ _ _ HcA], HrB as [HfB _ _ _ HcB].
    by apply eq_loop_spec.
  - exists false. split; [done|]. split; [done|]. intros Heq. exfalso.
    apply Hlen. by rewrite <- (length_fmap snd A), Heq, length_fmap.
Qed.

Lemma copy_assign_spec h this other (A B : list (loc * T)) fuel :
  repr h this A → repr h other B → (∀ a, a ∈ A.*1 → a ∉ B.*1) →
  length A ≤ fuel → length B ≤ fuel →
  ∃ this' h' R,
    copy_assign fuel this other h = Ok (this', h') ∧
    repr h' this' R ∧ R.*2 = B.*2 ∧ repr h' other B ∧
    (∀ a, a ∈ R.*1 → a ∉ B.*1) ∧
    isSorted this' = isSorted other.
Proof.
  intros HrA HrB Hdisj HfA HfB. unfold copy_assign.
  destruct (clear_spec h this A fuel HrA HfA) as (h1 & Hrun1 & Hr1 & Hp1 & Hgone & Hdom).
  erewrite bind_Ok by exact Hrun1.
  assert (repr h1 other B) as HrB1.
  { eapply repr_preserved; [exact Hp1| |done]. intros a Ha Ha'. by eapply Hdisj. }
  destruct (copy_loop_spec fuel B [] h1 List_new (headNode other) B.*1)
    as (l2 & h2 & R & Hrun2 & Hr2 & Hv2 & Hfl2 & Hfr2 & HF2).
  { by destruct HrB1. }
  { by destruct HrB1. }
  { done. }
  { done. }
  { done. }
  { intros a Ha. split; [|apply not_elem_of_nil].
    exact (repr_lookup _ _ _ _ HrB1 Ha). }
  { done. }
  erewrite bind_Ok by exact Hrun2. cbn [fmap list_fmap app] in Hv2.
  eexists _, h2, R. split; [reflexivity|]. split; [by apply repr_flag|].
  split; [done|]. split; [by eapply repr_framed|]. split; [|done].
  intros a Ha HaB. by destruct (HF2 a HaB) as [_ ?].
Qed.

(** X2: the copy assignment [this = other] (two different lists) leaves in
    [this] new nodes holding the sequence of [other], with the sorted flag
    of [other]; [other] is unchanged, and [this == other] is true
    afterwards. *)
Theorem copy_assign_copies (h : gmap loc (Node T)) (this other : List)
    (A B : list (loc * T)) (fuel : nat) :
  repr h this A → repr h other B → (∀ a, a ∈ A.*1 → a ∉ B.*1) →
  listSize this ≤ fuel → listSize other ≤ fuel →
  ∃ this' h' R,
    copy_assign fuel this other h = Ok (this', h') ∧
    repr h' this' R ∧ R.*2 = B.*2 ∧ repr h' other B ∧
    (∀ a, a ∈ R.*1 → a ∉ B.*1) ∧
    size this' = size other ∧ sorted this' = sorted other ∧
    toVector fuel this' h' = Ok (B.*2, h') ∧
    operator_eq fuel this' other h' = Ok (true, h').
Proof.
  intros HrA HrB Hdisj HfA HfB.
  rewrite (repr_size _ _ _ HrA) in HfA. rewrite (repr_size _ _ _ HrB) in HfB.
  destruct (copy_assign_spec h this other A B fuel HrA HrB Hdisj HfA HfB)
    as (this' & h' & R & Hrun & Hr & Hv & HrB' & Hnew & Hfl).
  assert (length R = length B) as Hlen.
  { by rewrite <- (length_fmap snd R), Hv, length_fmap. }
  exists this', h', R. split; [done|]. split; [done|]. split; [done|].
  split; [done|]. split; [done|]. split.
  { unfold size. by rewrite (repr_size _ _ _ Hr), (repr_size _ _ _ HrB). }
  split; [done|]. split.
  { rewrite <- Hv. apply toVector_spec; [done|lia]. }
  destruct (operator_eq_spec h' this' other R B fuel Hr HrB') as (b & Hrun' & Hb);
    [lia|].
  rewrite Hrun'. by apply Hb in Hv as ->.
Qed.

(** X3: the move assignment [this = std::move(other)] (two different
    lists) deletes the nodes of [this], hands the very nodes of [other]
    over to [this] together with its size and flag, and leaves [other] as
    the empty list. *)
Theorem move_assign_takes_over (h : gmap loc (Node T)) (this other : List)
    (A B : list (loc * T)) (fuel : nat) :
  repr h this A → repr h other B → (∀ a, a ∈ A.*1 → a ∉ B.*1) →
  listSize this ≤ fuel →
  ∃ this' other' h',
    move_assign fuel this other h = Ok ((this', other'), h') ∧
    repr h' this' B ∧ repr h' other' [] ∧ other' = List_new ∧
    headNode this' = headNode other ∧ tailNode this' = tailNode other ∧
    size this' = size other ∧ sorted this' = sorted other ∧
    (∀ a, a ∈ A.*1 → h' !! a = None) ∧
    (∀ a, a ∈ B.*1 → h' !! a = h !! a).
Proof.
  intros HrA HrB Hdisj HfA. rewrite (repr_size _ _ _ HrA) in HfA.
  unfold move_assign.
  destruct (clear_spec h this A fuel HrA HfA) as (h1 & Hrun1 & Hr1 & Hp1 & Hgone & Hdom).
  erewrite bind_Ok by exact Hrun1.
  assert (repr h1 other B) as HrB1.
  { eapply repr_preserved; [exact Hp1| |done]. intros a Ha Ha'. by eapply Hdisj. }
  eexists _, _, h1. split; [reflexivity|]. split; [by apply repr_eta|].
  split; [done|]. split; [done|]. split; [done|]. split; [done|].
  split; [done|]. split; [done|]. split; [done|].
  intros a Ha. destruct (repr_lookup _ _ _ _ HrB Ha) as [n Hn].
  rewrite Hn. apply Hp1; [|done]. intros Ha'. by eapply Hdisj.
Qed.

(** X4: [operator==] on two well-formed lists returns true exactly when
    they hold the same sequence, and [operator!=] returns the opposite. *)
Theorem operator_eq_decides (h : gmap loc (Node T)) (this other : List)
    (A B : list (loc * T)) (fuel : nat) :
  repr h this A → repr h other B → listSize this ≤ fuel →
  ∃ b, operator_eq fuel this other h = Ok (b, h) ∧
    operator_ne fuel this other h = Ok (negb b, h) ∧
    (b = true ↔ A.*2 = B.*2).
Proof.
  intros HrA HrB Hfuel. rewrite (repr_size _ _ _ HrA) in Hfuel.
  destruct (operator_eq_spec h this other A B fuel HrA HrB Hfuel) as (b & Hrun & Hb).
  exists b. split; [done|]. split; [|done].
  unfold operator_ne. by erewrite bind_Ok by exact Hrun.
Qed.

Lemma operator_lt_spec h this other (A B : list (loc * T)) fuel :
  repr h this A → repr h other B → length A ≤ fuel →
  operator_lt fuel this other h = Ok (lex_ltb A.*2 B.*2, h).
Proof.
  intros [HfA _ _ _ HcA] [HfB _ _ _ HcB] Hfuel. unfold operator_lt.
  by apply lt_loop_spec.
Qed.

(** X5: [operator<] is the lexicographic comparison of the two sequences.
    Of [a < b], [a == b] and [b < a] exactly one is true; [a > b] agrees
    with [b < a], [a <= b] with [!(b < a)] and [a >= b] with [!(a < b)]. *)
Theorem operator_lt_trichotomy (h : gmap loc (Node T)) (this other : List)
    (A B : list (loc * T)) (fuel : nat) :
  repr h this A → repr h other B →
  listSize this ≤ fuel → listSize other ≤ fuel →
  ∃ lt eq gt,
    operator_lt fuel this other h = Ok (lt, h) ∧
    operator_eq fuel this other h = Ok (eq, h) ∧
    operator_lt fuel other this h = Ok (gt, h) ∧
    operator_gt fuel this other h = Ok (gt, h) ∧
    operator_le fuel this other h = Ok (negb gt, h) ∧
    operator_ge fuel this other h = Ok (negb lt, h) ∧
    lt = lex_ltb A.*2 B.*2 ∧
    ((lt = true ∧ eq = false ∧ gt = false) ∨
     (lt = false ∧ eq = true ∧ gt = false) ∨
     (lt = false ∧ eq = false ∧ gt = true)).
Proof.
  intros HrA HrB HfA HfB.
  rewrite (repr_size _ _ _ HrA) in HfA. rewrite (repr_size _ _ _ HrB) in HfB.
  pose proof (operator_lt_spec h this other A B fuel HrA HrB HfA) as Hlt.
  pose proof (operator_lt_spec h other this B A fuel HrB HrA HfB) as Hgt.
  destruct (operator_eq_spec h this other A B fuel HrA HrB HfA) as (eq & Heq & Hb).
  assert ((lex_ltb A.*2 B.*2 = true ∧ eq = false ∧ lex_ltb B.*2 A.*2 = false) ∨
          (lex_ltb A.*2 B.*2 = false ∧ eq = true ∧ lex_ltb B.*2 A.*2 = false) ∨
          (lex_ltb A.*2 B.*2 = false ∧ eq = false ∧ lex_ltb B.*2 A.*2 = true))
    as Htri.
  { destruct (lex_ltb A.*2 B.*2) eqn:H1.
    - left. split; [done|]. split; [|by apply lex_ltb_asym].
      destruct eq; [|done]. destruct Hb as [Hb _]. rewrite Hb in H1 by done.
      by rewrite lex_ltb_irrefl in H1.
    - destruct (lex_ltb B.*2 A.*2) eqn:H2.
      + right. right. split; [done|]. split; [|done].
        destruct eq; [|done]. destruct Hb as [Hb _]. rewrite Hb in H2 by done.
        by rewrite lex_ltb_irrefl in H2.
      + right. left. split; [done|]. split; [|done].
        apply Hb. by apply lex_ltb_total. }
  exists (lex_ltb A.*2 B.*2), eq, (lex_ltb B.*2 A.*2).
  split; [done|]. split; [done|]. split; [done|].
  assert (operator_le fuel this other h = Ok (negb (lex_ltb B.*2 A.*2), h)) as Hle.
  { unfold operator_le. erewrite bind_Ok by exact Hlt.
    destruct Htri as [(-> & _ & ->)|[(-> & -> & ->)|(-> & -> & ->)]]; done. }
  split.
  { unfold operator_gt. erewrite bind_Ok by exact Hle. by rewrite negb_involutive. }
  split; [done|]. split.
  { unfold operator_ge. by erewrite bind_Ok by exact Hlt. }
  done.
Qed.

End construction_theorems.

(** ** Access and the ends *)

Section access_theorems.
Context {T : Type} `{!Ordered T}.
Implicit Types (h : gmap loc (Node T)) (ns : list (loc * T)) (l : List).

(** X6: [at(index)] and [operator[]] return the element at the index and
    raise [out_of_range] for an index that is not below the size;
    [front()] and [back()] return the first and the last element and raise
    [underflow_error] on the empty list.  None of them changes the heap. *)
Theorem access_in_bounds (h : gmap loc (Node T)) (l : List)
    (ns : list (loc * T)) (index : nat) :
  repr h l ns →
  at_ index l h = match ns.*2 !! index with
                  | Some v => Ok (v, h)
                  | None => Throw out_of_range
                  end ∧
  operator_index index l h = at_ index l h ∧
  front l h = match head ns.*2 with
              | Some v => Ok (v, h)
              | None => Throw underflow_error
              end ∧
  back l h = match last ns.*2 with
             | Some v => Ok (v, h)
             | None => Throw underflow_error
             end.
Proof.
  intros Hr. split; [|split; [done|split]].
  - destruct (ns.*2 !! index) as [v|] eqn:Hv; [by apply (at_spec h l ns)|].
    apply lookup_ge_None in Hv. rewrite length_fmap in Hv.
    unfold at_. unfold mbind, M_bind, bind.
    rewrite getNodeAt_out_of_range; [done|]. by rewrite (repr_size _ _ _ Hr).
  - unfold front, empty. rewrite (repr_size _ _ _ Hr), (repr_head _ _ _ Hr).
    destruct ns as [|[a v] ns]; [done|]. cbn [length Nat.eqb fmap list_fmap head].
    destruct (repr_at h l [] a v ns Hr) as (na & Ha & Hd & _).
    erewrite bind_Ok by (by apply deref_Ok). by rewrite Hd.
  - unfold back, empty. rewrite (repr_size _ _ _ Hr), (repr_tail _ _ _ Hr).
    destruct ns as [|[a v] ns _] using rev_ind; [done|].
    rewrite length_app, !fmap_app. cbn [length fmap list_fmap fst snd].
    rewrite !last_snoc. replace (length ns + 1 =? 0) with false
      by (symmetry; apply Nat.eqb_neq; lia).
    destruct (repr_at h l ns a v [] Hr) as (na & Ha & Hd & _).
    erewrite bind_Ok by (by apply deref_Ok). by rewrite Hd.
Qed.

(** X7: [popFrontAndReturn()] and [popBackAndReturn()] raise
    [underflow_error] on the empty list; otherwise they return the first,
    respectively last, element, delete its node and leave the rest of the
    sequence, with the sorted flag as it was. *)
Theorem pop_and_return (h : gmap loc (Node T)) (l : List) (ns : list (loc * T)) :
  repr h l ns →
  (ns = [] →
     popFrontAndReturn l h = Throw underflow_error ∧
     popBackAndReturn l h = Throw underflow_error) ∧
  (∀ a v ns', ns = (a, v) :: ns' →
     ∃ l' h', popFrontAndReturn l h = Ok ((v, l'), h') ∧
       repr h' l' ns' ∧ h' !! a = None ∧ sorted l' = sorted l) ∧
  (∀ a v ns', ns = ns' ++ [(a, v)] →
     ∃ l' h', popBackAndReturn l h = Ok ((v, l'), h') ∧
       repr h' l' ns' ∧ h' !! a = None ∧ sorted l' = sorted l).
Proof.
  intros Hr. split; [|split].
  - intros ->. unfold popFrontAndReturn, popBackAndReturn, empty.
    by rewrite (repr_size _ _ _ Hr).
  - intros a v ns' ->. unfold popFrontAndReturn, empty.
    rewrite (repr_size _ _ _ Hr), (repr_head _ _ _ Hr).
    cbn [length Nat.eqb fmap list_fmap head].
    destruct (repr_at h l [] a v ns' Hr) as (na & Ha & Hd & _).
    erewrite bind_Ok by (by apply deref_Ok).
    destruct (popFront_spec h l a v ns' Hr) as (l' & h' & Hrun & Hr' & _ & Hgone & _ & Hfl).
    erewrite bind_Ok by exact Hrun. rewrite Hd. by exists l', h'.
  - intros a v ns' ->. unfold popBackAndReturn, empty.
    rewrite (repr_size _ _ _ Hr), (repr_tail _ _ _ Hr).
    rewrite length_app, fmap_app. cbn [length fmap list_fmap fst].
    rewrite last_snoc. replace (length ns' + 1 =? 0) with false
      by (symmetry; apply Nat.eqb_neq; lia).
    destruct (repr_at h l ns' a v [] Hr) as (na & Ha & Hd & _).
    erewrite bind_Ok by (by apply deref_Ok).
    destruct (popBack_spec h l a v ns' Hr) as (l' & h' & Hrun & Hr' & _ & Hgone & _ & Hfl).
    erewrite bind_Ok by exact Hrun. rewrite Hd. by exists l', h'.
Qed.

(** X8: [pushFront(v)] followed by [popFrontAndReturn()] returns [v] and
    leaves the original nodes in their order, but the sorted flag is not
    restored: it stays cleared when [v] was greater than the old first
    element. *)
Theorem push_pop_front_roundtrip (h : gmap loc (Node T)) (l : List)
    (ns : list (loc * T)) (v : T) :
  repr h l ns →
  ∃ l1 h1 l2 h2,
    pushFront v l h = Ok (l1, h1) ∧
    popFrontAndReturn l1 h1 = Ok ((v, l2), h2) ∧
    repr h2 l2 ns ∧ size l2 = size l ∧
    sorted l2 = flag_after_front (sorted l) ns.*2 v.
Proof.
  intros Hr.
  destruct (pushFront_spec h l ns v Hr) as (l1 & h1 & Hrun1 & Hr1 & _ & Hfl1).
  destruct (popFront_spec h1 l1 _ v ns Hr1) as (l2 & h2 & Hrun2 & Hr2 & _ & _ & _ & Hfl2).
  exists l1, h1, l2, h2. split; [done|]. split.
  { unfold popFrontAndReturn, empty.
    rewrite (repr_size _ _ _ Hr1), (repr_head _ _ _ Hr1).
    cbn [length Nat.eqb fmap list_fmap head].
    destruct (repr_at h1 l1 [] _ v ns Hr1) as (na & Ha & Hd & _).
    erewrite bind_Ok by (by apply deref_Ok).
    erewrite bind_Ok by exact Hrun2. by rewrite Hd. }
  split; [done|]. split.
  { unfold size. by rewrite (repr_size _ _ _ Hr2), (repr_size _ _ _ Hr). }
  unfold sorted. by rewrite Hfl2, Hfl1.
Qed.

End access_theorems.

(** ** Insertion and removal at a position *)

Section position_theorems.
Context {T : Type} `{!Ordered T}.
Implicit Types (h : gmap loc (Node T)) (ns : list (loc * T)) (l : List).

Lemma sublist_flag_sound l l' (vs vs' : list T) :
  vs' `sublist_of` vs → isSorted l' = isSorted l →
  flag_sound l vs → flag_sound l' vs'.
Proof.
  intros Hsub Hfl Hsound Hflag. rewrite Hfl in Hflag.
  apply StronglySorted_Sorted. eapply sublist_sorted; [apply _|done|].
  apply Sorted_StronglySorted; [apply _|]. by apply Hsound.
Qed.

Lemma sublist_middle {A} (xs1 xs2 : list A) x : xs1 ++ xs2 `sublist_of` xs1 ++ x :: xs2.
Proof. apply sublist_app; [done|]. by apply sublist_cons. Qed.

(** X9: [insert(index, value)] raises [out_of_range] when the index
    exceeds the size; otherwise the new element is at that index, the
    elements from there on move one place back, and nothing else changes.
    An insertion strictly inside the list always clears the sorted flag. *)
Theorem insert_at_index (h : gmap loc (Node T)) (l : List)
    (ns : list (loc * T)) (index : nat) (value : T) :
  repr h l ns →
  (length ns < index → List_insert index value l h = Throw out_of_range) ∧
  (index ≤ length ns →
     ∃ l' h' a,
       List_insert index value l h = Ok (l', h') ∧
       repr h' l' (take index ns ++ (a, value) :: drop index ns) ∧
       h !! a = None ∧ size l' = S (size l) ∧
       at_ index l' h' = Ok (value, h') ∧
       (0 < index < length ns → sorted l' = false)).
Proof.
  intros Hr. split.
  - intros Hi. unfold List_insert. rewrite (repr_size _ _ _ Hr).
    by replace (length ns <? index) with true by (symmetry; apply Nat.ltb_lt; lia).
  - intros Hi.
    destruct (List_insert_spec h l ns index value Hr Hi)
      as (l' & h' & Hrun & Hr' & _ & Hfl).
    exists l', h', (fresh (dom h)). split; [done|]. split; [done|].
    split; [apply fresh_not_in|]. split.
    { unfold size. rewrite (repr_size _ _ _ Hr'), (repr_size _ _ _ Hr).
      rewrite length_app, length_take. cbn [length]. rewrite length_drop. lia. }
    split.
    { apply (at_spec h' l' _ index value Hr').
      rewrite fmap_app. cbn [fmap list_fmap snd].
      rewrite lookup_app_r by (rewrite length_fmap, length_take; lia).
      rewrite length_fmap, length_take.
      by replace (index - index `min` length ns) with 0 by lia. }
    intros [Hi0 Hil]. unfold sorted. rewrite Hfl.
    replace (index =? 0) with false by (symmetry; apply Nat.eqb_neq; lia).
    by replace (index =? length ns) with false by (symmetry; apply Nat.eqb_neq; lia).
Qed.

(** X10: [insert(pos, value)] links a new node holding the value before
    the node the iterator points to ([end()] appends) and returns the
    iterator to the new node; the nodes before and after keep their
    order. *)
Theorem insert_before_iterator (h : gmap loc (Node T)) (l : List)
    (ns1 ns2 : list (loc * T)) (value : T) :
  repr h l (ns1 ++ ns2) →
  ∃ l' h' a,
    List_insert_before (hd_ptr ns2) value l h = Ok ((Some a, l'), h') ∧
    repr h' l' (ns1 ++ (a, value) :: ns2) ∧ h !! a = None ∧
    size l' = S (size l) ∧
    (ns1 ≠ [] → ns2 ≠ [] → sorted l' = false).
Proof.
  intros Hr.
  destruct (List_insert_before_spec h l ns1 ns2 value Hr)
    as (l' & h' & Hrun & Hr' & _ & Hfl).
  exists l', h', (fresh (dom h)). split; [done|]. split; [done|].
  split; [apply fresh_not_in|]. split.
  { unfold size. rewrite (repr_size _ _ _ Hr'), (repr_size _ _ _ Hr).
    rewrite !length_app. cbn [length]. lia. }
  intros H1 H2. unfold sorted. rewrite Hfl. by destruct ns1, ns2.
Qed.

(** X11: [removeAt(index)] and [removeAtAndReturn(index)] raise
    [out_of_range] for an index that is not below the size; otherwise the
    element at the index is removed (and returned), its node is deleted,
    and the other elements keep their order; a sound sorted flag stays
    sound. *)
Theorem removeAt_removes (h : gmap loc (Node T)) (l : List)
    (ns : list (loc * T)) (index : nat) :
  repr h l ns →
  (length ns ≤ index →
     removeAt index l h = Throw out_of_range ∧
     removeAtAndReturn index l h = Throw out_of_range) ∧
  (∀ a v, ns !! index = Some (a, v) →
     ∃ l' h',
       removeAt index l h = Ok (l', h') ∧
       removeAtAndReturn index l h = Ok ((v, l'), h') ∧
       repr h' l' (take index ns ++ drop (S index) ns) ∧
       h' !! a = None ∧ S (size l') = size l ∧ sorted l' = sorted l ∧
       (flag_sound l ns.*2 →
        flag_sound l' (take index ns ++ drop (S index) ns).*2)).
Proof.
  intros Hr. split.
  - intros Hi. unfold removeAtAndReturn, removeAt. rewrite (repr_size _ _ _ Hr).
    by replace (length ns <=? index) with true by (symmetry; apply Nat.leb_le; lia).
  - intros a v Hlook. pose proof (lookup_lt_Some _ _ _ Hlook) as Hi.
    destruct (removeAt_spec h l ns index Hr Hi)
      as (l' & h' & Hrun & Hr' & Hfl & Hp & Hdom & Hgone).
    pose proof (take_drop_middle ns index (a, v) Hlook) as Hmid.
    exists l', h'. split; [done|]. split.
    { unfold removeAtAndReturn. rewrite (repr_size _ _ _ Hr).
      replace (length ns <=? index) with false by (symmetry; apply Nat.leb_gt; lia).
      erewrite bind_Ok.
      2:{ apply (at_spec h l ns index v Hr). by rewrite list_lookup_fmap, Hlook. }
      by erewrite bind_Ok by exact Hrun. }
    split; [done|]. split; [by eapply Hgone|].
    split.
    { unfold size. rewrite (repr_size _ _ _ Hr'), (repr_size _ _ _ Hr).
      rewrite length_app, length_take, length_drop. lia. }
    split; [done|]. intros Hsound.
    eapply sublist_flag_sound; [|exact Hfl|exact Hsound].
    rewrite <- Hmid at 3. rewrite !fmap_app. cbn [fmap list_fmap].
    apply sublist_middle.
Qed.

End position_theorems.

(** ** Removal by iterator, by value and by predicate *)

Section removal_theorems.
Context {T : Type} `{!Ordered T}.
Implicit Types (h : gmap loc (Node T)) (ns : list (loc * T)) (l : List).

(** X12: [erase(pos)] takes the node the iterator points to out of the
    list, deletes it and returns the iterator to the node that followed it;
    [erase(end())] does nothing and returns [end()]. *)
Theorem erase_removes (h : gmap loc (Node T)) (l : List)
    (ns1 ns2 : list (loc * T)) (a : loc) (v : T) :
  repr h l (ns1 ++ (a, v) :: ns2) →
  erase None l h = Ok ((None, l), h) ∧
  ∃ l' h',
    erase (Some a) l h = Ok ((hd_ptr ns2, l'), h') ∧
    repr h' l' (ns1 ++ ns2) ∧ h' !! a = None ∧
    S (size l') = size l ∧ sorted l' = sorted l ∧
    (flag_sound l (ns1 ++ (a, v) :: ns2).*2 → flag_sound l' (ns1 ++ ns2).*2).
Proof.
  intros Hr. split; [done|].
  eexists _, _. split; [exact (erase_spec h l ns1 a v ns2 Hr)|].
  split; [exact (repr_unlinked h l ns1 a v ns2 _ Hr)|].
  split; [apply unlinked_gone|].
  split.
  { unfold size. cbn [list_of listSize]. rewrite (repr_size _ _ _ Hr).
    rewrite !length_app. cbn [length]. lia. }
  split; [done|]. intros Hsound.
  eapply sublist_flag_sound; [|reflexivity|exact Hsound].
  rewrite !fmap_app. cbn [fmap list_fmap]. apply sublist_middle.
Qed.

(** X13: [erase(first, last)] with [last] reachable from [first] removes
    and deletes exactly the nodes from [first] up to, not including,
    [last], and returns [last]. *)
Theorem erase_range_removes (h : gmap loc (Node T)) (l : List)
    (ns1 mid ns2 : list (loc * T)) (fuel : nat) :
  repr h l (ns1 ++ mid ++ ns2) → length mid ≤ fuel →
  ∃ l' h',
    erase_range fuel (hd_ptr (mid ++ ns2)) (hd_ptr ns2) l h
    = Ok ((hd_ptr ns2, l'), h') ∧
    repr h' l' (ns1 ++ ns2) ∧ (∀ a, a ∈ mid.*1 → h' !! a = None) ∧
    size l' + length mid = size l ∧ sorted l' = sorted l.
Proof.
  intros Hr Hfuel.
  destruct (erase_range_spec fuel mid ns1 ns2 h l Hr Hfuel)
    as (h' & Hrun & Hr' & _ & Hgone & _).
  eexists _, h'. split; [exact Hrun|]. split; [done|]. split; [done|].
  split; [|done]. unfold size. cbn [list_of listSize].
  rewrite (repr_size _ _ _ Hr), !length_app. lia.
Qed.

(** X14: [erase(first, last)] never returns when [last] is a node that is
    not reachable from [first] (a node before [first], or of another
    list): once the nodes from [first] on are deleted the loop keeps
    calling [erase(end())]. *)
Theorem erase_range_never_returns (h : gmap loc (Node T)) (l : List)
    (ns1 ns2 : list (loc * T)) (b : loc) :
  repr h l (ns1 ++ ns2) → b ∉ ns2.*1 →
  ∀ fuel, erase_range fuel (hd_ptr ns2) (Some b) l h = OutOfFuel.
Proof. intros Hr Hb fuel. by apply (erase_range_diverges b fuel ns1 ns2). Qed.

(** X15: [removeFirst(value)] returns false and changes nothing when the
    value does not occur; otherwise it removes the first node holding the
    value, and only that node, and returns true. *)
Theorem removeFirst_removes (h : gmap loc (Node T)) (l : List)
    (ns : list (loc * T)) (value : T) (fuel : nat) :
  repr h l ns → listSize l ≤ fuel →
  (value ∉ ns.*2 → removeFirst fuel value l h = Ok ((false, l), h)) ∧
  (∀ r1 a r2, ns = r1 ++ (a, value) :: r2 → value ∉ r1.*2 →
     ∃ l' h',
       removeFirst fuel value l h = Ok ((true, l'), h') ∧
       repr h' l' (r1 ++ r2) ∧ h' !! a = None ∧
       S (size l') = size l ∧ sorted l' = sorted l).
Proof.
  intros Hr Hfuel. rewrite (repr_size _ _ _ Hr) in Hfuel. split.
  - intros Hv. destruct Hr as [Hf _ _ _ Hc].
    by apply (removeFirst_loop_absent value h fuel ns).
  - intros r1 a r2 -> Hv. unfold removeFirst.
    pose proof (removeFirst_loop_spec value fuel r1 [] a r2 h l Hr Hv) as Hrun.
    rewrite (repr_head _ _ _ Hr).
    replace (head (r1 ++ (a, value) :: r2).*1) with (head (r1 ++ [(a, value)]).*1)
      by (by destruct r1).
    rewrite length_app in Hfuel. cbn [length] in Hfuel.
    eexists _, _. split; [apply Hrun; lia|].
    split; [exact (repr_unlinked h l r1 a value r2 _ Hr)|].
    split; [apply unlinked_gone|].
    split; [|done]. unfold size. cbn [list_of listSize app].
    rewrite (repr_size _ _ _ Hr), !length_app. cbn [length]. lia.
Qed.

(** X16: [removeLast(value)] returns false and changes nothing when the
    value does not occur; otherwise it removes the last node holding the
    value, and only that node, and returns true. *)
Theorem removeLast_removes (h : gmap loc (Node T)) (l : List)
    (ns : list (loc * T)) (value : T) (fuel : nat) :
  repr h l ns → listSize l ≤ fuel →
  (value ∉ ns.*2 → removeLast fuel value l h = Ok ((false, l), h)) ∧
  (∀ r1 a r2, ns = r1 ++ (a, value) :: r2 → value ∉ r2.*2 →
     ∃ l' h',
       removeLast fuel value l h = Ok ((true, l'), h') ∧
       repr h' l' (r1 ++ r2) ∧ h' !! a = None ∧
       S (size l') = size l ∧ sorted l' = sorted l).
Proof.
  intros Hr Hfuel. rewrite (repr_size _ _ _ Hr) in Hfuel. split.
  - intros Hv. destruct Hr as [_ Hb _ _ Hc].
    by apply (removeLast_loop_absent value h fuel ns).
  - intros r1 a r2 -> Hv. unfold removeLast.
    assert (repr h l (r1 ++ (a, value) :: r2 ++ [])) as Hr2 by (by rewrite app_nil_r).
    pose proof (removeLast_loop_spec value fuel r2 [] a r1 h l Hr2 Hv) as Hrun.
    rewrite app_nil_r in Hrun. rewrite (repr_tail _ _ _ Hr).
    replace (last (r1 ++ (a, value) :: r2).*1) with (last ((a, value) :: r2).*1)
      by (by rewrite fmap_app, last_app_nonnil).
    rewrite length_app in Hfuel. cbn [length] in Hfuel.
    eexists _, _. split; [apply Hrun; lia|].
    split; [exact (repr_unlinked h l r1 a value r2 _ Hr)|].
    split; [apply unlinked_gone|].
    split; [|done]. unfold size. cbn [list_of listSize].
    rewrite (repr_size _ _ _ Hr), !length_app. cbn [length]. lia.
Qed.

Lemma filter_split_length (pred : T → bool) (xs : list T) :
  length (filter (λ x, pred x = false) xs) + length (filter (λ x, pred x = true) xs)
  = length xs.
Proof.
  induction xs as [|x xs IH]; [done|].
  rewrite !filter_cons. destruct (pred x); repeat case_decide; try done;
    cbn [length]; lia.
Qed.

Lemma removeIf_spec h l ns (pred : T → bool) fuel :
  repr h l ns → length ns ≤ fuel →
  ∃ l' h' ns',
    removeIf fuel pred l h
    = Ok ((length (filter (λ x, pred x = true) ns.*2), l'), h') ∧
    repr h' l' ns' ∧ ns' = filter (λ x, pred x.2 = false) ns ∧
    ns'.*2 = filter (λ x, pred x = false) ns.*2 ∧
    isSorted l' = isSorted l.
Proof.
  intros Hr Hfuel. unfold removeIf. rewrite (repr_head _ _ _ Hr).
  destruct (remove_loop_spec pred fuel ns [] h l 0 Hr Hfuel)
    as (h' & Hrun & Hr' & _ & _).
  cbn [app Nat.add] in Hrun, Hr'. eexists _, h', _. split.
  { rewrite Hrun. do 3 f_equal.
    by rewrite <- (filter_snd (λ x, pred x = true)), length_fmap. }
  split; [done|]. split; [done|]. split; [|done].
  apply (filter_snd (λ x, pred x = false)).
Qed.

(** X17: [removeIf(pred)] removes exactly the elements that satisfy the
    predicate, keeps the others in their order, and returns the number of
    removed elements; a sound sorted flag stays sound. *)
Theorem removeIf_filters (h : gmap loc (Node T)) (l : List)
    (ns : list (loc * T)) (pred : T → bool) (fuel : nat) :
  repr h l ns → listSize l ≤ fuel →
  ∃ removed l' h' ns',
    removeIf fuel pred l h = Ok ((removed, l'), h') ∧
    repr h' l' ns' ∧
    ns'.*2 = filter (λ x, pred x = false) ns.*2 ∧
    removed = length (filter (λ x, pred x = true) ns.*2) ∧
    size l' + removed = size l ∧ sorted l' = sorted l ∧
    (flag_sound l ns.*2 → flag_sound l' ns'.*2).
Proof.
  intros Hr Hfuel. rewrite (repr_size _ _ _ Hr) in Hfuel.
  destruct (removeIf_spec h l ns pred fuel Hr Hfuel)
    as (l' & h' & ns' & Hrun & Hr' & Hns' & Hv & Hfl).
  eexists _, l', h', ns'. split; [exact Hrun|]. split; [done|]. split; [done|].
  split; [done|]. split.
  { unfold size. rewrite (repr_size _ _ _ Hr'), (repr_size _ _ _ Hr).
    rewrite <- (length_fmap snd ns'), Hv, <- (length_fmap snd ns).
    apply filter_split_length. }
  split; [done|]. intros Hsound.
  eapply sublist_flag_sound; [|exact Hfl|exact Hsound].
  rewrite Hv. apply sublist_filter.
Qed.

(** With a reference to an object that is not a node, the loop of
    [removeAll] is the loop of [removeIf] with the test [== value]. *)
Lemma removeAll_loop_outside (value : T) fuel : ∀ current l removed h,
  removeAll_loop fuel (Outside value) current l removed h
  = remove_loop fuel (λ d, eqb d value) current l removed h.
Proof.
  induction fuel as [|fuel IH]; intros [a|] l removed h; try done.
  cbn [removeAll_loop remove_loop read_cref].
  unfold mbind, M_bind, bind, mret, M_ret, ret.
  destruct (deref (Some a) h) as [[n h1]| | |]; [|done..].
  destruct (eqb (data n) value); [|apply IH].
  destruct (unlink_and_delete (Some a) l h1) as [[l' h2]| | |]; [apply IH|done..].
Qed.

Lemma read_cref_inside h a n v :
  h !! a = Some n → data n = v → read_cref (Inside a) h = Ok (v, h).
Proof.
  intros Ha <-. cbn [read_cref]. by erewrite bind_Ok by (by apply deref_Ok).
Qed.

Lemma read_cref_deleted h a :
  h !! a = None → read_cref (T:=T) (Inside a) h = Undefined.
Proof.
  intros Ha. cbn [read_cref]. unfold mbind, M_bind, bind, deref. by rewrite Ha.
Qed.

(** One turn of the loop of [removeAll] at a node, when the reference can
    be read. *)
Lemma removeAll_loop_step fuel (value : cref T) a n v l removed h :
  h !! a = Some n → read_cref value h = Ok (v, h) →
  removeAll_loop (S fuel) value (Some a) l removed h
  = if eqb (data n) v
    then (unlink_and_delete (Some a) l
          ≫= λ l', removeAll_loop fuel value (next n) l' (S removed)) h
    else removeAll_loop fuel value (next n) l removed h.
Proof.
  intros Ha Hv. cbn [removeAll_loop]. erewrite bind_Ok by (by apply deref_Ok).
  erewrite bind_Ok by exact Hv. by destruct (eqb (data n) v).
Qed.

(** With a reference to the last node the loop never reads a deleted node:
    it runs as with a reference to an object outside. *)
Lemma removeAll_loop_inside_last a (value : T) fuel : ∀ rest done h l removed,
  repr h l (done ++ rest ++ [(a, value)]) → length rest < fuel →
  removeAll_loop fuel (Inside a) (head (rest ++ [(a, value)]).*1) l removed h
  = removeAll_loop fuel (Outside value) (head (rest ++ [(a, value)]).*1) l
      removed h.
Proof.
  induction fuel as [|fuel IH]; intros rest done h l removed Hr Hfuel; [lia|].
  assert (∃ na, h !! a = Some na ∧ data na = value) as (na & Ha & Hda).
  { rewrite app_assoc in Hr.
    destruct (repr_at _ _ _ _ _ _ Hr) as (na & Ha & Hda & _). eauto. }
  destruct rest as [|[b w] rest]; cbn [app fmap list_fmap fst head] in *.
  - destruct (repr_at _ _ _ _ _ _ Hr) as (na' & Ha' & _ & Hnx & _).
    rewrite Ha in Ha'. injection Ha' as <-.
    rewrite (removeAll_loop_step fuel (Inside a) a na value l removed h Ha
               (read_cref_inside h a na value Ha Hda)).
    rewrite (removeAll_loop_step fuel (Outside value) a na value l removed h Ha
               eq_refl).
    rewrite Hda, eqb_refl, Hnx.
    erewrite !bind_Ok by (by eapply unlink_and_delete_spec).
    by destruct fuel.
  - destruct (repr_at _ _ _ _ _ _ Hr) as (nb & Hb & Hd & Hnx & _).
    rewrite (removeAll_loop_step fuel (Inside a) b nb value l removed h Hb
               (read_cref_inside h a na value Ha Hda)).
    rewrite (removeAll_loop_step fuel (Outside value) b nb value l removed h Hb
               eq_refl).
    rewrite Hd, Hnx. destruct (eqb w value) eqn:Htest.
    + rewrite !(bind_Ok _ _ _ _ _ (unlink_and_delete_spec _ _ _ _ _ _ Hr)).
      apply (IH rest done); [|simpl in Hfuel; lia].
      exact (repr_unlinked h l done b w (rest ++ [(a, value)]) _ Hr).
    + apply (IH rest (done ++ [(b, w)])); [|simpl in Hfuel; lia].
      by rewrite <- app_assoc.
Qed.

(** With a reference to a node that has a successor the loop deletes that
    node and reads it again at the next one. *)
Lemma removeAll_loop_inside_dangling a (value : T) c u ns2 fuel :
  ∀ rest done h l removed,
  repr h l (done ++ rest ++ (a, value) :: (c, u) :: ns2) → S (length rest) < fuel →
  removeAll_loop fuel (Inside a) (head (rest ++ (a, value) :: (c, u) :: ns2).*1)
    l removed h = Undefined.
Proof.
  induction fuel as [|fuel IH]; intros rest done h l removed Hr Hfuel; [lia|].
  assert (∃ na, h !! a = Some na ∧ data na = value) as (na & Ha & Hda).
  { rewrite app_assoc in Hr.
    destruct (repr_at _ _ _ _ _ _ Hr) as (na & Ha & Hda & _). eauto. }
  destruct rest as [|[b w] rest]; cbn [app fmap list_fmap fst head] in *.
  - destruct (repr_at _ _ _ _ _ _ Hr) as (na' & Ha' & _ & Hnx & _).
    rewrite Ha in Ha'. injection Ha' as <-.
    rewrite (removeAll_loop_step fuel (Inside a) a na value l removed h Ha
               (read_cref_inside h a na value Ha Hda)).
    rewrite Hda, eqb_refl, Hnx.
    rewrite (bind_Ok _ _ _ _ _ (unlink_and_delete_spec _ _ _ _ _ _ Hr)).
    pose proof (repr_unlinked h l done a value ((c, u) :: ns2) (isSorted l) Hr)
      as Hr1.
    destruct (repr_at _ _ _ _ _ _ Hr1) as (nc & Hc & _).
    destruct fuel as [|fuel]; [simpl in Hfuel; lia|].
    cbn [fmap list_fmap fst head removeAll_loop].
    erewrite bind_Ok by (by apply deref_Ok).
    unfold mbind, M_bind, bind.
    by rewrite (read_cref_deleted _ _ (unlinked_gone h a)).
  - destruct (repr_at _ _ _ _ _ _ Hr) as (nb & Hb & Hd & Hnx & _).
    rewrite (removeAll_loop_step fuel (Inside a) b nb value l removed h Hb
               (read_cref_inside h a na value Ha Hda)).
    rewrite Hd, Hnx. destruct (eqb w value) eqn:Htest.
    + rewrite (bind_Ok _ _ _ _ _ (unlink_and_delete_spec _ _ _ _ _ _ Hr)).
      apply (IH rest done); [|simpl in Hfuel; lia].
      exact (repr_unlinked h l done b w
               (rest ++ (a, value) :: (c, u) :: ns2) _ Hr).
    + apply (IH rest (done ++ [(b, w)])); [|simpl in Hfuel; lia].
      by rewrite <- app_assoc.
Qed.

(** X18: [removeAll(value)], given a reference to an object that is not
    an element of the list, removes every occurrence of the value and
    nothing else, and returns their number, which is what [count(value)]
    returned before; afterwards [contains(value)] is false.  The argument
    is a reference that is read again after nodes have been deleted: given
    a reference to an element of the list, as in [a.removeAll(a.front())],
    the call does the same only when that element is the last node;
    otherwise it deletes the node and then reads it, which is undefined
    behaviour. *)
Theorem removeAll_removes_the_value (h : gmap loc (Node T)) (l : List)
    (ns : list (loc * T)) (value : T) (fuel : nat) :
  repr h l ns → listSize l ≤ fuel →
  (∃ removed l' h' ns',
     removeAll fuel (Outside value) l h = Ok ((removed, l'), h') ∧
     repr h' l' ns' ∧
     ns'.*2 = filter (λ x, eqb x value = false) ns.*2 ∧ (value ∉ ns'.*2) ∧
     count fuel value l h = Ok (removed, h) ∧
     contains fuel value l' h' = Ok (false, h') ∧
     size l' + removed = size l ∧ sorted l' = sorted l) ∧
  (∀ ns1 a ns2, ns = ns1 ++ (a, value) :: ns2 →
     removeAll fuel (Inside a) l h
     = match ns2 with
       | [] => removeAll fuel (Outside value) l h
       | _ :: _ => Undefined
       end).
Proof.
  intros Hr Hfuel. rewrite (repr_size _ _ _ Hr) in Hfuel. split.
  - destruct (removeIf_spec h l ns (λ d, eqb d value) fuel Hr Hfuel)
      as (l' & h' & ns' & Hrun & Hr' & Hns' & Hv & Hfl).
    assert (value ∉ ns'.*2) as Hnot.
    { rewrite Hv. intros [Hne _]%list_elem_of_filter. by rewrite eqb_refl in Hne. }
    assert (length ns' ≤ fuel) as Hfuel'.
    { rewrite Hns'. etrans; [apply length_filter|done]. }
    eexists _, l', h', ns'. split.
    { unfold removeAll. rewrite removeAll_loop_outside. exact Hrun. }
    split; [done|]. split; [done|]. split; [done|]. split.
    { unfold count. destruct Hr as [Hf _ _ _ Hc].
      by rewrite (count_loop_spec value h ns). }
    split.
    { destruct Hr' as [Hf' _ _ _ Hc'].
      destruct (contains_loop_spec value h' ns' (headNode l') fuel Hf' Hc' Hfuel')
        as (b & Hrunc & Hb).
      unfold contains. rewrite Hrunc. destruct b; [|done]. exfalso.
      destruct Hb as [Hb _]. by specialize (Hb eq_refl). }
    split; [|done].
    unfold size. rewrite (repr_size _ _ _ Hr'), (repr_size _ _ _ Hr).
    rewrite <- (length_fmap snd ns'), Hv, <- (length_fmap snd ns).
    apply (filter_split_length (λ d, eqb d value)).
  - intros ns1 a ns2 ->. unfold removeAll. rewrite (repr_head _ _ _ Hr).
    rewrite length_app in Hfuel. cbn [length] in Hfuel.
    destruct ns2 as [|[c u] ns2].
    + apply (removeAll_loop_inside_last a value fuel ns1 []); [done|lia].
    + apply (removeAll_loop_inside_dangling a value c u ns2 fuel ns1 []);
        [done|cbn [length] in Hfuel; lia].
Qed.

Lemma unique_with_spec h l ns (same : T → T → bool) fuel :
  repr h l ns → length ns ≤ fuel →
  ∃ l' h' ns',
    unique_loop fuel same (headNode l) l h = Ok (l', h') ∧
    repr h' l' ns' ∧ ns'.*2 = uniq same ns.*2 ∧ isSorted l' = isSorted l.
Proof.
  intros Hr Hfuel. destruct ns as [|[a v] ns].
  { destruct (repr_nil_inv _ _ _ Hr) as (_ & Hhd & _);
      [by rewrite (repr_size _ _ _ Hr)|].
    rewrite Hhd. exists l, h, []. by destruct fuel. }
  rewrite (repr_head _ _ _ Hr). cbn [fmap list_fmap fst head].
  destruct (unique_loop_spec same fuel ns [] a v h l Hr) as (h' & Hrun & Hr' & _ & _).
  { simpl in Hfuel. lia. }
  cbn [app] in Hrun, Hr'. eexists _, h', _. split; [exact Hrun|].
  split; [done|]. split; [|done].
  cbn [fmap list_fmap snd uniq]. apply uniq_from_snd.
Qed.

(** X19: [unique(comparator)] drops every element that the comparator
    relates to the last element kept before it, so that no two neighbours
    of the result are related; the result is a subsequence, and the sorted
    flag is as before.  [unique()] does this with [==], and on a
    non-decreasing sequence it leaves every value once. *)
Theorem unique_drops_repeats (h : gmap loc (Node T)) (l : List)
    (ns : list (loc * T)) (comparator : T → T → bool) (fuel : nat) :
  repr h l ns → listSize l ≤ fuel →
  (∃ l' h' ns',
     unique_with fuel comparator l h = Ok (l', h') ∧
     repr h' l' ns' ∧ ns'.*2 = uniq comparator ns.*2 ∧
     ns'.*2 `sublist_of` ns.*2 ∧
     all_adjacent (λ a b, negb (comparator a b)) ns'.*2 = true ∧
     sorted l' = sorted l) ∧
  (∃ l' h' ns',
     unique fuel l h = Ok (l', h') ∧
     repr h' l' ns' ∧ ns'.*2 = uniq eqb ns.*2 ∧
     ns'.*2 `sublist_of` ns.*2 ∧
     (∀ i a b, ns'.*2 !! i = Some a → ns'.*2 !! S i = Some b → a ≠ b) ∧
     (nondecreasing ns.*2 → NoDup ns'.*2) ∧
     sorted l' = sorted l ∧
     (flag_sound l ns.*2 → flag_sound l' ns'.*2)).
Proof.
  intros Hr Hfuel. rewrite (repr_size _ _ _ Hr) in Hfuel.
  assert (∀ same, uniq same ns.*2 `sublist_of` ns.*2) as Hsub.
  { intros same. destruct (ns.*2) as [|x r]; [done|]. apply uniq_from_sublist. }
  assert (∀ same, all_adjacent (λ a b, negb (same a b)) (uniq same ns.*2) = true)
    as Hadj.
  { intros same. destruct (ns.*2) as [|x r]; [done|]. apply uniq_from_adjacent. }
  assert (∀ same, ∃ l' h' ns',
    (if listSize l <=? 1 then mret l else unique_loop fuel same (headNode l) l) h
    = Ok (l', h') ∧
    repr h' l' ns' ∧ ns'.*2 = uniq same ns.*2 ∧ isSorted l' = isSorted l) as Hrun.
  { intros same. destruct (listSize l <=? 1) eqn:Hsz.
    - exists l, h, ns. split; [done|]. split; [done|]. split; [|done].
      apply Nat.leb_le in Hsz. rewrite (repr_size _ _ _ Hr) in Hsz.
      destruct ns as [|[a v] [|? ?]]; [done|done|simpl in Hsz; lia].
    - by apply unique_with_spec. }
  split.
  - destruct (Hrun comparator) as (l' & h' & ns' & Hrun' & Hr' & Hv & Hfl).
    exists l', h', ns'. split; [done|]. split; [done|]. split; [done|].
    rewrite Hv. done.
  - destruct (Hrun eqb) as (l' & h' & ns' & Hrun' & Hr' & Hv & Hfl).
    exists l', h', ns'. split; [done|]. split; [done|]. split; [done|].
    rewrite Hv. split; [done|]. split.
    { intros i a b Ha Hb. pose proof (Hadj eqb) as Hall.
      rewrite all_adjacent_spec in Hall. specialize (Hall i a b Ha Hb).
      apply negb_true_iff in Hall. by apply eqb_false. }
    split.
    { intros Hnd. destruct (ns.*2) as [|x r]; [constructor|].
      apply uniq_from_NoDup. by apply Sorted_StronglySorted; [apply _|]. }
    split; [done|]. intros Hsound. rewrite <- Hv.
    eapply sublist_flag_sound; [|exact Hfl|exact Hsound]. by rewrite Hv.
Qed.

End removal_theorems.

(** ** Searching *)

Section search_theorems.
Context {T : Type} `{!Ordered T}.
Implicit Types (h : gmap loc (Node T)) (ns : list (loc * T)) (l : List).

(** X20: [contains(value)] returns true exactly when the value occurs,
    [count(value)] returns the number of its occurrences, and the two
    agree: the count is positive exactly when [contains] is true. *)
Theorem contains_and_count (h : gmap loc (Node T)) (l : List)
    (ns : list (loc * T)) (value : T) (fuel : nat) :
  repr h l ns → listSize l ≤ fuel →
  ∃ b n,
    contains fuel value l h = Ok (b, h) ∧ count fuel value l h = Ok (n, h) ∧
    (b = true ↔ value ∈ ns.*2) ∧
    n = length (filter (λ x, eqb x value = true) ns.*2) ∧
    (b = true ↔ 0 < n).
Proof.
  intros Hr Hfuel. rewrite (repr_size _ _ _ Hr) in Hfuel.
  destruct Hr as [Hf _ _ _ Hc].
  destruct (contains_loop_spec value h ns (headNode l) fuel Hf Hc Hfuel)
    as (b & Hrun & Hb).
  eexists b, _. split; [done|]. split.
  { unfold count. by rewrite (count_loop_spec value h ns). }
  split; [done|]. split; [done|]. rewrite Hb. cbn [Nat.add].
  split.
  - intros Hin. destruct (filter _ ns.*2) as [|x xs] eqn:Hfil; [|simpl; lia].
    exfalso. eapply (filter_nil_not_elem_of _ _ value Hfil); [|done].
    apply eqb_refl.
  - intros Hlen. destruct (filter _ ns.*2) as [|x xs] eqn:Hfil; [simpl in Hlen; lia|].
    assert (x ∈ filter (λ x, eqb x value = true) ns.*2) as Hx
      by (rewrite Hfil; left).
    apply list_elem_of_filter in Hx as [Hxv Hx]. by apply eqb_eq in Hxv as <-.
Qed.

Lemma holding_head_first_index value ns :
  head (holding value ns).*1 = fst <$> (first_index value ns.*2 ≫= (ns !!.)).
Proof.
  induction ns as [|[a v] ns IH]; [done|].
  rewrite holding_cons. cbn [fmap list_fmap snd first_index].
  destruct (eqb v value); [done|]. rewrite IH.
  by destruct (first_index value ns.*2).
Qed.

Lemma lookup_rev_Some {A} (xs : list A) i x :
  rev xs !! i = Some x → xs !! (length xs - 1 - i) = Some x ∧ i < length xs.
Proof.
  intros Hi. pose proof (lookup_lt_Some _ _ _ Hi) as Hlt.
  rewrite length_rev in Hlt. rewrite lookup_rev in Hi by done.
  split; [|done]. by replace (length xs - 1 - i) with (length xs - S i) by lia.
Qed.

(** X21: on a list of fewer than 2^31 elements [findFirst(value)] returns
    the smallest and [findLast(value)] the greatest index at which the
    value occurs, [find(value)] the iterator to the node at the smallest
    one; when the value does not occur they return -1, -1 and [end()]. *)
Theorem find_first_and_last (h : gmap loc (Node T)) (l : List)
    (ns : list (loc * T)) (value : T) (fuel : nat) :
  repr h l ns → listSize l ≤ fuel → (Z.of_nat (listSize l) < 2 ^ 31)%Z →
  ∃ zf zl p,
    findFirst fuel value l h = Ok (zf, h) ∧
    findLast fuel value l h = Ok (zl, h) ∧
    List_find fuel value l h = Ok (p, h) ∧
    (value ∉ ns.*2 → zf = (-1)%Z ∧ zl = (-1)%Z ∧ p = None) ∧
    (value ∈ ns.*2 →
       ∃ i j a, zf = Z.of_nat i ∧ zl = Z.of_nat j ∧ p = Some a ∧
         ns !! i = Some (a, value) ∧ ns.*2 !! j = Some value ∧
         ∀ k, ns.*2 !! k = Some value → i ≤ k ≤ j).
Proof.
  intros Hr Hfuel Hbound. rewrite (repr_size _ _ _ Hr) in Hfuel, Hbound.
  destruct (repr_backward _ _ _ Hr) as [Hb Hcb]. pose proof Hr as [Hf _ _ Hsz Hc].
  assert (findFirst fuel value l h
          = Ok (index_result (first_index value ns.*2), h)) as Hff.
  { unfold findFirst. rewrite (findFirst_loop_spec value h ns); try done; lia. }
  assert (findLast fuel value l h
          = Ok (index_result (last_index value ns.*2), h)) as Hfl.
  { unfold findLast, last_index. rewrite Hsz.
    replace (wrap_int (Z.of_nat (length ns) - 1)) with (Z.of_nat (length ns) - 1)%Z.
    2:{ unfold wrap_int. rewrite Z.mod_small; lia. }
    rewrite <- (length_rev ns).
    rewrite (findLast_loop_spec value h (rev ns)); [|done|done|by rewrite length_rev].
    rewrite fmap_rev, !length_rev, length_fmap.
    by destruct (first_index value (rev ns.*2)). }
  assert (List_find fuel value l h = Ok (head (holding value ns).*1, h)) as Hfd.
  { unfold List_find. by apply find_loop_spec. }
  eexists _, _, _. split; [exact Hff|]. split; [exact Hfl|]. split; [exact Hfd|].
  split.
  - intros Hv. pose proof Hv as Hv'. apply first_index_None in Hv'.
    assert (first_index value (rev ns.*2) = None) as Hv2.
    { apply first_index_None. by rewrite elem_of_rev. }
    unfold last_index. rewrite Hv', Hv2. split; [done|]. split; [done|].
    by rewrite holding_head_first_index, Hv'.
  - intros Hv.
    destruct (first_index value ns.*2) as [i|] eqn:Hi.
    2:{ apply first_index_None in Hi. done. }
    destruct (first_index value (rev ns.*2)) as [k|] eqn:Hk.
    2:{ apply first_index_None in Hk. by rewrite elem_of_rev in Hk. }
    destruct (first_index_Some _ _ _ Hi) as [Hiv Himin].
    destruct (first_index_Some _ _ _ Hk) as [Hkv Hkmin].
    apply lookup_rev_Some in Hkv as [Hkv Hklt]. rewrite length_fmap in Hkv, Hklt.
    rewrite list_lookup_fmap in Hiv.
    destruct (ns !! i) as [[a v]|] eqn:Hni; [|done]. injection Hiv as ->.
    exists i, (length ns - 1 - k), a. split; [done|].
    split; [unfold last_index; by rewrite Hk, length_fmap|].
    split; [by rewrite holding_head_first_index, Hi; cbn; rewrite Hni|].
    split; [done|]. split; [done|]. intros m Hm.
    pose proof (lookup_lt_Some _ _ _ Hm) as Hmlt. rewrite length_fmap in Hmlt.
    split.
    + destruct (decide (i ≤ m)); [done|]. exfalso. apply (Himin m); [lia|done].
    + destruct (decide (m ≤ length ns - 1 - k)); [done|]. exfalso.
      apply (Hkmin (length ns - 1 - m)); [lia|].
      rewrite lookup_rev by (rewrite length_fmap; lia). rewrite length_fmap.
      by replace (length ns - S (length ns - 1 - m)) with m by lia.
Qed.

Lemma to_int_small i : (Z.of_nat i < 2 ^ 31)%Z → to_int i = Z.of_nat i.
Proof. intros Hi. unfold to_int. rewrite Z.mod_small; lia. Qed.

(** X22: [binaryFind(value)] raises [logic_error] when the sorted flag is
    false.  With the flag set on a non-decreasing list of fewer than 2^31
    elements it returns the iterator to a node that holds the value, or
    [end()] exactly when the value does not occur. *)
Theorem binaryFind_finds (h : gmap loc (Node T)) (l : List)
    (ns : list (loc * T)) (value : T) (fuel : nat) :
  repr h l ns → listSize l ≤ fuel → (Z.of_nat (listSize l) < 2 ^ 31)%Z →
  (sorted l = false → binaryFind fuel value l h = Throw logic_error) ∧
  (sorted l = true → nondecreasing ns.*2 →
     ∃ p, binaryFind fuel value l h = Ok (p, h) ∧
       (p = None ↔ value ∉ ns.*2) ∧
       (∀ a, p = Some a → (a, value) ∈ ns)).
Proof.
  intros Hr Hfuel Hbound. rewrite (repr_size _ _ _ Hr) in Hfuel, Hbound.
  unfold sorted, binaryFind, binarySearchIndex. split.
  { intros ->. done. }
  intros -> Hnd. cbn [negb]. unfold empty. rewrite (repr_size _ _ _ Hr).
  destruct ns as [|[a0 v0] ns0] eqn:Hns.
  { exists None. split; [done|]. split; [|done].
    split; [intros _; apply not_elem_of_nil|done]. }
  rewrite <- Hns in *. replace (length ns =? 0) with false by (by rewrite Hns).
  assert (0 < length ns) as Hpos by (rewrite Hns; simpl; lia).
  destruct (bsearch_loop_spec h l ns value fuel 0 (length ns - 1) Hr)
    as (r & Hrun & Hhit & Hmiss); [lia|lia|].
  erewrite bind_Ok.
  2:{ erewrite bind_Ok by exact Hrun. reflexivity. }
  apply Sorted_StronglySorted in Hnd; [|apply _].
  destruct r as [i|].
  - destruct (Hhit i eq_refl) as [Hi _].
    pose proof (lookup_lt_Some _ _ _ Hi) as Hilt. rewrite length_fmap in Hilt.
    rewrite to_int_small by lia.
    replace (Z.of_nat i =? -1)%Z with false by (symmetry; apply Z.eqb_neq; lia).
    rewrite Z.mod_small by lia. rewrite Nat2Z.id.
    rewrite (getNodeAt_spec h l ns i Hr Hilt).
    rewrite list_lookup_fmap in Hi.
    destruct (ns !! i) as [[a v]|] eqn:Hni; [|done]. injection Hi as ->.
    rewrite list_lookup_fmap, Hni. exists (Some a). split; [done|]. split.
    + split; [done|]. intros Hv. exfalso. apply Hv.
      apply list_elem_of_fmap. exists (a, value). split; [done|].
      by eapply list_elem_of_lookup_2.
    + intros ? [= <-]. by eapply list_elem_of_lookup_2.
  - cbn. exists None. split; [done|]. split; [|done]. split; [|done].
    intros _ Hin. apply list_elem_of_lookup in Hin as [i Hi].
    apply (Hmiss Hnd) with (i := i); [|done|done].
    intros j Hj. apply lookup_lt_Some in Hj. rewrite length_fmap in Hj. lia.
Qed.

End search_theorems.

(** ** Comparators *)

Section comparator_theorems.
Context {T : Type} `{!Ordered T}.
Implicit Types (h : gmap loc (Node T)) (ns : list (loc * T)) (l : List).

Lemma isSortedCheck_with_spec h l ns comparator fuel :
  repr h l ns → length ns ≤ fuel →
  isSortedCheck_with fuel comparator l h = Ok (all_adjacent comparator ns.*2, h).
Proof.
  intros Hr Hfuel. pose proof (repr_head _ _ _ Hr) as Hhd.
  destruct Hr as [Hf _ _ Hsz Hc]. unfold isSortedCheck_with. rewrite Hsz.
  destruct ns as [|[a v] [|[b w] ns]]; [done..|].
  replace (length ((a, v) :: (b, w) :: ns) <=? 1) with false by done.
  rewrite Hhd in *. cbn [fmap list_fmap fst head] in *.
  rewrite (isSortedCheck_with_loop_spec comparator h fuel ((b, w) :: ns) a v);
    [done..|].
  simpl in *. lia.
Qed.

Lemma is_nondecreasing_all_adjacent (vs : list T) :
  is_nondecreasing vs = all_adjacent leb vs.
Proof.
  induction vs as [|a [|b vs] IH]; [done..|].
  change (is_nondecreasing (a :: b :: vs))
    with (negb (gtb a b) && is_nondecreasing (b :: vs)).
  change (all_adjacent leb (a :: b :: vs))
    with (leb a b && all_adjacent leb (b :: vs)).
  by rewrite IH, gtb_ltb, ltb_leb, negb_involutive.
Qed.

(** X23: [isSortedCheck(comparator)] returns true exactly when the
    comparator holds for every pair of neighbours; [isSortedCheck()] is
    [isSortedCheck(<=)]. *)
Theorem isSortedCheck_with_checks_neighbours (h : gmap loc (Node T)) (l : List)
    (ns : list (loc * T)) (comparator : T → T → bool) (fuel : nat) :
  repr h l ns → listSize l ≤ fuel →
  ∃ b, isSortedCheck_with fuel comparator l h = Ok (b, h) ∧
    (b = true ↔
     ∀ i x y, ns.*2 !! i = Some x → ns.*2 !! S i = Some y →
       comparator x y = true) ∧
    isSortedCheck fuel l h = isSortedCheck_with fuel leb l h.
Proof.
  intros Hr Hfuel. rewrite (repr_size _ _ _ Hr) in Hfuel.
  exists (all_adjacent comparator ns.*2).
  split; [by apply isSortedCheck_with_spec|]. split; [apply all_adjacent_spec|].
  rewrite (isSortedCheck_spec h l ns), (isSortedCheck_with_spec h l ns) by done.
  by rewrite is_nondecreasing_all_adjacent.
Qed.

Lemma sort_with_spec std_sort h l ns comparator fuel :
  std_sort_contract std_sort → repr h l ns → 2 ≤ length ns → length ns ≤ fuel →
  ∃ l' h',
    sort_with std_sort fuel comparator l h = Ok (l', h') ∧
    repr h' l' (with_values ns (std_sort comparator ns.*2)) ∧
    (with_values ns (std_sort comparator ns.*2)).*2 = std_sort comparator ns.*2.
Proof.
  intros [Hlen Hsort] Hr H2 Hfuel. pose proof Hr as [Hf Hb Hnd Hsz Hc].
  unfold sort_with. rewrite Hsz.
  replace (length ns <=? 1) with false by (symmetry; apply Nat.leb_gt; lia).
  erewrite bind_Ok by (by apply toVector_loop_spec).
  rewrite app_nil_l. set (vs := std_sort comparator ns.*2).
  assert (length vs = length ns) as Hlen'
    by (unfold vs; by rewrite Hlen, length_fmap).
  destruct (write_loop_spec vs ns h (headNode l)) as (h' & Hrun & Hc' & Hdo);
    [done..|].
  erewrite bind_Ok by exact Hrun.
  eexists _, h'. split; [reflexivity|]. split; [|by apply with_values_snd].
  split; rewrite ?with_values_fst by done; simpl.
  - eapply seg_ext; [|exact Hf]. intros a _. by destruct (Hdo a) as (? & _).
  - eapply seg_ext; [|exact Hb]. intros a _. by destruct (Hdo a) as (_ & ? & _).
  - done.
  - unfold with_values. rewrite length_zip, length_fmap. lia.
  - done.
Qed.

(** X24: the two comparator functions disagree on what the comparator is.
    [sort(comparator)] needs a strict ordering such as [<]; [isSortedCheck]
    with the same comparator then returns false on the sorted result as
    soon as the list holds a value twice. *)
Theorem sort_with_then_check_rejects_duplicates
    (std_sort : (T → T → bool) → list T → list T)
    (h : gmap loc (Node T)) (l : List) (ns : list (loc * T))
    (comparator : T → T → bool) (fuel : nat) :
  std_sort_contract std_sort → strict_weak_order comparator →
  repr h l ns → listSize l ≤ fuel → ¬ NoDup ns.*2 →
  ∃ l' h',
    sort_with std_sort fuel comparator l h = Ok (l', h') ∧
    isSortedCheck_with fuel comparator l' h' = Ok (false, h').
Proof.
  intros Hstd Hswo Hr Hfuel Hdup. rewrite (repr_size _ _ _ Hr) in Hfuel.
  assert (2 ≤ length ns) as H2.
  { destruct ns as [|[a v] [|? ?]]; [| |simpl; lia].
    - destruct Hdup. constructor.
    - destruct Hdup. apply NoDup_singleton. }
  destruct (sort_with_spec std_sort h l ns comparator fuel Hstd Hr H2 Hfuel)
    as (l' & h' & Hrun & Hr' & Hv).
  exists l', h'. split; [done|].
  rewrite (isSortedCheck_with_spec h' l' _ comparator fuel Hr').
  2:{ rewrite <- (length_fmap snd), Hv. destruct Hstd as [Hlen _].
      by rewrite Hlen, length_fmap. }
  rewrite Hv. destruct Hstd as [_ Hsort].
  destruct (Hsort comparator ns.*2 Hswo) as [Hperm Hsorted].
  rewrite sorted_duplicate_not_adjacent; [done|done| |].
  - apply Sorted_StronglySorted; [by apply not_after_trans|done].
  - by rewrite Hperm.
Qed.

(** X25: for two different lists [this->merge(other, comparator)] takes no
    notice of the sorted flags and sorts nothing: [this] receives, in new
    nodes, the two-pointer merge of the two sequences as they are, which
    holds the elements of both; its sorted flag tells whether that
    sequence is non-decreasing in the default ordering; [other] is left
    empty. *)
Theorem merge_with_comparator (h : gmap loc (Node T)) (this other : List)
    (A B : list (loc * T)) (comparator : T → T → bool) (fuel : nat) :
  repr h this A → repr h other B → (∀ a, a ∈ A.*1 → a ∉ B.*1) →
  listSize this + listSize other ≤ fuel →
  ∃ this' other' h' R,
    List_merge_with fuel comparator this other h = Ok ((this', other'), h') ∧
    repr h' this' R ∧ repr h' other' [] ∧ other' = List_new ∧
    R.*2 = merge_by comparator A.*2 B.*2 ∧
    R.*2 ≡ₚ A.*2 ++ B.*2 ∧
    size this' = size this + size other ∧
    (sorted this' = true ↔ nondecreasing R.*2).
Proof.
  intros HrA HrB Hdisj Hfuel.
  rewrite (repr_size _ _ _ HrA), (repr_size _ _ _ HrB) in Hfuel.
  unfold List_merge_with, size. cbv zeta.
  set (F := A.*1 ++ B.*1).
  assert (∀ a, a ∈ A.*1 → a ∈ F) as HAF by (intros a ?; apply elem_of_app; by left).
  assert (∀ a, a ∈ B.*1 → a ∈ F) as HBF by (intros a ?; apply elem_of_app; by right).
  assert (∀ a, a ∈ F → is_Some (h !! a) ∧ a ∉ (@nil (loc * T)).*1) as HF.
  { intros a [Ha|Ha]%elem_of_app; (split; [|apply not_elem_of_nil]).
    - exact (repr_lookup _ _ _ _ HrA Ha).
    - exact (repr_lookup _ _ _ _ HrB Ha). }
  destruct (merge_with_loop_spec comparator fuel A B [] h List_new
              (headNode this) (headNode other) F)
    as (l3 & h3 & R3 & A3 & B3 & Hrun3 & Hor & HsA3 & HcA3 & HA3F & HlA3 &
        HsB3 & HcB3 & HB3F & HlB3 & Hr3 & Hv3 & Hfl3 & Hfr3 & HF3);
    [by destruct HrA|by destruct HrA|done|by destruct HrB|by destruct HrB|done|
     apply repr_new|done|done|lia|].
  erewrite bind_Ok by exact Hrun3. cbv beta iota.
  destruct (copy_loop_spec fuel A3 R3 h3 l3 (hd_ptr A3) F)
    as (l4 & h4 & R4 & Hrun4 & Hr4 & Hv4 & Hfl4 & Hfr4 & HF4); [done..|lia|].
  erewrite bind_Ok by exact Hrun4.
  destruct (copy_loop_spec fuel B3 R4 h4 l4 (hd_ptr B3) F)
    as (l5 & h5 & R5 & Hrun5 & Hr5 & Hv5 & Hfl5 & Hfr5 & HF5);
    [by eapply seg_framed|by eapply cells_framed|done|done|done|done|lia|].
  erewrite bind_Ok by exact Hrun5.
  assert (R5.*2 = merge_by comparator A.*2 B.*2) as HR5.
  { rewrite Hv5, Hv4, <- app_assoc.
    replace (A3.*2 ++ B3.*2) with (merge_by comparator A3.*2 B3.*2).
    - by rewrite Hv3.
    - destruct Hor as [-> | ->]; cbn [fmap list_fmap].
      + by rewrite merge_by_nil_l.
      + by rewrite merge_by_nil_r, app_nil_r. }
  assert (framed F h h5) as Hfr5'
    by (eapply framed_trans; [|exact Hfr5]; by eapply framed_trans).
  assert (repr h5 this A) as HrA5 by (by eapply repr_framed).
  assert (repr h5 other B) as HrB5 by (by eapply repr_framed).
  unfold move_assign.
  destruct (clear_spec h5 this A fuel HrA5) as (h6 & Hrun6 & _ & Hpres6 & _);
    [lia|].
  erewrite bind_Ok.
  2:{ erewrite bind_Ok by exact Hrun6. reflexivity. }
  cbv beta iota.
  assert (∀ a, a ∈ R5.*1 → a ∉ F) as HR5F.
  { intros a Ha HaF. by destruct (HF5 a HaF) as [_ ?]. }
  assert (repr h6 other B) as HrB6.
  { eapply repr_preserved; [exact Hpres6| |done]. intros a Ha Ha'. by eapply Hdisj. }
  assert (repr h6 l5 R5) as Hr6.
  { eapply repr_preserved; [exact Hpres6| |done]. intros a Ha Ha'.
    apply (HR5F a Ha). by apply HAF. }
  destruct (clear_spec h6 other B fuel HrB6) as (h7 & Hrun7 & Hr7 & Hpres7 & _);
    [lia|].
  erewrite bind_Ok by exact Hrun7.
  erewrite bind_Ok by apply clear_new.
  assert (repr h7 l5 R5) as Hr7'.
  { eapply repr_preserved; [exact Hpres7| |done]. intros a Ha Ha'.
    apply (HR5F a Ha). by apply HBF. }
  apply repr_eta in Hr7'.
  assert (R5.*2 ≡ₚ A.*2 ++ B.*2) as Hperm by (rewrite HR5; apply merge_by_perm).
  eexists _, _, h7, R5. split; [reflexivity|]. split; [exact Hr7'|].
  split; [exact Hr7|]. split; [done|]. split; [done|]. split; [done|].
  split.
  { cbn [listSize]. rewrite (repr_size _ _ _ Hr5), (repr_size _ _ _ HrA),
      (repr_size _ _ _ HrB).
    rewrite <- (length_fmap snd R5), Hperm, length_app. by rewrite !length_fmap. }
  unfold sorted. cbn [isSorted]. by rewrite Hfl5, is_nondecreasing_spec.
Qed.

(** X26: [resize(newSize, value)] leaves exactly [newSize] elements: the
    first [newSize] of the old ones, followed by copies of the value when
    the list was shorter; a sound sorted flag stays sound. *)
Theorem resize_to_size (h : gmap loc (Node T)) (l : List)
    (ns : list (loc * T)) (newSize : nat) (value : T) (fuel : nat) :
  repr h l ns → flag_sound l ns.*2 →
  listSize l - newSize ≤ fuel → newSize - listSize l ≤ fuel →
  ∃ l' h' ns',
    List_resize fuel newSize value l h = Ok (l', h') ∧
    repr h' l' ns' ∧ size l' = newSize ∧
    ns'.*2 = take newSize ns.*2 ++ replicate (newSize - length ns) value ∧
    flag_sound l' ns'.*2.
Proof.
  intros Hr Hsound Hf1 Hf2. pose proof (repr_size _ _ _ Hr) as Hsz.
  rewrite Hsz in Hf1, Hf2. unfold List_resize, size. rewrite Hsz.
  destruct (Nat.ltb_spec newSize (length ns)) as [Hlt|Hge].
  - assert (repr h l (take newSize ns ++ drop newSize ns)) as Hr2
      by (by rewrite take_drop).
    destruct (shrink_loop_spec (drop newSize ns) fuel (take newSize ns) h l Hr2)
      as (l' & h' & Hrun & Hr' & Hfl & _ & _).
    { rewrite length_drop. lia. }
    rewrite length_take in Hrun.
    replace (newSize `min` length ns) with newSize in Hrun by lia.
    exists l', h', (take newSize ns). split; [done|]. split; [done|].
    split; [rewrite (repr_size _ _ _ Hr'), length_take; lia|].
    replace (newSize - length ns) with 0 by lia. cbn [replicate].
    rewrite app_nil_r, fmap_take. split; [done|].
    eapply sublist_flag_sound; [|exact Hfl|exact Hsound]. apply sublist_take.
  - destruct (Nat.ltb_spec (length ns) newSize) as [Hlt|Hge'].
    + destruct (grow_loop_spec value (newSize - length ns) fuel ns h l Hr Hsound)
        as (l' & h' & ns' & Hrun & Hr' & Hv & Hs' & _); [lia|].
      replace (length ns + (newSize - length ns)) with newSize in Hrun by lia.
      exists l', h', ns'. split; [done|]. split; [done|]. split.
      { rewrite (repr_size _ _ _ Hr'), <- (length_fmap snd ns'), Hv.
        rewrite length_app, length_replicate, length_fmap. lia. }
      split; [|done]. rewrite Hv. by rewrite take_ge by (rewrite length_fmap; lia).
    + exists l, h, ns. split; [done|]. split; [done|]. split; [lia|].
      replace (newSize - length ns) with 0 by lia. cbn [replicate].
      rewrite app_nil_r. split; [|done].
      by rewrite take_ge by (rewrite length_fmap; lia).
Qed.

End comparator_theorems.

(** ** Functional methods *)

Section functional_theorems.
Context {T : Type} `{!Ordered T}.
Implicit Types (h : gmap loc (Node T)) (ns : list (loc * T)) (l : List).

Lemma allOf_spec h l ns predicate fuel :
  repr h l ns → length ns ≤ fuel →
  allOf fuel predicate l h = Ok (forallb predicate ns.*2, h).
Proof. intros [Hf _ _ _ Hc] Hfuel. by apply allOf_loop_spec. Qed.

Lemma anyOf_spec h l ns predicate fuel :
  repr h l ns → length ns ≤ fuel →
  anyOf fuel predicate l h = Ok (existsb predicate ns.*2, h).
Proof. intros [Hf _ _ _ Hc] Hfuel. by apply anyOf_loop_spec. Qed.

Lemma forallb_elem_of (p : T → bool) (vs : list T) :
  forallb p vs = true ↔ ∀ x, x ∈ vs → p x = true.
Proof.
  rewrite forallb_forall. split; intros Hall x Hx; apply Hall;
    by apply list_elem_of_In.
Qed.

Lemma existsb_elem_of (p : T → bool) (vs : list T) :
  existsb p vs = true ↔ ∃ x, x ∈ vs ∧ p x = true.
Proof.
  rewrite existsb_exists. split; intros (x & Hx & Hp); exists x;
    (split; [by apply list_elem_of_In|done]).
Qed.

Lemma existsb_negb_forallb (p : T → bool) (vs : list T) :
  negb (existsb p vs) = forallb (λ x, negb (p x)) vs.
Proof.
  induction vs as [|v vs IH]; [done|]. cbn [existsb forallb].
  rewrite <- IH. by destruct (p v).
Qed.

(** X27: [allOf] is true exactly when every element satisfies the
    predicate (so it is true on the empty list), [anyOf] exactly when some
    element does, and [noneOf(p)] is [allOf(!p)]; [reduce] folds the
    sequence from the left, starting from the initial value. *)
Theorem predicates_and_reduce {U : Type} (h : gmap loc (Node T)) (l : List)
    (ns : list (loc * T)) (predicate : T → bool)
    (initial : U) (reducer : U → T → U) (fuel : nat) :
  repr h l ns → listSize l ≤ fuel →
  ∃ ball bany,
    allOf fuel predicate l h = Ok (ball, h) ∧
    anyOf fuel predicate l h = Ok (bany, h) ∧
    noneOf fuel predicate l h = Ok (negb bany, h) ∧
    allOf fuel (λ x, negb (predicate x)) l h = Ok (negb bany, h) ∧
    (ball = true ↔ ∀ x, x ∈ ns.*2 → predicate x = true) ∧
    (bany = true ↔ ∃ x, x ∈ ns.*2 ∧ predicate x = true) ∧
    reduce fuel initial reducer l h = Ok (foldl reducer initial ns.*2, h).
Proof.
  intros Hr Hfuel. rewrite (repr_size _ _ _ Hr) in Hfuel.
  exists (forallb predicate ns.*2), (existsb predicate ns.*2).
  split; [by apply allOf_spec|]. split; [by apply anyOf_spec|]. split.
  { unfold noneOf. by erewrite bind_Ok by (by apply anyOf_spec). }
  split.
  { rewrite (allOf_spec h l ns) by done. by rewrite existsb_negb_forallb. }
  split; [apply forallb_elem_of|]. split; [apply existsb_elem_of|].
  destruct Hr as [Hf _ _ _ Hc]. unfold reduce. by apply reduce_loop_spec.
Qed.

(** X28: [filter(predicate)] returns a new list, in nodes of its own, that
    holds exactly the elements satisfying the predicate, in their order;
    the list itself is unchanged.  The sorted flag of the result tells
    whether its sequence is non-decreasing, and [allOf(predicate)] is true
    on it. *)
Theorem filter_selects (h : gmap loc (Node T)) (l : List)
    (ns : list (loc * T)) (predicate : T → bool) (fuel : nat) :
  repr h l ns → listSize l ≤ fuel →
  ∃ l' h' R,
    List_filter fuel predicate l h = Ok (l', h') ∧
    repr h' l' R ∧ R.*2 = filter (λ x, predicate x = true) ns.*2 ∧
    repr h' l ns ∧ (∀ a, a ∈ R.*1 → a ∉ ns.*1) ∧
    (sorted l' = true ↔ nondecreasing R.*2) ∧
    allOf fuel predicate l' h' = Ok (true, h').
Proof.
  intros Hr Hfuel. rewrite (repr_size _ _ _ Hr) in Hfuel.
  destruct (filter_loop_spec predicate fuel ns [] h List_new (headNode l) ns.*1)
    as (l' & h' & R & Hrun & Hr' & Hv & Hfl & Hfr & HF).
  { by destruct Hr. }
  { by destruct Hr. }
  { done. }
  { apply repr_new. }
  { done. }
  { intros a Ha. split; [|apply not_elem_of_nil].
    exact (repr_lookup _ _ _ _ Hr Ha). }
  { done. }
  cbn [fmap list_fmap app] in Hv.
  exists l', h', R. split; [done|]. split; [done|]. split; [done|].
  split; [by eapply repr_framed|]. split.
  { intros a Ha Ha'. by destruct (HF a Ha') as [_ ?]. }
  split; [unfold sorted; by rewrite Hfl, is_nondecreasing_spec|].
  rewrite (allOf_spec h' l' R); [|done|].
  - replace (forallb predicate R.*2) with true; [done|]. symmetry.
    apply forallb_elem_of. intros x. rewrite Hv.
    by intros [Hp _]%list_elem_of_filter.
  - rewrite <- (length_fmap snd R), Hv. etrans; [apply length_filter|].
    by rewrite length_fmap.
Qed.

End functional_theorems.

(** X29: [map(mapper)] returns a list of the same size holding the images
    of the elements, in their order; its sorted flag tells whether the
    images are non-decreasing in the ordering of the result type. *)
Theorem map_applies {T U : Type} `{!Ordered T} `{!Ordered U}
    (hT : gmap loc (Node T)) (hU : gmap loc (Node U)) (l : List)
    (ns : list (loc * T)) (mapper : T → U) (fuel : nat) :
  repr hT l ns → listSize l ≤ fuel →
  ∃ l' hU' R,
    List_map fuel mapper l hT hU = Ok (l', hU') ∧
    repr hU' l' R ∧ R.*2 = mapper <$> ns.*2 ∧
    size l' = size l ∧
    (sorted l' = true ↔ nondecreasing R.*2).
Proof.
  intros Hr Hfuel. rewrite (repr_size _ _ _ Hr) in Hfuel.
  destruct (map_loop_spec mapper hT ns (headNode l) fuel [] hU List_new)
    as (l' & hU' & R & Hrun & Hr' & Hv & Hfl).
  { by destruct Hr. }
  { by destruct Hr. }
  { apply repr_new. }
  { done. }
  { done. }
  cbn [fmap list_fmap app] in Hv.
  exists l', hU', R. split; [done|]. split; [done|]. split; [done|].
  split.
  { unfold size. rewrite (repr_size _ _ _ Hr'), (repr_size _ _ _ Hr).
    by rewrite <- (length_fmap snd R), Hv, !length_fmap. }
  unfold sorted. by rewrite Hfl, is_nondecreasing_spec.
Qed.

(** ** Backward traversal, and the list after one [reverse()] *)

Section reverse_once.
Context {T : Type} `{!Ordered T}.
Implicit Types (h : gmap loc (Node T)) (ns : list (loc * T)) (l : List).

Lemma toVectorReverse_spec h l ns fuel :
  repr h l ns → length ns ≤ fuel →
  toVectorReverse fuel l h = Ok (rev ns.*2, h).
Proof.
  intros Hr Hfuel. destruct (repr_backward _ _ _ Hr) as [Hb Hc].
  unfold toVectorReverse.
  rewrite (toVectorReverse_loop_spec h (rev ns)); [|done|done|by rewrite length_rev].
  by rewrite fmap_rev.
Qed.

(** X30: [toVectorReverse()] is the reverse of [toVector()].  After one
    [reverse()] of a list with two or more elements the forward traversal
    gives the reversed sequence, but [tailNode] is the new head:
    [back()] returns the new first element, the backward traversal stops
    after one element, and [checkIntegrity()] returns false. *)
Theorem reverse_leaves_tail_at_head (h : gmap loc (Node T)) (l : List)
    (ns : list (loc * T)) (fuel : nat) :
  repr h l ns → 2 ≤ listSize l → listSize l ≤ fuel →
  toVectorReverse fuel l h = Ok (rev ns.*2, h) ∧
  ∃ l' h' v,
    reverse fuel l h = Ok (l', h') ∧ last ns.*2 = Some v ∧
    toVector fuel l' h' = Ok (rev ns.*2, h') ∧
    tailNode l' = headNode l' ∧
    front l' h' = Ok (v, h') ∧ back l' h' = Ok (v, h') ∧
    toVectorReverse fuel l' h' = Ok ([v], h') ∧
    checkIntegrity fuel l' h' = Ok (false, h').
Proof.
  intros Hr H2 Hfuel. pose proof (repr_size _ _ _ Hr) as Hsz.
  rewrite Hsz in H2, Hfuel. split; [by apply toVectorReverse_spec|].
  destruct (list_back2 ns H2) as (ns0 & [b bv] & [t tv] & Hns).
  pose proof Hr as Hr2. rewrite Hns in Hr2.
  destruct (repr_back2 _ _ _ _ _ _ _ Hr2) as (Htl & nt & nb & Ht & Hpt & Hnt & Hb & Hnb).
  pose proof Hr as [Hf Hbw Hnd _ Hc].
  set (h' := swap_all h ns.*1).
  assert (∀ a, a ∈ ns.*1 → h' !! a = swap_links <$> h !! a) as Hswap.
  { intros a Ha. by apply swap_all_in. }
  assert (t ∈ ns.*1) as Htin.
  { rewrite Hns, fmap_app. apply elem_of_app. right. right. left. }
  assert (h' !! t = Some (swap_links nt)) as Ht' by (by rewrite Hswap, Ht).
  assert (data nt = tv) as Hdt.
  { rewrite Hns in Hc. apply cells_app in Hc as [_ Hc].
    apply cells_cons in Hc as [_ Hc]. apply cells_singleton in Hc as (n & Hn & Hd).
    congruence. }
  assert (seg next h' (tailNode l) (rev ns).*1 None) as Hfwd.
  { rewrite fmap_rev. eapply seg_swap_prev; [|exact Hbw].
    intros a Ha. apply Hswap. by apply elem_of_rev. }
  assert (cells h' (rev ns)) as Hc'.
  { eapply cells_perm; [apply Permutation_rev|].
    apply (cells_ext h); [|done]. intros a Ha. rewrite Hswap by done.
    by destruct (h !! a). }
  exists (mkList (tailNode l) (tailNode l) (listSize l) false), h', tv.
  split; [apply reverse_spec; [done|lia|lia]|].
  split.
  { rewrite Hns, fmap_app. cbn [fmap list_fmap snd].
    by rewrite last_app_nonnil. }
  split.
  { unfold toVector. cbn [headNode].
    rewrite (toVector_loop_spec h' (rev ns)); [|done|done|by rewrite length_rev].
    by rewrite fmap_rev. }
  split; [done|].
  assert (empty (mkList (tailNode l) (tailNode l) (listSize l) false) = false)
    as Hne.
  { unfold empty. cbn [listSize]. rewrite Hsz. apply Nat.eqb_neq. lia. }
  split.
  { unfold front. rewrite Hne. cbn [headNode]. rewrite Htl.
    erewrite bind_Ok by (by apply deref_Ok). by rewrite <- Hdt. }
  split.
  { unfold back. rewrite Hne. cbn [tailNode]. rewrite Htl.
    erewrite bind_Ok by (by apply deref_Ok). by rewrite <- Hdt. }
  split.
  { unfold toVectorReverse. cbn [tailNode]. rewrite Htl.
    destruct fuel as [|fuel]; [lia|]. cbn [toVectorReverse_loop].
    erewrite bind_Ok by (by apply deref_Ok). cbn [swap_links prev data].
    rewrite Hnt, Hdt. by destruct fuel. }
  unfold checkIntegrity. cbn [listSize headNode tailNode]. rewrite Hsz.
  replace (length ns =? 0) with false by (symmetry; apply Nat.eqb_neq; lia).
  replace (length ns =? 1) with false by (symmetry; apply Nat.eqb_neq; lia).
  assert (∃ a0, head ns.*1 = Some a0 ∧ a0 ≠ t) as (a0 & Hhd & Hne0).
  { rewrite Hns, fmap_app in Hnd |- *. cbn [fmap list_fmap fst] in Hnd |- *.
    apply NoDup_app in Hnd as (_ & Hdisj & Hnd).
    apply NoDup_cons in Hnd as [Hbt _].
    destruct ns0 as [|[x xv] ns0]; cbn [fmap list_fmap fst app head].
    - exists b. split; [done|]. intros ->. apply Hbt. left.
    - exists x. split; [done|]. intros ->. apply (Hdisj t); [left|right; left]. }
  assert (forward_loop fuel (tailNode l) (tailNode l) 0 h' = Ok (None, h')) as Hfl;
    [|by erewrite bind_Ok by exact Hfl].
  apply (forward_loop_fails h' (rev ns).*1 (tailNode l) (tailNode l) 0 fuel a0).
  - done.
  - by rewrite fmap_rev, last_rev_head.
  - rewrite Htl. by intros [= ->].
  - by rewrite length_fmap, length_rev.
Qed.

End reverse_once.

(** ** The properties on the concrete lists *)

Lemma nodes_12_disjoint : ∀ a, a ∈ nodes_12.*1 → a ∉ nodes_12'.*1.
Proof.
  intros a Ha Hb. vm_compute in Ha, Hb.
  repeat (apply elem_of_cons in Ha as [->|Ha]); [| |by apply elem_of_nil in Ha];
    repeat (apply elem_of_cons in Hb as [Hb|Hb]; [discriminate|]);
    by apply elem_of_nil in Hb.
Qed.

Lemma copy_assign_copies_witness :
  ∃ this' h' R,
    copy_assign 2 list_12 list_12' heap_12_12 = Ok (this', h') ∧
    repr h' this' R ∧ R.*2 = nodes_12'.*2 ∧ repr h' list_12' nodes_12' ∧
    (∀ a, a ∈ R.*1 → a ∉ nodes_12'.*1) ∧
    size this' = size list_12' ∧ sorted this' = sorted list_12' ∧
    toVector 2 this' h' = Ok (nodes_12'.*2, h') ∧
    operator_eq 2 this' list_12' h' = Ok (true, h').
Proof.
  apply (copy_assign_copies heap_12_12 list_12 list_12' nodes_12 nodes_12' 2);
    [exact repr_12|exact repr_12'|exact nodes_12_disjoint|simpl; lia|simpl; lia].
Defined.

Lemma move_assign_takes_over_witness :
  ∃ this' other' h',
    move_assign 2 list_12 list_12' heap_12_12 = Ok ((this', other'), h') ∧
    repr h' this' nodes_12' ∧ repr h' other' [] ∧ other' = List_new ∧
    headNode this' = headNode list_12' ∧ tailNode this' = tailNode list_12' ∧
    size this' = size list_12' ∧ sorted this' = sorted list_12' ∧
    (∀ a, a ∈ nodes_12.*1 → h' !! a = None) ∧
    (∀ a, a ∈ nodes_12'.*1 → h' !! a = heap_12_12 !! a).
Proof.
  apply (move_assign_takes_over heap_12_12 list_12 list_12' nodes_12 nodes_12' 2);
    [exact repr_12|exact repr_12'|exact nodes_12_disjoint|simpl; lia].
Defined.

Lemma operator_eq_decides_witness :
  ∃ b, operator_eq 2 list_12 list_12' heap_12_12 = Ok (b, heap_12_12) ∧
    operator_ne 2 list_12 list_12' heap_12_12 = Ok (negb b, heap_12_12) ∧
    (b = true ↔ nodes_12.*2 = nodes_12'.*2).
Proof.
  apply (operator_eq_decides heap_12_12 list_12 list_12' nodes_12 nodes_12' 2);
    [exact repr_12|exact repr_12'|simpl; lia].
Defined.

Lemma operator_lt_trichotomy_witness :
  ∃ lt eq gt,
    operator_lt 2 list_12 list_12' heap_12_12 = Ok (lt, heap_12_12) ∧
    operator_eq 2 list_12 list_12' heap_12_12 = Ok (eq, heap_12_12) ∧
    operator_lt 2 list_12' list_12 heap_12_12 = Ok (gt, heap_12_12) ∧
    operator_gt 2 list_12 list_12' heap_12_12 = Ok (gt, heap_12_12) ∧
    operator_le 2 list_12 list_12' heap_12_12 = Ok (negb gt, heap_12_12) ∧
    operator_ge 2 list_12 list_12' heap_12_12 = Ok (negb lt, heap_12_12) ∧
    lt = lex_ltb nodes_12.*2 nodes_12'.*2 ∧
    ((lt = true ∧ eq = false ∧ gt = false) ∨
     (lt = false ∧ eq = true ∧ gt = false) ∨
     (lt = false ∧ eq = false ∧ gt = true)).
Proof.
  apply (operator_lt_trichotomy heap_12_12 list_12 list_12' nodes_12 nodes_12' 2);
    [exact repr_12|exact repr_12'|simpl; lia|simpl; lia].
Defined.

Lemma access_in_bounds_witness :
  at_ 1 list_312 heap_312 = Ok (1%Z, heap_312) ∧
  operator_index 1 list_312 heap_312 = at_ 1 list_312 heap_312 ∧
  front list_312 heap_312 = Ok (3%Z, heap_312) ∧
  back list_312 heap_312 = Ok (2%Z, heap_312).
Proof. exact (access_in_bounds heap_312 list_312 nodes_312 1 repr_312). Defined.

Lemma pop_and_return_witness :
  ∃ l' h', popFrontAndReturn list_312 heap_312 = Ok ((3%Z, l'), h') ∧
    repr h' l' [(2%positive, 1%Z); (3%positive, 2%Z)] ∧
    h' !! 1%positive = None ∧ sorted l' = sorted list_312.
Proof.
  exact (proj1 (proj2 (pop_and_return heap_312 list_312 nodes_312 repr_312))
           1%positive 3%Z [(2%positive, 1%Z); (3%positive, 2%Z)] eq_refl).
Defined.

Lemma push_pop_front_roundtrip_witness :
  ∃ l1 h1 l2 h2,
    pushFront 7%Z list_13359 heap_13359 = Ok (l1, h1) ∧
    popFrontAndReturn l1 h1 = Ok ((7%Z, l2), h2) ∧
    repr h2 l2 nodes_13359 ∧ size l2 = size list_13359 ∧
    sorted l2 = flag_after_front (sorted list_13359) nodes_13359.*2 7%Z.
Proof.
  apply (push_pop_front_roundtrip heap_13359 list_13359 nodes_13359 7%Z).
  exact repr_13359.
Defined.

Lemma insert_at_index_witness :
  ∃ l' h' a,
    List_insert 1 7%Z list_312 heap_312 = Ok (l', h') ∧
    repr h' l' (take 1 nodes_312 ++ (a, 7%Z) :: drop 1 nodes_312) ∧
    heap_312 !! a = None ∧ size l' = S (size list_312) ∧
    at_ 1 l' h' = Ok (7%Z, h') ∧
    (0 < 1 < length nodes_312 → sorted l' = false).
Proof.
  apply (insert_at_index heap_312 list_312 nodes_312 1 7%Z);
    [exact repr_312|simpl; lia].
Defined.

Lemma insert_before_iterator_witness :
  ∃ l' h' a,
    List_insert_before (Some 2%positive) 7%Z list_312 heap_312
    = Ok ((Some a, l'), h') ∧
    repr h' l' ([(1%positive, 3%Z)] ++
                (a, 7%Z) :: [(2%positive, 1%Z); (3%positive, 2%Z)]) ∧
    heap_312 !! a = None ∧ size l' = S (size list_312) ∧
    ([(1%positive, 3%Z)] ≠ [] → [(2%positive, 1%Z); (3%positive, 2%Z)] ≠ [] →
     sorted l' = false).
Proof.
  apply (insert_before_iterator heap_312 list_312 [(1%positive, 3%Z)]
           [(2%positive, 1%Z); (3%positive, 2%Z)] 7%Z).
  exact repr_312.
Defined.

Lemma removeAt_removes_witness :
  ∃ l' h',
    removeAt 1 list_312 heap_312 = Ok (l', h') ∧
    removeAtAndReturn 1 list_312 heap_312 = Ok ((1%Z, l'), h') ∧
    repr h' l' (take 1 nodes_312 ++ drop 2 nodes_312) ∧
    h' !! 2%positive = None ∧ S (size l') = size list_312 ∧
    sorted l' = sorted list_312 ∧
    (flag_sound list_312 nodes_312.*2 →
     flag_sound l' (take 1 nodes_312 ++ drop 2 nodes_312).*2).
Proof.
  exact (proj2 (removeAt_removes heap_312 list_312 nodes_312 1 repr_312)
           2%positive 1%Z eq_refl).
Defined.

Lemma erase_removes_witness :
  erase None list_312 heap_312 = Ok ((None, list_312), heap_312) ∧
  ∃ l' h',
    erase (Some 2%positive) list_312 heap_312 = Ok ((Some 3%positive, l'), h') ∧
    repr h' l' ([(1%positive, 3%Z)] ++ [(3%positive, 2%Z)]) ∧
    h' !! 2%positive = None ∧
    S (size l') = size list_312 ∧ sorted l' = sorted list_312 ∧
    (flag_sound list_312
       ([(1%positive, 3%Z)] ++ (2%positive, 1%Z) :: [(3%positive, 2%Z)]).*2 →
     flag_sound l' ([(1%positive, 3%Z)] ++ [(3%positive, 2%Z)]).*2).
Proof.
  apply (erase_removes heap_312 list_312 [(1%positive, 3%Z)] [(3%positive, 2%Z)]
           2%positive 1%Z).
  exact repr_312.
Defined.

Lemma erase_range_removes_witness :
  ∃ l' h',
    erase_range 2 (Some 2%positive) (Some 4%positive) list_13359 heap_13359
    = Ok ((Some 4%positive, l'), h') ∧
    repr h' l' ([(1%positive, 1%Z)] ++ [(4%positive, 5%Z); (5%positive, 9%Z)]) ∧
    (∀ a, a ∈ [(2%positive, 3%Z); (3%positive, 3%Z)].*1 → h' !! a = None) ∧
    size l' + length [(2%positive, 3%Z); (3%positive, 3%Z)] = size list_13359 ∧
    sorted l' = sorted list_13359.
Proof.
  apply (erase_range_removes heap_13359 list_13359 [(1%positive, 1%Z)]
           [(2%positive, 3%Z); (3%positive, 3%Z)]
           [(4%positive, 5%Z); (5%positive, 9%Z)] 2);
    [exact repr_13359|simpl; lia].
Defined.

Lemma erase_range_never_returns_witness :
  erase_range 1000 (Some 2%positive) (Some 1%positive) list_312 heap_312
  = OutOfFuel.
Proof.
  apply (erase_range_never_returns heap_312 list_312 [(1%positive, 3%Z)]
           [(2%positive, 1%Z); (3%positive, 2%Z)] 1%positive);
    [exact repr_312|].
  refine (bool_decide_unpack _ _). vm_compute. exact I.
Defined.

Lemma removeFirst_removes_witness :
  ∃ l' h',
    removeFirst 5 3%Z list_13359 heap_13359 = Ok ((true, l'), h') ∧
    repr h' l' ([(1%positive, 1%Z)] ++
                [(3%positive, 3%Z); (4%positive, 5%Z); (5%positive, 9%Z)]) ∧
    h' !! 2%positive = None ∧
    S (size l') = size list_13359 ∧ sorted l' = sorted list_13359.
Proof.
  apply (proj2 (removeFirst_removes heap_13359 list_13359 nodes_13359 3%Z 5
                  repr_13359 ltac:(simpl; lia))
           [(1%positive, 1%Z)] 2%positive
           [(3%positive, 3%Z); (4%positive, 5%Z); (5%positive, 9%Z)] eq_refl).
  refine (bool_decide_unpack _ _). vm_compute. exact I.
Defined.

Lemma removeLast_removes_witness :
  ∃ l' h',
    removeLast 5 3%Z list_13359 heap_13359 = Ok ((true, l'), h') ∧
    repr h' l' ([(1%positive, 1%Z); (2%positive, 3%Z)] ++
                [(4%positive, 5%Z); (5%positive, 9%Z)]) ∧
    h' !! 3%positive = None ∧
    S (size l') = size list_13359 ∧ sorted l' = sorted list_13359.
Proof.
  apply (proj2 (removeLast_removes heap_13359 list_13359 nodes_13359 3%Z 5
                  repr_13359 ltac:(simpl; lia))
           [(1%positive, 1%Z); (2%positive, 3%Z)] 3%positive
           [(4%positive, 5%Z); (5%positive, 9%Z)] eq_refl).
  refine (bool_decide_unpack _ _). vm_compute. exact I.
Defined.

Lemma removeIf_filters_witness :
  ∃ removed l' h' ns',
    removeIf 5 (λ x, (x <? 4)%Z) list_13359 heap_13359
    = Ok ((removed, l'), h') ∧
    repr h' l' ns' ∧
    ns'.*2 = filter (λ x, (x <? 4)%Z = false) nodes_13359.*2 ∧
    removed = length (filter (λ x, (x <? 4)%Z = true) nodes_13359.*2) ∧
    size l' + removed = size list_13359 ∧ sorted l' = sorted list_13359 ∧
    (flag_sound list_13359 nodes_13359.*2 → flag_sound l' ns'.*2).
Proof.
  apply (removeIf_filters heap_13359 list_13359 nodes_13359 (λ x, (x <? 4)%Z) 5);
    [exact repr_13359|simpl; lia].
Defined.

Lemma removeAll_removes_the_value_witness :
  (∃ removed l' h' ns',
     removeAll 5 (Outside 3%Z) list_13359 heap_13359 = Ok ((removed, l'), h') ∧
     repr h' l' ns' ∧
     ns'.*2 = filter (λ x, eqb x 3%Z = false) nodes_13359.*2 ∧
     (3%Z ∉ ns'.*2) ∧
     count 5 3%Z list_13359 heap_13359 = Ok (removed, heap_13359) ∧
     contains 5 3%Z l' h' = Ok (false, h') ∧
     size l' + removed = size list_13359 ∧ sorted l' = sorted list_13359) ∧
  removeAll 5 (Inside 2%positive) list_13359 heap_13359 = Undefined.
Proof.
  split.
  - apply (removeAll_removes_the_value heap_13359 list_13359 nodes_13359 3%Z 5);
      [exact repr_13359|simpl; lia].
  - apply (proj2 (removeAll_removes_the_value heap_13359 list_13359 nodes_13359
                    3%Z 5 repr_13359 ltac:(simpl; lia))
             [(1%positive, 1%Z)] 2%positive
             [(3%positive, 3%Z); (4%positive, 5%Z); (5%positive, 9%Z)]).
    reflexivity.
Defined.

Lemma unique_drops_repeats_witness :
  (∃ l' h' ns',
     unique_with 5 Z.eqb list_13359 heap_13359 = Ok (l', h') ∧
     repr h' l' ns' ∧ ns'.*2 = uniq Z.eqb nodes_13359.*2 ∧
     ns'.*2 `sublist_of` nodes_13359.*2 ∧
     all_adjacent (λ a b, negb (a =? b)%Z) ns'.*2 = true ∧
     sorted l' = sorted list_13359) ∧
  (∃ l' h' ns',
     unique 5 list_13359 heap_13359 = Ok (l', h') ∧
     repr h' l' ns' ∧ ns'.*2 = uniq eqb nodes_13359.*2 ∧
     ns'.*2 `sublist_of` nodes_13359.*2 ∧
     (∀ i a b, ns'.*2 !! i = Some a → ns'.*2 !! S i = Some b → a ≠ b) ∧
     (nondecreasing nodes_13359.*2 → NoDup ns'.*2) ∧
     sorted l' = sorted list_13359 ∧
     (flag_sound list_13359 nodes_13359.*2 → flag_sound l' ns'.*2)).
Proof.
  apply (unique_drops_repeats heap_13359 list_13359 nodes_13359 Z.eqb 5);
    [exact repr_13359|simpl; lia].
Defined.

Lemma contains_and_count_witness :
  ∃ b n,
    contains 5 3%Z list_13359 heap_13359 = Ok (b, heap_13359) ∧
    count 5 3%Z list_13359 heap_13359 = Ok (n, heap_13359) ∧
    (b = true ↔ 3%Z ∈ nodes_13359.*2) ∧
    n = length (filter (λ x, eqb x 3%Z = true) nodes_13359.*2) ∧
    (b = true ↔ 0 < n).
Proof.
  apply (contains_and_count heap_13359 list_13359 nodes_13359 3%Z 5);
    [exact repr_13359|simpl; lia].
Defined.

Lemma find_first_and_last_witness :
  ∃ zf zl p,
    findFirst 5 3%Z list_13359 heap_13359 = Ok (zf, heap_13359) ∧
    findLast 5 3%Z list_13359 heap_13359 = Ok (zl, heap_13359) ∧
    List_find 5 3%Z list_13359 heap_13359 = Ok (p, heap_13359) ∧
    (3%Z ∉ nodes_13359.*2 → zf = (-1)%Z ∧ zl = (-1)%Z ∧ p = None) ∧
    (3%Z ∈ nodes_13359.*2 →
       ∃ i j a, zf = Z.of_nat i ∧ zl = Z.of_nat j ∧ p = Some a ∧
         nodes_13359 !! i = Some (a, 3%Z) ∧ nodes_13359.*2 !! j = Some 3%Z ∧
         ∀ k, nodes_13359.*2 !! k = Some 3%Z → i ≤ k ≤ j).
Proof.
  apply (find_first_and_last heap_13359 list_13359 nodes_13359 3%Z 5);
    [exact repr_13359|simpl; lia|simpl; lia].
Defined.

Lemma binaryFind_finds_witness :
  ∃ p, binaryFind 5 3%Z list_13359 heap_13359 = Ok (p, heap_13359) ∧
    (p = None ↔ 3%Z ∉ nodes_13359.*2) ∧
    (∀ a, p = Some a → (a, 3%Z) ∈ nodes_13359).
Proof.
  apply (proj2 (binaryFind_finds heap_13359 list_13359 nodes_13359 3%Z 5
                  repr_13359 ltac:(simpl; lia) ltac:(simpl; lia)));
    [reflexivity|repeat constructor; simpl; lia].
Defined.

Lemma isSortedCheck_with_checks_neighbours_witness :
  ∃ b, isSortedCheck_with 5 Z.ltb list_13359 heap_13359 = Ok (b, heap_13359) ∧
    (b = true ↔
     ∀ i x y, nodes_13359.*2 !! i = Some x → nodes_13359.*2 !! S i = Some y →
       (x <? y)%Z = true) ∧
    isSortedCheck 5 list_13359 heap_13359
    = isSortedCheck_with 5 leb list_13359 heap_13359.
Proof.
  apply (isSortedCheck_with_checks_neighbours heap_13359 list_13359 nodes_13359
           Z.ltb 5); [exact repr_13359|simpl; lia].
Defined.

Lemma sort_with_then_check_rejects_duplicates_witness :
  ∃ l' h',
    sort_with a_std_sort 5 Z.ltb list_13359 heap_13359 = Ok (l', h') ∧
    isSortedCheck_with 5 Z.ltb l' h' = Ok (false, h').
Proof.
  apply (sort_with_then_check_rejects_duplicates a_std_sort heap_13359 list_13359
           nodes_13359 Z.ltb 5);
    [exact a_std_sort_contract|exact Z_ltb_strict_weak_order|exact repr_13359
    |simpl; lia|].
  refine (bool_decide_unpack _ _). vm_compute. exact I.
Defined.

Lemma merge_with_comparator_witness :
  ∃ this' other' h' R,
    List_merge_with 4 Z.ltb list_12 list_12' heap_12_12
    = Ok ((this', other'), h') ∧
    repr h' this' R ∧ repr h' other' [] ∧ other' = List_new ∧
    R.*2 = merge_by Z.ltb nodes_12.*2 nodes_12'.*2 ∧
    R.*2 ≡ₚ nodes_12.*2 ++ nodes_12'.*2 ∧
    size this' = size list_12 + size list_12' ∧
    (sorted this' = true ↔ nondecreasing R.*2).
Proof.
  apply (merge_with_comparator heap_12_12 list_12 list_12' nodes_12 nodes_12'
           Z.ltb 4);
    [exact repr_12|exact repr_12'|exact nodes_12_disjoint|simpl; lia].
Defined.

Lemma resize_to_size_witness :
  ∃ l' h' ns',
    List_resize 2 5 0%Z list_312 heap_312 = Ok (l', h') ∧
    repr h' l' ns' ∧ size l' = 5 ∧
    ns'.*2 = take 5 nodes_312.*2 ++ replicate (5 - length nodes_312) 0%Z ∧
    flag_sound l' ns'.*2.
Proof.
  apply (resize_to_size heap_312 list_312 nodes_312 5 0%Z 2);
    [exact repr_312|intros [=]|simpl; lia|simpl; lia].
Defined.

Lemma predicates_and_reduce_witness :
  ∃ ball bany,
    allOf 3 (λ x, (1 <? x)%Z) list_312 heap_312 = Ok (ball, heap_312) ∧
    anyOf 3 (λ x, (1 <? x)%Z) list_312 heap_312 = Ok (bany, heap_312) ∧
    noneOf 3 (λ x, (1 <? x)%Z) list_312 heap_312 = Ok (negb bany, heap_312) ∧
    allOf 3 (λ x, negb (1 <? x)%Z) list_312 heap_312
    = Ok (negb bany, heap_312) ∧
    (ball = true ↔ ∀ x, x ∈ nodes_312.*2 → (1 <? x)%Z = true) ∧
    (bany = true ↔ ∃ x, x ∈ nodes_312.*2 ∧ (1 <? x)%Z = true) ∧
    reduce 3 0%Z Z.add list_312 heap_312
    = Ok (foldl Z.add 0%Z nodes_312.*2, heap_312).
Proof.
  apply (predicates_and_reduce heap_312 list_312 nodes_312 (λ x, (1 <? x)%Z)
           0%Z Z.add 3); [exact repr_312|simpl; lia].
Defined.

Lemma filter_selects_witness :
  ∃ l' h' R,
    List_filter 3 (λ x, (1 <? x)%Z) list_312 heap_312 = Ok (l', h') ∧
    repr h' l' R ∧ R.*2 = filter (λ x, (1 <? x)%Z = true) nodes_312.*2 ∧
    repr h' list_312 nodes_312 ∧ (∀ a, a ∈ R.*1 → a ∉ nodes_312.*1) ∧
    (sorted l' = true ↔ nondecreasing R.*2) ∧
    allOf 3 (λ x, (1 <? x)%Z) l' h' = Ok (true, h').
Proof.
  apply (filter_selects heap_312 list_312 nodes_312 (λ x, (1 <? x)%Z) 3);
    [exact repr_312|simpl; lia].
Defined.

Lemma map_applies_witness :
  ∃ l' hU' R,
    List_map 3 Z.opp list_312 heap_312 ∅ = Ok (l', hU') ∧
    repr hU' l' R ∧ R.*2 = Z.opp <$> nodes_312.*2 ∧
    size l' = size list_312 ∧
    (sorted l' = true ↔ nondecreasing R.*2).
Proof.
  apply (map_applies heap_312 ∅ list_312 nodes_312 Z.opp 3);
    [exact repr_312|simpl; lia].
Defined.

Lemma reverse_leaves_tail_at_head_witness :
  toVectorReverse 3 list_312 heap_312 = Ok (rev nodes_312.*2, heap_312) ∧
  ∃ l' h' v,
    reverse 3 list_312 heap_312 = Ok (l', h') ∧ last nodes_312.*2 = Some v ∧
    toVector 3 l' h' = Ok (rev nodes_312.*2, h') ∧
    tailNode l' = headNode l' ∧
    front l' h' = Ok (v, h') ∧ back l' h' = Ok (v, h') ∧
    toVectorReverse 3 l' h' = Ok ([v], h') ∧
    checkIntegrity 3 l' h' = Ok (false, h').
Proof.
  apply (reverse_leaves_tail_at_head heap_312 list_312 nodes_312 3);
    [exact repr_312|simpl; lia|simpl; lia].
Defined.
